(** * Verovio object tree: traversal engine, cached lists, ownership

    A shallow embedding of [src/object.cpp] (class [Object],
    [ObjectListInterface], [Functor]) and the properties of its traversal
    engine, its cached flattened list, its child management and its
    overflow pass.

    Two views of the document are used, as the code uses them:

    - the traversal ([Object::Process]) only reads the ownership tree, so it
      is embedded as a recursive function over a rose tree of objects;
    - the child management ([AddChild], [Relinquish], [InsertChild],
      [ClearChildren], [Modify], ...) works on pointers and parent
      back-references, so it is embedded over a store of objects indexed by
      address, in an error-and-state monad.

    Conventions: a C++ [int] is a [Z]; the depth counter of a traversal moves
    by at most one per tree level, so it stays far from the bounds of [int].
    A failed [assert], an out-of-range [at()] and a read through a dangling
    pointer are modelled as a fault ([None]). *)

From Stdlib Require Import ZArith Lia.
From stdpp Require Import gmap strings list.

Open Scope Z_scope.

(** ** Class tags and functor codes *)

(** Modelled from the spec: the enumeration [ClassId] is declared in a header
    that is not part of the sources.  The tags listed are the ones the
    embedded functions test by name; every other class is [OTHER_CLASS]. *)
Inductive ClassId :=
  | OBJECT | DOC | MDIV | SCORE | PAGE_MILESTONE_END | ENDING | SECTION
  | STAFF | LAYER | BEAM | STEM | NOTE | CLEF | FB | FIGURE | SYL | LB | TEXT
  | APP | RDG | OTHER_CLASS.

Definition ClassId_eqb (a b : ClassId) : bool :=
  match a, b with
  | OBJECT, OBJECT | DOC, DOC | MDIV, MDIV | SCORE, SCORE
  | PAGE_MILESTONE_END, PAGE_MILESTONE_END | ENDING, ENDING
  | SECTION, SECTION | STAFF, STAFF | LAYER, LAYER | BEAM, BEAM
  | STEM, STEM | NOTE, NOTE | CLEF, CLEF | FB, FB | FIGURE, FIGURE
  | SYL, SYL | LB, LB | TEXT, TEXT | APP, APP | RDG, RDG
  | OTHER_CLASS, OTHER_CLASS => true
  | _, _ => false
  end.

Inductive VisibilityType := Hidden | Visible.

(** [enum FunctorCode] *)
Inductive FunctorCode := FUNCTOR_CONTINUE | FUNCTOR_SIBLINGS | FUNCTOR_STOP.

Definition FunctorCode_eqb (a b : FunctorCode) : bool :=
  match a, b with
  | FUNCTOR_CONTINUE, FUNCTOR_CONTINUE
  | FUNCTOR_SIBLINGS, FUNCTOR_SIBLINGS
  | FUNCTOR_STOP, FUNCTOR_STOP => true
  | _, _ => false
  end.

(** The two values of the [bool direction] argument; the macros are defined
    in a header that is not part of the sources, and the code only compares
    a direction with them. *)
Definition FORWARD : bool := true.
Definition BACKWARD : bool := false.

(** ** The ownership tree as the traversal reads it *)

(** [enum ElementScoreDefRole]; only [SCOREDEF_SYSTEM] is tested. *)
Inductive ElementScoreDefRole := SCOREDEF_NONE | SCOREDEF_SYSTEM.

(** For a stem: what the overflow pass reads from the note or chord that
    owns it.  [ancestorBeam] is present when [GetAncestorBeam()] is not null
    and then gives [m_crossStaff] of the first ancestor of class BEAM. *)
Record StemOwner := mkStemOwner {
  owner_crossStaff : option nat;
  ancestorBeam : option (option nat);
  GetIsInBeamSpan : bool
}.

(** What the overflow pass reads from one object: answers of methods and
    members of classes ([Staff], [Beam], [LayerElement], [BoundingBox]) that
    are not part of the sources.  Staves and staff alignments are named by
    their address. *)
Record Drawing := mkDrawing {
  DrawingIsVisible : bool;
  GetAlignment : option nat;
  m_crossStaff : option nat;
  m_crossStaffContent : option nat;
  stemOwner : option StemOwner;
  HasSelfBB : bool;
  GetScoreDefRole : ElementScoreDefRole;
  GetOverflowStaffAlignments : option nat * option nat
}.

(** The four elements a layer keeps outside its child sequence. *)
Record StaffDefElements (A : Type) := mkStaffDefElements {
  Clef : option A;
  KeySig : option A;
  Mensur : option A;
  MeterSig : option A
}.
Arguments mkStaffDefElements {A}.
Arguments Clef {A}.
Arguments KeySig {A}.
Arguments Mensur {A}.
Arguments MeterSig {A}.

(** What a visitor and the engine can ask one object about itself.  [m_id]
    stands for the identity of the object.  The class-range queries
    ([IsEditorialElement], [IsSystemElement], ...) are answered by the
    object's dynamic class; they are kept as they answer for this object.
    [m_start] is the element a page milestone end is paired with: its
    identity and its class. *)
#[warnings="-register-all"]
Inductive ObjAttr := mkAttr {
  m_id : nat;
  m_classId : ClassId;
  IsEditorialElement : bool;
  IsSystemElement : bool;
  IsControlElement : bool;
  IsLayerElement : bool;
  m_visibility : VisibilityType;
  m_start : option (nat * ClassId);
  drawing : Drawing;
  GetStaffDef : StaffDefElements ObjAttr;
  GetCautionStaffDef : StaffDefElements ObjAttr
}.

(** An object with its ordered sequence of children. *)
#[warnings="-register-all"]
Inductive Object := mkObject {
  attr : ObjAttr;
  m_children : list Object
}.

Definition Is (this : ObjAttr) (classId : ClassId) : bool :=
  ClassId_eqb (m_classId this) classId.

Definition is_Hidden (v : VisibilityType) : bool :=
  match v with Hidden => true | Visible => false end.

(** [Object::SkipChildren] *)
Definition SkipChildren (this : ObjAttr) (visibleOnly : bool) : bool :=
  if visibleOnly then
    if IsEditorialElement this then is_Hidden (m_visibility this)
    else if Is this MDIV then is_Hidden (m_visibility this)
    else if IsSystemElement this then is_Hidden (m_visibility this)
    else false
  else false.

(** [Filters]: the class is not part of the sources; a filter set is what its
    [Apply] answers for an object. *)
Definition Filters := ObjAttr → bool.

(** [Object::FiltersApply] *)
Definition FiltersApply (filters : option Filters) (object : Object) : bool :=
  match filters with
  | Some f => f (attr object)
  | None => true
  end.

(** ** Function-pointer functors: [Functor] and [Object::Process] *)

(** A [Functor] wraps a member function of [Object] taking the functor
    parameters.  The embedded visitors read the attributes of the object
    they are called on and read and write the parameters; they do not
    restructure the tree while it is traversed. *)
Record Functor (P : Type) := mkFunctor {
  m_visibleOnly : bool;
  obj_fpt : ObjAttr → P → FunctorCode * P
}.
Arguments mkFunctor {P}.
Arguments m_visibleOnly {P}.
Arguments obj_fpt {P}.

(** What one call of [Process] can change: the return code stored in the
    functor, the one stored in the end functor (a different object), the
    functor parameters, and the current score of the document. *)
Record ProcessState (P : Type) := mkState {
  m_returnCode : FunctorCode;
  end_returnCode : FunctorCode;
  functorParams : P;
  currentScore : option nat
}.
Arguments mkState {P}.
Arguments m_returnCode {P}.
Arguments end_returnCode {P}.
Arguments functorParams {P}.
Arguments currentScore {P}.

Section FunctorProcess.
Context {P : Type}.

Definition set_returnCode (c : FunctorCode) (st : ProcessState P) :=
  mkState c (end_returnCode st) (functorParams st) (currentScore st).

(** [Functor::Call] on the functor of the traversal; the overloads for a
    const and a non-const object differ in the member pointer they use. *)
Definition Call (functor : Functor P) (ptr : Object) (st : ProcessState P) :=
  let '(code, params) := obj_fpt functor (attr ptr) (functorParams st) in
  mkState code (end_returnCode st) params (currentScore st).

(** [Functor::Call] on the end functor: its own [m_returnCode] is set *)
Definition CallEnd (endFunctor : Functor P) (ptr : Object) (st : ProcessState P) :=
  let '(code, params) := obj_fpt endFunctor (attr ptr) (functorParams st) in
  mkState (m_returnCode st) code params (currentScore st).

(** [Object::UpdateDocumentScore] *)
Definition UpdateDocumentScore (direction : bool) (this : Object)
    (st : ProcessState P) : ProcessState P :=
  if Bool.eqb direction FORWARD && Is (attr this) SCORE then
    mkState (m_returnCode st) (end_returnCode st) (functorParams st)
            (Some (m_id (attr this)))
  else if Bool.eqb direction BACKWARD && Is (attr this) PAGE_MILESTONE_END then
    match m_start (attr this) with
    | Some (start, SCORE) =>
        mkState (m_returnCode st) (end_returnCode st) (functorParams st)
                (Some start)
    | _ => st
    end
  else st.

Variable functor : Functor P.
Variable endFunctor : option (Functor P).
Variable filters : option Filters.
Variable direction : bool.

(** [Object::Process(Functor *, FunctorParams *, Functor *endFunctor,
    Filters *, int deepness, bool direction, bool skipFirst)]; the const
    overload has the same body.  The backward loop runs over the reverse
    iterators of the child array, which is a right fold. *)
Fixpoint Process (deepness : Z) (skipFirst : bool) (this : Object)
    (st : ProcessState P) {struct this} : ProcessState P :=
  if FunctorCode_eqb (m_returnCode st) FUNCTOR_STOP then st
  else
    let st := UpdateDocumentScore direction this st in
    let st := if skipFirst then st else Call functor this st in
    if FunctorCode_eqb (m_returnCode st) FUNCTOR_SIBLINGS then
      set_returnCode FUNCTOR_CONTINUE st
    else
      let deepness := if IsEditorialElement (attr this) then deepness + 1 else deepness in
      if deepness =? 0 then st
      else
        let deepness := deepness - 1 in
        let st :=
          if negb (SkipChildren (attr this) (m_visibleOnly functor)) then
            match this with
            | mkObject _ children =>
                if Bool.eqb direction BACKWARD then
                  fold_right
                    (fun iter st =>
                       if FiltersApply filters iter
                       then Process deepness false iter st else st)
                    st children
                else
                  fold_left
                    (fun st iter =>
                       if FiltersApply filters iter
                       then Process deepness false iter st else st)
                    children st
            end
          else st in
        match endFunctor with
        | Some e => if skipFirst then st else CallEnd e this st
        | None => st
        end.

(** One iteration of either child loop of [Process]. *)
Definition ProcessChild (deepness : Z) (st : ProcessState P) (iter : Object) :=
  if FiltersApply filters iter then Process deepness false iter st else st.

(** The child loop of [Process], in the order the direction gives. *)
Definition ProcessChildren (deepness : Z) (children : list Object)
    (st : ProcessState P) : ProcessState P :=
  if Bool.eqb direction BACKWARD
  then fold_right (fun iter st => ProcessChild deepness st iter) st children
  else fold_left (ProcessChild deepness) children st.

End FunctorProcess.

Arguments Process {P} functor endFunctor filters direction deepness skipFirst this st.
Arguments ProcessChild {P} functor endFunctor filters direction deepness st iter.
Arguments ProcessChildren {P} functor endFunctor filters direction deepness children st.

(** ** Functor objects: [MutableFunctor] and [Object::Process(MutableFunctor &)] *)

(** A functor object carries its configuration (direction, visibility
    filter, filters, whether it implements the end interface) and its visit
    methods; [Object::Accept] and [Object::AcceptEnd] dispatch to them.  The
    members the visit methods update are the state [S]. *)
Record MutableFunctor (S : Type) := mkMutableFunctor {
  GetDirection : bool;
  VisibleOnly : bool;
  GetFilters : option Filters;
  ImplementsEndInterface : bool;
  VisitObject : ObjAttr → S → FunctorCode * S;
  VisitObjectEnd : ObjAttr → S → FunctorCode * S
}.
Arguments mkMutableFunctor {S}.
Arguments GetDirection {S}.
Arguments VisibleOnly {S}.
Arguments GetFilters {S}.
Arguments ImplementsEndInterface {S}.
Arguments VisitObject {S}.
Arguments VisitObjectEnd {S}.

(** The single return code of the functor ([GetCode]/[SetCode]), its
    members, and the current score of the document. *)
Record FunctorState (S : Type) := mkFunctorState {
  GetCode : FunctorCode;
  members : S;
  docScore : option nat
}.
Arguments mkFunctorState {S}.
Arguments GetCode {S}.
Arguments members {S}.
Arguments docScore {S}.

Section MutableFunctorProcess.
Context {S : Type}.

Definition SetCode (code : FunctorCode) (st : FunctorState S) :=
  mkFunctorState code (members st) (docScore st).

(** [code = this->Accept(functor); functor.SetCode(code)] *)
Definition Accept (functor : MutableFunctor S) (this : Object) (st : FunctorState S) :=
  let '(code, m) := VisitObject functor (attr this) (members st) in
  mkFunctorState code m (docScore st).

(** [code = this->AcceptEnd(functor); functor.SetCode(code)] *)
Definition AcceptEnd (functor : MutableFunctor S) (this : Object) (st : FunctorState S) :=
  let '(code, m) := VisitObjectEnd functor (attr this) (members st) in
  mkFunctorState code m (docScore st).

(** [Object::UpdateDocumentScore], on the state of a functor object *)
Definition UpdateDocumentScore' (direction : bool) (this : Object)
    (st : FunctorState S) : FunctorState S :=
  if Bool.eqb direction FORWARD && Is (attr this) SCORE then
    mkFunctorState (GetCode st) (members st) (Some (m_id (attr this)))
  else if Bool.eqb direction BACKWARD && Is (attr this) PAGE_MILESTONE_END then
    match m_start (attr this) with
    | Some (start, SCORE) => mkFunctorState (GetCode st) (members st) (Some start)
    | _ => st
    end
  else st.

Variable functor : MutableFunctor S.

(** [Object::Process(MutableFunctor &functor, int deepness, bool
    skipFirst)]; the [ConstFunctor] overload has the same body. *)
Fixpoint ProcessFunctor (deepness : Z) (skipFirst : bool) (this : Object)
    (st : FunctorState S) {struct this} : FunctorState S :=
  if FunctorCode_eqb (GetCode st) FUNCTOR_STOP then st
  else
    let st := UpdateDocumentScore' (GetDirection functor) this st in
    let st := if skipFirst then st else Accept functor this st in
    if FunctorCode_eqb (GetCode st) FUNCTOR_SIBLINGS then
      SetCode FUNCTOR_CONTINUE st
    else
      let deepness := if IsEditorialElement (attr this) then deepness + 1 else deepness in
      if deepness =? 0 then st
      else
        let deepness := deepness - 1 in
        let st :=
          if negb (SkipChildren (attr this) (VisibleOnly functor)) then
            match this with
            | mkObject _ children =>
                let filters := GetFilters functor in
                if Bool.eqb (GetDirection functor) BACKWARD then
                  fold_right
                    (fun iter st =>
                       if FiltersApply filters iter
                       then ProcessFunctor deepness false iter st else st)
                    st children
                else
                  fold_left
                    (fun st iter =>
                       if FiltersApply filters iter
                       then ProcessFunctor deepness false iter st else st)
                    children st
            end
          else st in
        if ImplementsEndInterface functor && negb skipFirst
        then AcceptEnd functor this st
        else st.

End MutableFunctorProcess.

Arguments ProcessFunctor {S} functor deepness skipFirst this st.

Section MutableFunctorLoops.
Context {S : Type}.
Variable functor : MutableFunctor S.

(** One iteration of either child loop of [Process(MutableFunctor &)]. *)
Definition ProcessFunctorChild (deepness : Z) (st : FunctorState S) (iter : Object) :=
  if FiltersApply (GetFilters functor) iter
  then ProcessFunctor functor deepness false iter st else st.

(** The child loop, in the order the direction of the functor gives. *)
Definition ProcessFunctorChildren (deepness : Z) (children : list Object)
    (st : FunctorState S) : FunctorState S :=
  if Bool.eqb (GetDirection functor) BACKWARD
  then fold_right (fun iter st => ProcessFunctorChild deepness st iter) st children
  else fold_left (ProcessFunctorChild deepness) children st.
End MutableFunctorLoops.

(** ** Observing a traversal *)

(** The visits of a traversal, in the order they happen: the object
    visited and the code its visit returned. *)
Abbreviation Trace := (list (ObjAttr * FunctorCode)).

Section Observation.
Context {P : Type}.

(** The functor [f], recording each of its calls. *)
Definition traced (f : Functor P) : Functor (P * Trace) :=
  mkFunctor (m_visibleOnly f)
    (fun a pl =>
       let '(c, p) := obj_fpt f a (fst pl) in (c, (p, snd pl ++ [(a, c)]))).

(** The end functor [e], leaving the record alone. *)
Definition untraced (e : Functor P) : Functor (P * Trace) :=
  mkFunctor (m_visibleOnly e)
    (fun a pl => let '(c, p) := obj_fpt e a (fst pl) in (c, (p, snd pl))).

Definition with_trace (tr : Trace) (st : ProcessState P) : ProcessState (P * Trace) :=
  mkState (m_returnCode st) (end_returnCode st) (functorParams st, tr) (currentScore st).

Definition without_trace (st : ProcessState (P * Trace)) : ProcessState P :=
  mkState (m_returnCode st) (end_returnCode st) (fst (functorParams st)) (currentScore st).

(** The calls of the functor during one call of [Process]. *)
Definition trace_of (f : Functor P) (e : option (Functor P)) (filters : option Filters)
    (direction : bool) (deepness : Z) (skipFirst : bool) (this : Object)
    (st : ProcessState P) : Trace :=
  snd (functorParams
         (Process (traced f) (option_map untraced e) filters direction
                  deepness skipFirst this (with_trace [] st))).

(** The objects visited during one call of [Process], in visiting order. *)
Definition visited (f : Functor P) (e : option (Functor P)) (filters : option Filters)
    (direction : bool) (deepness : Z) (skipFirst : bool) (this : Object)
    (st : ProcessState P) : list ObjAttr :=
  map fst (trace_of f e filters direction deepness skipFirst this st).

(** The same observation for a functor object. *)
Definition tracedFunctor (f : MutableFunctor P) : MutableFunctor (P * Trace) :=
  mkMutableFunctor (GetDirection f) (VisibleOnly f) (GetFilters f)
    (ImplementsEndInterface f)
    (fun a pl =>
       let '(c, p) := VisitObject f a (fst pl) in (c, (p, snd pl ++ [(a, c)])))
    (fun a pl =>
       let '(c, p) := VisitObjectEnd f a (fst pl) in (c, (p, snd pl))).

Definition traceFunctor_of (f : MutableFunctor P) (deepness : Z) (skipFirst : bool)
    (this : Object) (st : FunctorState P) : Trace :=
  snd (members
         (ProcessFunctor (tracedFunctor f) deepness skipFirst this
            (mkFunctorState (GetCode st) (members st, []) (docScore st)))).

End Observation.

(** No visit recorded so far answered STOP. *)
Definition noStop (tr : Trace) : Prop := Forall (λ v, snd v ≠ FUNCTOR_STOP) tr.

(** The state of a recorded traversal in which only the last visit may have
    answered STOP, and then the functor still holds STOP. *)
Definition stopIsLast {P : Type} (st : ProcessState (P * Trace)) : Prop :=
  noStop (removelast (snd (functorParams st))) ∧
  (m_returnCode st ≠ FUNCTOR_STOP → noStop (snd (functorParams st))).

(** ** Shapes of a tree *)

(** Every object of the subtree, in document order. *)
Fixpoint subobjects (this : Object) : list Object :=
  this :: flat_map subobjects (m_children this).

(** Every object of the subtree with its ancestors inside the subtree,
    from the parent up to the root of the subtree. *)
Fixpoint paths (anc : list ObjAttr) (this : Object) : list (list ObjAttr * ObjAttr) :=
  (anc, attr this) :: flat_map (paths (attr this :: anc)) (m_children this).

(** The number of ancestors that are not editorial wrappers. *)
Definition nonWrappers (anc : list ObjAttr) : Z :=
  Z.of_nat (length (List.filter (fun a => negb (IsEditorialElement a)) anc)).

(** The tree with the child order reversed at every level. *)
Fixpoint mirror (this : Object) : Object :=
  mkObject (attr this) (rev (map mirror (m_children this))).

(** The order in which a loop of [Process] takes the children. *)
Definition visitingOrder (direction : bool) (children : list Object) : list Object :=
  if Bool.eqb direction BACKWARD then rev children else children.

(** The objects a forward traversal visits when the code of a visit is a
    function [code] of the object visited that is never STOP. *)
Section Walk.
Variable code : ObjAttr → FunctorCode.
Variable visibleOnly : bool.
Variable filters : option Filters.

Fixpoint walk (deepness : Z) (this : Object) : list ObjAttr :=
  attr this ::
    match code (attr this) with
    | FUNCTOR_SIBLINGS => []
    | _ =>
        let deepness := if IsEditorialElement (attr this) then deepness + 1 else deepness in
        if deepness =? 0 then []
        else if SkipChildren (attr this) visibleOnly then []
        else flat_map
               (fun iter => if FiltersApply filters iter then walk (deepness - 1) iter else [])
               (m_children this)
    end.
End Walk.

(** No object of the tree hides its children from the functor, and the
    filters let every object pass. *)
Definition unrestricted (visibleOnly : bool) (filters : option Filters) (this : Object) : Prop :=
  Forall (fun o => SkipChildren (attr o) visibleOnly = false ∧ FiltersApply filters o = true)
         (subobjects this).

(** The part of a tree that a traversal can get to whatever the depth
    limit is, when the code of a visit is the function [code] of the object
    visited: the children of an object whose visit answers SIBLINGS or that
    hides its children from the functor are left out, and so is every child
    that the filters reject, with what lies below it. *)
Section Accessible.
Variable code : ObjAttr → FunctorCode.
Variable visibleOnly : bool.
Variable filters : option Filters.

Fixpoint accessible (this : Object) : Object :=
  mkObject (attr this)
    match code (attr this) with
    | FUNCTOR_SIBLINGS => []
    | _ =>
        if SkipChildren (attr this) visibleOnly then []
        else flat_map
               (fun iter => if FiltersApply filters iter then [accessible iter] else [])
               (m_children this)
    end.
End Accessible.

(** Two states of a traversal that differ at most in the current score of
    the document. *)
Definition sameRun {P : Type} (st1 st2 : ProcessState P) : Prop :=
  m_returnCode st1 = m_returnCode st2 ∧
  end_returnCode st1 = end_returnCode st2 ∧
  functorParams st1 = functorParams st2.

(** ** The cached flattened list: [ObjectListInterface] *)

(** The constructor [Functor::Functor(fpt)]: the functor is visible-only;
    its return code starts as [FUNCTOR_CONTINUE] ([initialState]). *)
Definition newFunctor {P : Type} (fpt : ObjAttr → P → FunctorCode * P) : Functor P :=
  mkFunctor true fpt.

Definition initialState {P : Type} (params : P) (score : option nat) : ProcessState P :=
  mkState FUNCTOR_CONTINUE FUNCTOR_CONTINUE params score.

(** [Object::AddLayerElementToFlatList]; the parameters are the list. *)
Definition AddLayerElementToFlatList (this : ObjAttr) (m_flatList : list ObjAttr)
    : FunctorCode * list ObjAttr :=
  (FUNCTOR_CONTINUE, m_flatList ++ [this]).

(** The object that carries a list interface, with its dirty flag. *)
Record ListNode := mkListNode {
  node : Object;
  m_isModified : bool
}.

(** [Object::Modify] as it acts on the object itself: the flag is written.
    The propagation to the ancestors, which happens for [modified = true]
    only, is in [Own.Modify]. *)
Definition Modify (modified : bool) (n : ListNode) : ListNode :=
  mkListNode (node n) modified.

Definition IsModified (n : ListNode) : bool := m_isModified n.

(** [TextListInterface::FilterList]: everything but LB and TEXT is erased. *)
Definition TextListInterface_FilterList (childList : list ObjAttr) : list ObjAttr :=
  List.filter (fun iter => Is iter LB || Is iter TEXT) childList.

Section ObjectListInterface.
(** The constant of the unlimited depth is defined in a header that is not
    part of the sources. *)
Variable UNLIMITED_DEPTH : Z.

(** The virtual [FilterList] of the class that owns the list. *)
Variable FilterList : list ObjAttr → list ObjAttr.

(** [Object::FillFlatList].  Modelled from the spec: the default arguments
    of [Process] are given in its declaration, which is not part of the
    sources; the pass has no end functor, no filters, no depth limit, runs
    forward and visits the object it starts from.  The functor is built by
    the constructor of [Functor], so it is visible-only.  The result is the
    list; the current score of the document is not part of it. *)
Definition FillFlatList (this : Object) (flatList : list ObjAttr) : list ObjAttr :=
  functorParams
    (Process (newFunctor AddLayerElementToFlatList) None None FORWARD
             UNLIMITED_DEPTH false this (initialState flatList None)).

(** [ObjectListInterface::ResetList]: the list and the object after the
    call. *)
Definition ResetList (m_list : list ObjAttr) (n : ListNode) : list ObjAttr * ListNode :=
  if negb (IsModified n) then (m_list, n)
  else
    let n := Modify false n in
    let m_list := [] in
    let m_list := FillFlatList (node n) m_list in
    let m_list := FilterList m_list in
    (m_list, n).

(** [ObjectListInterface::GetList]: the reference returned is the list
    member itself. *)
Definition GetList (m_list : list ObjAttr) (n : ListNode) : list ObjAttr * ListNode :=
  ResetList m_list n.

End ObjectListInterface.

(** The list a rebuild collects before it is filtered: the object itself and
    its descendants in document order, without the content of objects that
    hide their children from a visible-only functor. *)
Fixpoint visibleObjects (this : Object) : list ObjAttr :=
  attr this ::
    (if SkipChildren (attr this) true then []
     else flat_map visibleObjects (m_children this)).

(** ** The overflow pass: [Object::CalcBBoxOverflows] *)

(** Modelled from the spec: [StaffAlignment] is not part of the sources.  It
    keeps the running maximum of the overflow above and below, the same for
    the clef of the system scoreDef, and the objects that contributed. *)
Record StaffAlignment := mkStaffAlignment {
  GetStaffSize : Z;
  m_overflowAbove : Z;
  m_overflowBelow : Z;
  m_scoreDefClefOverflowAbove : Z;
  m_scoreDefClefOverflowBelow : Z;
  m_overflowAboveBBoxes : list nat;
  m_overflowBelowBBoxes : list nat
}.

(** Modelled from the spec: [StaffAlignment::SetOverflowAbove] is not part of
    the sources; the overflow above is a running maximum. *)
Definition SetOverflowAbove (v : Z) (a : StaffAlignment) : StaffAlignment :=
  mkStaffAlignment (GetStaffSize a)
    (if v >? m_overflowAbove a then v else m_overflowAbove a) (m_overflowBelow a)
    (m_scoreDefClefOverflowAbove a) (m_scoreDefClefOverflowBelow a)
    (m_overflowAboveBBoxes a) (m_overflowBelowBBoxes a).

(** Modelled from the spec: [StaffAlignment::SetOverflowBelow] is not part of
    the sources; the overflow below is a running maximum. *)
Definition SetOverflowBelow (v : Z) (a : StaffAlignment) : StaffAlignment :=
  mkStaffAlignment (GetStaffSize a)
    (m_overflowAbove a) (if v >? m_overflowBelow a then v else m_overflowBelow a)
    (m_scoreDefClefOverflowAbove a) (m_scoreDefClefOverflowBelow a)
    (m_overflowAboveBBoxes a) (m_overflowBelowBBoxes a).

(** Modelled from the spec: [StaffAlignment::SetScoreDefClefOverflowAbove] is
    not part of the sources; the clef of the system scoreDef has its own
    running maximum. *)
Definition SetScoreDefClefOverflowAbove (v : Z) (a : StaffAlignment) : StaffAlignment :=
  mkStaffAlignment (GetStaffSize a) (m_overflowAbove a) (m_overflowBelow a)
    (if v >? m_scoreDefClefOverflowAbove a then v else m_scoreDefClefOverflowAbove a)
    (m_scoreDefClefOverflowBelow a)
    (m_overflowAboveBBoxes a) (m_overflowBelowBBoxes a).

(** Modelled from the spec: [StaffAlignment::SetScoreDefClefOverflowBelow] is
    not part of the sources; see [SetScoreDefClefOverflowAbove]. *)
Definition SetScoreDefClefOverflowBelow (v : Z) (a : StaffAlignment) : StaffAlignment :=
  mkStaffAlignment (GetStaffSize a) (m_overflowAbove a) (m_overflowBelow a)
    (m_scoreDefClefOverflowAbove a)
    (if v >? m_scoreDefClefOverflowBelow a then v else m_scoreDefClefOverflowBelow a)
    (m_overflowAboveBBoxes a) (m_overflowBelowBBoxes a).

(** Modelled from the spec: [StaffAlignment::AddBBoxAbove] is not part of the
    sources; the object joins the contributors above. *)
Definition AddBBoxAbove (box : nat) (a : StaffAlignment) : StaffAlignment :=
  mkStaffAlignment (GetStaffSize a) (m_overflowAbove a) (m_overflowBelow a)
    (m_scoreDefClefOverflowAbove a) (m_scoreDefClefOverflowBelow a)
    (m_overflowAboveBBoxes a ++ [box]) (m_overflowBelowBBoxes a).

(** Modelled from the spec: [StaffAlignment::AddBBoxBelow] is not part of the
    sources; the object joins the contributors below. *)
Definition AddBBoxBelow (box : nat) (a : StaffAlignment) : StaffAlignment :=
  mkStaffAlignment (GetStaffSize a) (m_overflowAbove a) (m_overflowBelow a)
    (m_scoreDefClefOverflowAbove a) (m_scoreDefClefOverflowBelow a)
    (m_overflowAboveBBoxes a) (m_overflowBelowBBoxes a ++ [box]).

(** [CalcBBoxOverflowsParams]: the current staff alignment, and the staff
    alignments of the system by address. *)
Record CalcBBoxOverflowsParams := mkParams {
  m_staffAlignment : option nat;
  alignments : gmap nat StaffAlignment
}.

Definition isSome {A : Type} (o : option A) : bool :=
  match o with Some _ => true | None => false end.

Section CalcBBoxOverflows.
(** [StaffAlignment::CalcOverflowAbove], [StaffAlignment::CalcOverflowBelow]
    and [Doc::GetDrawingStaffLineWidth] are not part of the sources. *)
Variable CalcOverflowAbove : StaffAlignment → ObjAttr → Z.
Variable CalcOverflowBelow : StaffAlignment → ObjAttr → Z.
Variable GetDrawingStaffLineWidth : Z → Z.

Definition setAlignment (p : nat) (a : StaffAlignment) (params : CalcBBoxOverflowsParams) :=
  mkParams (m_staffAlignment params) (<[p := a]> (alignments params)).

(** The block [if (above) { ... }] *)
Definition overflowAboveOf (current : ObjAttr) (isScoreDefClef : bool)
    (above : option nat) (params : CalcBBoxOverflowsParams)
    : option CalcBBoxOverflowsParams :=
  match above with
  | None => Some params
  | Some p =>
      al ← alignments params !! p;
      let overflowAbove := CalcOverflowAbove al current in
      let staffSize := GetStaffSize al in
      if overflowAbove >? Z.quot (GetDrawingStaffLineWidth staffSize) 2 then
        if isScoreDefClef
        then Some (setAlignment p (SetScoreDefClefOverflowAbove overflowAbove al) params)
        else Some (setAlignment p
                     (AddBBoxAbove (m_id current) (SetOverflowAbove overflowAbove al))
                     params)
      else Some params
  end.

(** The block [if (below) { ... }] *)
Definition overflowBelowOf (current : ObjAttr) (isScoreDefClef : bool)
    (below : option nat) (params : CalcBBoxOverflowsParams)
    : option CalcBBoxOverflowsParams :=
  match below with
  | None => Some params
  | Some p =>
      al ← alignments params !! p;
      let overflowBelow := CalcOverflowBelow al current in
      let staffSize := GetStaffSize al in
      if overflowBelow >? Z.quot (GetDrawingStaffLineWidth staffSize) 2 then
        if isScoreDefClef
        then Some (setAlignment p (SetScoreDefClefOverflowBelow overflowBelow al) params)
        else Some (setAlignment p
                     (AddBBoxBelow (m_id current) (SetOverflowBelow overflowBelow al))
                     params)
      else Some params
  end.

(** The test on a stem: its note or chord is cross-staff and either lies
    in a beam that is not cross-staff itself, or lies in no beam but in a
    beam span. *)
Definition stemIsIgnored (this : ObjAttr) : bool :=
  Is this STEM &&
  match stemOwner (drawing this) with
  | Some noteOrChord =>
      isSome (owner_crossStaff noteOrChord) &&
      match ancestorBeam noteOrChord with
      | Some beam_crossStaff => negb (isSome beam_crossStaff)
      | None => GetIsInBeamSpan noteOrChord
      end
  | None => false
  end.

(** [Object::CalcBBoxOverflows]; [None] is a failed assertion. *)
Fixpoint CalcBBoxOverflows (this : ObjAttr) (params : CalcBBoxOverflowsParams)
    {struct this} : option (FunctorCode * CalcBBoxOverflowsParams) :=
  if Is this STAFF then
    if negb (DrawingIsVisible (drawing this)) then Some (FUNCTOR_SIBLINGS, params)
    else Some (FUNCTOR_CONTINUE,
               mkParams (GetAlignment (drawing this)) (alignments params))
  else if Is this LAYER then
    params ← match Clef (GetStaffDef this) with
             | Some e => snd <$> CalcBBoxOverflows e params
             | None => Some params
             end;
    params ← match KeySig (GetStaffDef this) with
             | Some e => snd <$> CalcBBoxOverflows e params
             | None => Some params
             end;
    params ← match Mensur (GetStaffDef this) with
             | Some e => snd <$> CalcBBoxOverflows e params
             | None => Some params
             end;
    params ← match MeterSig (GetStaffDef this) with
             | Some e => snd <$> CalcBBoxOverflows e params
             | None => Some params
             end;
    Some (FUNCTOR_CONTINUE, params)
  else if IsSystemElement this then Some (FUNCTOR_CONTINUE, params)
  else if IsControlElement this then Some (FUNCTOR_CONTINUE, params)
  else if negb (IsLayerElement this) then Some (FUNCTOR_CONTINUE, params)
  else if Is this BEAM && isSome (m_crossStaffContent (drawing this))
                       && negb (isSome (m_crossStaff (drawing this)))
  then Some (FUNCTOR_CONTINUE, params)
  else if stemIsIgnored this then Some (FUNCTOR_CONTINUE, params)
  else if Is this FB || Is this FIGURE then Some (FUNCTOR_CONTINUE, params)
  else if Is this SYL then Some (FUNCTOR_CONTINUE, params)
  else if negb (HasSelfBB (drawing this)) then Some (FUNCTOR_CONTINUE, params)
  else
    match m_staffAlignment params with
    | None => None
    | Some _ =>
        let '(above, below) := GetOverflowStaffAlignments (drawing this) in
        let isScoreDefClef :=
          Is this CLEF &&
          match GetScoreDefRole (drawing this) with
          | SCOREDEF_SYSTEM => true
          | _ => false
          end in
        params ← overflowAboveOf this isScoreDefClef above params;
        params ← overflowBelowOf this isScoreDefClef below params;
        Some (FUNCTOR_CONTINUE, params)
    end.

(** [Object::CalcBBoxOverflowsEnd] *)
Definition CalcBBoxOverflowsEnd (this : ObjAttr) (params : CalcBBoxOverflowsParams)
    : option (FunctorCode * CalcBBoxOverflowsParams) :=
  if Is this LAYER then
    params ← match Clef (GetCautionStaffDef this) with
             | Some e => snd <$> CalcBBoxOverflows e params
             | None => Some params
             end;
    params ← match KeySig (GetCautionStaffDef this) with
             | Some e => snd <$> CalcBBoxOverflows e params
             | None => Some params
             end;
    params ← match Mensur (GetCautionStaffDef this) with
             | Some e => snd <$> CalcBBoxOverflows e params
             | None => Some params
             end;
    params ← match MeterSig (GetCautionStaffDef this) with
             | Some e => snd <$> CalcBBoxOverflows e params
             | None => Some params
             end;
    Some (FUNCTOR_CONTINUE, params)
  else Some (FUNCTOR_CONTINUE, params).

(** A member function that can fail an assertion, as the function a
    [Functor] calls: once an assertion has failed nothing runs any more. *)
Definition asserting (m : ObjAttr → CalcBBoxOverflowsParams →
                          option (FunctorCode * CalcBBoxOverflowsParams))
    (this : ObjAttr) (params : option CalcBBoxOverflowsParams)
    : FunctorCode * option CalcBBoxOverflowsParams :=
  match params with
  | None => (FUNCTOR_STOP, None)
  | Some p =>
      match m this p with
      | Some (code, p) => (code, Some p)
      | None => (FUNCTOR_STOP, None)
      end
  end.

(** Modelled from the spec: the call that starts the overflow pass is not
    part of the sources.  It is one forward, visible-only traversal with
    [CalcBBoxOverflows] as functor and [CalcBBoxOverflowsEnd] as end
    functor, without filters, from the given depth limit. *)
Definition overflowPass (deepness : Z) (root : Object)
    (params : CalcBBoxOverflowsParams) : option CalcBBoxOverflowsParams :=
  functorParams
    (Process (newFunctor (asserting CalcBBoxOverflows))
             (Some (newFunctor (asserting CalcBBoxOverflowsEnd)))
             None FORWARD deepness false root
             (initialState (Some params) None)).

End CalcBBoxOverflows.

(** ** Ownership: objects in a store, with parent back-references *)

Module Own.

Inductive LogLevel := LOG_DEBUG | LOG_ERROR.

(** The members of [Object] the child management reads and writes;
    [GetClassName] is the virtual method of the dynamic class. *)
Record Obj := mkObj {
  GetClassName : string;
  m_parent : option nat;
  m_children : list nat;
  m_isModified : bool;
  m_isReferenceObject : bool
}.

Definition set_parent (p : option nat) (o : Obj) : Obj :=
  mkObj (GetClassName o) p (m_children o) (m_isModified o) (m_isReferenceObject o).

Definition set_children (l : list nat) (o : Obj) : Obj :=
  mkObj (GetClassName o) (m_parent o) l (m_isModified o) (m_isReferenceObject o).

Definition set_isModified (b : bool) (o : Obj) : Obj :=
  mkObj (GetClassName o) (m_parent o) (m_children o) b (m_isReferenceObject o).

(** The allocated objects by address, and the log written so far. *)
Record World := mkWorld {
  objs : gmap nat Obj;
  logs : list (LogLevel * string)
}.

(** Computations that read and write the store and can fault. *)
Definition M (A : Type) : Type := World → option (A * World).

#[export] Instance M_ret : MRet M := λ A x w, Some (x, w).

#[export] Instance M_bind : MBind M := λ A B f m w,
  match m w with
  | Some (x, w) => f x w
  | None => None
  end.

Definition fault {A : Type} : M A := λ _, None.

(** Reading through a pointer; a dangling pointer is a fault. *)
Definition deref (p : nat) : M Obj := λ w,
  match objs w !! p with
  | Some o => Some (o, w)
  | None => None
  end.

Definition store (p : nat) (o : Obj) : M unit := λ w,
  Some ((), mkWorld (<[p := o]> (objs w)) (logs w)).

(** Releasing the memory of an object. *)
Definition free (p : nat) : M unit := λ w,
  Some ((), mkWorld (delete p (objs w)) (logs w)).

Definition Log (level : LogLevel) (msg : string) : M unit := λ w,
  Some ((), mkWorld (objs w) (logs w ++ [(level, msg)])).

(** [Object::GetParent] *)
Definition GetParent (this : nat) : M (option nat) :=
  o ← deref this; mret (m_parent o).

(** [Object::SetParent]: [assert(!m_parent)] *)
Definition SetParent (this parent : nat) : M unit :=
  o ← deref this;
  match m_parent o with
  | Some _ => fault
  | None => store this (set_parent (Some parent) o)
  end.

(** Modelled from the spec: [Object::ResetParent] is defined in the class
    declaration, which is not part of the sources; it sets the parent
    back-reference to null. *)
Definition ResetParent (this : nat) : M unit :=
  o ← deref this; store this (set_parent None o).

(** [m_children.insert(begin() + idx, element)] for [0 <= idx < size] *)
Definition insert_at {A : Type} (idx : nat) (x : A) (l : list A) : list A :=
  take idx l ++ x :: drop idx l.

(** [Object::InsertChild]; [begin() + idx] with a negative [idx] is outside
    the array. *)
Definition InsertChild (this element : nat) (idx : Z) : M unit :=
  p ← GetParent element;
  if negb (bool_decide (p = Some this)) then fault
  else
    o ← deref this;
    if idx >=? Z.of_nat (length (m_children o)) then
      store this (set_children (m_children o ++ [element]) o)
    else if idx <? 0 then fault
    else store this (set_children (insert_at (Z.to_nat idx) element (m_children o)) o).

(** [Object::DetachChild]; [at(idx)] with a negative [idx] throws. *)
Definition DetachChild (this : nat) (idx : Z) : M (option nat) :=
  o ← deref this;
  if idx >=? Z.of_nat (length (m_children o)) then mret None
  else
    match (if idx <? 0 then None else m_children o !! Z.to_nat idx) with
    | None => fault
    | Some child =>
        ResetParent child;;
        o ← deref this;
        store this (set_children (delete (Z.to_nat idx) (m_children o)) o);;
        mret (Some child)
    end.

(** [Object::Relinquish] *)
Definition Relinquish (this : nat) (idx : Z) : M (option nat) :=
  o ← deref this;
  if idx >=? Z.of_nat (length (m_children o)) then mret None
  else
    match (if idx <? 0 then None else m_children o !! Z.to_nat idx) with
    | None => fault
    | Some child => ResetParent child;; mret (Some child)
    end.

(** The children that [ClearRelinquishedChildren] keeps. *)
Fixpoint stillOwned (this : nat) (iter : list nat) : M (list nat) :=
  match iter with
  | [] => mret []
  | child :: rest =>
      p ← GetParent child;
      kept ← stillOwned this rest;
      mret (if bool_decide (p = Some this) then child :: kept else kept)
  end.

(** [Object::ClearRelinquishedChildren] *)
Definition ClearRelinquishedChildren (this : nat) : M unit :=
  o ← deref this;
  kept ← stillOwned this (m_children o);
  store this (set_children kept o).

(** [Object::GetChildCount()]: the size of the child array. *)
Definition GetChildCount (this : nat) : M Z :=
  o ← deref this; mret (Z.of_nat (length (m_children o))).

(** [Object::Modify]; the fuel bounds the walk up the parent
    back-references. *)
Fixpoint Modify (fuel : nat) (this : nat) (modified : bool) : M unit :=
  match fuel with
  | O => fault
  | S fuel =>
      o ← deref this;
      match m_parent o with
      | Some parent => if modified then Modify fuel parent true else mret ()
      | None => mret ()
      end;;
      o ← deref this;
      store this (set_isModified modified o)
  end.

(** [Object::IsSupportedChild] of the base class: a debug message and
    [false]. *)
Definition Object_IsSupportedChild (this child : Obj) : bool * list (LogLevel * string) :=
  (false,
   [(LOG_DEBUG, "Method for adding " +:+ GetClassName child +:+ " to "
                 +:+ GetClassName this +:+ " should be overridden")]).

Section AddChild.
(** The virtual [IsSupportedChild] as the dynamic class of the parent
    answers it, with the messages it logs. *)
Variable IsSupportedChild : Obj → Obj → bool * list (LogLevel * string).

Definition LogAll (msgs : list (LogLevel * string)) : M unit := λ w,
  Some ((), mkWorld (objs w) (logs w ++ msgs)).

(** [Object::AddChild]; [Modify()] is called with its default argument
    [true]. *)
Definition AddChild (fuel : nat) (this child : nat) : M unit :=
  c ← deref child;
  t ← deref this;
  rejected ←
    (if negb (String.eqb (GetClassName c) "Staff" && String.eqb (GetClassName t) "Section")
     then
       let '(supported, msgs) := IsSupportedChild t c in
       LogAll msgs;;
       if negb supported then
         Log LOG_ERROR ("Adding '" +:+ GetClassName c +:+ "' to a '"
                        +:+ GetClassName t +:+ "'");;
         mret true
       else mret false
     else mret false);
  if (rejected : bool) then mret ()
  else
    SetParent child this;;
    t ← deref this;
    store this (set_children (m_children t ++ [child]) t);;
    Modify fuel this true.
End AddChild.

(** The loop of [ClearChildren] over the child array: a child is deleted
    when its parent back-reference is still this object. *)
Fixpoint deleteOwned (destroy : nat → M unit) (this : nat) (iter : list nat) : M unit :=
  match iter with
  | [] => mret ()
  | child :: rest =>
      p ← GetParent child;
      (if bool_decide (p = Some this) then destroy child else mret ());;
      deleteOwned destroy this rest
  end.

(** [Object::ClearChildren]; [delete] of a child runs its destructor, which
    is [ClearChildren] on the child, and releases it.  The fuel bounds the
    depth of the destruction. *)
Fixpoint ClearChildren (fuel : nat) (this : nat) : M unit :=
  match fuel with
  | O => fault
  | S fuel =>
      o ← deref this;
      if m_isReferenceObject o then store this (set_children [] o)
      else
        deleteOwned (λ child, ClearChildren fuel child;; free child) this (m_children o);;
        o ← deref this;
        store this (set_children [] o)
  end.

(** [delete object]: the destructor [Object::~Object], then the release. *)
Definition delete_Object (fuel : nat) (this : nat) : M unit :=
  ClearChildren fuel this;; free this.

End Own.

(** ** The objects below an object, as a tree of addresses *)

Module OwnShape.
Import Own.

#[warnings="-register-all"]
Inductive OTree := ONode {
  root : nat;
  kids : list OTree
}.

(** The addresses of a tree. *)
Fixpoint footprint (t : OTree) : list nat :=
  root t :: flat_map footprint (kids t).

Fixpoint height (t : OTree) : nat :=
  S (fold_right (λ k h, Nat.max (height k) h) 0%nat (kids t)).

(** The store holds the tree [t]: the object at the root exists and,
    unless it is a reference object, its child sequence is the roots of
    the subtrees; each child exists, and a child whose parent is the root
    holds its subtree in turn. *)
Fixpoint Repr (w : World) (t : OTree) : Prop :=
  ∃ o, objs w !! root t = Some o ∧
       (m_isReferenceObject o = false →
        m_children o = map root (kids t) ∧
        fold_right
          (λ k rest,
             (∃ ok, objs w !! root k = Some ok ∧
                    (m_parent ok = Some (root t) → Repr w k)) ∧ rest)
          True (kids t)).

(** The child at the root of [k] has [p] as parent. *)
Definition ownedBy (w : World) (p : nat) (k : OTree) : bool :=
  bool_decide (m_parent <$> objs w !! root k = Some (Some p)).

(** The addresses the teardown of the root of [t] can reach: the root, and
    the subtrees of the children whose parent is the root. *)
Definition reached (w : World) (t : OTree) : list nat :=
  root t :: flat_map (λ k, if ownedBy w (root t) k then footprint k else []) (kids t).

(** The addresses that the destruction of the root of [t] releases: the
    root and, unless the root is a reference object, what the destruction
    of each child whose parent is the root releases in turn. *)
Fixpoint destroyed (w : World) (t : OTree) : list nat :=
  root t ::
    match objs w !! root t with
    | Some o =>
        if m_isReferenceObject o then []
        else flat_map (λ k, if ownedBy w (root t) k then destroyed w k else []) (kids t)
    | None => []
    end.

(** The parent back-references lead from [this] to an object without parent
    in fewer than [n] steps, without passing by [avoid]. *)
Fixpoint rooted (n : nat) (w : World) (avoid : option nat) (this : nat) : Prop :=
  match n with
  | O => False
  | S n =>
      Some this ≠ avoid ∧
      ∃ o, objs w !! this = Some o ∧
           match m_parent o with
           | Some p => rooted n w avoid p
           | None => True
           end
  end.

(** [q] is an ancestor of [this], fewer than [n] steps up. *)
Fixpoint ancestorOf (n : nat) (w : World) (this q : nat) : Prop :=
  match n with
  | O => False
  | S n =>
      ∃ o p, objs w !! this = Some o ∧ m_parent o = Some p ∧
             (p = q ∨ ancestorOf n w p q)
  end.

(** From [w] to [w'] nothing but dirty flags being set has happened. *)
Definition marks (w w' : World) : Prop :=
  logs w' = logs w ∧
  ∀ q, objs w' !! q = objs w !! q ∨
       ∃ o, objs w !! q = Some o ∧ objs w' !! q = Some (set_isModified true o).

Definition isModifiedOf (w : World) (p : nat) : option bool :=
  m_isModified <$> objs w !! p.

(** From [w] to [w'] no object appears and no parent changes. *)
Definition shrinks (w w' : World) : Prop :=
  ∀ q o', objs w' !! q = Some o' →
          ∃ o, objs w !! q = Some o ∧ m_parent o' = m_parent o.

(** From [w] to [w'] the objects without parent are kept as they are,
    except maybe [this]. *)
Definition keepsUnowned (this : option nat) (w w' : World) : Prop :=
  ∀ q o, objs w !! q = Some o → m_parent o = None → Some q ≠ this →
         objs w' !! q = Some o.

End OwnShape.

(** ** Objects used in the examples *)

Definition noDrawing : Drawing :=
  mkDrawing true None None None None false SCOREDEF_NONE (None, None).

Definition noStaffDef : StaffDefElements ObjAttr :=
  mkStaffDefElements None None None None.

(** An object of the given class that is in no class range and visible. *)
Definition plain (id : nat) (classId : ClassId) : ObjAttr :=
  mkAttr id classId false false false false Visible None noDrawing noStaffDef noStaffDef.

(** An editorial element with the given visibility. *)
Definition editorial (id : nat) (classId : ClassId) (v : VisibilityType) : ObjAttr :=
  mkAttr id classId true false false false v None noDrawing noStaffDef noStaffDef.

(** A layer element with the given drawing attributes. *)
Definition layerElement (id : nat) (classId : ClassId) (d : Drawing) : ObjAttr :=
  mkAttr id classId false false false true Visible None d noStaffDef noStaffDef.

Definition leaf (a : ObjAttr) : Object := mkObject a [].

(** A function-pointer functor that visits everything. *)
Definition visitAll : Functor unit :=
  mkFunctor false (fun _ p => (FUNCTOR_CONTINUE, p)).

(** The same built by the constructor of [Functor], which makes it
    visible-only. *)
Definition visitVisible : Functor unit :=
  newFunctor (fun _ p => (FUNCTOR_CONTINUE, p)).

(** A function-pointer functor that stops on the object with the given
    identity, as a search does on its match. *)
Definition stopAt (id : nat) : Functor unit :=
  mkFunctor false
    (fun a p => (if Nat.eqb (m_id a) id then FUNCTOR_STOP else FUNCTOR_CONTINUE, p)).

(** A functor object with an end interface: the visit stops on the object
    with the given identity, the end visit continues. *)
Definition stopAtWithEnd (id : nat) : MutableFunctor unit :=
  mkMutableFunctor FORWARD false None true
    (fun a s => (if Nat.eqb (m_id a) id then FUNCTOR_STOP else FUNCTOR_CONTINUE, s))
    (fun a s => (FUNCTOR_CONTINUE, s)).

(** A parent with two children. *)
Definition twoChildren : Object :=
  mkObject (plain 0 OTHER_CLASS) [leaf (plain 1 NOTE); leaf (plain 2 NOTE)].

(** A section with a staff and a layer below it: no editorial wrapper. *)
Definition chainOfThree : Object :=
  mkObject (plain 0 SECTION) [ mkObject (plain 1 STAFF) [leaf (plain 2 LAYER)] ].

(** An editorial wrapper with one child. *)
Definition wrapperWithChild : Object :=
  mkObject (editorial 0 APP Visible) [leaf (plain 1 NOTE)].

(** A note below a wrapper, next to a note with a child of its own. *)
Definition wrappedNotes : Object :=
  mkObject (plain 0 LAYER)
    [ mkObject (editorial 1 APP Visible)
        [ mkObject (plain 2 NOTE) [leaf (plain 3 OTHER_CLASS)] ];
      mkObject (plain 4 NOTE) [leaf (plain 5 OTHER_CLASS)] ].

(** A layer with three notes, the second with a child of its own. *)
Definition threeNotes : Object :=
  mkObject (plain 0 LAYER)
    [ leaf (plain 3 NOTE);
      mkObject (plain 4 NOTE) [leaf (plain 5 OTHER_CLASS)];
      leaf (plain 6 NOTE) ].

(** A visitor that skips the subtree of the object with the given
    identity. *)
Definition siblingsAt (id : nat) : Functor unit :=
  mkFunctor false
    (fun a p => (if Nat.eqb (m_id a) id then FUNCTOR_SIBLINGS else FUNCTOR_CONTINUE, p)).

Definition siblingsAtFunctor (id : nat) : MutableFunctor unit :=
  mkMutableFunctor FORWARD false None true
    (fun a s => (if Nat.eqb (m_id a) id then FUNCTOR_SIBLINGS else FUNCTOR_CONTINUE, s))
    (fun a s => (FUNCTOR_CONTINUE, s)).

(** A list owner whose only child is a hidden editorial element with a
    text below it. *)
Definition hiddenReading : Object :=
  mkObject (plain 0 OTHER_CLASS)
    [ mkObject (editorial 1 APP Hidden) [leaf (plain 2 TEXT)] ].

(** A list owner with a text and a line break below a visible editorial
    element, and a note. *)
Definition shownReading : Object :=
  mkObject (plain 0 OTHER_CLASS)
    [ mkObject (editorial 1 APP Visible) [leaf (plain 2 TEXT); leaf (plain 3 LB)];
      leaf (plain 4 NOTE) ].

(** A list owner whose first child is a line break, followed by a text. *)
Definition lineBreakFirst : Object :=
  mkObject (plain 0 OTHER_CLASS) [leaf (plain 1 LB); leaf (plain 2 TEXT)].

(** The tree of the overflow scenario: a measure with a visible staff bound
    to the staff alignment 100, a layer, and in the layer a note and a beam
    that is not cross-staff but has cross-staff content; both draw
    something and lie on the staff alignment 100. *)
Definition scenarioStaff : ObjAttr :=
  mkAttr 1 STAFF false false false false Visible None
    (mkDrawing true (Some 100%nat) None None None false SCOREDEF_NONE (None, None))
    noStaffDef noStaffDef.

Definition scenarioNoteA : ObjAttr :=
  layerElement 3 NOTE
    (mkDrawing true None None None None true SCOREDEF_NONE (Some 100%nat, Some 100%nat)).

Definition scenarioBeam : ObjAttr :=
  layerElement 4 BEAM
    (mkDrawing true None None (Some 7%nat) None true SCOREDEF_NONE
       (Some 100%nat, Some 100%nat)).

Definition scenario : Object :=
  mkObject (plain 0 OTHER_CLASS)
    [ mkObject scenarioStaff
        [ mkObject (plain 2 LAYER) [leaf scenarioNoteA; leaf scenarioBeam] ] ].

(** ** Worlds used in the examples *)

Module OwnExamples.
Import Own.

Definition object (name : string) (parent : option nat) (children : list nat) : Obj :=
  mkObj name parent children false false.

(** A section (address 1) without children and a staff (address 2) without
    parent. *)
Definition sectionAndStaff : World :=
  mkWorld (<[1%nat := object "Section" None []]>
            (<[2%nat := object "Staff" None []]> ∅)) [].

(** A measure (address 1) without children and a note (address 2) without
    parent. *)
Definition measureAndNote : World :=
  mkWorld (<[1%nat := object "Measure" None []]>
            (<[2%nat := object "Note" None []]> ∅)) [].

(** Two layers: layer 1 owns the notes 3 and 4, layer 2 owns the note 5. *)
Definition twoLayers : World :=
  mkWorld (<[1%nat := object "Layer" None [3; 4]%nat]>
            (<[2%nat := object "Layer" None [5]%nat]>
              (<[3%nat := object "Note" (Some 1%nat) []]>
                (<[4%nat := object "Note" (Some 1%nat) []]>
                  (<[5%nat := object "Note" (Some 2%nat) []]> ∅))))) [].

(** The scenario of moving the first child of [P] to the front of [Q], as
    [Object::MoveChildrenFrom] does it for each child: the child is
    relinquished, its parent is set, and it is inserted. *)
Definition moveFirstChild (P Q : nat) : M (option nat) :=
  child ← Relinquish P 0;
  match child with
  | Some c => SetParent c Q;; InsertChild Q c 0;; mret (Some c)
  | None => mret None
  end.

(** The same without setting the parent before the insertion. *)
Definition moveFirstChildUnparented (P Q : nat) : M (option nat) :=
  child ← Relinquish P 0;
  match child with
  | Some c => InsertChild Q c 0;; mret (Some c)
  | None => mret None
  end.

(** The children of an object in a world. *)
Definition childrenOf (w : World) (p : nat) : option (list nat) :=
  m_children <$> objs w !! p.

(** The parent back-reference of an object in a world. *)
Definition parentOf (w : World) (p : nat) : option (option nat) :=
  m_parent <$> objs w !! p.

End OwnExamples.

(** ** A world with a relinquished child *)

Module TeardownExample.
Import Own OwnShape OwnExamples.

(** Layer 1 has the children 3, 4 and 5; note 3 is owned by the layer and
    owns the stem 6; note 4 has been relinquished; note 5 has been
    relinquished and inserted into layer 2; both are still in the child
    sequence of layer 1. *)
Definition layerWithRelinquishedNote : World :=
  mkWorld (<[1%nat := object "Layer" None [3; 4; 5]%nat]>
            (<[2%nat := object "Layer" None [5]%nat]>
              (<[3%nat := object "Note" (Some 1%nat) [6%nat]]>
                (<[4%nat := object "Note" None []]>
                  (<[5%nat := object "Note" (Some 2%nat) []]>
                    (<[6%nat := object "Stem" (Some 3%nat) []]> ∅)))))) [].

Definition layerTree : OTree :=
  ONode 1 [ONode 3 [ONode 6 []]; ONode 4 []; ONode 5 []].

(** A comparison that selects the objects that have children. *)
Definition hasChildren (_ : nat) (c : Obj) : bool :=
  negb (Nat.eqb (length (m_children c)) 0).

End TeardownExample.

(** * Further members of [Object] and of the list interfaces *)

(** ** [Object::HasDescendant] *)

(** The loop of [HasDescendant] over the child array: the depth is tested
    inside the loop, after the comparison with the child at hand.  [below]
    is [HasDescendant] on a child. *)
Fixpoint HasDescendant_loop (below : Object → bool) (child : nat) (deepness : Z)
    (iter : list Object) : bool :=
  match iter with
  | [] => false
  | c :: rest =>
      if Nat.eqb child (m_id (attr c)) then true
      else if deepness =? 0 then false
      else if below c then true
      else HasDescendant_loop below child deepness rest
  end.

(** [Object::HasDescendant]; [child] is compared with the children by
    identity. *)
Fixpoint HasDescendant (this : Object) (child : nat) (deepness : Z) {struct this} : bool :=
  match this with
  | mkObject _ children =>
      (fix loop (iter : list Object) : bool :=
         match iter with
         | [] => false
         | c :: rest =>
             if Nat.eqb child (m_id (attr c)) then true
             else if deepness =? 0 then false
             else if HasDescendant c child (deepness - 1) then true
             else loop rest
         end) children
  end.

(** The identities of the objects below an object, in document order. *)
Definition descendants (this : Object) : list nat :=
  map (λ o, m_id (attr o)) (flat_map subobjects (m_children this)).

(** ** Reading the cached list: [ObjectListInterface] *)

Section ListQueries.
(** [ObjectComparison] is defined in a header that is not part of the
    sources; it is what its call operator answers for the class it was built
    with and an object. *)
Variable ObjectComparison : ClassId → ObjAttr → bool.

(** The list member; a list element is compared with an object by
    identity. *)
Variable m_list : list ObjAttr.

(** The loop of [GetListIndex] from the position [i] on. *)
Fixpoint GetListIndex_loop (listElement : nat) (iter : list ObjAttr) (i : Z) : Z :=
  match iter with
  | [] => -1
  | x :: rest =>
      if Nat.eqb listElement (m_id x) then i
      else GetListIndex_loop listElement rest (i + 1)
  end.

(** [ObjectListInterface::GetListIndex] *)
Definition GetListIndex (listElement : nat) : Z :=
  GetListIndex_loop listElement m_list 0.

(** The loop of [GetListPrevious]: [before] is the element [--iter] gives,
    which exists when [i > 0]. *)
Fixpoint GetListPrevious_loop (listElement : nat) (before : option ObjAttr)
    (iter : list ObjAttr) : option ObjAttr :=
  match iter with
  | [] => None
  | x :: rest =>
      if Nat.eqb listElement (m_id x) then before
      else GetListPrevious_loop listElement (Some x) rest
  end.

(** [ObjectListInterface::GetListPrevious] *)
Definition GetListPrevious (listElement : nat) : option ObjAttr :=
  GetListPrevious_loop listElement None m_list.

(** [ObjectListInterface::GetListNext]: the same loop over the reverse
    iterators, where [--iter] gives the element that follows in the list. *)
Definition GetListNext (listElement : nat) : option ObjAttr :=
  GetListPrevious_loop listElement None (rev m_list).

(** [ObjectListInterface::GetListFirst]: [std::find_if] from the position of
    [startFrom] to the end. *)
Definition GetListFirst (startFrom : nat) (classId : ClassId) : option ObjAttr :=
  let idx := GetListIndex startFrom in
  if idx =? -1 then None
  else List.find (ObjectComparison classId) (drop (Z.to_nat idx) m_list).

(** [ObjectListInterface::GetListFirstBackward]: the reverse iterator built
    from the position of [startFrom] starts at the element before it. *)
Definition GetListFirstBackward (startFrom : nat) (classId : ClassId) : option ObjAttr :=
  let idx := GetListIndex startFrom in
  if idx =? -1 then None
  else List.find (ObjectComparison classId) (rev (take (Z.to_nat idx) m_list)).

End ListQueries.

(** ** Iterating over the children: [GetFirst], [GetNext], [GetLast] *)

(** The iterator members of [Object]; an iterator into the child array is a
    position, and the end iterator is the size of the array. *)
Record ChildIterator := mkChildIterator {
  m_iteratorElementType : ClassId;
  m_iteratorEnd : nat;
  m_iteratorCurrent : nat
}.

(** [std::find_if(first, last, pred)], with [iter] the elements from [first]
    to [last]: the position of the first match, or [last]. *)
Fixpoint find_if {A : Type} (pred : A → bool) (iter : list A) (first : nat) : nat :=
  match iter with
  | [] => first
  | x :: rest => if pred x then first else find_if pred rest (S first)
  end.

Section ChildIteration.
Variable ObjectComparison : ClassId → ObjAttr → bool.

(** What [(it == end) ? NULL : *it] gives. *)
Definition at_iterator (this : Object) (last it : nat) : option Object :=
  if Nat.eqb it last then None else m_children this !! it.

(** [Object::GetFirst]: the child found and the iterator members. *)
Definition GetFirst (this : Object) (classId : ClassId) : option Object * ChildIterator :=
  let last := length (m_children this) in
  let current :=
    find_if (λ c, ObjectComparison classId (attr c)) (m_children this) 0 in
  (at_iterator this last current, mkChildIterator classId last current).

(** [Object::GetNext()]; incrementing the end iterator is a fault. *)
Definition GetNext (this : Object) (it : ChildIterator)
    : option (option Object * ChildIterator) :=
  if (m_iteratorEnd it <=? m_iteratorCurrent it)%nat then None
  else
    let current := S (m_iteratorCurrent it) in
    let current :=
      find_if (λ c, ObjectComparison (m_iteratorElementType it) (attr c))
              (drop current (take (m_iteratorEnd it) (m_children this))) current in
    Some (at_iterator this (m_iteratorEnd it) current,
          mkChildIterator (m_iteratorElementType it) (m_iteratorEnd it) current).

(** [Object::GetNext(const Object *child, const ClassId classId)] *)
Definition GetNext_after (this : Object) (child : nat) (classId : ClassId) : option Object :=
  let last := length (m_children this) in
  let current := find_if (λ c, Nat.eqb child (m_id (attr c))) (m_children this) 0 in
  let current :=
    if negb (Nat.eqb current last) then
      find_if (λ c, ObjectComparison classId (attr c))
              (drop (S current) (m_children this)) (S current)
    else current in
  at_iterator this last current.

(** [Object::GetPrevious(const Object *child, const ClassId classId)]: the
    same over the reverse iterators; the result is the child found. *)
Definition GetPrevious_before (this : Object) (child : nat) (classId : ClassId)
    : option Object :=
  let children := rev (m_children this) in
  let last := length children in
  let current := find_if (λ c, Nat.eqb child (m_id (attr c))) children 0 in
  let current :=
    if negb (Nat.eqb current last) then
      find_if (λ c, ObjectComparison classId (attr c))
              (drop (S current) children) (S current)
    else current in
  if Nat.eqb current last then None else children !! current.

(** [Object::GetLast] *)
Definition GetLast (this : Object) (classId : ClassId) : option Object :=
  let children := rev (m_children this) in
  let riter := find_if (λ c, ObjectComparison classId (attr c)) children 0 in
  if Nat.eqb riter (length children) then None else children !! riter.

(** [GetFirst] followed by [n] calls of [GetNext]: the child the last call
    returned. *)
Fixpoint nth_call (this : Object) (classId : ClassId) (n : nat)
    : option (option Object * ChildIterator) :=
  match n with
  | O => Some (GetFirst this classId)
  | S n =>
      match nth_call this classId n with
      | Some (_, it) => GetNext this it
      | None => None
      end
  end.

End ChildIteration.

(** ** Saving: [Object::SaveObject], [Object::Save], [Object::SaveEnd] *)

Section Save.
(** [Output::WriteObject] and [Output::WriteObjectEnd] are virtual methods of
    a class that is not part of the sources: what they answer and what they
    do to the output, of type [O]. *)
Context {O : Type}.
Variable WriteObject : ObjAttr → O → bool * O.
Variable WriteObjectEnd : ObjAttr → O → bool * O.
Variable UNLIMITED_DEPTH : Z.

(** [Object::Save]; the parameters are the output. *)
Definition Save (this : ObjAttr) (m_output : O) : FunctorCode * O :=
  let '(written, m_output) := WriteObject this m_output in
  if negb written then (FUNCTOR_STOP, m_output) else (FUNCTOR_CONTINUE, m_output).

(** [Object::SaveEnd] *)
Definition SaveEnd (this : ObjAttr) (m_output : O) : FunctorCode * O :=
  let '(written, m_output) := WriteObjectEnd this m_output in
  if negb written then (FUNCTOR_STOP, m_output) else (FUNCTOR_CONTINUE, m_output).

(** [Object::SaveObject]: the [save] functor has [m_visibleOnly] switched
    off.  Modelled from the spec: the default arguments of [Process] are
    given in its declaration, which is not part of the sources (no filters,
    no depth limit, forward, the object itself included).  The result is the
    value returned, which is always [true], and the output. *)
Definition SaveObject (this : Object) (saveParams : O) : bool * O :=
  let save := mkFunctor false Save in
  let saveEnd := newFunctor SaveEnd in
  (true,
   functorParams
     (Process save (Some saveEnd) None FORWARD UNLIMITED_DEPTH false this
              (initialState saveParams None))).

End Save.

(** What an output is asked to write. *)
Inductive SaveEvent :=
  | Written (a : ObjAttr)
  | WrittenEnd (a : ObjAttr).

(** The writes of a whole subtree: the object, its children in order, and
    the end of the object. *)
Fixpoint serialization (this : Object) : list SaveEvent :=
  Written (attr this) :: flat_map serialization (m_children this)
    ++ [WrittenEnd (attr this)].

(** Words in which every [Written] is closed by the [WrittenEnd] of the
    same object, properly nested. *)
Inductive Nested : list SaveEvent → Prop :=
  | Nested_nil : Nested []
  | Nested_cons a inner rest :
      Nested inner → Nested rest →
      Nested (Written a :: inner ++ WrittenEnd a :: rest).

Section SaveRecorded.
Context {O : Type}.
Variable WriteObject : ObjAttr → O → bool * O.
Variable WriteObjectEnd : ObjAttr → O → bool * O.

(** The effect of one write on the output. *)
Definition write (out : O) (e : SaveEvent) : O :=
  match e with
  | Written a => snd (WriteObject a out)
  | WrittenEnd a => snd (WriteObjectEnd a out)
  end.

(** The two methods of an output that also records what it is asked to
    write. *)
Definition recording_WriteObject (a : ObjAttr) (out : O * list SaveEvent) :=
  let '(written, o) := WriteObject a (fst out) in
  (written, (o, snd out ++ [Written a])).

Definition recording_WriteObjectEnd (a : ObjAttr) (out : O * list SaveEvent) :=
  let '(written, o) := WriteObjectEnd a (fst out) in
  (written, (o, snd out ++ [WrittenEnd a])).

End SaveRecorded.

(** ** Text of a list: [TextListInterface::GetText], [GetTextLines] *)

Section TextListInterface.
(** [Text::GetText] is not part of the sources; a [std::u32string] is the
    list of its code points. *)
Variable Text_GetText : ObjAttr → list Z.
Variable UNLIMITED_DEPTH : Z.

(** The [vrv_cast] of a list element to [const Text *] followed by
    [text->GetText()]: the call is defined when the object is a [Text]. *)
Definition text_of (it : ObjAttr) : option (list Z) :=
  if Is it TEXT then Some (Text_GetText it) else None.

(** The loop of [GetText] over the list. *)
Fixpoint GetText_loop (iter : list ObjAttr) (concatText : list Z) : option (list Z) :=
  match iter with
  | [] => Some concatText
  | it :: rest =>
      if Is it LB then GetText_loop rest concatText
      else
        match text_of it with
        | Some text => GetText_loop rest (concatText ++ text)
        | None => None
        end
  end.

(** [TextListInterface::GetText]: the text, and the list interface after the
    read of the list. *)
Definition GetText (m_list : list ObjAttr) (n : ListNode)
    : option (list Z) * (list ObjAttr * ListNode) :=
  let '(childList, n) := GetList UNLIMITED_DEPTH TextListInterface_FilterList m_list n in
  (GetText_loop childList [], (childList, n)).

Definition is_empty {A : Type} (l : list A) : bool :=
  match l with [] => true | _ => false end.

(** The loop of [GetTextLines], and the lines pushed after it. *)
Fixpoint GetTextLines_loop (iter : list ObjAttr) (concatText : list Z)
    (lines : list (list Z)) : option (list (list Z)) :=
  match iter with
  | [] => Some (if negb (is_empty concatText) then lines ++ [concatText] else lines)
  | it :: rest =>
      if Is it LB && negb (is_empty concatText) then
        GetTextLines_loop rest [] (lines ++ [concatText])
      else
        match text_of it with
        | Some text => GetTextLines_loop rest (concatText ++ text) lines
        | None => None
        end
  end.

(** [TextListInterface::GetTextLines] *)
Definition GetTextLines (m_list : list ObjAttr) (n : ListNode) (lines : list (list Z))
    : option (list (list Z)) * (list ObjAttr * ListNode) :=
  let '(childList, n) := GetList UNLIMITED_DEPTH TextListInterface_FilterList m_list n in
  (GetTextLines_loop childList [] lines, (childList, n)).

End TextListInterface.

(** ** [Object::GetAlignmentLeftRight] *)

Record GetAlignmentLeftRightParams := mkAlignmentParams {
  m_minLeft : Z;
  m_maxRight : Z;
  m_excludeClasses : list ClassId
}.

Section GetAlignmentLeftRight.
(** [BoundingBox::HasEmptyBB], [GetSelfLeft] and [GetSelfRight] are not part
    of the sources. *)
Variable HasEmptyBB : ObjAttr → bool.
Variable GetSelfLeft : ObjAttr → Z.
Variable GetSelfRight : ObjAttr → Z.

(** [Object::GetAlignmentLeftRight] *)
Definition GetAlignmentLeftRight (this : ObjAttr) (params : GetAlignmentLeftRightParams)
    : FunctorCode * GetAlignmentLeftRightParams :=
  if negb (IsLayerElement this) then (FUNCTOR_CONTINUE, params)
  else if negb (HasSelfBB (drawing this)) || HasEmptyBB this then (FUNCTOR_CONTINUE, params)
  else if existsb (Is this) (m_excludeClasses params) then (FUNCTOR_CONTINUE, params)
  else
    let refLeft := GetSelfLeft this in
    let params :=
      if m_minLeft params >? refLeft
      then mkAlignmentParams refLeft (m_maxRight params) (m_excludeClasses params)
      else params in
    let refRight := GetSelfRight this in
    let params :=
      if m_maxRight params <? refRight
      then mkAlignmentParams (m_minLeft params) refRight (m_excludeClasses params)
      else params in
    (FUNCTOR_CONTINUE, params).

(** The objects the pass measures. *)
Definition measured (excluded : list ClassId) (a : ObjAttr) : bool :=
  IsLayerElement a && HasSelfBB (drawing a) && negb (HasEmptyBB a)
  && negb (existsb (Is a) excluded).

End GetAlignmentLeftRight.

(** ** Rearranging and deleting children *)

Module Rearrange.
Import Own.

(** The loop of [GetChildIndex] from the position [i] on. *)
Fixpoint GetChildIndex_loop (child : nat) (iter : list nat) (i : Z) : Z :=
  match iter with
  | [] => -1
  | x :: rest =>
      if bool_decide (child = x) then i else GetChildIndex_loop child rest (i + 1)
  end.

(** [Object::GetChildIndex] *)
Definition GetChildIndex (this child : nat) : M Z :=
  o ← deref this; mret (GetChildIndex_loop child (m_children o) 0).

(** [Object::GetChild(int idx)] *)
Definition GetChild (this : nat) (idx : Z) : M (option nat) :=
  o ← deref this;
  if (idx <? 0) || (idx >=? Z.of_nat (length (m_children o))) then mret None
  else
    match m_children o !! Z.to_nat idx with
    | Some child => mret (Some child)
    | None => fault
    end.

(** [Object::GetIdx]: [assert(m_parent)] *)
Definition GetIdx (this : nat) : M Z :=
  o ← deref this;
  match m_parent o with
  | None => fault
  | Some parent => GetChildIndex parent this
  end.

(** The loop of [MoveChildrenFrom] from the index [i] on; the size of the
    child array of the source is read at each turn, and the fuel bounds the
    number of turns. *)
Fixpoint MoveChildrenFrom_loop (fuel : nat) (this sourceParent : nat) (i idx : Z)
    : M unit :=
  match fuel with
  | O => fault
  | S fuel =>
      s ← deref sourceParent;
      if i <? Z.of_nat (length (m_children s)) then
        child ← Relinquish sourceParent i;
        match child with
        | None => fault
        | Some child =>
            SetParent child this;;
            if negb (idx =? -1) then
              InsertChild this child idx;;
              MoveChildrenFrom_loop fuel this sourceParent (i + 1) (idx + 1)
            else
              t ← deref this;
              store this (set_children (m_children t ++ [child]) t);;
              MoveChildrenFrom_loop fuel this sourceParent (i + 1) idx
        end
      else mret ()
  end.

(** [Object::MoveChildrenFrom].  The two [assert] at its head are given a
    string literal, which is never null: they check nothing.  The second one
    is guarded by a comparison of the classes of the two objects, which
    reads both. *)
Definition MoveChildrenFrom (fuel : nat) (this sourceParent : nat) (idx : Z)
    (allowTypeChange : bool) : M unit :=
  (if negb allowTypeChange then deref this;; deref sourceParent;; mret () else mret ());;
  MoveChildrenFrom_loop fuel this sourceParent 0 idx.

(** The first [n] turns of the loop of [MoveChildrenFrom] from the index
    [i] on: the position [(i, idx)] the loop has come to once they are
    made, and [None] when the loop has ended before. *)
Fixpoint MoveChildrenFrom_turns (n : nat) (this sourceParent : nat) (i idx : Z)
    : M (option (Z * Z)) :=
  match n with
  | O => mret (Some (i, idx))
  | S n =>
      s ← deref sourceParent;
      if i <? Z.of_nat (length (m_children s)) then
        child ← Relinquish sourceParent i;
        match child with
        | None => fault
        | Some child =>
            SetParent child this;;
            if negb (idx =? -1) then
              InsertChild this child idx;;
              MoveChildrenFrom_turns n this sourceParent (i + 1) (idx + 1)
            else
              t ← deref this;
              store this (set_children (m_children t ++ [child]) t);;
              MoveChildrenFrom_turns n this sourceParent (i + 1) idx
        end
      else mret None
  end.

(** [m_children.at(idx) = replacingChild] *)
Definition assign_at (this : nat) (idx : Z) (child : nat) : M unit :=
  o ← deref this;
  if (idx <? 0) || (idx >=? Z.of_nat (length (m_children o))) then fault
  else store this (set_children (<[Z.to_nat idx := child]> (m_children o)) o).

(** [Object::ReplaceChild]; [Modify()] is called with its default argument
    [true]. *)
Definition ReplaceChild (fuel : nat) (this currentChild replacingChild : nat) : M unit :=
  i ← GetChildIndex this currentChild;
  if i =? -1 then fault
  else
    j ← GetChildIndex this replacingChild;
    if negb (j =? -1) then fault
    else
      idx ← GetChildIndex this currentChild;
      ResetParent currentChild;;
      assign_at this idx replacingChild;;
      SetParent replacingChild this;;
      Modify fuel this true.

(** [Object::InsertBefore] *)
Definition InsertBefore (fuel : nat) (this child newChild : nat) : M unit :=
  i ← GetChildIndex this child;
  if i =? -1 then fault
  else
    j ← GetChildIndex this newChild;
    if negb (j =? -1) then fault
    else
      idx ← GetChildIndex this child;
      SetParent newChild this;;
      InsertChild this newChild idx;;
      Modify fuel this true.

(** [Object::InsertAfter] *)
Definition InsertAfter (fuel : nat) (this child newChild : nat) : M unit :=
  i ← GetChildIndex this child;
  if i =? -1 then fault
  else
    j ← GetChildIndex this newChild;
    if negb (j =? -1) then fault
    else
      idx ← GetChildIndex this child;
      SetParent newChild this;;
      InsertChild this newChild (idx + 1);;
      Modify fuel this true.

Section MoveItselfTo.
Variable IsSupportedChild : Obj → Obj → bool * list (LogLevel * string).

(** [Object::MoveItselfTo]; a pointer of the store is never null, so
    [assert(targetParent)] holds. *)
Definition MoveItselfTo (fuel : nat) (this targetParent : nat) : M unit :=
  o ← deref this;
  match m_parent o with
  | None => fault
  | Some parent =>
      if bool_decide (parent = targetParent) then fault
      else
        idx ← GetIdx this;
        relinquishedObject ← Relinquish parent idx;
        if negb (bool_decide (relinquishedObject = Some this)) then fault
        else AddChild IsSupportedChild fuel targetParent this
  end.
End MoveItselfTo.

(** [Object::DeleteChild]: [std::find] gives the first position that holds
    the child; [assert(false)] when there is none. *)
Definition DeleteChild (fuel : nat) (this child : nat) : M bool :=
  o ← deref this;
  let it := find_if (λ x, bool_decide (x = child)) (m_children o) 0 in
  if negb (Nat.eqb it (length (m_children o))) then
    store this (set_children (delete it (m_children o)) o);;
    (if negb (m_isReferenceObject o) then delete_Object fuel child else mret ());;
    Modify fuel this true;;
    mret true
  else fault.

Section DeleteChildrenByComparison.
(** [Comparison] is not part of the sources; a comparison is what its call
    operator answers for an object: its address and what it holds. *)
Variable comparison : nat → Obj → bool.

(** The loop of [DeleteChildrenByComparison]: [iter] is the position of the
    iterator in the child array; [erase] leaves it at the element that
    follows the erased one.  Each turn erases an element or moves the
    iterator on; [turns] bounds the number of turns. *)
Fixpoint DeleteChildrenByComparison_loop (turns fuel : nat) (this : nat) (iter : nat)
    (count : Z) : M Z :=
  match turns with
  | O => fault
  | S turns =>
      o ← deref this;
      match m_children o !! iter with
      | None => mret count
      | Some child =>
          c ← deref child;
          if comparison child c then
            (if negb (m_isReferenceObject o) then delete_Object fuel child else mret ());;
            o ← deref this;
            store this (set_children (delete iter (m_children o)) o);;
            DeleteChildrenByComparison_loop turns fuel this iter (count + 1)
          else
            DeleteChildrenByComparison_loop turns fuel this (S iter) count
      end
  end.

(** [Object::DeleteChildrenByComparison] *)
Definition DeleteChildrenByComparison (turns fuel : nat) (this : nat) : M Z :=
  count ← DeleteChildrenByComparison_loop turns fuel this 0 0;
  (if count >? 0 then Modify fuel this true else mret ());;
  mret count.

(** What the comparison answers for the object at an address. *)
Definition selected (w : World) (child : nat) : bool :=
  match objs w !! child with
  | Some c => comparison child c
  | None => false
  end.
End DeleteChildrenByComparison.

End Rearrange.

(** ** The ancestors of an object *)

Module Lineage.
Import Own Rearrange.

(** The loop of [GetAncestors]; the fuel bounds the walk up the parent
    back-references. *)
Fixpoint GetAncestors_loop (fuel : nat) (object : option nat) : M (list nat) :=
  match object with
  | None => mret []
  | Some p =>
      match fuel with
      | O => fault
      | S fuel =>
          o ← deref p;
          ancestors ← GetAncestors_loop fuel (m_parent o);
          mret (p :: ancestors)
      end
  end.

(** [Object::GetAncestors]: the parent first. *)
Definition GetAncestors (fuel : nat) (this : nat) : M (list nat) :=
  o ← deref this; GetAncestors_loop fuel (m_parent o).

Section ByClass.
(** The class of the object at an address: the member [m_classId], which is
    written when the object is constructed or assigned. *)
Variable m_classId : nat → ClassId.

(** [Object::GetFirstAncestor] *)
Fixpoint GetFirstAncestor (fuel : nat) (this : nat) (classId : ClassId) (maxDepth : Z)
    : M (option nat) :=
  match fuel with
  | O => fault
  | S fuel =>
      o ← deref this;
      if maxDepth =? 0 then mret None
      else
        match m_parent o with
        | None => mret None
        | Some parent =>
            deref parent;;
            if ClassId_eqb (m_classId parent) classId then mret (Some parent)
            else GetFirstAncestor fuel parent classId (maxDepth - 1)
        end
  end.

(** [Object::GetLastAncestorNot] *)
Fixpoint GetLastAncestorNot (fuel : nat) (this : nat) (classId : ClassId) (maxDepth : Z)
    : M (option nat) :=
  match fuel with
  | O => fault
  | S fuel =>
      o ← deref this;
      if maxDepth =? 0 then mret None
      else
        match m_parent o with
        | None => mret None
        | Some parent =>
            deref parent;;
            if ClassId_eqb (m_classId parent) classId then mret (Some this)
            else GetLastAncestorNot fuel parent classId (maxDepth - 1)
        end
  end.
End ByClass.

(** [std::mismatch(first1, last1, first2)]: the first pair of elements that
    differ.  Reading the pair when a range is exhausted is undefined. *)
Fixpoint mismatch (l1 l2 : list nat) : option (nat * nat) :=
  match l1, l2 with
  | x :: l1, y :: l2 => if bool_decide (x = y) then mismatch l1 l2 else Some (x, y)
  | _, _ => None
  end.

(** [Object::IsPreOrdered] *)
Definition IsPreOrdered (fuel : nat) (left right : nat) : M bool :=
  ancestorsLeft ← GetAncestors fuel left;
  let ancestorsLeft := left :: ancestorsLeft in
  if bool_decide (right ∈ ancestorsLeft) then mret false
  else
    ancestorsRight ← GetAncestors fuel right;
    let ancestorsRight := right :: ancestorsRight in
    if bool_decide (left ∈ ancestorsRight) then mret true
    else
      match mismatch (rev ancestorsLeft) (rev ancestorsRight) with
      | None => fault
      | Some (first, second) =>
          f ← deref first;
          match m_parent f with
          | Some commonParent =>
              i ← GetChildIndex commonParent first;
              j ← GetChildIndex commonParent second;
              mret (i <? j)
          | None => mret true
          end
      end.

(** The store holds the tree [t] below the parent [parent]: every object of
    the tree has its parent in the tree as parent back-reference and the
    roots of its subtrees as child sequence. *)
Fixpoint Tree (w : World) (parent : option nat) (t : OwnShape.OTree) : Prop :=
  ∃ o, objs w !! OwnShape.root t = Some o ∧
       m_parent o = parent ∧
       m_children o = map OwnShape.root (OwnShape.kids t) ∧
       fold_right (λ k rest, Tree w (Some (OwnShape.root t)) k ∧ rest) True
                  (OwnShape.kids t).

(** [l] is the object [x] followed by its ancestors up to the root, the
    parent first. *)
Fixpoint lineage (w : World) (l : list nat) (x : nat) : Prop :=
  match l with
  | [] => False
  | y :: l' =>
      y = x ∧
      ∃ o, objs w !! x = Some o ∧
           match l' with
           | [] => m_parent o = None
           | p :: _ => m_parent o = Some p ∧ lineage w l' p
           end
  end.

(** The position of an address in a list of addresses. *)
Fixpoint position (x : nat) (l : list nat) : nat :=
  match l with
  | [] => 0
  | y :: l => if bool_decide (x = y) then 0 else S (position x l)
  end.

End Lineage.

(** ** The factory of objects: [ObjectFactory] *)

Module ObjectFactory.
Import Own.

(** The two registries; a registered constructor builds an object in the
    store and gives its address, or null. *)
Record Factory := mkFactory {
  s_ctorsRegistry : gmap string (M (option nat));
  s_classIdsRegistry : gmap string ClassId
}.

(** [ObjectFactory::Register] *)
Definition Register (name : string) (classId : ClassId) (function : M (option nat))
    (f : Factory) : Factory :=
  mkFactory (<[name := function]> (s_ctorsRegistry f))
            (<[name := classId]> (s_classIdsRegistry f)).

(** [ObjectFactory::Create] *)
Definition Create (f : Factory) (name : string) : M (option nat) :=
  object ←
    match s_ctorsRegistry f !! name with
    | Some function => function
    | None => mret None
    end;
  match object with
  | Some object => mret (Some object)
  | None => Log LOG_ERROR ("Factory for '" +:+ name +:+ "' not found");; mret None
  end.

(** [ObjectFactory::GetClassId] *)
Definition GetClassId (f : Factory) (name : string) : M ClassId :=
  match s_classIdsRegistry f !! name with
  | Some classId => mret classId
  | None => Log LOG_ERROR ("ClassId for '" +:+ name +:+ "' not found");; mret OBJECT
  end.

(** [ObjectFactory::GetClassIds]: the class identifiers are pushed at the
    back of [classIds]. *)
Fixpoint GetClassIds (f : Factory) (classStrings : list string) (classIds : list ClassId)
    : M (list ClassId) :=
  match classStrings with
  | [] => mret classIds
  | str :: rest =>
      match s_classIdsRegistry f !! str with
      | Some classId => GetClassIds f rest (classIds ++ [classId])
      | None =>
          Log LOG_DEBUG ("Class name '" +:+ str +:+ "' could not be matched");;
          GetClassIds f rest classIds
      end
  end.

End ObjectFactory.

(** * Properties of the traversal *)

(** Induction over an object with the property known for its children. *)
Lemma Object_children_ind (Q : Object → Prop) :
  (∀ a children, Forall Q children → Q (mkObject a children)) →
  ∀ this, Q this.
Proof.
  intros step. fix IH 1. intros [a children]. apply step.
  induction children as [|c children IHc]; constructor; [apply IH | exact IHc].
Qed.

Section ProcessFacts.
Context {P : Type}.
Variable functor : Functor P.
Variable endFunctor : option (Functor P).
Variable filters : option Filters.
Variable direction : bool.

Local Abbreviation Process' := (Process functor endFunctor filters direction).
Local Abbreviation ProcessChild' := (ProcessChild functor endFunctor filters direction).
Local Abbreviation ProcessChildren' := (ProcessChildren functor endFunctor filters direction).

(** The body of [Process], with its child loop named. *)
Lemma Process_eq deepness skipFirst this (st : ProcessState P) :
  Process' deepness skipFirst this st =
    if FunctorCode_eqb (m_returnCode st) FUNCTOR_STOP then st
    else
      let st1 := UpdateDocumentScore direction this st in
      let st2 := if skipFirst then st1 else Call functor this st1 in
      if FunctorCode_eqb (m_returnCode st2) FUNCTOR_SIBLINGS then
        set_returnCode FUNCTOR_CONTINUE st2
      else
        let d1 := if IsEditorialElement (attr this) then deepness + 1 else deepness in
        if d1 =? 0 then st2
        else
          let st3 :=
            if negb (SkipChildren (attr this) (m_visibleOnly functor))
            then ProcessChildren' (d1 - 1) (m_children this) st2
            else st2 in
          match endFunctor with
          | Some e => if skipFirst then st3 else CallEnd e this st3
          | None => st3
          end.
Proof. destruct this as [a children]. reflexivity. Qed.

(** Both loops are a left fold over the children in visiting order. *)
Lemma ProcessChildren_eq deepness children (st : ProcessState P) :
  ProcessChildren' deepness children st =
    fold_left (ProcessChild' deepness) (visitingOrder direction children) st.
Proof.
  unfold ProcessChildren, visitingOrder.
  destruct (Bool.eqb direction BACKWARD); [|reflexivity].
  rewrite <- (rev_involutive children) at 1.
  rewrite fold_left_rev_right. reflexivity.
Qed.

(** A traversal entered with STOP does nothing. *)
Lemma Process_STOP deepness skipFirst this (st : ProcessState P) :
  m_returnCode st = FUNCTOR_STOP → Process' deepness skipFirst this st = st.
Proof. intros H. rewrite Process_eq, H. reflexivity. Qed.

Lemma ProcessChild_STOP deepness this (st : ProcessState P) :
  m_returnCode st = FUNCTOR_STOP → ProcessChild' deepness st this = st.
Proof.
  intros H. unfold ProcessChild.
  destruct (FiltersApply filters this); [apply Process_STOP, H | reflexivity].
Qed.

Lemma fold_ProcessChild_STOP deepness children (st : ProcessState P) :
  m_returnCode st = FUNCTOR_STOP →
  fold_left (ProcessChild' deepness) children st = st.
Proof.
  intros H. induction children as [|c children IH]; simpl; [reflexivity|].
  rewrite ProcessChild_STOP by exact H. exact IH.
Qed.

Lemma ProcessChildren_STOP deepness children (st : ProcessState P) :
  m_returnCode st = FUNCTOR_STOP → ProcessChildren' deepness children st = st.
Proof. intros H. rewrite ProcessChildren_eq. apply fold_ProcessChild_STOP, H. Qed.

(** A visit that answers SIBLINGS ends the call: the code is back to
    CONTINUE and nothing but the visit has happened. *)
Lemma Process_SIBLINGS deepness this (st : ProcessState P) p :
  m_returnCode st ≠ FUNCTOR_STOP →
  obj_fpt functor (attr this) (functorParams st) = (FUNCTOR_SIBLINGS, p) →
  Process' deepness false this st =
    mkState FUNCTOR_CONTINUE (end_returnCode st) p
            (currentScore (UpdateDocumentScore direction this st)).
Proof.
  intros Hst Hv. rewrite Process_eq.
  destruct (m_returnCode st) eqn:Hc; try congruence; simpl;
    unfold Call;
    replace (functorParams (UpdateDocumentScore direction this st))
      with (functorParams st)
      by (unfold UpdateDocumentScore;
          repeat (match goal with |- context [if ?b then _ else _] => destruct b
                             | |- context [match ?x with _ => _ end] => destruct x end;
                  simpl); reflexivity);
    rewrite Hv; simpl;
    unfold set_returnCode; simpl; f_equal;
    unfold UpdateDocumentScore;
    repeat (match goal with |- context [if ?b then _ else _] => destruct b
                       | |- context [match ?x with _ => _ end] => destruct x end;
            simpl); reflexivity.
Qed.

End ProcessFacts.

(** [UpdateDocumentScore] writes the current score only. *)
Lemma UpdateDocumentScore_sameRun {P : Type} direction this (st : ProcessState P) :
  sameRun (UpdateDocumentScore direction this st) st.
Proof.
  unfold UpdateDocumentScore, sameRun.
  repeat (match goal with
          | |- context [if ?b then _ else _] => destruct b
          | |- context [match ?x with _ => _ end] => destruct x
          end; simpl); auto.
Qed.

Lemma sameRun_refl {P : Type} (st : ProcessState P) : sameRun st st.
Proof. unfold sameRun. auto. Qed.

Lemma sameRun_trans {P : Type} (st1 st2 st3 : ProcessState P) :
  sameRun st1 st2 → sameRun st2 st3 → sameRun st1 st3.
Proof. unfold sameRun. intuition congruence. Qed.

Lemma sameRun_sym {P : Type} (st1 st2 : ProcessState P) :
  sameRun st1 st2 → sameRun st2 st1.
Proof. unfold sameRun. intuition congruence. Qed.

Lemma sameRun_Call {P : Type} (f : Functor P) a1 a2 (st1 st2 : ProcessState P) :
  attr a1 = attr a2 → sameRun st1 st2 → sameRun (Call f a1 st1) (Call f a2 st2).
Proof.
  unfold sameRun, Call. intros Ha (Hc & He & Hp). rewrite Ha, Hp.
  destruct (obj_fpt f (attr a2) (functorParams st2)); simpl; auto.
Qed.

Lemma sameRun_CallEnd {P : Type} (f : Functor P) a1 a2 (st1 st2 : ProcessState P) :
  attr a1 = attr a2 → sameRun st1 st2 → sameRun (CallEnd f a1 st1) (CallEnd f a2 st2).
Proof.
  unfold sameRun, CallEnd. intros Ha (Hc & He & Hp). rewrite Ha, Hp.
  destruct (obj_fpt f (attr a2) (functorParams st2)); simpl; auto.
Qed.

Lemma sameRun_set_returnCode {P : Type} c (st1 st2 : ProcessState P) :
  sameRun st1 st2 → sameRun (set_returnCode c st1) (set_returnCode c st2).
Proof. unfold sameRun, set_returnCode. simpl. intuition. Qed.

Lemma attr_mirror this : attr (mirror this) = attr this.
Proof. destruct this; reflexivity. Qed.

Lemma m_children_mirror this :
  m_children (mirror this) = rev (map mirror (m_children this)).
Proof. destruct this; reflexivity. Qed.

Lemma FiltersApply_mirror filters this :
  FiltersApply filters (mirror this) = FiltersApply filters this.
Proof. unfold FiltersApply. rewrite attr_mirror. reflexivity. Qed.

(** A backward traversal is the forward traversal of the mirrored tree, for
    every functor, end functor and filter set: the codes and the parameters
    agree at the end. *)
Lemma Process_BACKWARD_mirror {P : Type} (f : Functor P) e filters this :
  ∀ deepness skipFirst (st1 st2 : ProcessState P),
    sameRun st1 st2 →
    sameRun (Process f e filters BACKWARD deepness skipFirst this st1)
            (Process f e filters FORWARD deepness skipFirst (mirror this) st2).
Proof.
  induction this as [a children IH] using Object_children_ind.
  intros deepness skipFirst st1 st2 Hs.
  rewrite !Process_eq. rewrite attr_mirror, m_children_mirror. simpl attr. simpl m_children.
  destruct Hs as (Hc & He & Hp). rewrite <- Hc.
  destruct (FunctorCode_eqb (m_returnCode st1) FUNCTOR_STOP); [repeat split; assumption|].
  assert (Hs : sameRun st1 st2) by (repeat split; assumption).
  set (u1 := UpdateDocumentScore BACKWARD (mkObject a children) st1).
  set (u2 := UpdateDocumentScore FORWARD (mirror (mkObject a children)) st2).
  assert (Hu : sameRun u1 u2).
  { eapply sameRun_trans; [apply UpdateDocumentScore_sameRun|].
    eapply sameRun_trans; [exact Hs|]. apply sameRun_sym, UpdateDocumentScore_sameRun. }
  cbv zeta.
  set (v1 := if skipFirst then u1 else Call f (mkObject a children) u1).
  set (v2 := if skipFirst then u2 else Call f (mirror (mkObject a children)) u2).
  assert (Hv : sameRun v1 v2).
  { subst v1 v2. destruct skipFirst; [exact Hu|].
    apply sameRun_Call; [symmetry; apply attr_mirror | exact Hu]. }
  clearbody v1 v2. clear u1 u2 Hu Hs Hc He Hp.
  destruct Hv as (Hc & He & Hp). rewrite <- Hc.
  destruct (FunctorCode_eqb (m_returnCode v1) FUNCTOR_SIBLINGS).
  { apply sameRun_set_returnCode. repeat split; assumption. }
  destruct ((if IsEditorialElement a then deepness + 1 else deepness) =? 0);
    [repeat split; assumption|].
  assert (Hv : sameRun v1 v2) by (repeat split; assumption).
  set (d := (if IsEditorialElement a then deepness + 1 else deepness) - 1).
  assert (Hloop : sameRun (ProcessChildren f e filters BACKWARD d children v1)
                          (ProcessChildren f e filters FORWARD d (rev (map mirror children)) v2)).
  { rewrite !ProcessChildren_eq. unfold visitingOrder. simpl.
    rewrite <- map_rev. apply Forall_rev in IH.
    clear Hc He Hp. revert v1 v2 Hv.
    induction IH as [|c cs Hc _ IHcs]; intros v1 v2 Hv; simpl; [exact Hv|].
    apply IHcs. unfold ProcessChild. rewrite FiltersApply_mirror.
    destruct (FiltersApply filters c); [apply Hc, Hv | exact Hv]. }
  destruct (negb (SkipChildren a (m_visibleOnly f))).
  - destruct e as [e|]; [|exact Hloop].
    destruct skipFirst; [exact Hloop|].
    apply sameRun_CallEnd; [symmetry; apply attr_mirror | exact Hloop].
  - destruct e as [e|]; [|exact Hv].
    destruct skipFirst; [exact Hv|].
    apply sameRun_CallEnd; [symmetry; apply attr_mirror | exact Hv].
Qed.

Lemma FunctorCode_eqb_eq a b : FunctorCode_eqb a b = true ↔ a = b.
Proof. destruct a, b; simpl; split; congruence. Qed.

Lemma FunctorCode_eqb_neq a b : a ≠ b → FunctorCode_eqb a b = false.
Proof. destruct a, b; simpl; congruence. Qed.

(** ** Traversals whose visits answer by the object alone *)

Section WalkTrace.
Context {P : Type}.
Variable f : Functor P.
Variable e : option (Functor P).
Variable filters : option Filters.
Variable code : ObjAttr → FunctorCode.
Hypothesis Hcode : ∀ a p, fst (obj_fpt f a p) = code a.
Hypothesis Hnostop : ∀ a, code a ≠ FUNCTOR_STOP.

Local Abbreviation entries := (map (λ a : ObjAttr, (a, code a))).

Lemma Call_traced this (u : ProcessState (P * Trace)) :
  ∃ p, Call (traced f) this u =
         mkState (code (attr this)) (end_returnCode u)
                 (p, snd (functorParams u) ++ [(attr this, code (attr this))])
                 (currentScore u).
Proof.
  unfold Call. simpl.
  pose proof (Hcode (attr this) (fst (functorParams u))) as Hc.
  destruct (obj_fpt f (attr this) (fst (functorParams u))) as [c p].
  simpl in Hc. subst c. exists p. reflexivity.
Qed.

(** The record of a forward traversal grows by [walk]; STOP never shows. *)
Lemma Process_traced_walk this :
  ∀ deepness (st : ProcessState (P * Trace)),
    m_returnCode st ≠ FUNCTOR_STOP →
    m_returnCode (Process (traced f) (option_map untraced e) filters FORWARD
                          deepness false this st) ≠ FUNCTOR_STOP ∧
    snd (functorParams (Process (traced f) (option_map untraced e) filters FORWARD
                                deepness false this st)) =
      snd (functorParams st) ++
      entries (walk code (m_visibleOnly f) filters deepness this).
Proof.
  induction this as [a children IH] using Object_children_ind.
  intros deepness st Hst.
  assert (Hloop : ∀ d (w : ProcessState (P * Trace)),
             m_returnCode w ≠ FUNCTOR_STOP →
             m_returnCode (ProcessChildren (traced f) (option_map untraced e) filters
                                           FORWARD (d - 1) children w) ≠ FUNCTOR_STOP ∧
             snd (functorParams (ProcessChildren (traced f) (option_map untraced e) filters
                                           FORWARD (d - 1) children w)) =
               snd (functorParams w) ++
               entries (flat_map
                          (fun iter => if FiltersApply filters iter
                                       then walk code (m_visibleOnly f) filters (d - 1) iter
                                       else [])
                          children)).
  { unfold ProcessChildren. simpl Bool.eqb. cbv iota.
    induction IH as [|c cs Hc1 _ IHcs]; intros d w Hw; simpl.
    - rewrite app_nil_r. auto.
    - unfold ProcessChild at 2 4.
      destruct (FiltersApply filters c).
      + destruct (Hc1 (d - 1) w Hw) as [Hw1 Ht1].
        destruct (IHcs d _ Hw1) as [Hw2 Ht2].
        split; [exact Hw2|]. rewrite Ht2, Ht1, map_app, app_assoc. reflexivity.
      + apply IHcs, Hw. }
  clear IH.
  rewrite Process_eq. rewrite (FunctorCode_eqb_neq _ _ Hst). cbv zeta.
  destruct (UpdateDocumentScore_sameRun FORWARD (mkObject a children) st) as (Hc & _ & Hp).
  set (u := UpdateDocumentScore FORWARD (mkObject a children) st) in *.
  destruct (Call_traced (mkObject a children) u) as [p Hcall].
  rewrite Hcall. clear Hcall. rewrite Hp. simpl attr. simpl m_returnCode.
  simpl walk. pose proof (Hnostop a) as Hns.
  destruct (code a) eqn:Hca; simpl FunctorCode_eqb; cbv iota; try congruence.
  2:{ unfold set_returnCode; simpl. split; [congruence|]. rewrite ?Hca. reflexivity. }
  set (v := mkState FUNCTOR_CONTINUE (end_returnCode u)
                    (p, snd (functorParams st) ++ [(a, FUNCTOR_CONTINUE)])
                    (currentScore u)).
  set (d := if IsEditorialElement a then deepness + 1 else deepness).
  destruct (d =? 0); [simpl; split; [congruence | rewrite ?Hca; reflexivity]|].
  simpl m_visibleOnly.
  assert (Hend : ∀ (w : ProcessState (P * Trace)),
             m_returnCode (match option_map untraced e with
                           | Some e0 => CallEnd e0 (mkObject a children) w
                           | None => w
                           end) = m_returnCode w ∧
             snd (functorParams (match option_map untraced e with
                           | Some e0 => CallEnd e0 (mkObject a children) w
                           | None => w
                           end)) = snd (functorParams w)).
  { intros w. destruct e as [e0|]; simpl; [|auto].
    unfold CallEnd. simpl.
    destruct (obj_fpt e0 a (fst (functorParams w))); simpl; auto. }
  destruct (SkipChildren a (m_visibleOnly f)); simpl negb; cbv iota.
  - destruct (Hend v) as [H1 H2]. rewrite H1, H2. simpl.
    split; [congruence | rewrite ?Hca; reflexivity].
  - simpl m_children.
    destruct (Hend (ProcessChildren (traced f) (option_map untraced e) filters
                                    FORWARD (d - 1) children v)) as [H1 H2].
    rewrite H1, H2.
    destruct (Hloop d v) as [H3 H4]; [simpl; congruence|].
    split; [exact H3|]. rewrite H4. simpl. rewrite ?Hca, <- app_assoc. reflexivity.
Qed.

(** The objects a forward traversal visits are those of [walk]. *)
Lemma visited_FORWARD_walk deepness this (st : ProcessState P) :
  m_returnCode st ≠ FUNCTOR_STOP →
  visited f e filters FORWARD deepness false this st =
    walk code (m_visibleOnly f) filters deepness this.
Proof.
  intros Hst. unfold visited, trace_of.
  destruct (Process_traced_walk this deepness (with_trace [] st)) as [_ H]; [exact Hst|].
  rewrite H. simpl. rewrite map_map. simpl. apply map_id.
Qed.

End WalkTrace.

(** ** The visits of a backward traversal *)

Lemma visited_BACKWARD_mirror {P : Type} (f : Functor P) e filters deepness skipFirst
    this (st : ProcessState P) :
  visited f e filters BACKWARD deepness skipFirst this st =
    visited f e filters FORWARD deepness skipFirst (mirror this) st.
Proof.
  unfold visited, trace_of.
  destruct (Process_BACKWARD_mirror (traced f) (option_map untraced e) filters this
              deepness skipFirst (with_trace [] st) (with_trace [] st)
              (sameRun_refl _)) as (_ & _ & H).
  rewrite H. reflexivity.
Qed.

Lemma flat_map_Permutation_pointwise {A B : Type} (g h : A → list B) (l : list A) :
  Forall (λ x, g x ≡ₚ h x) l → flat_map g l ≡ₚ flat_map h l.
Proof.
  induction 1 as [|x l Hx _ IH]; simpl; [reflexivity|].
  rewrite Hx, IH. reflexivity.
Qed.

Lemma flat_map_rev_Permutation {A B : Type} (g : A → list B) (l : list A) :
  flat_map g (rev l) ≡ₚ flat_map g l.
Proof.
  induction l as [|x l IH]; simpl; [reflexivity|].
  rewrite flat_map_app. simpl. rewrite app_nil_r, IH. apply Permutation_app_comm.
Qed.

(** Mirroring a tree permutes what a traversal visits. *)
Lemma walk_mirror_Permutation code visibleOnly filters this :
  ∀ deepness,
    walk code visibleOnly filters deepness (mirror this) ≡ₚ
    walk code visibleOnly filters deepness this.
Proof.
  induction this as [a children IH] using Object_children_ind.
  intros deepness. simpl. constructor.
  destruct (code a); try reflexivity;
    (destruct (_ =? 0); [reflexivity|];
     destruct (SkipChildren a visibleOnly); [reflexivity|];
     rewrite flat_map_rev_Permutation, flat_map_concat_map, map_map,
       <- flat_map_concat_map;
     apply flat_map_Permutation_pointwise;
     eapply Forall_impl; [exact IH|];
     intros c Hc; simpl; rewrite FiltersApply_mirror;
     destruct (FiltersApply filters c); [apply Hc | reflexivity]).
Qed.

(** ** Depth limits *)

Lemma nonWrappers_cons a anc :
  nonWrappers (a :: anc) =
    nonWrappers anc + (if IsEditorialElement a then 0 else 1).
Proof.
  unfold nonWrappers. simpl. destruct (IsEditorialElement a); simpl; lia.
Qed.

Lemma nonWrappers_nonneg anc : 0 ≤ nonWrappers anc.
Proof. unfold nonWrappers. lia. Qed.

(** The ancestors recorded below an object extend those of the object. *)
Lemma paths_nonWrappers_ge this :
  ∀ anc pa, In pa (paths anc this) → nonWrappers anc ≤ nonWrappers (fst pa).
Proof.
  induction this as [a children IH] using Object_children_ind.
  intros anc pa. simpl. intros [<- | Hin]; [simpl; lia|].
  apply in_flat_map in Hin as (c & Hc & Hpa).
  rewrite Forall_forall in IH. apply (IH c) in Hpa.
  - rewrite nonWrappers_cons in Hpa. destruct (IsEditorialElement a); lia.
  - apply list_elem_of_In. exact Hc.
Qed.

Lemma filter_none {A : Type} (g : A → bool) (l : list A) :
  (∀ x, In x l → g x = false) → List.filter g l = [].
Proof.
  induction l as [|x l IH]; simpl; intros H; [reflexivity|].
  rewrite (H x) by auto. apply IH. auto.
Qed.

Lemma unrestricted_inv visibleOnly filters a children :
  unrestricted visibleOnly filters (mkObject a children) →
  SkipChildren a visibleOnly = false ∧
  Forall (λ c, FiltersApply filters c = true ∧ unrestricted visibleOnly filters c) children.
Proof.
  unfold unrestricted. simpl. intros H.
  apply Forall_cons_1 in H as [[Hs _] H]. split; [exact Hs|].
  apply Forall_flat_map in H.
  eapply Forall_impl; [exact H|]. intros c Hc. split; [|exact Hc].
  destruct c as [b cs]. simpl in Hc. apply Forall_cons_1 in Hc as [[_ Hf] _]. exact Hf.
Qed.

Section DepthLimit.
Variable visibleOnly : bool.
Variable filters : option Filters.

Local Abbreviation walkAll := (walk (λ _, FUNCTOR_CONTINUE) visibleOnly filters).

(** One level of an unrestricted traversal that continues everywhere. *)
Lemma walkAll_eq deepness a children :
  unrestricted visibleOnly filters (mkObject a children) →
  walkAll deepness (mkObject a children) =
    a :: (if (if IsEditorialElement a then deepness + 1 else deepness) =? 0 then []
          else flat_map
                 (walkAll ((if IsEditorialElement a then deepness + 1 else deepness) - 1))
                 children).
Proof.
  intros H. apply unrestricted_inv in H as [Hs Hc]. simpl. rewrite Hs. f_equal.
  destruct (_ =? 0); [reflexivity|].
  induction Hc as [|c cs [Hf _] _ IH]; simpl; [reflexivity|].
  rewrite Hf, IH. reflexivity.
Qed.

(** Under a limit that never reaches zero every object is visited. *)
Lemma walkAll_unbounded this :
  ∀ deepness,
    unrestricted visibleOnly filters this →
    deepness < 0 →
    deepness < -1 ∨ IsEditorialElement (attr this) = false →
    walkAll deepness this = map attr (subobjects this).
Proof.
  induction this as [a children IH] using Object_children_ind.
  intros deepness Hu Hneg Hroot. rewrite walkAll_eq by exact Hu.
  apply unrestricted_inv in Hu as [_ Hc]. simpl. f_equal.
  set (d := if IsEditorialElement a then deepness + 1 else deepness).
  assert (Hd : d < 0).
  { subst d. simpl in Hroot. destruct (IsEditorialElement a); [|lia].
    destruct Hroot; [lia | discriminate]. }
  destruct (Z.eqb_spec d 0) as [|_]; [lia|].
  clear Hroot. induction Hc as [|c cs [_ Hu] _ IHcs]; simpl; [reflexivity|].
  apply Forall_cons_1 in IH as [IHc IH].
  rewrite map_app, IHc, IHcs; auto; lia.
Qed.

(** Under a limit [L >= 0] the objects visited are those with at most [L]
    ancestors that are not wrappers. *)
Lemma walkAll_within L this :
  ∀ anc,
    unrestricted visibleOnly filters this →
    nonWrappers anc ≤ L →
    walkAll (L - nonWrappers anc) this =
      map snd (List.filter (λ pa, nonWrappers (fst pa) <=? L) (paths anc this)).
Proof.
  induction this as [a children IH] using Object_children_ind.
  intros anc Hu Hle. rewrite walkAll_eq by exact Hu.
  apply unrestricted_inv in Hu as [_ Hc]. simpl.
  destruct (Z.leb_spec (nonWrappers anc) L) as [_|]; [|lia]. simpl. f_equal.
  pose proof (nonWrappers_cons a anc) as Hcons.
  set (d := if IsEditorialElement a then L - nonWrappers anc + 1 else L - nonWrappers anc).
  destruct (Z.eqb_spec d 0) as [Hd|Hd].
  - symmetry. replace (List.filter _ _) with (@nil (list ObjAttr * ObjAttr)); [reflexivity|].
    symmetry. apply filter_none. intros pa Hin.
    apply in_flat_map in Hin as (c & _ & Hin).
    apply paths_nonWrappers_ge in Hin. apply Z.leb_gt.
    subst d. destruct (IsEditorialElement a); lia.
  - assert (Hd' : d - 1 = L - nonWrappers (a :: anc) ∧ nonWrappers (a :: anc) ≤ L).
    { subst d. destruct (IsEditorialElement a); lia. }
    destruct Hd' as [-> Hle']. clear Hd d Hcons.
    induction Hc as [|c cs [_ Hu] _ IHcs]; simpl; [reflexivity|].
    apply Forall_cons_1 in IH as [IHc IH].
    rewrite List.filter_app, map_app, IHc, IHcs; auto.
Qed.

End DepthLimit.

(** ** Functor objects *)

Section ProcessFunctorFacts.
Context {S : Type}.
Variable functor : MutableFunctor S.

(** The body of [Process(MutableFunctor &)], with its child loop named. *)
Lemma ProcessFunctor_eq deepness skipFirst this (st : FunctorState S) :
  ProcessFunctor functor deepness skipFirst this st =
    if FunctorCode_eqb (GetCode st) FUNCTOR_STOP then st
    else
      let st1 := UpdateDocumentScore' (GetDirection functor) this st in
      let st2 := if skipFirst then st1 else Accept functor this st1 in
      if FunctorCode_eqb (GetCode st2) FUNCTOR_SIBLINGS then
        SetCode FUNCTOR_CONTINUE st2
      else
        let d1 := if IsEditorialElement (attr this) then deepness + 1 else deepness in
        if d1 =? 0 then st2
        else
          let st3 :=
            if negb (SkipChildren (attr this) (VisibleOnly functor))
            then ProcessFunctorChildren functor (d1 - 1) (m_children this) st2
            else st2 in
          if ImplementsEndInterface functor && negb skipFirst
          then AcceptEnd functor this st3
          else st3.
Proof. destruct this as [a children]. reflexivity. Qed.

Lemma UpdateDocumentScore'_fields direction this (st : FunctorState S) :
  GetCode (UpdateDocumentScore' direction this st) = GetCode st ∧
  members (UpdateDocumentScore' direction this st) = members st.
Proof.
  unfold UpdateDocumentScore'.
  repeat (match goal with
          | |- context [if ?b then _ else _] => destruct b
          | |- context [match ?x with _ => _ end] => destruct x
          end; simpl); auto.
Qed.

(** A visit that answers SIBLINGS ends the call: the code is back to
    CONTINUE, the end visit is not made. *)
Lemma ProcessFunctor_SIBLINGS deepness this (st : FunctorState S) m :
  GetCode st ≠ FUNCTOR_STOP →
  VisitObject functor (attr this) (members st) = (FUNCTOR_SIBLINGS, m) →
  ProcessFunctor functor deepness false this st =
    mkFunctorState FUNCTOR_CONTINUE m
      (docScore (UpdateDocumentScore' (GetDirection functor) this st)).
Proof.
  intros Hst Hv. rewrite ProcessFunctor_eq, (FunctorCode_eqb_neq _ _ Hst). cbv zeta.
  destruct (UpdateDocumentScore'_fields (GetDirection functor) this st) as [_ Hm].
  unfold Accept. rewrite Hm, Hv. reflexivity.
Qed.

End ProcessFunctorFacts.

(** ** The record does not change the traversal *)

Lemma without_trace_UpdateDocumentScore {P : Type} direction this
    (st : ProcessState (P * Trace)) :
  without_trace (UpdateDocumentScore direction this st)
    = UpdateDocumentScore direction this (without_trace st).
Proof.
  unfold UpdateDocumentScore, without_trace.
  repeat (match goal with
          | |- context [if ?b then _ else _] => destruct b
          | |- context [match ?x with _ => _ end] => destruct x
          end; simpl); reflexivity.
Qed.

Lemma without_trace_Call {P : Type} (f : Functor P) this (st : ProcessState (P * Trace)) :
  without_trace (Call (traced f) this st) = Call f this (without_trace st).
Proof.
  unfold Call, without_trace. simpl.
  destruct (obj_fpt f (attr this) (fst (functorParams st))). reflexivity.
Qed.

Lemma without_trace_CallEnd {P : Type} (e : Functor P) this (st : ProcessState (P * Trace)) :
  without_trace (CallEnd (untraced e) this st) = CallEnd e this (without_trace st).
Proof.
  unfold CallEnd, without_trace. simpl.
  destruct (obj_fpt e (attr this) (fst (functorParams st))). reflexivity.
Qed.

(** Recording the visits changes nothing else: without the record, the
    recorded traversal is the traversal. *)
Lemma Process_traced_erase {P : Type} (f : Functor P) e filters direction this :
  ∀ deepness skipFirst (st : ProcessState (P * Trace)),
    without_trace (Process (traced f) (option_map untraced e) filters direction
                           deepness skipFirst this st)
      = Process f e filters direction deepness skipFirst this (without_trace st).
Proof.
  induction this as [a children IH] using Object_children_ind.
  intros deepness skipFirst st.
  assert (Hloop : ∀ d (w : ProcessState (P * Trace)),
             without_trace (ProcessChildren (traced f) (option_map untraced e) filters
                                            direction d children w)
               = ProcessChildren f e filters direction d children (without_trace w)).
  { intros d w. rewrite !ProcessChildren_eq.
    assert (IH' : Forall (λ c, ∀ d skipFirst (st : ProcessState (P * Trace)),
                              without_trace (Process (traced f) (option_map untraced e)
                                               filters direction d skipFirst c st)
                                = Process f e filters direction d skipFirst c
                                          (without_trace st))
                         (visitingOrder direction children)).
    { unfold visitingOrder. destruct (Bool.eqb direction BACKWARD);
        [apply Forall_rev|]; exact IH. }
    revert w. induction IH' as [|c cs Hc _ IHcs]; intros w; simpl; [reflexivity|].
    rewrite IHcs. f_equal. unfold ProcessChild.
    destruct (FiltersApply filters c); [apply Hc | reflexivity]. }
  clear IH. rewrite !Process_eq. simpl m_returnCode.
  destruct (FunctorCode_eqb (m_returnCode st) FUNCTOR_STOP); [reflexivity|].
  cbv zeta. rewrite <- without_trace_UpdateDocumentScore.
  set (u := UpdateDocumentScore direction (mkObject a children) st).
  assert (Hv : without_trace (if skipFirst then u
                              else Call (traced f) (mkObject a children) u)
               = if skipFirst then without_trace u
                 else Call f (mkObject a children) (without_trace u)).
  { destruct skipFirst; [reflexivity | apply without_trace_Call]. }
  rewrite <- Hv. clear Hv.
  set (v := if skipFirst then u else Call (traced f) (mkObject a children) u).
  simpl m_returnCode.
  destruct (FunctorCode_eqb (m_returnCode v) FUNCTOR_SIBLINGS); [reflexivity|].
  destruct (_ =? 0); [reflexivity|].
  simpl m_visibleOnly. rewrite <- Hloop.
  destruct (negb (SkipChildren (attr (mkObject a children)) (m_visibleOnly f)));
    destruct e as [e0|]; simpl option_map; cbv iota;
    try destruct skipFirst; try reflexivity; apply without_trace_CallEnd.
Qed.

(** ** SIBLINGS *)

Lemma UpdateDocumentScore_with_trace {P : Type} direction this tr (st : ProcessState P) :
  currentScore (UpdateDocumentScore direction this (with_trace tr st)) =
    currentScore (UpdateDocumentScore direction this st).
Proof.
  unfold UpdateDocumentScore.
  repeat (match goal with
          | |- context [if ?b then _ else _] => destruct b
          | |- context [match ?x with _ => _ end] => destruct x
          end; simpl); auto.
Qed.

(** *** The record of a call grows by the visits of the call *)

Lemma in_subtrees_rev (l : list Object) (a : ObjAttr) :
  a ∈ map attr (flat_map subobjects (rev l)) ↔ a ∈ map attr (flat_map subobjects l).
Proof.
  rewrite !list_elem_of_In, !in_map_iff.
  split; intros (x & Hx & Hin); exists x; (split; [exact Hx|]);
    apply in_flat_map in Hin as (c & Hc & Hin); apply in_flat_map; exists c;
    (split; [|exact Hin]); [apply in_rev | apply in_rev in Hc]; exact Hc.
Qed.

Lemma in_subtrees_visitingOrder direction (l : list Object) (a : ObjAttr) :
  a ∈ map attr (flat_map subobjects (visitingOrder direction l))
  ↔ a ∈ map attr (flat_map subobjects l).
Proof.
  unfold visitingOrder. destruct (Bool.eqb direction BACKWARD); [apply in_subtrees_rev|tauto].
Qed.

Lemma in_subtrees_app (l1 l2 : list Object) (a : ObjAttr) :
  a ∈ map attr (flat_map subobjects (l1 ++ l2))
  ↔ a ∈ map attr (flat_map subobjects l1) ∨ a ∈ map attr (flat_map subobjects l2).
Proof. rewrite flat_map_app, map_app. apply elem_of_app. Qed.

Lemma in_subtrees_cons (c : Object) (l : list Object) (a : ObjAttr) :
  a ∈ map attr (flat_map subobjects (c :: l))
  ↔ a ∈ map attr (subobjects c) ∨ a ∈ map attr (flat_map subobjects l).
Proof. simpl. rewrite map_app. apply elem_of_app. Qed.

Lemma in_subobjects (c : Object) (a : ObjAttr) :
  a ∈ map attr (subobjects c)
  ↔ a = attr c ∨ a ∈ map attr (flat_map subobjects (m_children c)).
Proof. destruct c as [b cs]. simpl. apply elem_of_cons. Qed.

Section TraceGrowth.
Context {P : Type}.
Variable f : Functor P.
Variable e : option (Functor P).
Variable filters : option Filters.
Variable direction : bool.

Local Abbreviation recorded st := (snd (functorParams st)).
Local Abbreviation below l := (λ v : ObjAttr * FunctorCode, fst v ∈ map attr (flat_map subobjects l)).
Local Abbreviation answer a u := (fst (obj_fpt f a (fst (functorParams u)))).

(** What a call of [Process] adds to the record: nothing when the functor
    holds STOP; otherwise the visit of the object, unless it is skipped,
    and then visits of objects below it. *)
Local Abbreviation grows this skipFirst u u' :=
  (∃ ext,
     recorded u' = recorded u ++ ext ∧
     (m_returnCode u = FUNCTOR_STOP → ext = []) ∧
     (m_returnCode u ≠ FUNCTOR_STOP →
      ∃ ext', ext = (if skipFirst : bool then [] else [(attr this, answer (attr this) u)]) ++ ext' ∧
              Forall (below (m_children this)) ext')).

Lemma Call_traced_record this (u : ProcessState (P * Trace)) :
  recorded (Call (traced f) this u) = recorded u ++ [(attr this, answer (attr this) u)] ∧
  m_returnCode (Call (traced f) this u) = answer (attr this) u.
Proof.
  unfold Call. simpl. destruct (obj_fpt f (attr this) (fst (functorParams u))). auto.
Qed.

Lemma CallEnd_untraced_record this (u : ProcessState (P * Trace)) :
  recorded (match option_map untraced e with
            | Some e0 => CallEnd e0 this u
            | None => u
            end) = recorded u.
Proof.
  destruct e as [e0|]; simpl; [|reflexivity].
  unfold CallEnd. simpl. destruct (obj_fpt e0 (attr this) (fst (functorParams u))). reflexivity.
Qed.

(** The loop over the children in visiting order: the record grows by
    visits below them; when the functor does not hold STOP, the first visit
    added is that of the first child the filters let pass. *)
Lemma loop_trace_grows (l : list Object) :
  Forall (λ c, ∀ d (u : ProcessState (P * Trace)),
            grows c false u (Process (traced f) (option_map untraced e) filters direction
                               d false c u)) l →
  ∀ d (u : ProcessState (P * Trace)),
    ∃ ext,
      recorded (fold_left (ProcessChild (traced f) (option_map untraced e) filters direction d)
                          l u) = recorded u ++ ext ∧
      Forall (below l) ext ∧
      (∀ skipped next rest,
          l = skipped ++ next :: rest →
          Forall (λ s, FiltersApply filters s = false) skipped →
          FiltersApply filters next = true →
          m_returnCode u ≠ FUNCTOR_STOP →
          ∃ ext', ext = (attr next, answer (attr next) u) :: ext').
Proof.
  induction 1 as [|c l Hc _ IH]; intros d u.
  - exists []. simpl. rewrite app_nil_r. split; [reflexivity|]. split; [constructor|].
    intros skipped next rest Hl. destruct skipped; discriminate.
  - simpl fold_left. unfold ProcessChild at 2.
    destruct (FiltersApply filters c) eqn:Hf.
    + destruct (Hc d u) as (ext1 & Hr1 & Hstop & Hgo).
      destruct (IH d (Process (traced f) (option_map untraced e) filters direction d false c u))
        as (ext2 & Hr2 & Hb2 & _).
      exists (ext1 ++ ext2). split; [rewrite Hr2, Hr1, app_assoc; reflexivity|].
      split.
      * apply Forall_app. split.
        -- destruct (FunctorCode_eqb (m_returnCode u) FUNCTOR_STOP) eqn:Hs.
           ++ apply FunctorCode_eqb_eq in Hs. rewrite (Hstop Hs). constructor.
           ++ assert (Hs' : m_returnCode u ≠ FUNCTOR_STOP)
                by (intros Heq; rewrite Heq in Hs; discriminate).
              destruct (Hgo Hs') as (ext' & -> & Hb). simpl. constructor.
              ** simpl. apply in_subtrees_cons. left. apply in_subobjects. auto.
              ** eapply Forall_impl; [exact Hb|]. intros v Hv. simpl in *.
                 apply in_subtrees_cons. left. apply in_subobjects. auto.
        -- eapply Forall_impl; [exact Hb2|]. intros v Hv. simpl in *.
           apply in_subtrees_cons. auto.
      * intros skipped next rest Hl Hsk Hnext Hu.
        destruct skipped as [|s skipped]; simpl in Hl; injection Hl as <- Hl.
        -- destruct (Hgo Hu) as (ext' & -> & _). simpl. eauto.
        -- apply Forall_cons_1 in Hsk as [Hs _]. congruence.
    + destruct (IH d u) as (ext2 & Hr2 & Hb2 & Hfirst).
      exists ext2. split; [exact Hr2|]. split.
      * eapply Forall_impl; [exact Hb2|]. intros v Hv. simpl in *.
        apply in_subtrees_cons. auto.
      * intros skipped next rest Hl Hsk Hnext Hu.
        destruct skipped as [|s skipped]; simpl in Hl; injection Hl as <- Hl.
        -- congruence.
        -- apply Forall_cons_1 in Hsk as [_ Hsk]. eapply Hfirst; eassumption.
Qed.

Lemma Process_trace_grows this :
  ∀ deepness skipFirst (u : ProcessState (P * Trace)),
    grows this skipFirst u
          (Process (traced f) (option_map untraced e) filters direction
                   deepness skipFirst this u).
Proof.
  induction this as [a children IH] using Object_children_ind.
  intros deepness skipFirst u. rewrite Process_eq.
  destruct (FunctorCode_eqb (m_returnCode u) FUNCTOR_STOP) eqn:Hstop.
  { apply FunctorCode_eqb_eq in Hstop. exists []. rewrite app_nil_r.
    split; [reflexivity|]. split; [reflexivity|]. intros Hne. contradiction. }
  assert (Hne : m_returnCode u ≠ FUNCTOR_STOP).
  { intros Heq. rewrite Heq in Hstop. discriminate. }
  cbv zeta.
  destruct (UpdateDocumentScore_sameRun direction (mkObject a children) u) as (Hc0 & _ & Hp0).
  set (u0 := UpdateDocumentScore direction (mkObject a children) u) in *.
  set (first := if skipFirst then [] else [(a, answer a u)]).
  set (u1 := if skipFirst then u0 else Call (traced f) (mkObject a children) u0).
  assert (Hr1 : recorded u1 = recorded u ++ first).
  { subst u1 first. destruct skipFirst; [rewrite Hp0, app_nil_r; reflexivity|].
    destruct (Call_traced_record (mkObject a children) u0) as [-> _].
    rewrite Hp0. reflexivity. }
  clearbody u1. clear Hc0 Hp0 u0.
  assert (Hdone : ∀ u' : ProcessState (P * Trace), recorded u' = recorded u1 →
                        grows (mkObject a children) skipFirst u u').
  { intros u' Hu'. exists first. split; [rewrite Hu', Hr1; reflexivity|].
    split; [intros Heq; contradiction|]. intros _. exists [].
    split; [rewrite app_nil_r; reflexivity | constructor]. }
  destruct (FunctorCode_eqb (m_returnCode u1) FUNCTOR_SIBLINGS); [apply Hdone; reflexivity|].
  destruct (_ =? 0); [apply Hdone; reflexivity|].
  simpl attr. simpl m_visibleOnly.
  destruct (SkipChildren a (m_visibleOnly f)); simpl negb; cbv iota.
  { apply Hdone. destruct skipFirst.
    - destruct (option_map untraced e); reflexivity.
    - apply CallEnd_untraced_record. }
  simpl m_children. rewrite ProcessChildren_eq.
  set (d := (if IsEditorialElement a then deepness + 1 else deepness) - 1).
  destruct (loop_trace_grows (visitingOrder direction children)) with (d := d) (u := u1)
    as (ext & Hr & Hb & _).
  { assert (IH' : Forall (λ c, ∀ d (u : ProcessState (P * Trace)),
                            grows c false u
                              (Process (traced f) (option_map untraced e) filters direction
                                 d false c u)) children).
    { eapply Forall_impl; [exact IH|]. intros c Hc d0 w. apply (Hc d0 false w). }
    unfold visitingOrder. destruct (Bool.eqb direction BACKWARD); [apply Forall_rev|]; exact IH'. }
  set (u2 := fold_left _ _ u1) in *.
  assert (Hr3 : recorded (match option_map untraced e with
                          | Some e0 => if skipFirst then u2
                                       else CallEnd e0 (mkObject a children) u2
                          | None => u2
                          end) = recorded u2).
  { destruct skipFirst.
    - destruct (option_map untraced e); reflexivity.
    - apply CallEnd_untraced_record. }
  exists (first ++ ext). split; [rewrite Hr3, Hr, Hr1, app_assoc; reflexivity|].
  split; [intros Heq; contradiction|]. intros _. exists ext. split; [reflexivity|].
  eapply Forall_impl; [exact Hb|]. intros v Hv. simpl in *.
  apply in_subtrees_visitingOrder in Hv. exact Hv.
Qed.

End TraceGrowth.

(** The attributes of the objects of a tree that names no object twice,
    split along the children in visiting order. *)
Lemma NoDup_subobjects_split direction (parent this : Object) (before after : list Object) :
  NoDup (map attr (subobjects parent)) →
  visitingOrder direction (m_children parent) = before ++ this :: after →
  attr this ≠ attr parent ∧
  (attr this ∉ map attr (flat_map subobjects before)) ∧
  (attr this ∉ map attr (flat_map subobjects (m_children this))) ∧
  (attr this ∉ map attr (flat_map subobjects after)) ∧
  (∀ a, a ∈ map attr (flat_map subobjects (m_children this)) →
        a ≠ attr parent ∧
        (a ∉ map attr (flat_map subobjects before)) ∧
        (a ∉ map attr (flat_map subobjects after))).
Proof.
  intros Hnd Hord. destruct parent as [ap children]. simpl in Hnd, Hord.
  assert (Hnd' : NoDup (ap :: map attr (flat_map subobjects (before ++ this :: after)))).
  { rewrite <- Hord. unfold visitingOrder.
    destruct (Bool.eqb direction BACKWARD); [|exact Hnd].
    assert (Hperm : map attr (flat_map subobjects (rev children))
                    ≡ₚ map attr (flat_map subobjects children))
      by (apply Permutation_map, flat_map_rev_Permutation).
    rewrite Hperm. exact Hnd. }
  clear Hnd Hord. rewrite flat_map_app, map_app in Hnd'. simpl in Hnd'.
  rewrite map_app in Hnd'. destruct this as [at_ cs]. simpl in *.
  apply NoDup_cons in Hnd' as [Hp Hnd]. apply NoDup_app in Hnd as (_ & HB & Hnd).
  apply NoDup_cons in Hnd as [Hself Hnd]. apply NoDup_app in Hnd as (_ & HA & _).
  rewrite !not_elem_of_app, not_elem_of_cons, not_elem_of_app in Hp.
  destruct Hp as (HpB & Hpt & HpD & HpA).
  apply not_elem_of_app in Hself as [HselfD HselfA].
  split; [congruence|].
  split; [intros Hin; apply (HB _ Hin), list_elem_of_here|].
  split; [exact HselfD|].
  split; [exact HselfA|].
  intros a Ha. split; [intros ->; contradiction|].
  split.
  - intros Hin. apply (HB _ Hin). apply list_elem_of_further, elem_of_app. left. exact Ha.
  - apply HA, Ha.
Qed.

Section Resumes.
Context {P : Type}.
Variable f : Functor P.
Variable e : option (Functor P).
Variable filters : option Filters.
Variable direction : bool.

Local Abbreviation recorded st := (snd (functorParams st)).
Local Abbreviation below l := (λ v : ObjAttr * FunctorCode, fst v ∈ map attr (flat_map subobjects l)).

(** In the traversal of a parent, a child whose visit answers SIBLINGS is
    followed in the record by visits below its later siblings, the first
    being that of the next sibling the filters let pass; before it come
    the visit of the parent and visits below its earlier siblings. *)
Lemma Process_resumes_after_SIBLINGS deepness skipFirst (parent this : Object)
    (before after : list Object) (st : ProcessState P) :
  NoDup (map attr (subobjects parent)) →
  visitingOrder direction (m_children parent) = before ++ this :: after →
  (attr this, FUNCTOR_SIBLINGS)
    ∈ trace_of f e filters direction deepness skipFirst parent st →
  ∃ tr1 tr2,
    trace_of f e filters direction deepness skipFirst parent st
      = tr1 ++ (attr this, FUNCTOR_SIBLINGS) :: tr2 ∧
    Forall (λ v, fst v = attr parent ∨ below before v) tr1 ∧
    Forall (below after) tr2 ∧
    (∀ skipped next rest,
        after = skipped ++ next :: rest →
        Forall (λ s, FiltersApply filters s = false) skipped →
        FiltersApply filters next = true →
        ∃ c tr3, tr2 = (attr next, c) :: tr3).
Proof.
  intros Hnd Hord Hin.
  destruct (NoDup_subobjects_split direction parent this before after Hnd Hord)
    as (HneP & HnB & HnD & HnA & _).
  unfold trace_of in *. rewrite Process_eq in Hin |- *.
  set (u := with_trace [] st) in *.
  assert (Hru : recorded u = []) by reflexivity.
  destruct (FunctorCode_eqb (m_returnCode u) FUNCTOR_STOP).
  { rewrite Hru in Hin. apply elem_of_nil in Hin. destruct Hin. }
  cbv zeta in Hin |- *.
  destruct (UpdateDocumentScore_sameRun direction parent u) as (_ & _ & Hp0).
  set (u0 := UpdateDocumentScore direction parent u) in *.
  set (u1 := if skipFirst then u0 else Call (traced f) parent u0) in *.
  assert (Hr1 : ∃ first, recorded u1 = first ∧ Forall (λ v, fst v = attr parent) first).
  { subst u1. destruct skipFirst.
    - exists []. rewrite Hp0. split; [reflexivity | constructor].
    - destruct (Call_traced_record f parent u0) as [Hr _]. rewrite Hr, Hp0. simpl.
      eexists. split; [reflexivity|]. constructor; [reflexivity | constructor]. }
  destruct Hr1 as (first & Hr1 & Hfirst). clearbody u1. clear Hp0 u0 Hru.
  assert (Hearly : ∀ u' : ProcessState (P * Trace),
             recorded u' = recorded u1 → (attr this, FUNCTOR_SIBLINGS) ∈ recorded u' → False).
  { intros u' Hu' Hmem. rewrite Hu', Hr1 in Hmem. rewrite Forall_forall in Hfirst.
    apply Hfirst in Hmem. simpl in Hmem. contradiction. }
  destruct (FunctorCode_eqb (m_returnCode u1) FUNCTOR_SIBLINGS);
    [exfalso; eapply Hearly; [|exact Hin]; reflexivity|].
  destruct (_ =? 0); [exfalso; eapply Hearly; [|exact Hin]; reflexivity|].
  set (d := (if IsEditorialElement (attr parent) then deepness + 1 else deepness) - 1) in *.
  simpl m_visibleOnly in *.
  assert (Hend : ∀ u2 : ProcessState (P * Trace),
             recorded (match option_map untraced e with
                       | Some e0 => if skipFirst then u2 else CallEnd e0 parent u2
                       | None => u2
                       end) = recorded u2).
  { intros u2. destruct skipFirst.
    - destruct (option_map untraced e); reflexivity.
    - apply CallEnd_untraced_record. }
  rewrite Hend in Hin |- *.
  destruct (SkipChildren (attr parent) (m_visibleOnly f)); simpl negb in *; cbv iota in *.
  { exfalso; eapply Hearly; [|exact Hin]; reflexivity. }
  clear Hearly Hend. rewrite ProcessChildren_eq, Hord, fold_left_app in Hin |- *.
  simpl fold_left in Hin |- *.
  set (PC := ProcessChild (traced f) (option_map untraced e) filters direction d) in *.
  assert (Hall : ∀ l, Forall (λ c, ∀ d (u : ProcessState (P * Trace)),
                        ∃ ext,
                          recorded (Process (traced f) (option_map untraced e) filters
                                      direction d false c u) = recorded u ++ ext ∧
                          (m_returnCode u = FUNCTOR_STOP → ext = []) ∧
                          (m_returnCode u ≠ FUNCTOR_STOP →
                           ∃ ext', ext = [(attr c,
                                           fst (obj_fpt f (attr c) (fst (functorParams u))))]
                                         ++ ext' ∧
                                   Forall (below (m_children c)) ext')) l).
  { intros l. apply Forall_forall. intros c _ d0 w.
    apply (Process_trace_grows f e filters direction c d0 false w). }
  destruct (loop_trace_grows f e filters direction before (Hall before) d u1)
    as (extB & HrB & HbB & _).
  fold PC in HrB. set (uB := fold_left PC before u1) in *.
  destruct (loop_trace_grows f e filters direction after (Hall after) d (PC uB this))
    as (extA & HrA & HbA & HfirstA).
  fold PC in HrA. rewrite HrA in Hin |- *.
  assert (HnotA : (attr this, FUNCTOR_SIBLINGS) ∉ extA).
  { intros Hm. rewrite Forall_forall in HbA. apply HbA in Hm. simpl in Hm. contradiction. }
  assert (HnotB : (attr this, FUNCTOR_SIBLINGS) ∉ recorded uB).
  { rewrite HrB, Hr1. intros Hm. apply elem_of_app in Hm as [Hm|Hm].
    - rewrite Forall_forall in Hfirst. apply Hfirst in Hm. simpl in Hm. contradiction.
    - rewrite Forall_forall in HbB. apply HbB in Hm. simpl in Hm. contradiction. }
  assert (HT : recorded (PC uB this) = recorded uB ++ [(attr this, FUNCTOR_SIBLINGS)] ∧
               m_returnCode (PC uB this) ≠ FUNCTOR_STOP).
  { apply elem_of_app in Hin as [Hin|Hin]; [|contradiction].
    subst PC. unfold ProcessChild in Hin |- *.
    destruct (FiltersApply filters this); [|contradiction].
    destruct (Process_trace_grows f e filters direction this d false uB)
      as (extT & HrT & Hstop & Hgo).
    destruct (FunctorCode_eqb (m_returnCode uB) FUNCTOR_STOP) eqn:HsB.
    { apply FunctorCode_eqb_eq in HsB. rewrite HrT, (Hstop HsB), app_nil_r in Hin.
      contradiction. }
    assert (HsB' : m_returnCode uB ≠ FUNCTOR_STOP)
      by (intros Heq; rewrite Heq in HsB; discriminate).
    destruct (Hgo HsB') as (ext' & -> & Hb'). rewrite HrT in Hin.
    apply elem_of_app in Hin as [Hin|Hin]; [contradiction|].
    simpl in Hin. apply elem_of_cons in Hin as [Heq|Hin].
    2:{ rewrite Forall_forall in Hb'. apply Hb' in Hin. simpl in Hin. contradiction. }
    injection Heq as Hcode.
    destruct (obj_fpt f (attr this) (fst (functorParams uB))) as [c p] eqn:Hv.
    simpl in Hcode. subst c.
    rewrite (Process_SIBLINGS (traced f) _ filters direction d this uB
               (p, recorded uB ++ [(attr this, FUNCTOR_SIBLINGS)]));
      [simpl; split; [reflexivity | discriminate] | exact HsB' |].
    simpl. rewrite Hv. reflexivity. }
  destruct HT as [HrT HcT].
  exists (recorded uB), extA. split; [rewrite HrT, <- app_assoc; reflexivity|].
  split.
  { rewrite HrB, Hr1. apply Forall_app. split.
    - eapply Forall_impl; [exact Hfirst|]. intros v Hv. left. exact Hv.
    - eapply Forall_impl; [exact HbB|]. intros v Hv. right. exact Hv. }
  split; [exact HbA|].
  intros skipped next rest Hl Hsk Hnext.
  destruct (HfirstA skipped next rest Hl Hsk Hnext HcT) as (ext' & ->). eauto.
Qed.

End Resumes.

(** *** The same for a functor object *)

(** Both loops are a left fold over the children in visiting order. *)
Lemma ProcessFunctorChildren_eq {S : Type} (g : MutableFunctor S) deepness children
    (st : FunctorState S) :
  ProcessFunctorChildren g deepness children st =
    fold_left (ProcessFunctorChild g deepness) (visitingOrder (GetDirection g) children) st.
Proof.
  unfold ProcessFunctorChildren, visitingOrder.
  destruct (Bool.eqb (GetDirection g) BACKWARD); [|reflexivity].
  rewrite <- (rev_involutive children) at 1.
  rewrite fold_left_rev_right. reflexivity.
Qed.

Section FunctorTraceGrowth.
Context {S : Type}.
Variable f : MutableFunctor S.

Local Abbreviation recorded st := (snd (members st)).
Local Abbreviation below l := (λ v : ObjAttr * FunctorCode, fst v ∈ map attr (flat_map subobjects l)).
Local Abbreviation answer a u := (fst (VisitObject f a (fst (members u)))).

Local Abbreviation grows this skipFirst u u' :=
  (∃ ext,
     recorded u' = recorded u ++ ext ∧
     (GetCode u = FUNCTOR_STOP → ext = []) ∧
     (GetCode u ≠ FUNCTOR_STOP →
      ∃ ext', ext = (if skipFirst : bool then [] else [(attr this, answer (attr this) u)]) ++ ext' ∧
              Forall (below (m_children this)) ext')).

Lemma Accept_traced_record this (u : FunctorState (S * Trace)) :
  recorded (Accept (tracedFunctor f) this u)
    = recorded u ++ [(attr this, answer (attr this) u)] ∧
  GetCode (Accept (tracedFunctor f) this u) = answer (attr this) u.
Proof.
  unfold Accept. simpl. destruct (VisitObject f (attr this) (fst (members u))). auto.
Qed.

Lemma AcceptEnd_traced_record this (u : FunctorState (S * Trace)) :
  recorded (AcceptEnd (tracedFunctor f) this u) = recorded u.
Proof.
  unfold AcceptEnd. simpl. destruct (VisitObjectEnd f (attr this) (fst (members u))).
  reflexivity.
Qed.

Lemma functor_loop_trace_grows (l : list Object) :
  Forall (λ c, ∀ d (u : FunctorState (S * Trace)),
            grows c false u (ProcessFunctor (tracedFunctor f) d false c u)) l →
  ∀ d (u : FunctorState (S * Trace)),
    ∃ ext,
      recorded (fold_left (ProcessFunctorChild (tracedFunctor f) d) l u)
        = recorded u ++ ext ∧
      Forall (below l) ext ∧
      (∀ skipped next rest,
          l = skipped ++ next :: rest →
          Forall (λ s, FiltersApply (GetFilters f) s = false) skipped →
          FiltersApply (GetFilters f) next = true →
          GetCode u ≠ FUNCTOR_STOP →
          ∃ ext', ext = (attr next, answer (attr next) u) :: ext').
Proof.
  induction 1 as [|c l Hc _ IH]; intros d u.
  - exists []. simpl. rewrite app_nil_r. split; [reflexivity|]. split; [constructor|].
    intros skipped next rest Hl. destruct skipped; discriminate.
  - simpl fold_left. unfold ProcessFunctorChild at 2. simpl GetFilters.
    destruct (FiltersApply (GetFilters f) c) eqn:Hf.
    + destruct (Hc d u) as (ext1 & Hr1 & Hstop & Hgo).
      destruct (IH d (ProcessFunctor (tracedFunctor f) d false c u))
        as (ext2 & Hr2 & Hb2 & _).
      exists (ext1 ++ ext2). split; [rewrite Hr2, Hr1, app_assoc; reflexivity|].
      split.
      * apply Forall_app. split.
        -- destruct (FunctorCode_eqb (GetCode u) FUNCTOR_STOP) eqn:Hs.
           ++ apply FunctorCode_eqb_eq in Hs. rewrite (Hstop Hs). constructor.
           ++ assert (Hs' : GetCode u ≠ FUNCTOR_STOP)
                by (intros Heq; rewrite Heq in Hs; discriminate).
              destruct (Hgo Hs') as (ext' & -> & Hb). simpl. constructor.
              ** simpl. apply in_subtrees_cons. left. apply in_subobjects. auto.
              ** eapply Forall_impl; [exact Hb|]. intros v Hv. simpl in *.
                 apply in_subtrees_cons. left. apply in_subobjects. auto.
        -- eapply Forall_impl; [exact Hb2|]. intros v Hv. simpl in *.
           apply in_subtrees_cons. auto.
      * intros skipped next rest Hl Hsk Hnext Hu.
        destruct skipped as [|s skipped]; simpl in Hl; injection Hl as <- Hl.
        -- destruct (Hgo Hu) as (ext' & -> & _). simpl. eauto.
        -- apply Forall_cons_1 in Hsk as [Hs _]. congruence.
    + destruct (IH d u) as (ext2 & Hr2 & Hb2 & Hfirst).
      exists ext2. split; [exact Hr2|]. split.
      * eapply Forall_impl; [exact Hb2|]. intros v Hv. simpl in *.
        apply in_subtrees_cons. auto.
      * intros skipped next rest Hl Hsk Hnext Hu.
        destruct skipped as [|s skipped]; simpl in Hl; injection Hl as <- Hl.
        -- congruence.
        -- apply Forall_cons_1 in Hsk as [_ Hsk]. eapply Hfirst; eassumption.
Qed.

Lemma ProcessFunctor_trace_grows this :
  ∀ deepness skipFirst (u : FunctorState (S * Trace)),
    grows this skipFirst u (ProcessFunctor (tracedFunctor f) deepness skipFirst this u).
Proof.
  induction this as [a children IH] using Object_children_ind.
  intros deepness skipFirst u. rewrite ProcessFunctor_eq.
  destruct (FunctorCode_eqb (GetCode u) FUNCTOR_STOP) eqn:Hstop.
  { apply FunctorCode_eqb_eq in Hstop. exists []. rewrite app_nil_r.
    split; [reflexivity|]. split; [reflexivity|]. intros Hne. contradiction. }
  assert (Hne : GetCode u ≠ FUNCTOR_STOP).
  { intros Heq. rewrite Heq in Hstop. discriminate. }
  cbv zeta. simpl GetDirection. simpl VisibleOnly. simpl ImplementsEndInterface.
  destruct (UpdateDocumentScore'_fields (GetDirection f) (mkObject a children) u) as (_ & Hp0).
  set (u0 := UpdateDocumentScore' (GetDirection f) (mkObject a children) u) in *.
  set (first := if skipFirst then [] else [(a, answer a u)]).
  set (u1 := if skipFirst then u0 else Accept (tracedFunctor f) (mkObject a children) u0).
  assert (Hr1 : recorded u1 = recorded u ++ first).
  { subst u1 first. destruct skipFirst; [rewrite Hp0, app_nil_r; reflexivity|].
    destruct (Accept_traced_record (mkObject a children) u0) as [-> _].
    rewrite Hp0. reflexivity. }
  clearbody u1. clear Hp0 u0.
  assert (Hdone : ∀ u' : FunctorState (S * Trace), recorded u' = recorded u1 →
                        grows (mkObject a children) skipFirst u u').
  { intros u' Hu'. exists first. split; [rewrite Hu', Hr1; reflexivity|].
    split; [intros Heq; contradiction|]. intros _. exists [].
    split; [rewrite app_nil_r; reflexivity | constructor]. }
  destruct (FunctorCode_eqb (GetCode u1) FUNCTOR_SIBLINGS); [apply Hdone; reflexivity|].
  destruct (_ =? 0); [apply Hdone; reflexivity|].
  simpl attr.
  assert (Hend : ∀ u2 : FunctorState (S * Trace),
             recorded (if ImplementsEndInterface f && negb skipFirst
                       then AcceptEnd (tracedFunctor f) (mkObject a children) u2
                       else u2) = recorded u2).
  { intros u2. destruct (ImplementsEndInterface f && negb skipFirst);
      [apply AcceptEnd_traced_record | reflexivity]. }
  destruct (SkipChildren a (VisibleOnly f)); simpl negb; cbv iota.
  { apply Hdone. apply Hend. }
  simpl m_children. rewrite ProcessFunctorChildren_eq. simpl GetDirection.
  set (d := (if IsEditorialElement a then deepness + 1 else deepness) - 1).
  destruct (functor_loop_trace_grows (visitingOrder (GetDirection f) children))
    with (d := d) (u := u1) as (ext & Hr & Hb & _).
  { assert (IH' : Forall (λ c, ∀ d (u : FunctorState (S * Trace)),
                            grows c false u (ProcessFunctor (tracedFunctor f) d false c u))
                         children).
    { eapply Forall_impl; [exact IH|]. intros c Hc d0 w. apply (Hc d0 false w). }
    unfold visitingOrder. destruct (Bool.eqb (GetDirection f) BACKWARD);
      [apply Forall_rev|]; exact IH'. }
  set (u2 := fold_left _ _ u1) in *.
  exists (first ++ ext). split; [rewrite Hend, Hr, Hr1, app_assoc; reflexivity|].
  split; [intros Heq; contradiction|]. intros _. exists ext. split; [reflexivity|].
  eapply Forall_impl; [exact Hb|]. intros v Hv. simpl in *.
  apply in_subtrees_visitingOrder in Hv. exact Hv.
Qed.

(** In the traversal of a parent by a functor object, a child whose visit
    answers SIBLINGS is followed in the record by visits below its later
    siblings, the first being that of the next sibling the filters let
    pass. *)
Lemma ProcessFunctor_resumes_after_SIBLINGS deepness skipFirst (parent this : Object)
    (before after : list Object) (st : FunctorState S) :
  NoDup (map attr (subobjects parent)) →
  visitingOrder (GetDirection f) (m_children parent) = before ++ this :: after →
  (attr this, FUNCTOR_SIBLINGS) ∈ traceFunctor_of f deepness skipFirst parent st →
  ∃ tr1 tr2,
    traceFunctor_of f deepness skipFirst parent st
      = tr1 ++ (attr this, FUNCTOR_SIBLINGS) :: tr2 ∧
    Forall (λ v, fst v = attr parent ∨ below before v) tr1 ∧
    Forall (below after) tr2 ∧
    (∀ skipped next rest,
        after = skipped ++ next :: rest →
        Forall (λ s, FiltersApply (GetFilters f) s = false) skipped →
        FiltersApply (GetFilters f) next = true →
        ∃ c tr3, tr2 = (attr next, c) :: tr3).
Proof.
  intros Hnd Hord Hin.
  destruct (NoDup_subobjects_split (GetDirection f) parent this before after Hnd Hord)
    as (HneP & HnB & HnD & HnA & _).
  unfold traceFunctor_of in *. rewrite ProcessFunctor_eq in Hin |- *.
  set (u := mkFunctorState (GetCode st) (members st, []) (docScore st)) in *.
  assert (Hru : recorded u = []) by reflexivity.
  destruct (FunctorCode_eqb (GetCode u) FUNCTOR_STOP).
  { rewrite Hru in Hin. apply elem_of_nil in Hin. destruct Hin. }
  cbv zeta in Hin |- *.
  simpl GetDirection in *. simpl VisibleOnly in *. simpl ImplementsEndInterface in *.
  destruct (UpdateDocumentScore'_fields (GetDirection f) parent u) as (_ & Hp0).
  set (u0 := UpdateDocumentScore' (GetDirection f) parent u) in *.
  set (u1 := if skipFirst then u0 else Accept (tracedFunctor f) parent u0) in *.
  assert (Hr1 : ∃ first, recorded u1 = first ∧ Forall (λ v, fst v = attr parent) first).
  { subst u1. destruct skipFirst.
    - exists []. rewrite Hp0. split; [reflexivity | constructor].
    - destruct (Accept_traced_record parent u0) as [Hr _]. rewrite Hr, Hp0. simpl.
      eexists. split; [reflexivity|]. constructor; [reflexivity | constructor]. }
  destruct Hr1 as (first & Hr1 & Hfirst). clearbody u1. clear Hp0 u0 Hru.
  assert (Hearly : ∀ u' : FunctorState (S * Trace),
             recorded u' = recorded u1 → (attr this, FUNCTOR_SIBLINGS) ∈ recorded u' → False).
  { intros u' Hu' Hmem. rewrite Hu', Hr1 in Hmem. rewrite Forall_forall in Hfirst.
    apply Hfirst in Hmem. simpl in Hmem. contradiction. }
  destruct (FunctorCode_eqb (GetCode u1) FUNCTOR_SIBLINGS);
    [exfalso; eapply Hearly; [|exact Hin]; reflexivity|].
  destruct (_ =? 0); [exfalso; eapply Hearly; [|exact Hin]; reflexivity|].
  set (d := (if IsEditorialElement (attr parent) then deepness + 1 else deepness) - 1) in *.
  assert (Hend : ∀ u2 : FunctorState (S * Trace),
             recorded (if ImplementsEndInterface f && negb skipFirst
                       then AcceptEnd (tracedFunctor f) parent u2
                       else u2) = recorded u2).
  { intros u2. destruct (ImplementsEndInterface f && negb skipFirst);
      [apply AcceptEnd_traced_record | reflexivity]. }
  rewrite Hend in Hin |- *.
  destruct (SkipChildren (attr parent) (VisibleOnly f)); simpl negb in *; cbv iota in *.
  { exfalso; eapply Hearly; [|exact Hin]; reflexivity. }
  clear Hearly Hend. rewrite ProcessFunctorChildren_eq in Hin |- *.
  simpl GetDirection in *. rewrite Hord, fold_left_app in Hin |- *.
  simpl fold_left in Hin |- *.
  set (PC := ProcessFunctorChild (tracedFunctor f) d) in *.
  assert (Hall : ∀ l, Forall (λ c, ∀ d (u : FunctorState (S * Trace)),
                        grows c false u (ProcessFunctor (tracedFunctor f) d false c u)) l).
  { intros l. apply Forall_forall. intros c _ d0 w.
    apply (ProcessFunctor_trace_grows c d0 false w). }
  destruct (functor_loop_trace_grows before (Hall before) d u1) as (extB & HrB & HbB & _).
  fold PC in HrB. set (uB := fold_left PC before u1) in *.
  destruct (functor_loop_trace_grows after (Hall after) d (PC uB this))
    as (extA & HrA & HbA & HfirstA).
  fold PC in HrA. rewrite HrA in Hin |- *.
  assert (HnotA : (attr this, FUNCTOR_SIBLINGS) ∉ extA).
  { intros Hm. rewrite Forall_forall in HbA. apply HbA in Hm. simpl in Hm. contradiction. }
  assert (HnotB : (attr this, FUNCTOR_SIBLINGS) ∉ recorded uB).
  { rewrite HrB, Hr1. intros Hm. apply elem_of_app in Hm as [Hm|Hm].
    - rewrite Forall_forall in Hfirst. apply Hfirst in Hm. simpl in Hm. contradiction.
    - rewrite Forall_forall in HbB. apply HbB in Hm. simpl in Hm. contradiction. }
  assert (HT : recorded (PC uB this) = recorded uB ++ [(attr this, FUNCTOR_SIBLINGS)] ∧
               GetCode (PC uB this) ≠ FUNCTOR_STOP).
  { apply elem_of_app in Hin as [Hin|Hin]; [|contradiction].
    subst PC. unfold ProcessFunctorChild in Hin |- *. simpl GetFilters in *.
    destruct (FiltersApply (GetFilters f) this); [|contradiction].
    destruct (ProcessFunctor_trace_grows this d false uB) as (extT & HrT & Hstop & Hgo).
    destruct (FunctorCode_eqb (GetCode uB) FUNCTOR_STOP) eqn:HsB.
    { apply FunctorCode_eqb_eq in HsB. rewrite HrT, (Hstop HsB), app_nil_r in Hin.
      contradiction. }
    assert (HsB' : GetCode uB ≠ FUNCTOR_STOP)
      by (intros Heq; rewrite Heq in HsB; discriminate).
    destruct (Hgo HsB') as (ext' & -> & Hb'). rewrite HrT in Hin.
    apply elem_of_app in Hin as [Hin|Hin]; [contradiction|].
    simpl in Hin. apply elem_of_cons in Hin as [Heq|Hin].
    2:{ rewrite Forall_forall in Hb'. apply Hb' in Hin. simpl in Hin. contradiction. }
    injection Heq as Hcode.
    destruct (VisitObject f (attr this) (fst (members uB))) as [c m] eqn:Hv.
    simpl in Hcode. subst c.
    rewrite (ProcessFunctor_SIBLINGS (tracedFunctor f) d this uB
               (m, recorded uB ++ [(attr this, FUNCTOR_SIBLINGS)]));
      [simpl; split; [reflexivity | discriminate] | exact HsB' |].
    simpl. rewrite Hv. reflexivity. }
  destruct HT as [HrT HcT].
  exists (recorded uB), extA. split; [rewrite HrT, <- app_assoc; reflexivity|].
  split.
  { rewrite HrB, Hr1. apply Forall_app. split.
    - eapply Forall_impl; [exact Hfirst|]. intros v Hv. left. exact Hv.
    - eapply Forall_impl; [exact HbB|]. intros v Hv. right. exact Hv. }
  split; [exact HbA|].
  intros skipped next rest Hl Hsk Hnext.
  destruct (HfirstA skipped next rest Hl Hsk Hnext HcT) as (ext' & ->). eauto.
Qed.

End FunctorTraceGrowth.

(** What the record of a parent's traversal shows of a child whose visit
    answered SIBLINGS, in a tree that names no object twice. *)
Lemma no_descendant_in_the_record direction (parent this : Object)
    (before after : list Object) (tr1 tr2 : Trace) :
  NoDup (map attr (subobjects parent)) →
  visitingOrder direction (m_children parent) = before ++ this :: after →
  Forall (λ v, fst v = attr parent ∨ fst v ∈ map attr (flat_map subobjects before)) tr1 →
  Forall (λ v, fst v ∈ map attr (flat_map subobjects after)) tr2 →
  ∀ x, x ∈ flat_map subobjects (m_children this) →
       attr x ∉ map fst (tr1 ++ (attr this, FUNCTOR_SIBLINGS) :: tr2).
Proof.
  intros Hnd Hord H1 H2 x Hx.
  destruct (NoDup_subobjects_split direction parent this before after Hnd Hord)
    as (_ & _ & HnD & _ & Hdesc).
  assert (Hax : attr x ∈ map attr (flat_map subobjects (m_children this))).
  { apply list_elem_of_In, in_map, list_elem_of_In, Hx. }
  destruct (Hdesc _ Hax) as (HxP & HxB & HxA).
  rewrite map_app. simpl. rewrite elem_of_app, elem_of_cons.
  intros [Hin | [Heq | Hin]].
  - apply list_elem_of_In, in_map_iff in Hin as (v & Hv & Hin).
    rewrite Forall_forall in H1. apply list_elem_of_In, H1 in Hin.
    rewrite Hv in Hin. destruct Hin; contradiction.
  - rewrite Heq in Hax. contradiction.
  - apply list_elem_of_In, in_map_iff in Hin as (v & Hv & Hin).
    rewrite Forall_forall in H2. apply list_elem_of_In, H2 in Hin.
    rewrite Hv in Hin. contradiction.
Qed.

(** C1.  In the traversal of a parent whose tree names no object twice,
    when a child is visited and its visit answers SIBLINGS: no object below
    the child is visited; the record of the traversal is the visits made
    before (the parent, and objects below the earlier siblings), the visit
    of the child, and then visits below the later siblings only, the first
    of them being the visit of the next sibling that the filters let pass.
    The siblings are taken in the order of the direction.  The call of
    [Process] on the child returns with the code back to CONTINUE, its only
    effect the visit.  This holds for the function-pointer overloads and for
    the functor-object overloads. *)
Theorem SIBLINGS_skips_the_subtree :
  (∀ (P : Type) (f : Functor P) e filters direction deepness skipFirst
     (parent this : Object) (before after : list Object) (st : ProcessState P),
      NoDup (map attr (subobjects parent)) →
      visitingOrder direction (m_children parent) = before ++ this :: after →
      (attr this, FUNCTOR_SIBLINGS)
        ∈ trace_of f e filters direction deepness skipFirst parent st →
      (∀ x, x ∈ flat_map subobjects (m_children this) →
            attr x ∉ visited f e filters direction deepness skipFirst parent st) ∧
      ∃ tr1 tr2,
        trace_of f e filters direction deepness skipFirst parent st
          = tr1 ++ (attr this, FUNCTOR_SIBLINGS) :: tr2 ∧
        Forall (λ v, fst v = attr parent ∨
                     fst v ∈ map attr (flat_map subobjects before)) tr1 ∧
        Forall (λ v, fst v ∈ map attr (flat_map subobjects after)) tr2 ∧
        (∀ skipped next rest,
            after = skipped ++ next :: rest →
            Forall (λ s, FiltersApply filters s = false) skipped →
            FiltersApply filters next = true →
            ∃ c tr3, tr2 = (attr next, c) :: tr3)) ∧
  (∀ (P : Type) (f : Functor P) e filters direction deepness this
     (st : ProcessState P) p,
      m_returnCode st ≠ FUNCTOR_STOP →
      obj_fpt f (attr this) (functorParams st) = (FUNCTOR_SIBLINGS, p) →
      Process f e filters direction deepness false this st
        = mkState FUNCTOR_CONTINUE (end_returnCode st) p
            (currentScore (UpdateDocumentScore direction this st)) ∧
      trace_of f e filters direction deepness false this st
        = [(attr this, FUNCTOR_SIBLINGS)]) ∧
  (∀ (S : Type) (f : MutableFunctor S) deepness skipFirst
     (parent this : Object) (before after : list Object) (st : FunctorState S),
      NoDup (map attr (subobjects parent)) →
      visitingOrder (GetDirection f) (m_children parent) = before ++ this :: after →
      (attr this, FUNCTOR_SIBLINGS) ∈ traceFunctor_of f deepness skipFirst parent st →
      (∀ x, x ∈ flat_map subobjects (m_children this) →
            attr x ∉ map fst (traceFunctor_of f deepness skipFirst parent st)) ∧
      ∃ tr1 tr2,
        traceFunctor_of f deepness skipFirst parent st
          = tr1 ++ (attr this, FUNCTOR_SIBLINGS) :: tr2 ∧
        Forall (λ v, fst v = attr parent ∨
                     fst v ∈ map attr (flat_map subobjects before)) tr1 ∧
        Forall (λ v, fst v ∈ map attr (flat_map subobjects after)) tr2 ∧
        (∀ skipped next rest,
            after = skipped ++ next :: rest →
            Forall (λ s, FiltersApply (GetFilters f) s = false) skipped →
            FiltersApply (GetFilters f) next = true →
            ∃ c tr3, tr2 = (attr next, c) :: tr3)) ∧
  (∀ (S : Type) (f : MutableFunctor S) deepness this (st : FunctorState S) m,
      GetCode st ≠ FUNCTOR_STOP →
      VisitObject f (attr this) (members st) = (FUNCTOR_SIBLINGS, m) →
      ProcessFunctor f deepness false this st
        = mkFunctorState FUNCTOR_CONTINUE m
            (docScore (UpdateDocumentScore' (GetDirection f) this st)) ∧
      traceFunctor_of f deepness false this st = [(attr this, FUNCTOR_SIBLINGS)]).
Proof.
  split; [|split; [|split]].
  - intros P f e filters direction deepness skipFirst parent this before after st
      Hnd Hord Hin.
    destruct (Process_resumes_after_SIBLINGS f e filters direction deepness skipFirst
                parent this before after st Hnd Hord Hin)
      as (tr1 & tr2 & Htr & H1 & H2 & Hnext).
    split; [|exists tr1, tr2; auto].
    intros x Hx. unfold visited. rewrite Htr.
    eapply no_descendant_in_the_record; eassumption.
  - intros P f e filters direction deepness this st p Hst Hv.
    split; [apply Process_SIBLINGS; assumption|].
    unfold trace_of.
    rewrite (Process_SIBLINGS (traced f) _ filters direction deepness this
               (with_trace [] st) (p, [(attr this, FUNCTOR_SIBLINGS)])).
    + reflexivity.
    + exact Hst.
    + simpl. rewrite Hv. reflexivity.
  - intros S f deepness skipFirst parent this before after st Hnd Hord Hin.
    destruct (ProcessFunctor_resumes_after_SIBLINGS f deepness skipFirst
                parent this before after st Hnd Hord Hin)
      as (tr1 & tr2 & Htr & H1 & H2 & Hnext).
    split; [|exists tr1, tr2; auto].
    intros x Hx. rewrite Htr.
    eapply no_descendant_in_the_record; eassumption.
  - intros S f deepness this st m Hst Hv.
    split; [apply ProcessFunctor_SIBLINGS; assumption|].
    unfold traceFunctor_of.
    rewrite (ProcessFunctor_SIBLINGS (tracedFunctor f) deepness this
               _ (m, [(attr this, FUNCTOR_SIBLINGS)])).
    + reflexivity.
    + exact Hst.
    + simpl. rewrite Hv. reflexivity.
Qed.

Lemma SIBLINGS_skips_the_subtree_witness :
  ((∀ x, x ∈ flat_map subobjects
               (m_children (mkObject (plain 4 NOTE) [leaf (plain 5 OTHER_CLASS)])) →
         attr x ∉ visited (siblingsAt 4) None None FORWARD 3 false threeNotes
                          (initialState tt None)) ∧
   ∃ tr1 tr2,
     trace_of (siblingsAt 4) None None FORWARD 3 false threeNotes (initialState tt None)
       = tr1 ++ (plain 4 NOTE, FUNCTOR_SIBLINGS) :: tr2 ∧
     Forall (λ v, fst v = plain 0 LAYER ∨
                  fst v ∈ map attr (flat_map subobjects [leaf (plain 3 NOTE)])) tr1 ∧
     Forall (λ v, fst v ∈ map attr (flat_map subobjects [leaf (plain 6 NOTE)])) tr2 ∧
     (∀ skipped next rest,
         [leaf (plain 6 NOTE)] = skipped ++ next :: rest →
         Forall (λ s, FiltersApply None s = false) skipped →
         FiltersApply None next = true →
         ∃ c tr3, tr2 = (attr next, c) :: tr3)) ∧
  ((∀ x, x ∈ flat_map subobjects
               (m_children (mkObject (plain 4 NOTE) [leaf (plain 5 OTHER_CLASS)])) →
         attr x ∉ map fst (traceFunctor_of (siblingsAtFunctor 4) 3 false threeNotes
                             (mkFunctorState FUNCTOR_CONTINUE tt None))) ∧
   ∃ tr1 tr2,
     traceFunctor_of (siblingsAtFunctor 4) 3 false threeNotes
                     (mkFunctorState FUNCTOR_CONTINUE tt None)
       = tr1 ++ (plain 4 NOTE, FUNCTOR_SIBLINGS) :: tr2 ∧
     Forall (λ v, fst v = plain 0 LAYER ∨
                  fst v ∈ map attr (flat_map subobjects [leaf (plain 3 NOTE)])) tr1 ∧
     Forall (λ v, fst v ∈ map attr (flat_map subobjects [leaf (plain 6 NOTE)])) tr2 ∧
     (∀ skipped next rest,
         [leaf (plain 6 NOTE)] = skipped ++ next :: rest →
         Forall (λ s, FiltersApply (GetFilters (siblingsAtFunctor 4)) s = false) skipped →
         FiltersApply (GetFilters (siblingsAtFunctor 4)) next = true →
         ∃ c tr3, tr2 = (attr next, c) :: tr3)).
Proof.
  destruct SIBLINGS_skips_the_subtree as (Hold & _ & Hnew & _).
  assert (Hnd : NoDup (map attr (subobjects threeNotes))).
  { apply NoDup_ListNoDup, (NoDup_map_inv m_id). vm_compute.
    repeat constructor; simpl; intuition discriminate. }
  split.
  - apply (Hold unit (siblingsAt 4) None None FORWARD 3 false threeNotes
             (mkObject (plain 4 NOTE) [leaf (plain 5 OTHER_CLASS)])
             [leaf (plain 3 NOTE)] [leaf (plain 6 NOTE)] (initialState tt None)).
    + exact Hnd.
    + reflexivity.
    + vm_compute. apply list_elem_of_further, list_elem_of_further, list_elem_of_here.
  - apply (Hnew unit (siblingsAtFunctor 4) 3 false threeNotes
             (mkObject (plain 4 NOTE) [leaf (plain 5 OTHER_CLASS)])
             [leaf (plain 3 NOTE)] [leaf (plain 6 NOTE)]
             (mkFunctorState FUNCTOR_CONTINUE tt None)).
    + exact Hnd.
    + reflexivity.
    + vm_compute. apply list_elem_of_further, list_elem_of_further, list_elem_of_here.
Defined.

(** ** STOP *)

Section StopIsFinal.
Context {P : Type}.
Variable f : Functor P.
Variable e : option (Functor P).
Variable filters : option Filters.
Variable direction : bool.

Lemma stopIsLast_sameRun (st1 st2 : ProcessState (P * Trace)) :
  sameRun st1 st2 → stopIsLast st1 → stopIsLast st2.
Proof. unfold sameRun, stopIsLast. intros (-> & _ & ->). auto. Qed.

Lemma stopIsLast_Call this (st : ProcessState (P * Trace)) :
  m_returnCode st ≠ FUNCTOR_STOP → stopIsLast st →
  stopIsLast (Call (traced f) this st) ∧
  (m_returnCode (Call (traced f) this st) = FUNCTOR_SIBLINGS →
   noStop (snd (functorParams (Call (traced f) this st)))).
Proof.
  intros Hst [_ Hall]. specialize (Hall Hst).
  unfold Call, stopIsLast. simpl.
  destruct (obj_fpt f (attr this) (fst (functorParams st))) as [c p]. simpl.
  rewrite removelast_last. repeat split; [exact Hall | |];
    intros Hc; apply Forall_app; (split; [exact Hall|]);
    constructor; [exact Hc | constructor | simpl; congruence | constructor].
Qed.

Lemma stopIsLast_CallEnd e0 this (st : ProcessState (P * Trace)) :
  stopIsLast st → stopIsLast (CallEnd (untraced e0) this st).
Proof.
  unfold CallEnd, stopIsLast. simpl.
  destruct (obj_fpt e0 (attr this) (fst (functorParams st))); simpl. auto.
Qed.

(** [Process] keeps the record in that shape. *)
Lemma Process_stopIsLast this :
  ∀ deepness skipFirst (st : ProcessState (P * Trace)),
    stopIsLast st →
    stopIsLast (Process (traced f) (option_map untraced e) filters direction
                        deepness skipFirst this st).
Proof.
  induction this as [a children IH] using Object_children_ind.
  intros deepness skipFirst st Hinv.
  assert (Hloop : ∀ d (w : ProcessState (P * Trace)),
             stopIsLast w →
             stopIsLast (ProcessChildren (traced f) (option_map untraced e) filters
                                         direction d children w)).
  { intros d w Hw. rewrite ProcessChildren_eq.
    assert (IH' : Forall (λ c, ∀ d skipFirst (st : ProcessState (P * Trace)),
                              stopIsLast st →
                              stopIsLast (Process (traced f) (option_map untraced e)
                                            filters direction d skipFirst c st))
                         (visitingOrder direction children)).
    { unfold visitingOrder. destruct (Bool.eqb direction BACKWARD);
        [apply Forall_rev|]; exact IH. }
    revert w Hw. induction IH' as [|c cs Hc _ IHcs]; intros w Hw; simpl; [exact Hw|].
    apply IHcs. unfold ProcessChild. destruct (FiltersApply filters c); auto. }
  clear IH. rewrite Process_eq.
  destruct (FunctorCode_eqb (m_returnCode st) FUNCTOR_STOP) eqn:Hstop; [exact Hinv|].
  assert (Hst : m_returnCode st ≠ FUNCTOR_STOP).
  { intros H. rewrite H in Hstop. discriminate. }
  cbv zeta.
  set (u := UpdateDocumentScore direction (mkObject a children) st).
  assert (Hu : stopIsLast u ∧ m_returnCode u ≠ FUNCTOR_STOP).
  { pose proof (UpdateDocumentScore_sameRun direction (mkObject a children) st) as Hs.
    split; [eapply stopIsLast_sameRun; [apply sameRun_sym, Hs | exact Hinv]|].
    destruct Hs as (Hc & _). fold u in Hc. congruence. }
  clearbody u. destruct Hu as [Hu Hcu].
  set (v := if skipFirst then u else Call (traced f) (mkObject a children) u).
  assert (Hv : stopIsLast v ∧
               (m_returnCode v = FUNCTOR_SIBLINGS → noStop (snd (functorParams v)))).
  { subst v. destruct skipFirst; [|apply stopIsLast_Call; assumption].
    split; [exact Hu|]. intros _. apply Hu, Hcu. }
  clearbody v. destruct Hv as [Hv Hsib].
  destruct (FunctorCode_eqb (m_returnCode v) FUNCTOR_SIBLINGS) eqn:Hs.
  { apply FunctorCode_eqb_eq in Hs. specialize (Hsib Hs).
    unfold stopIsLast, set_returnCode. simpl. split; [|auto].
    unfold noStop in *. rewrite Forall_forall in *.
    intros x Hx. apply Hsib. apply list_elem_of_In in Hx.
    apply list_elem_of_In. revert Hx. clear.
    generalize (snd (functorParams v)). intros l Hx.
    induction l as [|y [|z l] IH]; simpl in *; [tauto | tauto |].
    destruct Hx as [->|Hx]; [left; reflexivity | right; apply IH, Hx]. }
  destruct (_ =? 0); [exact Hv|].
  assert (Hw : stopIsLast
                 (if negb (SkipChildren (attr (mkObject a children))
                                        (m_visibleOnly (traced f)))
                  then ProcessChildren (traced f) (option_map untraced e) filters direction
                         ((if IsEditorialElement (attr (mkObject a children))
                           then deepness + 1 else deepness) - 1)
                         (m_children (mkObject a children)) v
                  else v)).
  { destruct (negb _); [apply Hloop, Hv | exact Hv]. }
  destruct e as [e0|]; simpl option_map; cbv iota; [|exact Hw].
  destruct skipFirst; [exact Hw|]. apply stopIsLast_CallEnd, Hw.
Qed.

(** With the function-pointer overloads, a visit that answered STOP is the
    last visit of the traversal. *)
Lemma Process_visits_nothing_after_STOP deepness skipFirst this (st : ProcessState P)
    pre x post :
  trace_of f e filters direction deepness skipFirst this st
    = pre ++ (x, FUNCTOR_STOP) :: post →
  post = [].
Proof.
  unfold trace_of. intros Htr.
  destruct (Process_stopIsLast this deepness skipFirst (with_trace [] st)) as [Hrl _].
  { split; simpl; constructor. }
  rewrite Htr in Hrl. destruct post as [|y post]; [reflexivity|].
  exfalso. rewrite removelast_app in Hrl by discriminate.
  apply Forall_app in Hrl as [_ Hrl]. simpl in Hrl.
  apply Forall_cons_1 in Hrl as [Hx _]. simpl in Hx. congruence.
Qed.

End StopIsFinal.

(** C2.  With a functor object that implements the end interface, the code
    the end visit returns replaces the STOP of the visit: after the visit of
    object 1 answered STOP, its end visit answers CONTINUE and the next
    sibling, object 2, is visited. *)
Theorem STOP_is_overwritten_by_the_end_visit :
  traceFunctor_of (stopAtWithEnd 1) (-1) false twoChildren
      (mkFunctorState FUNCTOR_CONTINUE tt None)
    = [ (plain 0 OTHER_CLASS, FUNCTOR_CONTINUE);
        (plain 1 NOTE, FUNCTOR_STOP);
        (plain 2 NOTE, FUNCTOR_CONTINUE) ].
Proof. reflexivity. Qed.

(** ** Depth limits and wrappers *)

(** *** The accessible part of a tree *)

Lemma accessible_unrestricted code visibleOnly filters this :
  unrestricted false None (accessible code visibleOnly filters this).
Proof.
  unfold unrestricted. apply Forall_forall. intros o _. split; reflexivity.
Qed.

Lemma attr_accessible code visibleOnly filters this :
  attr (accessible code visibleOnly filters this) = attr this.
Proof. destruct this. reflexivity. Qed.

(** A traversal visits what the traversal of the accessible part visits
    when it continues everywhere, hides nothing and filters nothing. *)
Lemma walk_accessible code visibleOnly filters this :
  ∀ L, walk code visibleOnly filters L this
       = walk (λ _, FUNCTOR_CONTINUE) false None L (accessible code visibleOnly filters this).
Proof.
  induction this as [a children IH] using Object_children_ind.
  intros L. simpl. f_equal.
  set (d := if IsEditorialElement a then L + 1 else L).
  assert (Hloop : flat_map (λ iter, if FiltersApply filters iter
                                    then walk code visibleOnly filters (d - 1) iter else [])
                           children
                  = flat_map (λ iter, walk (λ _, FUNCTOR_CONTINUE) false None (d - 1) iter)
                      (flat_map (λ iter, if FiltersApply filters iter
                                         then [accessible code visibleOnly filters iter]
                                         else [])
                                children)).
  { induction IH as [|c cs Hc _ IHcs]; simpl; [reflexivity|].
    rewrite flat_map_app, <- IHcs.
    destruct (FiltersApply filters c); simpl; [|reflexivity].
    rewrite app_nil_r, Hc. reflexivity. }
  destruct (code a); destruct (d =? 0); try reflexivity;
    destruct (SkipChildren a visibleOnly); try reflexivity; exact Hloop.
Qed.

(** *** Depth limits, for visitors that answer by the object alone *)

Section LimitedWalk.
Context {P : Type}.
Variable f : Functor P.
Variable e : option (Functor P).
Variable filters : option Filters.
Variable code : ObjAttr → FunctorCode.
Hypothesis Hcode : ∀ a p, fst (obj_fpt f a p) = code a.
Hypothesis Hnostop : ∀ a, code a ≠ FUNCTOR_STOP.

Local Abbreviation open := (accessible code (m_visibleOnly f) filters).

Lemma visited_BACKWARD_walk deepness this (st : ProcessState P) :
  m_returnCode st ≠ FUNCTOR_STOP →
  visited f e filters BACKWARD deepness false this st
    = walk code (m_visibleOnly f) filters deepness (mirror this).
Proof.
  intros Hst. rewrite visited_BACKWARD_mirror.
  apply (visited_FORWARD_walk f e filters code Hcode Hnostop), Hst.
Qed.

(** Under a limit [L >= 0] the objects visited are the accessible ones
    with at most [L] ancestors that are not wrappers. *)
Lemma visited_within L this (st : ProcessState P) :
  m_returnCode st ≠ FUNCTOR_STOP →
  0 ≤ L →
  visited f e filters FORWARD L false this st
    = map snd (List.filter (λ pa, nonWrappers (fst pa) <=? L) (paths [] (open this))) ∧
  visited f e filters BACKWARD L false this st
    ≡ₚ map snd (List.filter (λ pa, nonWrappers (fst pa) <=? L) (paths [] (open this))).
Proof.
  intros Hst HL.
  assert (Hw : walk code (m_visibleOnly f) filters L this
               = map snd (List.filter (λ pa, nonWrappers (fst pa) <=? L)
                            (paths [] (open this)))).
  { rewrite walk_accessible.
    rewrite <- (walkAll_within false None L (open this) []);
      [|apply accessible_unrestricted | exact HL].
    f_equal. unfold nonWrappers. simpl. lia. }
  split.
  - rewrite (visited_FORWARD_walk f e filters code Hcode Hnostop) by exact Hst. exact Hw.
  - rewrite visited_BACKWARD_walk by exact Hst.
    rewrite walk_mirror_Permutation, Hw. reflexivity.
Qed.

(** Under a limit that never reaches zero every accessible object is
    visited. *)
Lemma visited_unbounded L this (st : ProcessState P) :
  m_returnCode st ≠ FUNCTOR_STOP →
  L < 0 →
  L < -1 ∨ IsEditorialElement (attr this) = false →
  visited f e filters FORWARD L false this st = map attr (subobjects (open this)) ∧
  visited f e filters BACKWARD L false this st ≡ₚ map attr (subobjects (open this)).
Proof.
  intros Hst HL Hroot.
  assert (Hw : walk code (m_visibleOnly f) filters L this
               = map attr (subobjects (open this))).
  { rewrite walk_accessible. apply walkAll_unbounded;
      [apply accessible_unrestricted | exact HL | rewrite attr_accessible; exact Hroot]. }
  split.
  - rewrite (visited_FORWARD_walk f e filters code Hcode Hnostop) by exact Hst. exact Hw.
  - rewrite visited_BACKWARD_walk by exact Hst.
    rewrite walk_mirror_Permutation, Hw. reflexivity.
Qed.

(** One level of a traversal, in either direction. *)
Lemma visited_level direction L this (st : ProcessState P) :
  m_returnCode st ≠ FUNCTOR_STOP →
  visited f e filters direction L false this st =
    attr this ::
      match code (attr this) with
      | FUNCTOR_SIBLINGS => []
      | _ =>
          let L' := if IsEditorialElement (attr this) then L + 1 else L in
          if L' =? 0 then []
          else if SkipChildren (attr this) (m_visibleOnly f) then []
          else flat_map
                 (λ c, if FiltersApply filters c
                       then visited f e filters direction (L' - 1) false c st else [])
                 (visitingOrder direction (m_children this))
      end.
Proof.
  intros Hst. destruct this as [a children]. destruct direction.
  - change true with FORWARD.
    rewrite (visited_FORWARD_walk f e filters code Hcode Hnostop) by exact Hst.
    simpl. f_equal. destruct (code a); try reflexivity;
      (destruct (_ =? 0); [reflexivity|];
       destruct (SkipChildren a (m_visibleOnly f)); [reflexivity|];
       apply flat_map_ext; intros c;
       destruct (FiltersApply filters c); [|reflexivity];
       symmetry; apply (visited_FORWARD_walk f e filters code Hcode Hnostop), Hst).
  - change false with BACKWARD. rewrite visited_BACKWARD_walk by exact Hst.
    simpl. f_equal. destruct (code a); try reflexivity;
      (destruct (_ =? 0); [reflexivity|];
       destruct (SkipChildren a (m_visibleOnly f)); [reflexivity|];
       unfold visitingOrder; simpl; rewrite <- map_rev;
       rewrite flat_map_concat_map, map_map, <- flat_map_concat_map;
       apply flat_map_ext; intros c; rewrite FiltersApply_mirror;
       destruct (FiltersApply filters c); [|reflexivity];
       symmetry; apply visited_BACKWARD_walk, Hst).
Qed.

End LimitedWalk.

(** With the limit 0 at an object that is not a wrapper, a traversal
    visits the object and nothing else, whatever the functor. *)
Lemma visited_at_limit_zero {P : Type} (f : Functor P) e filters direction this
    (st : ProcessState P) :
  m_returnCode st ≠ FUNCTOR_STOP →
  IsEditorialElement (attr this) = false →
  visited f e filters direction 0 false this st = [attr this].
Proof.
  intros Hst Hroot. unfold visited, trace_of. rewrite Process_eq.
  simpl m_returnCode. rewrite (FunctorCode_eqb_neq _ _ Hst). cbv zeta.
  destruct (UpdateDocumentScore_sameRun direction this (with_trace [] st)) as (_ & _ & Hp).
  destruct (Call_traced_record f this (UpdateDocumentScore direction this (with_trace [] st)))
    as [Hr _].
  rewrite Hroot. simpl Z.eqb. cbv iota.
  destruct (FunctorCode_eqb _ FUNCTOR_SIBLINGS); simpl; rewrite Hr, Hp; reflexivity.
Qed.




(** The witness spelled out: the note below the wrapper is visited under
    the limit 1, the objects below the notes are not. *)
Example wrapped_note_within_the_limit :
  visited visitAll None None FORWARD 1 false wrappedNotes (initialState tt None)
    = [plain 0 LAYER; editorial 1 APP Visible; plain 2 NOTE; plain 4 NOTE].
Proof. reflexivity. Qed.




(** ** Direction *)




(** * Properties of the cached list *)

Section WalkFold.
Context {Q : Type}.
Variable g : Functor Q.
Variable filters : option Filters.
Variable code : ObjAttr → FunctorCode.
Hypothesis Hcode : ∀ a q, fst (obj_fpt g a q) = code a.
Hypothesis Hnostop : ∀ a, code a ≠ FUNCTOR_STOP.

Local Abbreviation visit := (λ (q : Q) (a : ObjAttr), snd (obj_fpt g a q)).

(** Without an end functor, the parameters at the end of a forward
    traversal are those after the visits of [walk], in order. *)
Lemma Process_walk_fold this :
  ∀ deepness (st : ProcessState Q),
    m_returnCode st ≠ FUNCTOR_STOP →
    m_returnCode (Process g None filters FORWARD deepness false this st)
      ≠ FUNCTOR_STOP ∧
    functorParams (Process g None filters FORWARD deepness false this st) =
      fold_left visit (walk code (m_visibleOnly g) filters deepness this)
                (functorParams st).
Proof.
  induction this as [a children IH] using Object_children_ind.
  intros deepness st Hst.
  assert (Hloop : ∀ d (w : ProcessState Q),
             m_returnCode w ≠ FUNCTOR_STOP →
             m_returnCode (ProcessChildren g None filters FORWARD (d - 1) children w)
               ≠ FUNCTOR_STOP ∧
             functorParams (ProcessChildren g None filters FORWARD (d - 1) children w) =
               fold_left visit
                 (flat_map
                    (fun iter => if FiltersApply filters iter
                                 then walk code (m_visibleOnly g) filters (d - 1) iter
                                 else [])
                    children)
                 (functorParams w)).
  { unfold ProcessChildren. simpl Bool.eqb. cbv iota.
    induction IH as [|c cs Hc1 _ IHcs]; intros d w Hw; simpl; [auto|].
    unfold ProcessChild at 2 4. rewrite fold_left_app.
    destruct (FiltersApply filters c).
    - destruct (Hc1 (d - 1) w Hw) as [Hw1 Ht1].
      destruct (IHcs d _ Hw1) as [Hw2 Ht2].
      split; [exact Hw2|]. rewrite Ht2, Ht1. reflexivity.
    - apply IHcs, Hw. }
  clear IH.
  rewrite Process_eq. rewrite (FunctorCode_eqb_neq _ _ Hst). cbv zeta.
  destruct (UpdateDocumentScore_sameRun FORWARD (mkObject a children) st) as (_ & _ & Hp).
  set (u := UpdateDocumentScore FORWARD (mkObject a children) st) in *.
  unfold Call. rewrite Hp. simpl attr.
  pose proof (Hcode a (functorParams st)) as Hc.
  simpl walk. simpl fold_left.
  destruct (obj_fpt g a (functorParams st)) as [c q]. simpl in Hc. subst c.
  simpl m_returnCode. simpl snd.
  pose proof (Hnostop a) as Hns.
  destruct (code a) eqn:Hca; simpl FunctorCode_eqb; cbv iota; try congruence.
  2:{ unfold set_returnCode; simpl. split; [congruence | reflexivity]. }
  set (d := if IsEditorialElement a then deepness + 1 else deepness).
  destruct (d =? 0); [simpl; split; [congruence | reflexivity]|].
  destruct (SkipChildren a (m_visibleOnly g)); simpl negb; cbv iota.
  - simpl. split; [congruence | reflexivity].
  - simpl m_children.
    destruct (Hloop d (mkState FUNCTOR_CONTINUE (end_returnCode u) q (currentScore u)))
      as [H3 H4]; [simpl; congruence|].
    split; [exact H3 | exact H4].
Qed.

End WalkFold.

(** Without a depth limit that can reach zero, and without filters, a
    visible-only traversal that continues everywhere visits
    [visibleObjects]. *)
Lemma walk_visibleObjects this :
  ∀ deepness,
    deepness < 0 →
    deepness < -1 ∨ IsEditorialElement (attr this) = false →
    walk (λ _, FUNCTOR_CONTINUE) true None deepness this = visibleObjects this.
Proof.
  induction this as [a children IH] using Object_children_ind.
  intros deepness Hneg Hroot. simpl. f_equal.
  set (d := if IsEditorialElement a then deepness + 1 else deepness).
  assert (Hd : d < 0).
  { subst d. simpl in Hroot. destruct (IsEditorialElement a); [|lia].
    destruct Hroot; [lia | discriminate]. }
  destruct (Z.eqb_spec d 0) as [|_]; [lia|].
  match goal with
  | |- (if ?b then _ else _) = (if ?b then _ else _) => destruct b; [reflexivity|]
  end.
  clear Hroot. induction IH as [|c cs Hc _ IHcs]; simpl; [reflexivity|].
  rewrite Hc, IHcs; auto; lia.
Qed.

(** What [FillFlatList] appends to the list. *)
Lemma FillFlatList_visibleObjects UNLIMITED_DEPTH this flatList :
  UNLIMITED_DEPTH < 0 →
  UNLIMITED_DEPTH < -1 ∨ IsEditorialElement (attr this) = false →
  FillFlatList UNLIMITED_DEPTH this flatList = flatList ++ visibleObjects this.
Proof.
  intros Hneg Hroot. unfold FillFlatList.
  destruct (Process_walk_fold (newFunctor AddLayerElementToFlatList) None
              (λ _, FUNCTOR_CONTINUE) (λ _ _, eq_refl)
              ltac:(discriminate) this UNLIMITED_DEPTH (initialState flatList None))
    as [_ H]; [discriminate|].
  rewrite H. clear H. simpl m_visibleOnly. rewrite walk_visibleObjects by assumption.
  simpl. generalize (visibleObjects this). intros l. revert flatList.
  induction l as [|x l IH]; intros flatList; simpl; [symmetry; apply app_nil_r|].
  rewrite IH, <- app_assoc. reflexivity.
Qed.

(** C6 as stated fails on the collection: the text below a hidden editorial
    element is a descendant of the list owner and is not collected, whatever
    the unlimited depth is. *)
Lemma hidden_content_is_not_collected :
  In (leaf (plain 2 TEXT)) (subobjects hiddenReading) ∧
  ¬ In (plain 2 TEXT)
       (fst (GetList (-1) (λ l, l) [] (mkListNode hiddenReading true))) ∧
  ¬ In (plain 2 TEXT)
       (fst (GetList (-10000) (λ l, l) [] (mkListNode hiddenReading true))).
Proof.
  split; [simpl; auto|].
  split; vm_compute; intros [H|[H|[]]]; discriminate.
Qed.

(** C6, amended.  A read of the list of an object whose dirty flag is not
    set changes nothing and returns the list as it is.  A read when the flag
    is set clears the flag and replaces the list by the filter applied once
    to the object itself followed by its descendants in document order,
    without the content of hidden editorial elements, hidden mdivs and
    hidden system elements; the read after it returns the same list and
    changes nothing. *)
Theorem cached_list_is_rebuilt_once (UNLIMITED_DEPTH : Z)
    (FilterList : list ObjAttr → list ObjAttr) (m_list : list ObjAttr) (n : ListNode) :
  UNLIMITED_DEPTH < 0 →
  UNLIMITED_DEPTH < -1 ∨ IsEditorialElement (attr (node n)) = false →
  (IsModified n = false →
   GetList UNLIMITED_DEPTH FilterList m_list n = (m_list, n)) ∧
  (IsModified n = true →
   let rebuilt := FilterList (visibleObjects (node n)) in
   GetList UNLIMITED_DEPTH FilterList m_list n = (rebuilt, mkListNode (node n) false) ∧
   GetList UNLIMITED_DEPTH FilterList rebuilt (mkListNode (node n) false)
     = (rebuilt, mkListNode (node n) false)).
Proof.
  intros Hneg Hroot. unfold GetList, ResetList. split.
  - intros ->. reflexivity.
  - intros ->. simpl. split; [|reflexivity].
    rewrite FillFlatList_visibleObjects by assumption. reflexivity.
Qed.

Lemma cached_list_is_rebuilt_once_witness :
  (IsModified (mkListNode shownReading true) = false →
   GetList (-1) TextListInterface_FilterList [plain 9 TEXT] (mkListNode shownReading true)
     = ([plain 9 TEXT], mkListNode shownReading true)) ∧
  (IsModified (mkListNode shownReading true) = true →
   let rebuilt := TextListInterface_FilterList (visibleObjects shownReading) in
   GetList (-1) TextListInterface_FilterList [plain 9 TEXT] (mkListNode shownReading true)
     = (rebuilt, mkListNode shownReading false) ∧
   GetList (-1) TextListInterface_FilterList rebuilt (mkListNode shownReading false)
     = (rebuilt, mkListNode shownReading false)).
Proof.
  apply (cached_list_is_rebuilt_once (-1) TextListInterface_FilterList
           [plain 9 TEXT] (mkListNode shownReading true)).
  - lia.
  - right. reflexivity.
Defined.

(** * Properties of the overflow pass *)

Section OverflowFacts.
Variable CalcOverflowAbove : StaffAlignment → ObjAttr → Z.
Variable CalcOverflowBelow : StaffAlignment → ObjAttr → Z.
Variable GetDrawingStaffLineWidth : Z → Z.

Local Abbreviation CalcBBoxOverflows' :=
  (CalcBBoxOverflows CalcOverflowAbove CalcOverflowBelow GetDrawingStaffLineWidth).

(** A beam with cross-staff content that is not cross-staff itself leaves
    the parameters as they are. *)
Lemma CalcBBoxOverflows_beam_with_cross_staff_content this params :
  Is this BEAM = true →
  isSome (m_crossStaffContent (drawing this)) = true →
  isSome (m_crossStaff (drawing this)) = false →
  CalcBBoxOverflows' this params = Some (FUNCTOR_CONTINUE, params).
Proof.
  intros Hbeam Hcontent Hcross. destruct this. unfold Is in *. simpl in *.
  destruct m_classId0; try discriminate. simpl.
  rewrite Hcontent, Hcross. simpl.
  repeat (match goal with |- context [if ?b then _ else _] => destruct b end;
          try reflexivity).
Qed.

(** What the visit of the note of the scenario does to the staff alignment
    it lies on: the block above, then the block below on the alignment the
    block above has left. *)
Lemma CalcBBoxOverflows_scenarioNoteA (als : gmap nat StaffAlignment) al0 :
  als !! 100%nat = Some al0 →
  let threshold := Z.quot (GetDrawingStaffLineWidth (GetStaffSize al0)) 2 in
  let above := CalcOverflowAbove al0 scenarioNoteA in
  let al1 :=
    if above >? threshold
    then mkStaffAlignment (GetStaffSize al0)
           (Z.max (m_overflowAbove al0) above) (m_overflowBelow al0)
           (m_scoreDefClefOverflowAbove al0) (m_scoreDefClefOverflowBelow al0)
           (m_overflowAboveBBoxes al0 ++ [3%nat]) (m_overflowBelowBBoxes al0)
    else al0 in
  let below := CalcOverflowBelow al1 scenarioNoteA in
  let al2 :=
    if below >? threshold
    then mkStaffAlignment (GetStaffSize al0)
           (m_overflowAbove al1) (Z.max (m_overflowBelow al0) below)
           (m_scoreDefClefOverflowAbove al0) (m_scoreDefClefOverflowBelow al0)
           (m_overflowAboveBBoxes al1) (m_overflowBelowBBoxes al0 ++ [3%nat])
    else al1 in
  CalcBBoxOverflows' scenarioNoteA (mkParams (Some 100%nat) als)
    = Some (FUNCTOR_CONTINUE, mkParams (Some 100%nat) (<[100%nat := al2]> als)).
Proof.
  intros Hal threshold above al1 below al2.
  assert (Hmax : ∀ v old, (if v >? old then v else old) = Z.max old v).
  { intros v old. destruct (Z.gtb_spec v old); lia. }
  assert (Hsize : GetStaffSize al1 = GetStaffSize al0).
  { subst al1. destruct (above >? threshold); reflexivity. }
  assert (Hfields : m_overflowBelow al1 = m_overflowBelow al0 ∧
                    m_scoreDefClefOverflowAbove al1 = m_scoreDefClefOverflowAbove al0 ∧
                    m_scoreDefClefOverflowBelow al1 = m_scoreDefClefOverflowBelow al0 ∧
                    m_overflowBelowBBoxes al1 = m_overflowBelowBBoxes al0).
  { subst al1. destruct (above >? threshold); simpl; auto. }
  destruct Hfields as (Hf1 & Hf2 & Hf3 & Hf4).
  assert (Habove : overflowAboveOf CalcOverflowAbove GetDrawingStaffLineWidth
                     scenarioNoteA false (Some 100%nat) (mkParams (Some 100%nat) als)
                   = Some (mkParams (Some 100%nat) (<[100%nat := al1]> als))).
  { unfold overflowAboveOf. simpl. rewrite Hal. simpl.
    fold above threshold. subst al1.
    destruct (above >? threshold).
    - unfold setAlignment, AddBBoxAbove, SetOverflowAbove. simpl. rewrite Hmax. reflexivity.
    - rewrite insert_id by exact Hal. reflexivity. }
  assert (Hbelow : overflowBelowOf CalcOverflowBelow GetDrawingStaffLineWidth
                     scenarioNoteA false (Some 100%nat)
                     (mkParams (Some 100%nat) (<[100%nat := al1]> als))
                   = Some (mkParams (Some 100%nat) (<[100%nat := al2]> als))).
  { unfold overflowBelowOf. simpl. rewrite lookup_insert_eq. simpl.
    rewrite Hsize. fold below threshold. subst al2.
    destruct (below >? threshold).
    - unfold setAlignment, AddBBoxBelow, SetOverflowBelow. simpl.
      rewrite Hmax, Hsize, Hf1, Hf2, Hf3, Hf4, insert_insert_eq. reflexivity.
    - reflexivity. }
  unfold scenarioNoteA, layerElement in *. simpl in Habove, Hbelow |- *.
  rewrite Habove. simpl. rewrite Hbelow. reflexivity.
Qed.

Lemma asserting_eq m this p code p' :
  m this p = Some (code, p') →
  asserting m this (Some p) = (code, Some p').
Proof. unfold asserting. intros ->. reflexivity. Qed.

Local Arguments Process : simpl never.

(** The traversal of the scenario with a functor that answers CONTINUE on
    its five objects and an end functor that does nothing on them. *)
Lemma Process_scenario {Q : Type} (v w : ObjAttr → Q → FunctorCode * Q)
    (d : positive) (q0 q1 q2 q3 q4 q5 : Q) :
  v (plain 0 OTHER_CLASS) q0 = (FUNCTOR_CONTINUE, q1) →
  v scenarioStaff q1 = (FUNCTOR_CONTINUE, q2) →
  v (plain 2 LAYER) q2 = (FUNCTOR_CONTINUE, q3) →
  v scenarioNoteA q3 = (FUNCTOR_CONTINUE, q4) →
  w scenarioNoteA q4 = (FUNCTOR_CONTINUE, q4) →
  v scenarioBeam q4 = (FUNCTOR_CONTINUE, q5) →
  w scenarioBeam q5 = (FUNCTOR_CONTINUE, q5) →
  w (plain 2 LAYER) q5 = (FUNCTOR_CONTINUE, q5) →
  w scenarioStaff q5 = (FUNCTOR_CONTINUE, q5) →
  w (plain 0 OTHER_CLASS) q5 = (FUNCTOR_CONTINUE, q5) →
  functorParams
    (Process (newFunctor v) (Some (newFunctor w)) None FORWARD (Z.neg d) false
             scenario (initialState q0 None))
    = q5.
Proof.
  intros H0 H1 H2 H3 E3 H4 E4 E2 E1 E0.
  unfold scenario, leaf.
  rewrite Process_eq. simpl. unfold Call. simpl. rewrite H0. simpl.
  unfold ProcessChildren, ProcessChild. simpl.
  rewrite Process_eq. simpl. unfold Call. simpl. rewrite H1. simpl.
  unfold ProcessChildren, ProcessChild. simpl.
  rewrite Process_eq. simpl. unfold Call. simpl. rewrite H2. simpl.
  unfold ProcessChildren, ProcessChild. simpl.
  rewrite (Process_eq _ _ _ _ _ _ (mkObject scenarioNoteA [])).
  simpl. unfold Call. simpl. rewrite H3. simpl.
  unfold ProcessChildren. simpl.
  unfold CallEnd at 4. simpl. rewrite E3. simpl.
  rewrite Process_eq. simpl. unfold Call. simpl. rewrite H4. simpl.
  unfold ProcessChildren. simpl.
  unfold CallEnd at 4. simpl. rewrite E4. simpl.
  unfold CallEnd at 3. simpl. rewrite E2. simpl.
  unfold CallEnd at 2. simpl. rewrite E1. simpl.
  unfold CallEnd. simpl. rewrite E0. reflexivity.
Qed.

(** C9.  A beam that has cross-staff content and is not cross-staff
    itself leaves every staff alignment as it is, whatever the alignments
    are.  In the scenario (visible staff, layer, a note and such a beam)
    the overflow pass changes the staff alignment of the staff alone, and
    what it records there is the contribution of the note: when the
    overflow of the note above exceeds half the staff line width, the
    maximum above is raised to it and the note joins the contributors
    above; then the same below, the overflow below being computed on the
    alignment as the block above has left it.  The beam is recorded
    nowhere. *)
Theorem overflow_pass_skips_the_beam (als : gmap nat StaffAlignment) al0 current deepness :
  deepness < 0 →
  als !! 100%nat = Some al0 →
  (∀ this params,
      Is this BEAM = true →
      isSome (m_crossStaffContent (drawing this)) = true →
      isSome (m_crossStaff (drawing this)) = false →
      CalcBBoxOverflows' this params = Some (FUNCTOR_CONTINUE, params)) ∧
  let threshold := Z.quot (GetDrawingStaffLineWidth (GetStaffSize al0)) 2 in
  let above := CalcOverflowAbove al0 scenarioNoteA in
  let al1 :=
    if above >? threshold
    then mkStaffAlignment (GetStaffSize al0)
           (Z.max (m_overflowAbove al0) above) (m_overflowBelow al0)
           (m_scoreDefClefOverflowAbove al0) (m_scoreDefClefOverflowBelow al0)
           (m_overflowAboveBBoxes al0 ++ [3%nat]) (m_overflowBelowBBoxes al0)
    else al0 in
  let below := CalcOverflowBelow al1 scenarioNoteA in
  let al2 :=
    if below >? threshold
    then mkStaffAlignment (GetStaffSize al0)
           (m_overflowAbove al1) (Z.max (m_overflowBelow al0) below)
           (m_scoreDefClefOverflowAbove al0) (m_scoreDefClefOverflowBelow al0)
           (m_overflowAboveBBoxes al1) (m_overflowBelowBBoxes al0 ++ [3%nat])
    else al1 in
  overflowPass CalcOverflowAbove CalcOverflowBelow GetDrawingStaffLineWidth
               deepness scenario (mkParams current als)
    = Some (mkParams (Some 100%nat) (<[100%nat := al2]> als)).
Proof.
  intros Hd Hal.
  split; [intros; apply CalcBBoxOverflows_beam_with_cross_staff_content; assumption|].
  intros threshold above al1 below al2.
  pose proof (CalcBBoxOverflows_scenarioNoteA als al0 Hal) as Hn. cbv zeta in Hn.
  fold threshold above al1 below al2 in Hn.
  pose proof (CalcBBoxOverflows_beam_with_cross_staff_content scenarioBeam
                (mkParams (Some 100%nat) (<[100%nat := al2]> als))
                eq_refl eq_refl eq_refl) as Hb.
  apply asserting_eq in Hn, Hb.
  destruct deepness as [|d|d]; try lia.
  unfold overflowPass.
  apply (Process_scenario _ _ d
           (Some (mkParams current als))
           (Some (mkParams current als))
           (Some (mkParams (Some 100%nat) als))
           (Some (mkParams (Some 100%nat) als))
           (Some (mkParams (Some 100%nat) (<[100%nat := al2]> als)))
           (Some (mkParams (Some 100%nat) (<[100%nat := al2]> als))));
    try reflexivity; assumption.
Qed.

End OverflowFacts.

Lemma overflow_pass_skips_the_beam_witness :
  let above := λ (_ : StaffAlignment) (a : ObjAttr), if Nat.eqb (m_id a) 3 then 50 else 80 in
  let below := λ (_ : StaffAlignment) (a : ObjAttr), if Nat.eqb (m_id a) 3 then 30 else 80 in
  let width := λ _ : Z, 10 in
  let al0 := mkStaffAlignment 100 0 0 0 0 [] [] in
  let als : gmap nat StaffAlignment := {[ 100%nat := al0 ]} in
  (∀ this params,
      Is this BEAM = true →
      isSome (m_crossStaffContent (drawing this)) = true →
      isSome (m_crossStaff (drawing this)) = false →
      CalcBBoxOverflows above below width this params = Some (FUNCTOR_CONTINUE, params)) ∧
  overflowPass above below width (-1) scenario (mkParams None als)
    = Some (mkParams (Some 100%nat)
              (<[100%nat := mkStaffAlignment 100 50 30 0 0 [3%nat] [3%nat]]> als)).
Proof.
  intros above below width al0 als.
  apply (overflow_pass_skips_the_beam above below width als al0 None (-1)).
  - lia.
  - reflexivity.
Defined.


(** * Properties of the search below an object *)

Lemma HasDescendant_eq this child deepness :
  HasDescendant this child deepness =
    HasDescendant_loop (λ c, HasDescendant c child (deepness - 1)) child deepness
                       (m_children this).
Proof.
  destruct this as [a children]. simpl.
  induction children as [|c cs IH]; simpl; [reflexivity|].
  rewrite IH. reflexivity.
Qed.

Lemma descendants_cons a c cs :
  descendants (mkObject a (c :: cs)) =
    m_id (attr c) :: descendants c ++ descendants (mkObject a cs).
Proof.
  unfold descendants. simpl. destruct c as [ac ccs]. simpl.
  rewrite map_app. reflexivity.
Qed.

(** Without a depth limit, [HasDescendant] answers whether the object is
    anywhere below: among the children, or below one of them. *)
Theorem HasDescendant_unlimited (this : Object) (child : nat) (deepness : Z) :
  deepness < 0 →
  HasDescendant this child deepness = true ↔ child ∈ descendants this.
Proof.
  revert deepness. induction this as [a children IH] using Object_children_ind.
  intros deepness Hneg. rewrite HasDescendant_eq. simpl m_children.
  induction IH as [|c cs Hc _ IHcs]; simpl.
  - unfold descendants. simpl. rewrite elem_of_nil. split; [discriminate | tauto].
  - rewrite descendants_cons, elem_of_cons, elem_of_app.
    destruct (Nat.eqb_spec child (m_id (attr c))) as [->|Hne]; [tauto|].
    destruct (Z.eqb_spec deepness 0) as [|_]; [lia|].
    specialize (Hc (deepness - 1) ltac:(lia)).
    destruct (HasDescendant c child (deepness - 1)).
    + split; [intros _ | reflexivity]. right. left. apply Hc. reflexivity.
    + rewrite IHcs. split; [tauto|].
      intros [?|[Hin|?]]; [contradiction | | assumption].
      apply Hc in Hin. discriminate.
Qed.

Lemma HasDescendant_unlimited_witness :
  HasDescendant wrappedNotes 3 (-1) = true ↔ 3%nat ∈ descendants wrappedNotes.
Proof. apply (HasDescendant_unlimited wrappedNotes 3 (-1)). lia. Defined.

(** With the depth limit 0, [HasDescendant] compares the first child only:
    it answers [true] exactly when the object looked for is the first child,
    and [false] for any other child. *)
Theorem HasDescendant_at_depth_zero (this : Object) (child : nat) :
  HasDescendant this child 0 = true ↔
  ∃ c rest, m_children this = c :: rest ∧ m_id (attr c) = child.
Proof.
  rewrite HasDescendant_eq. destruct (m_children this) as [|c rest]; simpl.
  - split; [discriminate|]. intros (c & rest & H & _). discriminate.
  - destruct (Nat.eqb_spec child (m_id (attr c))) as [->|Hne].
    + split; [eauto | reflexivity].
    + split; [discriminate|]. intros (c' & rest' & [= <- <-] & Heq). congruence.
Qed.

(** * Properties of the list queries *)

Section ListQueryFacts.
Variable ObjectComparison : ClassId → ObjAttr → bool.

Lemma GetListIndex_loop_absent e l i :
  e ∉ map m_id l → GetListIndex_loop e l i = -1.
Proof.
  revert i. induction l as [|x l IH]; intros i Hin; simpl; [reflexivity|].
  simpl in Hin. apply not_elem_of_cons in Hin as [Hne Hin].
  destruct (Nat.eqb_spec e (m_id x)); [contradiction|]. apply IH, Hin.
Qed.

Lemma GetListIndex_loop_first before s after i :
  m_id s ∉ map m_id before →
  GetListIndex_loop (m_id s) (before ++ s :: after) i = i + Z.of_nat (length before).
Proof.
  revert i. induction before as [|x l IH]; intros i Hin; simpl.
  - rewrite Nat.eqb_refl. lia.
  - simpl in Hin. apply not_elem_of_cons in Hin as [Hne Hin].
    destruct (Nat.eqb_spec (m_id s) (m_id x)); [contradiction|].
    rewrite IH by exact Hin. lia.
Qed.

Lemma GetListPrevious_loop_absent e l p :
  e ∉ map m_id l → GetListPrevious_loop e p l = None.
Proof.
  revert p. induction l as [|x l IH]; intros p Hin; simpl; [reflexivity|].
  simpl in Hin. apply not_elem_of_cons in Hin as [Hne Hin].
  destruct (Nat.eqb_spec e (m_id x)); [contradiction|]. apply IH, Hin.
Qed.

Lemma GetListPrevious_loop_first before s after p :
  m_id s ∉ map m_id before →
  GetListPrevious_loop (m_id s) p (before ++ s :: after) =
    match last before with Some b => Some b | None => p end.
Proof.
  revert p. induction before as [|x l IH]; intros p Hin; simpl.
  - rewrite Nat.eqb_refl. reflexivity.
  - simpl in Hin. apply not_elem_of_cons in Hin as [Hne Hin].
    destruct (Nat.eqb_spec (m_id s) (m_id x)); [contradiction|].
    rewrite IH by exact Hin. destruct l as [|y l]; [reflexivity|].
    simpl. destruct (last (y :: l)) eqn:Hl; [reflexivity|].
    apply last_None in Hl. discriminate.
Qed.

(** In a list without repeated object, [GetListPrevious] and [GetListNext]
    give the two neighbours of an element and are inverse to each other;
    there is nothing before the front, nothing after the back, and nothing
    around an object that is not in the list. *)
Theorem GetListNext_inverts_GetListPrevious (m_list : list ObjAttr) :
  NoDup (map m_id m_list) →
  (∀ before a b after, m_list = before ++ a :: b :: after →
     GetListPrevious m_list (m_id b) = Some a ∧
     GetListNext m_list (m_id a) = Some b) ∧
  (∀ a rest, m_list = a :: rest → GetListPrevious m_list (m_id a) = None) ∧
  (∀ front a, m_list = front ++ [a] → GetListNext m_list (m_id a) = None) ∧
  (∀ e, e ∉ map m_id m_list →
     GetListPrevious m_list e = None ∧ GetListNext m_list e = None).
Proof.
  intros Hnd. repeat split.
  - intros. subst m_list. unfold GetListPrevious.
    replace (before ++ a :: b :: after) with ((before ++ [a]) ++ b :: after)
      by (rewrite <- app_assoc; reflexivity).
    rewrite GetListPrevious_loop_first.
    + rewrite last_snoc. reflexivity.
    + rewrite map_app, NoDup_app in Hnd. destruct Hnd as (_ & Hdisj & Hnd).
      simpl in Hnd. apply NoDup_cons in Hnd as [Hab Hnd].
      apply NoDup_cons in Hnd as [Hb _].
      rewrite map_app. simpl. intros Hin. apply elem_of_app in Hin as [Hin|Hin].
      * apply (Hdisj _ Hin). simpl. rewrite !elem_of_cons. auto.
      * apply elem_of_cons in Hin as [Heq|Hin]; [|apply elem_of_nil in Hin; exact Hin].
        apply Hab. rewrite Heq. apply list_elem_of_here.
  - intros. subst m_list. unfold GetListNext.
    replace (rev (before ++ a :: b :: after))
      with ((rev after ++ [b]) ++ a :: rev before)
      by (rewrite rev_app_distr; simpl; rewrite <- !app_assoc; reflexivity).
    rewrite GetListPrevious_loop_first.
    + rewrite last_snoc. reflexivity.
    + rewrite map_app, NoDup_app in Hnd. destruct Hnd as (_ & Hdisj & Hnd).
      simpl in Hnd. apply NoDup_cons in Hnd as [Hab Hnd].
      rewrite map_app, map_rev. simpl. intros Hin. apply elem_of_app in Hin as [Hin|Hin].
      * apply Hab. apply list_elem_of_further. apply list_elem_of_In.
        apply in_rev. apply list_elem_of_In. exact Hin.
      * apply elem_of_cons in Hin as [Heq|Hin]; [|apply elem_of_nil in Hin; exact Hin].
        apply Hab. rewrite Heq. apply list_elem_of_here.
  - intros. subst m_list. unfold GetListPrevious. simpl. rewrite Nat.eqb_refl. reflexivity.
  - intros. subst m_list. unfold GetListNext. rewrite rev_app_distr. simpl.
    rewrite Nat.eqb_refl. reflexivity.
  - unfold GetListPrevious. apply GetListPrevious_loop_absent. assumption.
  - unfold GetListNext. apply GetListPrevious_loop_absent.
    rewrite map_rev. intros Hin. apply H. apply list_elem_of_In, in_rev, list_elem_of_In.
    exact Hin.
Qed.

Lemma GetListNext_inverts_GetListPrevious_witness :
  let m_list := [plain 1 NOTE; plain 2 CLEF; plain 3 NOTE] in
  (∀ before a b after, m_list = before ++ a :: b :: after →
     GetListPrevious m_list (m_id b) = Some a ∧
     GetListNext m_list (m_id a) = Some b) ∧
  (∀ a rest, m_list = a :: rest → GetListPrevious m_list (m_id a) = None) ∧
  (∀ front a, m_list = front ++ [a] → GetListNext m_list (m_id a) = None) ∧
  (∀ e, e ∉ map m_id m_list →
     GetListPrevious m_list e = None ∧ GetListNext m_list e = None).
Proof.
  apply (GetListNext_inverts_GetListPrevious [plain 1 NOTE; plain 2 CLEF; plain 3 NOTE]).
  simpl. repeat constructor; rewrite ?elem_of_cons, ?elem_of_nil; intuition lia.
Defined.

(** [GetListFirst] searches from the element given, which it can return;
    [GetListFirstBackward] searches from the element before it, towards the
    front, and cannot return the element given when it occurs once.  Both
    answer null when the element given is not in the list. *)
Theorem GetListFirst_and_GetListFirstBackward
    (m_list before after : list ObjAttr) (s : ObjAttr) (classId : ClassId) :
  m_list = before ++ s :: after →
  m_id s ∉ map m_id before →
  GetListFirst ObjectComparison m_list (m_id s) classId
    = List.find (ObjectComparison classId) (s :: after) ∧
  GetListFirstBackward ObjectComparison m_list (m_id s) classId
    = List.find (ObjectComparison classId) (rev before) ∧
  (∀ e, e ∉ map m_id m_list →
     GetListFirst ObjectComparison m_list e classId = None ∧
     GetListFirstBackward ObjectComparison m_list e classId = None).
Proof.
  intros -> Hfirst.
  assert (Hidx : GetListIndex (before ++ s :: after) (m_id s) = Z.of_nat (length before)).
  { unfold GetListIndex. rewrite GetListIndex_loop_first by exact Hfirst. lia. }
  unfold GetListFirst, GetListFirstBackward. rewrite Hidx.
  destruct (Z.eqb_spec (Z.of_nat (length before)) (-1)) as [|_]; [lia|].
  rewrite Nat2Z.id. rewrite drop_app_length, take_app_length.
  split; [reflexivity|]. split; [reflexivity|].
  intros e He. unfold GetListIndex. rewrite GetListIndex_loop_absent by exact He.
  split; reflexivity.
Qed.

End ListQueryFacts.

Lemma GetListFirst_and_GetListFirstBackward_witness :
  GetListFirst (λ c a, Is a c) [plain 1 NOTE; plain 2 CLEF; plain 3 NOTE] 2 CLEF
    = List.find (λ a, Is a CLEF) [plain 2 CLEF; plain 3 NOTE] ∧
  GetListFirstBackward (λ c a, Is a c) [plain 1 NOTE; plain 2 CLEF; plain 3 NOTE] 2 CLEF
    = List.find (λ a, Is a CLEF) (rev [plain 1 NOTE]) ∧
  (∀ e, e ∉ map m_id [plain 1 NOTE; plain 2 CLEF; plain 3 NOTE] →
     GetListFirst (λ c a, Is a c) [plain 1 NOTE; plain 2 CLEF; plain 3 NOTE] e CLEF = None ∧
     GetListFirstBackward (λ c a, Is a c) [plain 1 NOTE; plain 2 CLEF; plain 3 NOTE] e CLEF
       = None).
Proof.
  apply (GetListFirst_and_GetListFirstBackward (λ c a, Is a c)
           [plain 1 NOTE; plain 2 CLEF; plain 3 NOTE] [plain 1 NOTE] [plain 3 NOTE]
           (plain 2 CLEF) CLEF).
  - reflexivity.
  - simpl. rewrite elem_of_cons, elem_of_nil. intuition lia.
Defined.

(** * Properties of the iteration over the children *)

Lemma find_if_spec {A : Type} (pred : A → bool) (l : list A) :
  ∀ pre,
    let q := find_if pred l (length pre) in
    (length pre ≤ q ≤ length (pre ++ l))%nat ∧
    List.filter pred (take q (pre ++ l)) = List.filter pred pre ∧
    ((q < length (pre ++ l))%nat → ∃ x, (pre ++ l) !! q = Some x ∧ pred x = true).
Proof.
  induction l as [|x l IH]; intros pre; simpl.
  - rewrite app_nil_r. split; [lia|]. split; [|lia].
    rewrite take_ge by lia. reflexivity.
  - destruct (pred x) eqn:Hx.
    + split; [rewrite length_app; simpl; lia|].
      split; [rewrite take_app_length; reflexivity|].
      intros _. exists x. split; [|exact Hx]. apply list_lookup_middle. reflexivity.
    + specialize (IH (pre ++ [x])). rewrite length_app in IH. simpl in IH.
      rewrite Nat.add_1_r in IH. rewrite <- app_assoc in IH. simpl in IH.
      destruct IH as (Hq & Hf & Hm). split; [lia|]. split; [|exact Hm].
      rewrite Hf, List.filter_app. simpl. rewrite Hx. apply app_nil_r.
Qed.

Section ChildIterationFacts.
Variable ObjectComparison : ClassId → ObjAttr → bool.
Variable this : Object.
Variable classId : ClassId.

Local Abbreviation pred := (λ c : Object, ObjectComparison classId (attr c)).
Local Abbreviation matching := (List.filter pred (m_children this)).

(** Where the iterator stands after [GetFirst] and [n] calls of [GetNext]:
    on the match that has [n] matches before it, or at the end. *)
Lemma nth_call_position n :
  (n ≤ length matching)%nat →
  ∃ cur,
    nth_call ObjectComparison this classId n
      = Some (at_iterator this (length (m_children this)) cur,
              mkChildIterator classId (length (m_children this)) cur) ∧
    (cur ≤ length (m_children this))%nat ∧
    length (List.filter pred (take cur (m_children this))) = n ∧
    ((cur < length (m_children this))%nat →
     ∃ x, m_children this !! cur = Some x ∧ pred x = true).
Proof.
  induction n as [|n IH]; intros Hn.
  - destruct (find_if_spec pred (m_children this) []) as (Hq & Hf & Hm).
    simpl in Hq, Hf, Hm. eexists. split; [reflexivity|].
    split; [lia|]. split; [rewrite Hf; reflexivity | exact Hm].
  - destruct IH as (cur & Hcall & Hle & Hcount & Hat); [lia|].
    assert (Hlt : (cur < length (m_children this))%nat).
    { destruct (decide (cur = length (m_children this))) as [->|]; [|lia].
      rewrite take_ge in Hcount by lia. lia. }
    destruct (Hat Hlt) as (x & Hx & Hpx).
    simpl nth_call. rewrite Hcall. unfold GetNext. simpl.
    destruct (Nat.leb_spec (length (m_children this)) cur) as [|_]; [lia|].
    rewrite (take_ge (m_children this)) by lia.
    destruct (find_if_spec pred (drop (S cur) (m_children this))
                (take (S cur) (m_children this))) as (Hq & Hf & Hm).
    rewrite take_drop in Hq, Hf, Hm. rewrite length_take in Hq, Hf, Hm.
    replace (S cur `min` length (m_children this))%nat with (S cur) in * by lia.
    eexists. split; [reflexivity|]. split; [lia|]. split; [|exact Hm].
    rewrite Hf. rewrite (take_S_r _ _ x) by exact Hx.
    rewrite List.filter_app, length_app. simpl. rewrite Hpx. simpl. lia.
Qed.

(** [GetFirst] followed by calls of [GetNext] returns the children of the
    class in the order of the child sequence, then null; a call of [GetNext]
    after the null is one increment past the end. *)
Theorem GetNext_enumerates_the_children_of_the_class :
  (∀ n, (n ≤ length matching)%nat →
        fst <$> nth_call ObjectComparison this classId n = Some (matching !! n)) ∧
  nth_call ObjectComparison this classId (S (length matching)) = None.
Proof.
  split.
  - intros n Hn. destruct (nth_call_position n Hn) as (cur & -> & Hle & Hcount & Hat).
    simpl. f_equal. unfold at_iterator.
    destruct (Nat.eqb_spec cur (length (m_children this))) as [->|Hne].
    + rewrite take_ge in Hcount by lia. symmetry. apply lookup_ge_None. lia.
    + destruct Hat as (x & Hx & Hpx); [lia|]. rewrite Hx.
      rewrite <- (take_drop_middle _ _ _ Hx) at 1.
      rewrite List.filter_app. simpl. rewrite Hpx.
      symmetry. apply list_lookup_middle. symmetry. exact Hcount.
  - destruct (nth_call_position (length matching)) as (cur & Hcall & Hle & Hcount & Hat);
      [lia|].
    simpl nth_call. rewrite Hcall. unfold GetNext. simpl.
    destruct (Nat.leb_spec (length (m_children this)) cur) as [|Hlt]; [reflexivity|].
    exfalso. destruct (Hat Hlt) as (x & Hx & Hpx).
    assert (Hlen : length matching
                   = (length (List.filter pred (take cur (m_children this)))
                      + S (length (List.filter pred (drop (S cur) (m_children this)))))%nat).
    { rewrite <- (take_drop_middle _ _ _ Hx) at 1.
      rewrite List.filter_app, length_app. simpl. rewrite Hpx. reflexivity. }
    lia.
Qed.

End ChildIterationFacts.

Lemma find_if_find {A : Type} (pred : A → bool) (l : list A) :
  ∀ pre,
    let q := find_if pred l (length pre) in
    (if Nat.eqb q (length (pre ++ l)) then None else (pre ++ l) !! q) = List.find pred l.
Proof.
  induction l as [|x l IH]; intros pre; simpl.
  - rewrite app_nil_r, Nat.eqb_refl. reflexivity.
  - destruct (pred x) eqn:Hx.
    + destruct (Nat.eqb_spec (length pre) (length (pre ++ x :: l))) as [Heq|_].
      * rewrite length_app in Heq. simpl in Heq. lia.
      * apply list_lookup_middle. reflexivity.
    + specialize (IH (pre ++ [x])). rewrite length_app in IH. simpl in IH.
      rewrite Nat.add_1_r, <- app_assoc in IH. exact IH.
Qed.

Lemma find_if_none {A : Type} (pred : A → bool) (l : list A) :
  ∀ first, Forall (λ x, pred x = false) l → find_if pred l first = (first + length l)%nat.
Proof.
  induction l as [|x l IH]; intros first Hl; simpl; [lia|].
  apply Forall_cons_1 in Hl as [-> Hl]. rewrite IH by exact Hl. lia.
Qed.

Lemma find_if_first {A : Type} (pred : A → bool) (before after : list A) (c : A) :
  ∀ first, Forall (λ x, pred x = false) before → pred c = true →
           find_if pred (before ++ c :: after) first = (first + length before)%nat.
Proof.
  induction before as [|x l IH]; intros first Hl Hc; simpl.
  - rewrite Hc. lia.
  - apply Forall_cons_1 in Hl as [-> Hl]. rewrite IH by assumption. lia.
Qed.

(** The search of [GetNext(child, classId)] and [GetPrevious(child,
    classId)]: the first match after the first element that is [child]. *)
Lemma search_after_first {A : Type} (is_child pred : A → bool)
    (before after : list A) (c : A) :
  Forall (λ x, is_child x = false) before → is_child c = true →
  let l := before ++ c :: after in
  let current := find_if is_child l 0 in
  let current :=
    if negb (Nat.eqb current (length l))
    then find_if pred (drop (S current) l) (S current) else current in
  (if Nat.eqb current (length l) then None else l !! current) = List.find pred after.
Proof.
  intros Hb Hc. cbv zeta. rewrite find_if_first by assumption. simpl.
  destruct (Nat.eqb_spec (length before) (length (before ++ c :: after))) as [Heq|_].
  { rewrite length_app in Heq. simpl in Heq. lia. }
  simpl negb. cbv iota.
  replace (drop (S (length before)) (before ++ c :: after)) with after.
  2:{ replace (before ++ c :: after) with ((before ++ [c]) ++ after)
        by (rewrite <- app_assoc; reflexivity).
      replace (S (length before)) with (length (before ++ [c]))
        by (rewrite length_app; simpl; lia).
      rewrite drop_app_length. reflexivity. }
  pose proof (find_if_find pred after (before ++ [c])) as H. cbv zeta in H.
  rewrite length_app in H. simpl in H. rewrite Nat.add_1_r, <- app_assoc in H. exact H.
Qed.

Section ChildNeighbourFacts.
Variable ObjectComparison : ClassId → ObjAttr → bool.

Lemma not_the_child (child : nat) (l : list Object) :
  child ∉ map (λ o, m_id (attr o)) l →
  Forall (λ x, Nat.eqb child (m_id (attr x)) = false) l.
Proof.
  induction l as [|x l IH]; intros Hin; constructor.
  - apply Nat.eqb_neq. intros ->. apply Hin. simpl. apply list_elem_of_here.
  - apply IH. intros H. apply Hin. simpl. apply list_elem_of_further, H.
Qed.

(** For a child that occurs once in the child sequence,
    [GetNext(child, classId)] is the nearest child of the class after it and
    [GetPrevious(child, classId)] the nearest before it; the child itself is
    never returned.  For an object that is not a child both are null.
    [GetLast] is the child of the class nearest to the end. *)
Theorem GetNext_and_GetPrevious_of_a_child
    (this : Object) (before after : list Object) (c : Object) (classId : ClassId) :
  m_children this = before ++ c :: after →
  m_id (attr c) ∉ map (λ o, m_id (attr o)) (before ++ after) →
  GetNext_after ObjectComparison this (m_id (attr c)) classId
    = List.find (λ o, ObjectComparison classId (attr o)) after ∧
  GetPrevious_before ObjectComparison this (m_id (attr c)) classId
    = List.find (λ o, ObjectComparison classId (attr o)) (rev before) ∧
  GetLast ObjectComparison this classId
    = List.find (λ o, ObjectComparison classId (attr o)) (rev (m_children this)) ∧
  (∀ e, e ∉ map (λ o, m_id (attr o)) (m_children this) →
     GetNext_after ObjectComparison this e classId = None ∧
     GetPrevious_before ObjectComparison this e classId = None).
Proof.
  intros Hch Hnd. rewrite map_app in Hnd. apply not_elem_of_app in Hnd as [Hb Ha].
  split; [|split; [|split]].
  - unfold GetNext_after, at_iterator. rewrite Hch.
    apply (search_after_first (λ o, Nat.eqb (m_id (attr c)) (m_id (attr o))));
      [apply not_the_child, Hb | apply Nat.eqb_refl].
  - unfold GetPrevious_before. rewrite Hch.
    replace (rev (before ++ c :: after)) with (rev after ++ c :: rev before)
      by (rewrite rev_app_distr; simpl; rewrite <- app_assoc; reflexivity).
    apply (search_after_first (λ o, Nat.eqb (m_id (attr c)) (m_id (attr o))));
      [|apply Nat.eqb_refl].
    apply not_the_child. rewrite map_rev. intros H. apply Ha.
    apply list_elem_of_In, in_rev, list_elem_of_In. exact H.
  - unfold GetLast.
    exact (find_if_find (λ o, ObjectComparison classId (attr o)) (rev (m_children this)) []).
  - intros e He. split.
    + unfold GetNext_after, at_iterator.
      rewrite find_if_none by (apply not_the_child, He). simpl.
      rewrite Nat.eqb_refl. simpl. rewrite Nat.eqb_refl. reflexivity.
    + unfold GetPrevious_before.
      rewrite find_if_none.
      * simpl. rewrite Nat.eqb_refl. simpl. rewrite Nat.eqb_refl. reflexivity.
      * apply not_the_child. rewrite map_rev. intros H. apply He.
        apply list_elem_of_In, in_rev, list_elem_of_In. exact H.
Qed.

End ChildNeighbourFacts.

Lemma GetNext_and_GetPrevious_of_a_child_witness :
  let this := mkObject (plain 0 LAYER)
                [leaf (plain 1 NOTE); leaf (plain 2 CLEF); leaf (plain 3 NOTE)] in
  GetNext_after (λ c a, Is a c) this 2 NOTE
    = List.find (λ o, Is (attr o) NOTE) [leaf (plain 3 NOTE)] ∧
  GetPrevious_before (λ c a, Is a c) this 2 NOTE
    = List.find (λ o, Is (attr o) NOTE) (rev [leaf (plain 1 NOTE)]) ∧
  GetLast (λ c a, Is a c) this NOTE
    = List.find (λ o, Is (attr o) NOTE) (rev (m_children this)) ∧
  (∀ e, e ∉ map (λ o, m_id (attr o)) (m_children this) →
     GetNext_after (λ c a, Is a c) this e NOTE = None ∧
     GetPrevious_before (λ c a, Is a c) this e NOTE = None).
Proof.
  apply (GetNext_and_GetPrevious_of_a_child (λ c a, Is a c)
           (mkObject (plain 0 LAYER)
              [leaf (plain 1 NOTE); leaf (plain 2 CLEF); leaf (plain 3 NOTE)])
           [leaf (plain 1 NOTE)] [leaf (plain 3 NOTE)] (leaf (plain 2 CLEF)) NOTE).
  - reflexivity.
  - simpl. rewrite !elem_of_cons, elem_of_nil. intuition lia.
Defined.

(** * Properties of saving *)

(** Two traversals of the same tree whose visitors answer the same codes on
    related parameters and keep the parameters related end in related
    states. *)
Section ProcessRelated.
Context {P Q : Type}.
Variable R : P → Q → Prop.
Variable f : Functor P.
Variable g : Functor Q.
Variable e : option (Functor P).
Variable e' : option (Functor Q).
Variable filters : option Filters.
Variable direction : bool.

Local Abbreviation agree := (λ (v : Functor P) (v' : Functor Q),
  ∀ a p q, R p q →
    fst (obj_fpt v a p) = fst (obj_fpt v' a q) ∧
    R (snd (obj_fpt v a p)) (snd (obj_fpt v' a q))).

Local Abbreviation related := (λ (st : ProcessState P) (st' : ProcessState Q),
  m_returnCode st = m_returnCode st' ∧ end_returnCode st = end_returnCode st' ∧
  currentScore st = currentScore st' ∧ R (functorParams st) (functorParams st')).

Hypothesis Hvisible : m_visibleOnly f = m_visibleOnly g.
Hypothesis Hf : agree f g.
Hypothesis He : match e, e' with
                | Some v, Some v' => agree v v'
                | None, None => True
                | _, _ => False
                end.

Lemma UpdateDocumentScore_related this (st : ProcessState P) (st' : ProcessState Q) :
  related st st' →
  related (UpdateDocumentScore direction this st) (UpdateDocumentScore direction this st').
Proof.
  intros (Hc & Hec & Hs & Hp). unfold UpdateDocumentScore.
  repeat (match goal with
          | |- context [if ?b then _ else _] => destruct b
          | |- context [match ?x with _ => _ end] => destruct x
          end; simpl); auto.
Qed.

Lemma Process_related this :
  ∀ deepness skipFirst (st : ProcessState P) (st' : ProcessState Q),
    related st st' →
    related (Process f e filters direction deepness skipFirst this st)
            (Process g e' filters direction deepness skipFirst this st').
Proof.
  induction this as [a children IH] using Object_children_ind.
  intros deepness skipFirst st st' Hrel.
  assert (Hloop : ∀ d (w : ProcessState P) (w' : ProcessState Q),
             related w w' →
             related (ProcessChildren f e filters direction d children w)
                     (ProcessChildren g e' filters direction d children w')).
  { intros d w w' Hw. rewrite !ProcessChildren_eq.
    assert (IH' : Forall (λ c, ∀ deepness skipFirst (st : ProcessState P)
                                 (st' : ProcessState Q),
                            related st st' →
                            related (Process f e filters direction deepness skipFirst c st)
                                    (Process g e' filters direction deepness skipFirst c st'))
                         (visitingOrder direction children)).
    { unfold visitingOrder. destruct (Bool.eqb direction BACKWARD); [|exact IH].
      apply Forall_rev, IH. }
    clear IH. revert w w' Hw.
    induction IH' as [|c cs Hc _ IHcs]; intros w w' Hw; simpl; [exact Hw|].
    apply IHcs. unfold ProcessChild.
    destruct (FiltersApply filters c); [apply Hc, Hw | exact Hw]. }
  clear IH. rewrite !Process_eq.
  destruct Hrel as (Hc & Hec & Hs & Hp). rewrite <- Hc.
  destruct (FunctorCode_eqb (m_returnCode st) FUNCTOR_STOP); [auto|].
  cbv zeta.
  pose proof (UpdateDocumentScore_related (mkObject a children) st st'
                (conj Hc (conj Hec (conj Hs Hp)))) as Hu.
  set (u := UpdateDocumentScore direction (mkObject a children) st) in *.
  set (u' := UpdateDocumentScore direction (mkObject a children) st') in *.
  clearbody u u'. clear st st' Hc Hec Hs Hp.
  assert (Hcall : related (if skipFirst then u else Call f (mkObject a children) u)
                          (if skipFirst then u' else Call g (mkObject a children) u')).
  { destruct skipFirst; [exact Hu|]. destruct Hu as (Hc & Hec & Hs & Hp).
    unfold Call. destruct (Hf a _ _ Hp) as [H1 H2]. simpl attr.
    destruct (obj_fpt f a (functorParams u)), (obj_fpt g a (functorParams u')).
    simpl in *. auto. }
  set (v := if skipFirst then u else Call f (mkObject a children) u) in *.
  set (v' := if skipFirst then u' else Call g (mkObject a children) u') in *.
  clearbody v v'. clear u u' Hu.
  destruct Hcall as (Hc & Hec & Hs & Hp). rewrite <- Hc.
  destruct (FunctorCode_eqb (m_returnCode v) FUNCTOR_SIBLINGS).
  { unfold set_returnCode. simpl. auto. }
  simpl attr. simpl m_children.
  destruct ((if IsEditorialElement a then deepness + 1 else deepness) =? 0); [auto|].
  rewrite <- Hvisible.
  assert (Hkids : related
            (if negb (SkipChildren a (m_visibleOnly f))
             then ProcessChildren f e filters direction
                    ((if IsEditorialElement a then deepness + 1 else deepness) - 1) children v
             else v)
            (if negb (SkipChildren a (m_visibleOnly f))
             then ProcessChildren g e' filters direction
                    ((if IsEditorialElement a then deepness + 1 else deepness) - 1) children v'
             else v')).
  { destruct (negb (SkipChildren a (m_visibleOnly f))); [apply Hloop|]; auto. }
  revert Hkids. generalize (if negb (SkipChildren a (m_visibleOnly f))
             then ProcessChildren f e filters direction
                    ((if IsEditorialElement a then deepness + 1 else deepness) - 1) children v
             else v).
  generalize (if negb (SkipChildren a (m_visibleOnly f))
             then ProcessChildren g e' filters direction
                    ((if IsEditorialElement a then deepness + 1 else deepness) - 1) children v'
             else v').
  intros k' k (Hkc & Hkec & Hks & Hkp).
  destruct e as [v0|], e' as [v0'|]; try contradiction; [|auto].
  destruct skipFirst; [auto|]. unfold CallEnd. simpl attr.
  destruct (He a _ _ Hkp) as [H1 H2].
  destruct (obj_fpt v0 a (functorParams k)), (obj_fpt v0' a (functorParams k')).
  simpl in *. auto.
Qed.

End ProcessRelated.

Lemma Nested_app u v : Nested u → Nested v → Nested (u ++ v).
Proof.
  induction 1 as [|a inner rest Hi _ Hr IH]; intros Hv; [exact Hv|].
  simpl. rewrite <- app_assoc. simpl. constructor; [exact Hi | apply IH, Hv].
Qed.

Section SaveFacts.
Context {O : Type}.
Variable WriteObject : ObjAttr → O → bool * O.
Variable WriteObjectEnd : ObjAttr → O → bool * O.

Local Abbreviation save := (mkFunctor false (Save WriteObject)).
Local Abbreviation saveEnd := (newFunctor (SaveEnd WriteObjectEnd)).
Local Abbreviation wr := (write WriteObject WriteObjectEnd).

Lemma Save_output a out : snd (Save WriteObject a out) = snd (WriteObject a out).
Proof. unfold Save. destruct (WriteObject a out) as [[] o]; reflexivity. Qed.

Lemma SaveEnd_output a out : snd (SaveEnd WriteObjectEnd a out) = snd (WriteObjectEnd a out).
Proof. unfold SaveEnd. destruct (WriteObjectEnd a out) as [[] o]; reflexivity. Qed.

Lemma Save_code a out :
  fst (Save WriteObject a out)
  = if fst (WriteObject a out) then FUNCTOR_CONTINUE else FUNCTOR_STOP.
Proof. unfold Save. destruct (WriteObject a out) as [[] o]; reflexivity. Qed.

(** When no [WriteObject] fails, the traversal of [SaveObject] writes the
    serialization of the subtree. *)
Lemma Process_save_all this :
  (∀ a out, fst (WriteObject a out) = true) →
  ∀ deepness (st : ProcessState O),
    deepness < -1 →
    m_returnCode st ≠ FUNCTOR_STOP →
    m_returnCode (Process save (Some saveEnd) None FORWARD deepness false this st)
      ≠ FUNCTOR_STOP ∧
    functorParams (Process save (Some saveEnd) None FORWARD deepness false this st)
      = fold_left wr (serialization this) (functorParams st).
Proof.
  intros Hok. induction this as [a children IH] using Object_children_ind.
  intros deepness st Hd Hst.
  assert (Hloop : ∀ d (w : ProcessState O),
             d < -1 → m_returnCode w ≠ FUNCTOR_STOP →
             m_returnCode (ProcessChildren save (Some saveEnd) None FORWARD d children w)
               ≠ FUNCTOR_STOP ∧
             functorParams (ProcessChildren save (Some saveEnd) None FORWARD d children w)
               = fold_left wr (flat_map serialization children) (functorParams w)).
  { intros d. unfold ProcessChildren. simpl Bool.eqb. cbv iota.
    induction IH as [|c cs Hc _ IHcs]; intros w Hd' Hw; simpl; [auto|].
    unfold ProcessChild at 2 4. simpl FiltersApply. cbv iota.
    destruct (Hc d w Hd' Hw) as [Hw1 Hp1].
    destruct (IHcs _ Hd' Hw1) as [Hw2 Hp2].
    split; [exact Hw2|].
    rewrite Hp2, Hp1, fold_left_app. reflexivity. }
  clear IH. rewrite Process_eq. rewrite (FunctorCode_eqb_neq _ _ Hst). cbv zeta.
  destruct (UpdateDocumentScore_sameRun FORWARD (mkObject a children) st) as (_ & _ & Hp).
  set (u := UpdateDocumentScore FORWARD (mkObject a children) st) in *. clearbody u.
  unfold Call. rewrite Hp. simpl attr. simpl obj_fpt.
  pose proof (Save_code a (functorParams st)) as Hcode.
  pose proof (Save_output a (functorParams st)) as Hout.
  rewrite Hok in Hcode.
  destruct (Save WriteObject a (functorParams st)) as [code out]. simpl in Hcode, Hout.
  subst code. simpl FunctorCode_eqb. cbv iota.
  destruct (Z.eqb_spec (if IsEditorialElement a then deepness + 1 else deepness) 0)
    as [Hz|_]; [destruct (IsEditorialElement a); lia|].
  simpl SkipChildren. simpl negb. cbv iota. simpl m_children.
  destruct (Hloop ((if IsEditorialElement a then deepness + 1 else deepness) - 1)
              (mkState FUNCTOR_CONTINUE (end_returnCode u) out (currentScore u)))
    as [Hc1 Hp1]; [destruct (IsEditorialElement a); lia | simpl; congruence|].
  unfold CallEnd. simpl attr. simpl obj_fpt. rewrite Hp1. simpl functorParams.
  pose proof (SaveEnd_output a (fold_left wr (flat_map serialization children) out)) as Hend.
  destruct (SaveEnd WriteObjectEnd a (fold_left wr (flat_map serialization children) out))
    as [ecode eout].
  simpl in Hend. simpl. split; [exact Hc1|].
  rewrite fold_left_app. simpl. rewrite <- Hout. subst eout. reflexivity.
Qed.

End SaveFacts.

(** When no [WriteObject] fails, [SaveObject] writes the object, then its
    children in the order of the child sequence, each with everything below
    it, then the end of the object; hidden objects and what is below them
    are written like the others, and a [WriteObjectEnd] that fails stops
    nothing.  The value returned is [true]. *)
Theorem SaveObject_writes_the_whole_subtree {O : Type}
    (WriteObject WriteObjectEnd : ObjAttr → O → bool * O) (UNLIMITED_DEPTH : Z)
    (this : Object) (saveParams : O) :
  UNLIMITED_DEPTH < -1 →
  (∀ a out, fst (WriteObject a out) = true) →
  SaveObject WriteObject WriteObjectEnd UNLIMITED_DEPTH this saveParams
    = (true, fold_left (write WriteObject WriteObjectEnd) (serialization this) saveParams).
Proof.
  intros Hd Hok. unfold SaveObject. f_equal.
  apply (Process_save_all WriteObject WriteObjectEnd this Hok UNLIMITED_DEPTH
           (initialState saveParams None) Hd).
  discriminate.
Qed.

Lemma SaveObject_writes_the_whole_subtree_witness :
  SaveObject (λ a out, (true, out ++ [m_id a])) (λ a out, (false, out ++ [m_id a]))
             (-10000) hiddenReading []
    = (true,
       fold_left (write (λ a out, (true, out ++ [m_id a]))
                        (λ a out, (false, out ++ [m_id a])))
                 (serialization hiddenReading) []).
Proof.
  apply (SaveObject_writes_the_whole_subtree
           (λ a out, (true, out ++ [m_id a])) (λ a out, (false, out ++ [m_id a]))
           (-10000) hiddenReading []).
  - lia.
  - intros a out. reflexivity.
Defined.

Section SaveRecordedFacts.
Context {O : Type}.
Variable WriteObject : ObjAttr → O → bool * O.
Variable WriteObjectEnd : ObjAttr → O → bool * O.

Local Abbreviation rsave := (mkFunctor false (Save (recording_WriteObject WriteObject))).
Local Abbreviation rsaveEnd := (newFunctor (SaveEnd (recording_WriteObjectEnd WriteObjectEnd))).
Local Abbreviation wr := (write WriteObject WriteObjectEnd).

(** Whatever fails, what one call of the traversal of [SaveObject] asks the
    output to write is properly nested. *)
Lemma Process_save_nested this :
  ∀ deepness (st : ProcessState (O * list SaveEvent)),
    deepness < -1 →
    ∃ events,
      Nested events ∧
      functorParams (Process rsave (Some rsaveEnd) None FORWARD deepness false this st)
        = (fold_left wr events (fst (functorParams st)), snd (functorParams st) ++ events).
Proof.
  induction this as [a children IH] using Object_children_ind.
  intros deepness st Hd.
  assert (Hloop : ∀ d (w : ProcessState (O * list SaveEvent)),
             d < -1 →
             ∃ events,
               Nested events ∧
               functorParams (ProcessChildren rsave (Some rsaveEnd) None FORWARD d children w)
                 = (fold_left wr events (fst (functorParams w)),
                    snd (functorParams w) ++ events)).
  { intros d. unfold ProcessChildren. simpl Bool.eqb. cbv iota.
    induction IH as [|c cs Hc _ IHcs]; intros w Hd'; simpl.
    - exists []. split; [constructor|]. rewrite app_nil_r.
      destruct (functorParams w); reflexivity.
    - unfold ProcessChild at 2. simpl FiltersApply. cbv iota.
      destruct (Hc d w Hd') as (ev1 & Hn1 & Hp1).
      destruct (IHcs (Process rsave (Some rsaveEnd) None FORWARD d false c w) Hd')
        as (ev2 & Hn2 & Hp2).
      exists (ev1 ++ ev2). split; [apply Nested_app; assumption|].
      rewrite Hp2, Hp1. simpl. rewrite fold_left_app, app_assoc. reflexivity. }
  clear IH. rewrite Process_eq.
  destruct (FunctorCode_eqb (m_returnCode st) FUNCTOR_STOP).
  { exists []. split; [constructor|]. rewrite app_nil_r.
    destruct (functorParams st); reflexivity. }
  cbv zeta.
  destruct (UpdateDocumentScore_sameRun FORWARD (mkObject a children) st) as (_ & _ & Hp).
  set (u := UpdateDocumentScore FORWARD (mkObject a children) st) in *. clearbody u.
  unfold Call. rewrite Hp. simpl attr. simpl obj_fpt.
  destruct (functorParams st) as [out tr]. clear Hp.
  destruct (WriteObject a out) as [written out1] eqn:Hw.
  set (code := if negb written then FUNCTOR_STOP else FUNCTOR_CONTINUE).
  assert (Hsave : Save (recording_WriteObject WriteObject) a (out, tr)
                  = (code, (out1, tr ++ [Written a]))).
  { unfold Save, recording_WriteObject. simpl. rewrite Hw. subst code.
    destruct written; reflexivity. }
  rewrite Hsave. simpl m_returnCode.
  assert (Hns : FunctorCode_eqb code FUNCTOR_SIBLINGS = false)
    by (subst code; destruct written; reflexivity).
  rewrite Hns.
  destruct (Z.eqb_spec (if IsEditorialElement a then deepness + 1 else deepness) 0)
    as [Hz|_]; [destruct (IsEditorialElement a); lia|].
  simpl SkipChildren. simpl negb. cbv iota. simpl m_children.
  destruct (Hloop ((if IsEditorialElement a then deepness + 1 else deepness) - 1)
              (mkState code (end_returnCode u) (out1, tr ++ [Written a]) (currentScore u)))
    as (inner & Hn & Hp1); [destruct (IsEditorialElement a); lia|].
  unfold CallEnd. simpl attr. simpl obj_fpt. rewrite Hp1. simpl functorParams.
  unfold SaveEnd, recording_WriteObjectEnd. simpl fst. simpl snd.
  destruct (WriteObjectEnd a (fold_left wr inner out1)) as [wend out2] eqn:Hwe.
  exists (Written a :: inner ++ [WrittenEnd a]).
  split; [constructor; [exact Hn | constructor]|].
  assert (Hfold : fold_left wr (Written a :: inner ++ [WrittenEnd a]) out = out2).
  { simpl fold_left. rewrite fold_left_app. simpl. rewrite Hw. simpl. rewrite Hwe.
    reflexivity. }
  rewrite Hfold. destruct wend; simpl; rewrite <- !app_assoc; reflexivity.
Qed.

End SaveRecordedFacts.

(** Whatever [WriteObject] or [WriteObjectEnd] fails, the writes of
    [SaveObject] are properly nested: once an object is written, its end is
    written too, after everything written below it.  Recording the writes
    does not change the output, and the value returned is [true] even when a
    write failed. *)
Theorem SaveObject_writes_are_nested {O : Type}
    (WriteObject WriteObjectEnd : ObjAttr → O → bool * O) (UNLIMITED_DEPTH : Z)
    (this : Object) (saveParams : O) :
  UNLIMITED_DEPTH < -1 →
  ∃ events,
    SaveObject (recording_WriteObject WriteObject) (recording_WriteObjectEnd WriteObjectEnd)
               UNLIMITED_DEPTH this (saveParams, [])
      = (true, (snd (SaveObject WriteObject WriteObjectEnd UNLIMITED_DEPTH this saveParams),
                events)) ∧
    Nested events ∧
    snd (SaveObject WriteObject WriteObjectEnd UNLIMITED_DEPTH this saveParams)
      = fold_left (write WriteObject WriteObjectEnd) events saveParams.
Proof.
  intros Hd.
  destruct (Process_save_nested WriteObject WriteObjectEnd this UNLIMITED_DEPTH
              (initialState (saveParams, []) None) Hd) as (events & Hn & Hp).
  simpl in Hp.
  assert (Herase :
    fst (functorParams
           (Process (mkFunctor false (Save (recording_WriteObject WriteObject)))
              (Some (newFunctor (SaveEnd (recording_WriteObjectEnd WriteObjectEnd))))
              None FORWARD UNLIMITED_DEPTH false this (initialState (saveParams, []) None)))
    = functorParams
        (Process (mkFunctor false (Save WriteObject))
           (Some (newFunctor (SaveEnd WriteObjectEnd)))
           None FORWARD UNLIMITED_DEPTH false this (initialState saveParams None))).
  { apply (Process_related (λ (p : O * list SaveEvent) (q : O), fst p = q)).
    - reflexivity.
    - intros a [o tr] q Hq. simpl in Hq. subst q. simpl.
      unfold Save, recording_WriteObject. simpl.
      destruct (WriteObject a o) as [[] o1]; simpl; auto.
    - intros a [o tr] q Hq. simpl in Hq. subst q. simpl.
      unfold SaveEnd, recording_WriteObjectEnd. simpl.
      destruct (WriteObjectEnd a o) as [[] o1]; simpl; auto.
    - simpl. auto. }
  exists events. unfold SaveObject. simpl snd.
  rewrite Hp in Herase. simpl in Herase. rewrite <- Herase.
  split; [rewrite Hp; reflexivity|]. split; [exact Hn | reflexivity].
Qed.

Lemma SaveObject_writes_are_nested_witness :
  ∃ events,
    SaveObject (recording_WriteObject (λ a out, (negb (Nat.eqb (m_id a) 2), out ++ [m_id a])))
               (recording_WriteObjectEnd (λ a out, (true, out ++ [m_id a])))
               (-10000) wrappedNotes ([], [])
      = (true,
         (snd (SaveObject (λ a out, (negb (Nat.eqb (m_id a) 2), out ++ [m_id a]))
                          (λ a out, (true, out ++ [m_id a])) (-10000) wrappedNotes []),
          events)) ∧
    Nested events ∧
    snd (SaveObject (λ a out, (negb (Nat.eqb (m_id a) 2), out ++ [m_id a]))
                    (λ a out, (true, out ++ [m_id a])) (-10000) wrappedNotes [])
      = fold_left (write (λ a out, (negb (Nat.eqb (m_id a) 2), out ++ [m_id a]))
                         (λ a out, (true, out ++ [m_id a]))) events [].
Proof.
  apply (SaveObject_writes_are_nested
           (λ a out, (negb (Nat.eqb (m_id a) 2), out ++ [m_id a]))
           (λ a out, (true, out ++ [m_id a])) (-10000) wrappedNotes []).
  lia.
Defined.

(** * Properties of the text of a list *)

Lemma Is_LB_not_TEXT a : Is a LB = true → Is a TEXT = false.
Proof. unfold Is. destruct (m_classId a); simpl; congruence. Qed.

Section TextFacts.
Variable Text_GetText : ObjAttr → list Z.

Local Abbreviation texts := (λ l : list ObjAttr,
  concat (map Text_GetText (List.filter (λ a, Is a TEXT) l))).

(** On a list of texts and line breaks the loop of [GetText] appends the
    texts in order. *)
Lemma GetText_loop_filtered (iter : list ObjAttr) :
  ∀ concatText,
    GetText_loop Text_GetText (TextListInterface_FilterList iter) concatText
      = Some (concatText ++ texts iter).
Proof.
  unfold TextListInterface_FilterList.
  induction iter as [|it rest IH]; intros concatText; simpl.
  - rewrite app_nil_r. reflexivity.
  - destruct (Is it LB) eqn:Hlb; simpl.
    + rewrite Hlb, (Is_LB_not_TEXT _ Hlb). apply IH.
    + destruct (Is it TEXT) eqn:Htext; simpl; [|apply IH].
      rewrite Hlb. unfold text_of. rewrite Htext. rewrite IH, <- app_assoc. reflexivity.
Qed.

(** What the loop of [GetTextLines] pushes when it returns. *)
Lemma GetTextLines_loop_lines (iter : list ObjAttr) :
  ∀ concatText lines lines',
    GetTextLines_loop Text_GetText iter concatText lines = Some lines' →
    ∃ new text,
      lines' = lines ++ new ∧
      Forall (λ line, line ≠ []) new ∧
      concat new = concatText ++ text ∧
      ∀ acc, GetText_loop Text_GetText iter acc = Some (acc ++ text).
Proof.
  induction iter as [|it rest IH]; intros concatText lines lines' H; simpl in H.
  - injection H as <-. destruct concatText as [|z zs]; simpl.
    + exists [], []. rewrite app_nil_r. repeat split; [constructor|].
      intros acc. simpl. rewrite app_nil_r. reflexivity.
    + exists [z :: zs], []. simpl. rewrite !app_nil_r.
      repeat split; [repeat constructor; discriminate|].
      intros acc. rewrite app_nil_r. reflexivity.
  - destruct (Is it LB && negb (is_empty concatText)) eqn:Hbreak.
    + apply andb_true_iff in Hbreak as [Hlb Hne].
      destruct (IH _ _ _ H) as (new & text & -> & Hnew & Hcat & Htext).
      exists (concatText :: new), text. rewrite <- app_assoc. simpl.
      split; [reflexivity|]. split.
      * constructor; [|exact Hnew]. destruct concatText; [discriminate Hne | discriminate].
      * split; [rewrite Hcat; reflexivity|].
        intros acc. rewrite Hlb. apply Htext.
    + unfold text_of in H |- *. destruct (Is it TEXT) eqn:Htext; [|discriminate].
      destruct (IH _ _ _ H) as (new & text & -> & Hnew & Hcat & Hrest).
      exists new, (Text_GetText it ++ text).
      split; [reflexivity|]. split; [exact Hnew|].
      split; [rewrite Hcat, <- app_assoc; reflexivity|].
      intros acc. simpl.
      destruct (Is it LB) eqn:Hlb.
      * rewrite (Is_LB_not_TEXT _ Hlb) in Htext. discriminate.
      * unfold text_of. rewrite Htext, Hrest, <- app_assoc. reflexivity.
Qed.

End TextFacts.

(** The text of an object that has been modified is the concatenation, in
    document order, of the texts among the object and its visible
    descendants; [GetText] does not fail on the list its own filter leaves,
    and leaves the list cached. *)
Theorem GetText_concatenates_the_texts (Text_GetText : ObjAttr → list Z)
    (UNLIMITED_DEPTH : Z) (m_list : list ObjAttr) (n : ListNode) :
  UNLIMITED_DEPTH < 0 →
  UNLIMITED_DEPTH < -1 ∨ IsEditorialElement (attr (node n)) = false →
  IsModified n = true →
  GetText Text_GetText UNLIMITED_DEPTH m_list n
    = (Some (concat (map Text_GetText
                       (List.filter (λ a, Is a TEXT) (visibleObjects (node n))))),
       (TextListInterface_FilterList (visibleObjects (node n)),
        mkListNode (node n) false)).
Proof.
  intros Hneg Hroot Hmod. unfold GetText, GetList, ResetList. rewrite Hmod. simpl.
  rewrite FillFlatList_visibleObjects by assumption. simpl.
  rewrite GetText_loop_filtered. reflexivity.
Qed.

Lemma GetText_concatenates_the_texts_witness :
  GetText (λ a, [Z.of_nat (m_id a)]) (-1) [] (mkListNode shownReading true)
    = (Some (concat (map (λ a, [Z.of_nat (m_id a)])
                       (List.filter (λ a, Is a TEXT) (visibleObjects shownReading)))),
       (TextListInterface_FilterList (visibleObjects shownReading),
        mkListNode shownReading false)).
Proof.
  apply (GetText_concatenates_the_texts (λ a, [Z.of_nat (m_id a)]) (-1) []
           (mkListNode shownReading true)).
  - lia.
  - right. reflexivity.
  - reflexivity.
Defined.

(** When [GetTextLines] returns, it has appended lines none of which is
    empty, and their concatenation is the text [GetText] gives for the same
    list.  A line break that is met while the current line is empty is
    handed to the cast to [Text], which is a fault: so it is for a list that
    starts with a line break. *)
Theorem GetTextLines_splits_the_text (Text_GetText : ObjAttr → list Z)
    (UNLIMITED_DEPTH : Z) (m_list : list ObjAttr) (n : ListNode)
    (lines : list (list Z)) :
  (∀ lines',
     fst (GetTextLines Text_GetText UNLIMITED_DEPTH m_list n lines) = Some lines' →
     ∃ new,
       lines' = lines ++ new ∧
       Forall (λ line, line ≠ []) new ∧
       fst (GetText Text_GetText UNLIMITED_DEPTH m_list n) = Some (concat new)) ∧
  (∀ lb rest,
     fst (GetList UNLIMITED_DEPTH TextListInterface_FilterList m_list n) = lb :: rest →
     Is lb LB = true →
     fst (GetTextLines Text_GetText UNLIMITED_DEPTH m_list n lines) = None).
Proof.
  unfold GetTextLines, GetText.
  destruct (GetList UNLIMITED_DEPTH TextListInterface_FilterList m_list n)
    as [childList n']. simpl. split.
  - intros lines' H.
    destruct (GetTextLines_loop_lines Text_GetText _ _ _ _ H)
      as (new & text & Hl & Hnew & Hcat & Htext).
    exists new. split; [exact Hl|]. split; [exact Hnew|].
    rewrite Htext, Hcat. reflexivity.
  - intros lb rest -> Hlb. simpl. rewrite Hlb. simpl.
    unfold text_of. rewrite (Is_LB_not_TEXT _ Hlb). reflexivity.
Qed.

Lemma GetTextLines_splits_the_text_witness :
  (∃ new,
     [[2]] = [] ++ new ∧
     Forall (λ line, line ≠ []) new ∧
     fst (GetText (λ a, [Z.of_nat (m_id a)]) (-1) [] (mkListNode shownReading true))
       = Some (concat new)) ∧
  fst (GetTextLines (λ a, [Z.of_nat (m_id a)]) (-1) [] (mkListNode lineBreakFirst true) [])
    = None.
Proof.
  split.
  - apply (proj1 (GetTextLines_splits_the_text (λ a, [Z.of_nat (m_id a)]) (-1) []
                    (mkListNode shownReading true) [])).
    reflexivity.
  - apply (proj2 (GetTextLines_splits_the_text (λ a, [Z.of_nat (m_id a)]) (-1) []
                    (mkListNode lineBreakFirst true) [])
             (plain 1 LB) [plain 2 TEXT]); reflexivity.
Defined.

(** * Properties of [GetAlignmentLeftRight] *)

Section AlignmentFacts.
Variable HasEmptyBB : ObjAttr → bool.
Variable GetSelfLeft : ObjAttr → Z.
Variable GetSelfRight : ObjAttr → Z.

Local Abbreviation visit := (λ (p : GetAlignmentLeftRightParams) (a : ObjAttr),
  snd (GetAlignmentLeftRight HasEmptyBB GetSelfLeft GetSelfRight a p)).
Local Abbreviation counted := (λ (p : GetAlignmentLeftRightParams) (a : ObjAttr),
  measured HasEmptyBB (m_excludeClasses p) a).

Lemma GetAlignmentLeftRight_step a p :
  m_excludeClasses (visit p a) = m_excludeClasses p ∧
  (counted p a = false → visit p a = p) ∧
  (counted p a = true →
   m_minLeft (visit p a) = Z.min (m_minLeft p) (GetSelfLeft a) ∧
   m_maxRight (visit p a) = Z.max (m_maxRight p) (GetSelfRight a)).
Proof.
  unfold GetAlignmentLeftRight, measured.
  destruct (IsLayerElement a); simpl; [|repeat split; discriminate].
  destruct (HasSelfBB (drawing a)); simpl; [|repeat split; discriminate].
  destruct (HasEmptyBB a); simpl; [repeat split; discriminate|].
  destruct (existsb (Is a) (m_excludeClasses p)); simpl; [repeat split; discriminate|].
  destruct (m_minLeft p >? GetSelfLeft a) eqn:H1; simpl;
    destruct (m_maxRight p <? GetSelfRight a) eqn:H2; simpl;
    rewrite Z.gtb_ltb in H1;
    (apply Z.ltb_lt in H1 || apply Z.ltb_ge in H1);
    (apply Z.ltb_lt in H2 || apply Z.ltb_ge in H2);
    (split; [reflexivity|]); (split; [discriminate|]); intros _; lia.
Qed.

Lemma GetAlignmentLeftRight_fold (l : list ObjAttr) :
  ∀ p,
    let p' := fold_left visit l p in
    m_excludeClasses p' = m_excludeClasses p ∧
    m_minLeft p' ≤ m_minLeft p ∧ m_maxRight p ≤ m_maxRight p' ∧
    (∀ a, a ∈ l → counted p a = true →
          m_minLeft p' ≤ GetSelfLeft a ∧ GetSelfRight a ≤ m_maxRight p') ∧
    (m_minLeft p' = m_minLeft p ∨
     ∃ a, a ∈ l ∧ counted p a = true ∧ m_minLeft p' = GetSelfLeft a) ∧
    (m_maxRight p' = m_maxRight p ∨
     ∃ a, a ∈ l ∧ counted p a = true ∧ m_maxRight p' = GetSelfRight a).
Proof.
  induction l as [|x l IH]; intros p; simpl.
  - split; [reflexivity|]. split; [lia|]. split; [lia|].
    split; [|auto]. intros a Ha. apply elem_of_nil in Ha. destruct Ha.
  - destruct (GetAlignmentLeftRight_step x p) as (Hex & Hskip & Hcount).
    destruct (IH (visit p x)) as (Hex' & Hmin & Hmax & Hall & Hleft & Hright).
    rewrite Hex in Hex', Hall, Hleft, Hright.
    split; [exact Hex'|].
    destruct (counted p x) eqn:Hx.
    + destruct (Hcount eq_refl) as [Hl Hr].
      split; [lia|]. split; [lia|]. split; [|split].
      * intros a Ha Hc. apply elem_of_cons in Ha as [->|Ha]; [lia | auto].
      * destruct Hleft as [Heq | (a & Ha & Hc & Heq)].
        -- destruct (Z.min_spec (m_minLeft p) (GetSelfLeft x)) as [[_ Hm]|[_ Hm]].
           ++ left. lia.
           ++ right. exists x. split; [apply list_elem_of_here|]. split; [exact Hx | lia].
        -- right. exists a. split; [apply list_elem_of_further, Ha | auto].
      * destruct Hright as [Heq | (a & Ha & Hc & Heq)].
        -- destruct (Z.max_spec (m_maxRight p) (GetSelfRight x)) as [[_ Hm]|[_ Hm]].
           ++ right. exists x. split; [apply list_elem_of_here|]. split; [exact Hx | lia].
           ++ left. lia.
        -- right. exists a. split; [apply list_elem_of_further, Ha | auto].
    + rewrite (Hskip eq_refl) in *.
      split; [lia|]. split; [lia|]. split; [|split].
      * intros a Ha Hc. apply elem_of_cons in Ha as [->|Ha]; [congruence | auto].
      * destruct Hleft as [Heq | (a & Ha & Hc & Heq)]; [left; exact Heq|].
        right. exists a. split; [apply list_elem_of_further, Ha | auto].
      * destruct Hright as [Heq | (a & Ha & Hc & Heq)]; [left; exact Heq|].
        right. exists a. split; [apply list_elem_of_further, Ha | auto].
Qed.

(** A forward pass of [GetAlignmentLeftRight] can only lower the minimal
    left and raise the maximal right.  At its end they bound the left and
    the right of every object visited that is a layer element with a
    bounding box that is not empty and of a class that is not excluded, and
    each of them is the value it had before or is reached by such an
    object. *)
Theorem GetAlignmentLeftRight_bounds_the_visited (visibleOnly : bool)
    (filters : option Filters) (deepness : Z) (this : Object)
    (params : GetAlignmentLeftRightParams) (score : option nat) :
  let visited := walk (λ _, FUNCTOR_CONTINUE) visibleOnly filters deepness this in
  let params' :=
    functorParams
      (Process (mkFunctor visibleOnly
                  (GetAlignmentLeftRight HasEmptyBB GetSelfLeft GetSelfRight))
               None filters FORWARD deepness false this (initialState params score)) in
  m_minLeft params' ≤ m_minLeft params ∧ m_maxRight params ≤ m_maxRight params' ∧
  (∀ a, a ∈ visited → counted params a = true →
        m_minLeft params' ≤ GetSelfLeft a ∧ GetSelfRight a ≤ m_maxRight params') ∧
  (m_minLeft params' = m_minLeft params ∨
   ∃ a, a ∈ visited ∧ counted params a = true ∧ m_minLeft params' = GetSelfLeft a) ∧
  (m_maxRight params' = m_maxRight params ∨
   ∃ a, a ∈ visited ∧ counted params a = true ∧ m_maxRight params' = GetSelfRight a).
Proof.
  cbv zeta.
  destruct (Process_walk_fold
              (mkFunctor visibleOnly
                 (GetAlignmentLeftRight HasEmptyBB GetSelfLeft GetSelfRight))
              filters (λ _, FUNCTOR_CONTINUE)) with (this := this) (deepness := deepness)
              (st := initialState params score) as [_ Hfold].
  - intros a q. simpl. unfold GetAlignmentLeftRight.
    repeat (match goal with |- context [if ?b then _ else _] => destruct b end; simpl);
      reflexivity.
  - discriminate.
  - discriminate.
  - rewrite Hfold. simpl m_visibleOnly. simpl functorParams.
    destruct (GetAlignmentLeftRight_fold
                (walk (λ _, FUNCTOR_CONTINUE) visibleOnly filters deepness this) params)
      as (_ & H1 & H2 & H3 & H4 & H5).
    auto.
Qed.

End AlignmentFacts.

(** * Properties of the child management *)

Import Own OwnShape OwnExamples TeardownExample.

Ltac munfold :=
  unfold GetParent, ResetParent, SetParent, Log, LogAll in *;
  unfold mbind, M_bind, mret, M_ret, deref, store, free, fault in *.

(** ** AddChild *)

(** C7 as stated fails for a staff added to a section: the check of the base
    class rejects every child, and the staff is appended all the same. *)
Lemma a_staff_is_added_to_a_section_unchecked :
  fst (Object_IsSupportedChild (object "Section" None []) (object "Staff" None []))
    = false ∧
  ∃ w,
    AddChild Object_IsSupportedChild 1 1 2 sectionAndStaff = Some ((), w) ∧
    childrenOf w 1 = Some [2%nat] ∧
    parentOf w 2 = Some (Some 1%nat).
Proof.
  split; [reflexivity|]. eexists. split; [vm_compute; reflexivity|].
  split; reflexivity.
Qed.

(** C7, amended.  Unless the child is a "Staff" and the parent a "Section",
    a child that the is-supported-child check of the parent rejects is not
    added: [AddChild] logs the error and leaves every object as it is, the
    child sequence of the parent and the parent of the child included.  A
    "Staff" is added to a "Section" without the check being asked. *)
Theorem AddChild_is_gated_except_for_staff_in_section
    (IsSupportedChild : Obj → Obj → bool * list (LogLevel * string))
    (fuel this child : nat) (w : World) (t c : Obj) :
  objs w !! this = Some t →
  objs w !! child = Some c →
  (¬ (GetClassName c = "Staff" ∧ GetClassName t = "Section") →
   ∀ msgs, IsSupportedChild t c = (false, msgs) →
     AddChild IsSupportedChild fuel this child w =
       Some ((), mkWorld (objs w)
                   (logs w ++ msgs ++
                    [(LOG_ERROR, "Adding '" +:+ GetClassName c +:+ "' to a '"
                                 +:+ GetClassName t +:+ "'")]))) ∧
  (GetClassName c = "Staff" → GetClassName t = "Section" →
   AddChild IsSupportedChild fuel this child w =
     (SetParent child this;;
      t ← deref this;
      store this (set_children (m_children t ++ [child]) t);;
      Modify fuel this true) w).
Proof.
  intros Ht Hc. split.
  - intros Hpair msgs Hrej. unfold AddChild. munfold. rewrite Hc, Ht.
    assert (Hcond : String.eqb (GetClassName c) "Staff"
                    && String.eqb (GetClassName t) "Section" = false).
    { apply andb_false_iff.
      destruct (String.eqb_spec (GetClassName c) "Staff");
        destruct (String.eqb_spec (GetClassName t) "Section"); auto.
      exfalso. apply Hpair. auto. }
    rewrite Hcond, Hrej. simpl. rewrite <- app_assoc. reflexivity.
  - intros Hs Hsec. unfold AddChild.
    unfold mbind at 1 2 3. unfold M_bind at 1 2 3. unfold deref at 1 2.
    rewrite Hc, Ht, Hs, Hsec. reflexivity.
Qed.

Lemma AddChild_is_gated_except_for_staff_in_section_witness :
  (¬ ("Note" = "Staff" ∧ "Measure" = "Section") →
   ∀ msgs, Object_IsSupportedChild (object "Measure" None []) (object "Note" None [])
           = (false, msgs) →
     AddChild Object_IsSupportedChild 1 1 2 measureAndNote =
       Some ((), mkWorld (objs measureAndNote)
                   (logs measureAndNote ++ msgs ++
                    [(LOG_ERROR, "Adding 'Note' to a 'Measure'")]))) ∧
  ("Note" = "Staff" → "Measure" = "Section" →
   AddChild Object_IsSupportedChild 1 1 2 measureAndNote =
     (SetParent 2 1;;
      t ← deref 1;
      store 1 (set_children (m_children t ++ [2%nat]) t);;
      Modify 1 1 true) measureAndNote).
Proof.
  apply (AddChild_is_gated_except_for_staff_in_section Object_IsSupportedChild
           1 1 2 measureAndNote (object "Measure" None []) (object "Note" None []));
    reflexivity.
Defined.

(** ** Relinquish and InsertChild *)


Lemma stillOwned_filter (this : nat) (iter : list nat) (w : World) :
  Forall (λ r, is_Some (objs w !! r)) iter →
  stillOwned this iter w =
    Some (List.filter (λ r, bool_decide ((m_parent <$> objs w !! r) = Some (Some this))) iter,
          w).
Proof.
  induction 1 as [|r iter [ro Hr] _ IH]; simpl; [reflexivity|].
  munfold. rewrite Hr. simpl. rewrite IH. simpl.
  repeat f_equal. repeat case_bool_decide; congruence.
Qed.



(** ** ClearChildren *)

Lemma shrinks_refl w : shrinks w w.
Proof. intros q o' H. eauto. Qed.

Lemma shrinks_trans w1 w2 w3 : shrinks w1 w2 → shrinks w2 w3 → shrinks w1 w3.
Proof.
  intros H12 H23 q o3 H3. destruct (H23 q o3 H3) as (o2 & H2 & Hp2).
  destruct (H12 q o2 H2) as (o1 & H1 & Hp1). exists o1. split; [exact H1 | congruence].
Qed.

Lemma shrinks_gone w w' q : shrinks w w' → objs w !! q = None → objs w' !! q = None.
Proof.
  intros Hs Hq. destruct (objs w' !! q) as [o'|] eqn:H'; [|reflexivity].
  destruct (Hs q o' H') as (o & Ho & _). congruence.
Qed.

Lemma shrinks_free w q : shrinks w (mkWorld (delete q (objs w)) (logs w)).
Proof.
  intros r o'. simpl. intros H. apply lookup_delete_Some in H as [_ H]. eauto.
Qed.

Lemma shrinks_set_children w q o l :
  objs w !! q = Some o →
  shrinks w (mkWorld (<[q := set_children l o]> (objs w)) (logs w)).
Proof.
  intros Hq r o'. simpl. intros H.
  destruct (decide (q = r)) as [->|Hne].
  - rewrite lookup_insert_eq in H. injection H as <-. eauto.
  - rewrite lookup_insert_ne in H by exact Hne. eauto.
Qed.

Section ClearChildrenFacts.
Variable fuel : nat.

(** What is known of [ClearChildren] for the fuel of the recursive calls. *)
Hypothesis IH : ∀ this w w',
  ClearChildren fuel this w = Some ((), w') →
  shrinks w w' ∧ keepsUnowned (Some this) w w'.

Local Abbreviation destroy := (λ child : nat, ClearChildren fuel child;; free child).

Lemma destroy_facts child w w' (o : Obj) :
  objs w !! child = Some o → is_Some (m_parent o) →
  destroy child w = Some ((), w') →
  shrinks w w' ∧ keepsUnowned None w w' ∧ objs w' !! child = None.
Proof.
  intros Ho Hpar H. munfold.
  destruct (ClearChildren fuel child w) as [[[] w1]|] eqn:Hcc; [|discriminate].
  injection H as <-. destruct (IH _ _ _ Hcc) as [Hs Hk].
  split; [eapply shrinks_trans; [exact Hs | apply shrinks_free]|].
  split; [|simpl; apply lookup_delete_eq].
  intros q qo Hq Hqp _. simpl.
  assert (q ≠ child).
  { intros ->. rewrite Ho in Hq. injection Hq as ->. rewrite Hqp in Hpar.
    destruct Hpar; discriminate. }
  rewrite lookup_delete_ne by congruence. apply Hk; [assumption..|congruence].
Qed.

(** The loop of [ClearChildren]. *)
Lemma deleteOwned_facts this iter :
  ∀ w w',
    deleteOwned destroy this iter w = Some ((), w') →
    shrinks w w' ∧ keepsUnowned None w w' ∧
    (∀ c, c ∈ iter →
          (∀ o, objs w !! c = Some o → m_parent o = Some this) →
          objs w' !! c = None).
Proof.
  induction iter as [|child rest IHrest]; intros w w' H.
  - simpl in H. munfold. injection H as <-.
    split; [apply shrinks_refl|]. split; [intros q o Hq _ _; exact Hq|].
    intros c Hc. apply elem_of_nil in Hc. destruct Hc.
  - simpl in H. unfold mbind at 1 2, M_bind at 1 2 in H.
    unfold GetParent in H. unfold mbind at 1, M_bind at 1, deref in H.
    destruct (objs w !! child) as [o|] eqn:Ho; [|discriminate].
    unfold mret at 1, M_ret at 1 in H.
    assert (Hstep : ∃ w1, (if bool_decide (m_parent o = Some this)
                          then destroy child else mret ()) w = Some ((), w1) ∧
                          deleteOwned destroy this rest w1 = Some ((), w')).
    { match type of H with
      | match ?m with _ => _ end = _ =>
          destruct m as [[[] w1]|]; [eauto | discriminate H]
      end. }
    clear H. destruct Hstep as (w1 & Hhead & Htail).
    destruct (IHrest _ _ Htail) as (Hs2 & Hk2 & Hd2).
    assert (Hhead' : shrinks w w1 ∧ keepsUnowned None w w1 ∧
                     (m_parent o = Some this → objs w1 !! child = None)).
    { case_bool_decide as Hown.
      - destruct (destroy_facts child w w1 o Ho) as (Hs & Hk & Hg);
          [rewrite Hown; eauto | exact Hhead | auto].
      - munfold. injection Hhead as <-.
        split; [apply shrinks_refl|]. split; [intros q qo Hq _ _; exact Hq|].
        intros Hown'. contradiction. }
    destruct Hhead' as (Hs1 & Hk1 & Hg1).
    split; [eapply shrinks_trans; eassumption|].
    split; [intros q qo Hq Hp Hne; apply Hk2; auto|].
    intros c Hc Hpar. apply elem_of_cons in Hc as [->|Hc].
    + eapply shrinks_gone; [exact Hs2|]. apply Hg1, Hpar, Ho.
    + apply Hd2; [exact Hc|]. intros o1 Ho1.
      destruct (Hs1 c o1 Ho1) as (o0 & Ho0 & ->). apply Hpar, Ho0.
Qed.

End ClearChildrenFacts.

(** [ClearChildren] makes no object appear, changes no parent, and keeps
    every object without parent as it is, except for the child sequence of
    the object it is called on. *)
Lemma ClearChildren_facts fuel :
  ∀ this w w',
    ClearChildren fuel this w = Some ((), w') →
    shrinks w w' ∧ keepsUnowned (Some this) w w'.
Proof.
  induction fuel as [|fuel IH]; intros this w w' H; [discriminate|].
  simpl in H. unfold mbind at 1, M_bind at 1, deref at 1 in H.
  destruct (objs w !! this) as [o|] eqn:Ho; [|discriminate].
  destruct (m_isReferenceObject o).
  - munfold. injection H as <-.
    split; [apply shrinks_set_children, Ho|].
    intros q qo Hq _ Hne. simpl. rewrite lookup_insert_ne by congruence. exact Hq.
  - unfold mbind at 1, M_bind at 1 in H.
    destruct (deleteOwned _ this (m_children o) w) as [[[] w1]|] eqn:Hloop; [|discriminate].
    destruct (deleteOwned_facts fuel IH _ _ _ _ Hloop) as (Hs & Hk & _).
    munfold. destruct (objs w1 !! this) as [o1|] eqn:Ho1; [|discriminate].
    injection H as <-.
    split; [eapply shrinks_trans; [exact Hs | apply shrinks_set_children, Ho1]|].
    intros q qo Hq Hp Hne. simpl. rewrite lookup_insert_ne by congruence.
    apply Hk; auto.
Qed.

(** *** Termination of the destruction *)

Lemma OTree_kids_ind (Q : OTree → Prop) :
  (∀ p ks, Forall Q ks → Q (ONode p ks)) → ∀ t, Q t.
Proof.
  intros step. fix IH 1. intros [p ks]. apply step.
  induction ks as [|k ks IHks]; constructor; [apply IH | exact IHks].
Qed.

Lemma deleteOwned_mono (d1 d2 : nat → M unit) this iter :
  (∀ c w r, d1 c w = Some r → d2 c w = Some r) →
  ∀ w r, deleteOwned d1 this iter w = Some r → deleteOwned d2 this iter w = Some r.
Proof.
  intros Hd. induction iter as [|child rest IH]; intros w r H; [exact H|].
  simpl in *. unfold mbind at 1 2, M_bind at 1 2 in H.
  unfold mbind at 1 2, M_bind at 1 2.
  destruct (GetParent child w) as [[par w0]|]; [|discriminate].
  case_bool_decide.
  - destruct (d1 child w0) as [[[] w1]|] eqn:H1; [|discriminate].
    rewrite (Hd _ _ _ H1). apply IH, H.
  - unfold mret, M_ret in H |- *. apply IH, H.
Qed.

(** More fuel does not change a result. *)
Lemma ClearChildren_mono n :
  ∀ m this w r, (n ≤ m)%nat →
    ClearChildren n this w = Some r → ClearChildren m this w = Some r.
Proof.
  induction n as [|n IH]; intros m this w r Hle H; [discriminate|].
  destruct m as [|m]; [lia|]. simpl in *.
  unfold mbind at 1, M_bind at 1 in H. unfold mbind at 1, M_bind at 1.
  destruct (deref this w) as [[o w0]|]; [|discriminate].
  destruct (m_isReferenceObject o); [exact H|].
  unfold mbind at 1, M_bind at 1 in H. unfold mbind at 1, M_bind at 1.
  destruct (deleteOwned _ this (m_children o) w0) as [[[] w1]|] eqn:Hloop; [|discriminate].
  assert (Hloop' : deleteOwned (λ child, ClearChildren m child;; free child) this
                               (m_children o) w0 = Some ((), w1)).
  { eapply deleteOwned_mono; [|exact Hloop].
    intros c w2 r2 Hc. unfold mbind, M_bind in Hc |- *.
    destruct (ClearChildren n c w2) as [[[] w3]|] eqn:Hcc; [|discriminate].
    rewrite (IH m c w2 _ ltac:(lia) Hcc). exact Hc. }
  rewrite Hloop'. exact H.
Qed.

(** Whether a store holds a tree depends on the addresses of the tree. *)
Lemma Repr_agree t :
  ∀ w1 w2, (∀ q, q ∈ footprint t → objs w1 !! q = objs w2 !! q) →
           Repr w1 t → Repr w2 t.
Proof.
  induction t as [p ks IH] using OTree_kids_ind.
  intros w1 w2 Hag (o & Ho & Hkids). simpl in *.
  exists o. split; [rewrite <- Hag by apply list_elem_of_here; exact Ho|].
  intros Href. destruct (Hkids Href) as [Hch Hall]. split; [exact Hch|].
  clear Hch Hkids Ho.
  assert (Hag' : ∀ q, q ∈ flat_map footprint ks → objs w1 !! q = objs w2 !! q).
  { intros q Hq. apply Hag. apply list_elem_of_further, Hq. }
  clear Hag. induction IH as [|k ks IHk _ IHks]; simpl in *; [exact I|].
  destruct Hall as [(ok & Hok & Hrec) Hall]. split.
  - exists ok. split.
    + rewrite <- Hag'; [exact Hok|]. apply elem_of_app. left.
      destruct k; simpl. apply list_elem_of_here.
    + intros Hp. apply (IHk w1 w2); [|apply Hrec, Hp].
      intros q Hq. apply Hag'. apply elem_of_app. left. exact Hq.
  - apply IHks; [exact Hall|]. intros q Hq. apply Hag'. apply elem_of_app. right. exact Hq.
Qed.

Lemma height_kid k ks :
  k ∈ ks → (height k ≤ fold_right (λ k h, Nat.max (height k) h) 0%nat ks)%nat.
Proof.
  induction ks as [|k' ks IH]; intros Hin; [apply elem_of_nil in Hin; destruct Hin|].
  simpl. apply elem_of_cons in Hin as [->|Hin]; [lia|]. specialize (IH Hin). lia.
Qed.

Lemma reached_footprint w t q : q ∈ reached w t → q ∈ footprint t.
Proof.
  destruct t as [p ks]. unfold reached. simpl.
  rewrite !elem_of_cons. intros [->|Hq]; [auto|]. right.
  induction ks as [|k ks IH]; simpl in *; [exact Hq|].
  apply elem_of_app in Hq as [Hq|Hq]; apply elem_of_app.
  - left. destruct (ownedBy w p k); [exact Hq|]. apply elem_of_nil in Hq. destruct Hq.
  - right. apply IH, Hq.
Qed.

(** On a store that holds a tree without repeated address, [ClearChildren]
    on the root returns, with the height of the tree as fuel, and changes the
    store at the addresses it can reach only. *)
Lemma ClearChildren_returns t :
  ∀ w, Repr w t → NoDup (footprint t) →
       ∃ w', ClearChildren (height t) (root t) w = Some ((), w') ∧
             ∀ q, q ∉ reached w t → objs w' !! q = objs w !! q.
Proof.
  induction t as [p ks IH] using OTree_kids_ind.
  intros w (o & Ho & Hkids) Hnd. simpl in Ho, Hkids, Hnd.
  change (height (ONode p ks))
    with (S (fold_right (λ k h, Nat.max (height k) h) 0%nat ks)).
  set (h := fold_right (λ k h, Nat.max (height k) h) 0%nat ks).
  simpl ClearChildren. simpl root. unfold reached. simpl root. simpl kids.
  unfold mbind at 1, M_bind at 1, deref at 1. rewrite Ho.
  destruct (m_isReferenceObject o) eqn:Href.
  { eexists. split; [reflexivity|]. intros q Hq. simpl.
    apply lookup_insert_ne. intros ->. apply Hq. apply list_elem_of_here. }
  destruct (Hkids eq_refl) as [Hch Hall]. clear Hkids. rewrite Hch.
  apply NoDup_cons in Hnd as [Hp Hnd].
  assert (Hh : Forall (λ k, (height k ≤ h)%nat) ks).
  { apply Forall_forall. intros k Hk. apply height_kid, Hk. }
  clearbody h.
  assert (Hloop : ∀ w1,
             (∀ q, q ∈ flat_map footprint ks → objs w1 !! q = objs w !! q) →
             ∃ w2, deleteOwned (λ child, ClearChildren h child;; free child) p
                               (map root ks) w1 = Some ((), w2) ∧
                   ∀ q, q ∉ flat_map (λ k, if ownedBy w p k then footprint k else []) ks →
                        objs w2 !! q = objs w1 !! q).
  { clear Hch Ho Hp Href.
    induction IH as [|k ks IHk _ IHks]; intros w1 Hag.
    - exists w1. split; [reflexivity | auto].
    - simpl in Hall, Hnd, Hag |- *.
      destruct Hall as [(ok & Hok & Hrec) Hall].
      apply Forall_cons_1 in Hh as [Hhk Hh].
      apply NoDup_app in Hnd as (Hndk & Hdisj & Hndks).
      assert (Hrootk : root k ∈ footprint k)
        by (destruct k; simpl; apply list_elem_of_here).
      unfold mbind at 1 2, M_bind at 1 2. unfold GetParent.
      unfold mbind at 1, M_bind at 1, deref at 1.
      rewrite Hag by (apply elem_of_app; left; exact Hrootk). rewrite Hok.
      unfold mret at 1, M_ret at 1.
      assert (Hhead : ∃ w1',
                 (if bool_decide (m_parent ok = Some p)
                  then ClearChildren h (root k);; free (root k)
                  else mret ()) w1 = Some ((), w1') ∧
                 ∀ q, q ∉ (if ownedBy w p k then footprint k else []) →
                      objs w1' !! q = objs w1 !! q).
      { case_bool_decide as Hown.
        - destruct (IHk w1) as (wk & Hck & Hfr); [|exact Hndk|].
          { apply (Repr_agree k w w1); [|apply Hrec, Hown].
            intros q Hq. symmetry. apply Hag. apply elem_of_app. left. exact Hq. }
          apply (ClearChildren_mono _ h) in Hck; [|exact Hhk].
          unfold mbind, M_bind. rewrite Hck. unfold free. eexists. split; [reflexivity|].
          unfold ownedBy. rewrite Hok. simpl.
          rewrite bool_decide_eq_true_2 by congruence.
          intros q Hq. simpl. rewrite lookup_delete_ne.
          + apply Hfr. intros Hr. apply Hq. eapply reached_footprint, Hr.
          + intros <-. apply Hq, Hrootk.
        - exists w1. split; [reflexivity | auto]. }
      destruct Hhead as (w1' & -> & Hfr1).
      destruct (IHks Hndks Hall Hh w1') as (w2 & Hrest & Hfr2).
      { intros q Hq. rewrite Hfr1.
        - apply Hag. apply elem_of_app. right. exact Hq.
        - intros Hqk. destruct (ownedBy w p k); [exact (Hdisj q Hqk Hq)|].
          apply elem_of_nil in Hqk. destruct Hqk. }
      exists w2. split; [exact Hrest|].
      intros q Hq. apply not_elem_of_app in Hq as [Hqk Hqks].
      rewrite Hfr2 by exact Hqks. apply Hfr1, Hqk. }
  destruct (Hloop w (λ _ _, eq_refl)) as (w2 & Hrun & Hfr).
  unfold mbind at 1, M_bind at 1. rewrite Hrun.
  assert (Hp2 : objs w2 !! p = Some o).
  { rewrite Hfr; [exact Ho|]. intros Hq. apply Hp.
    clear -Hq. induction ks as [|k ks IHks]; simpl in *; [exact Hq|].
    apply elem_of_app in Hq as [Hq|Hq]; apply elem_of_app.
    - left. destruct (ownedBy w p k); [exact Hq|]. apply elem_of_nil in Hq. destruct Hq.
    - right. apply IHks, Hq. }
  unfold mbind, M_bind, deref, store. rewrite Hp2.
  eexists. split; [reflexivity|].
  intros q Hq. simpl in Hq |- *. apply not_elem_of_cons in Hq as [Hqp Hq].
  rewrite lookup_insert_ne by congruence. apply Hfr, Hq.
Qed.

(** *** What the teardown deletes *)

Lemma ClearChildren_children fuel this w w' o :
  ClearChildren fuel this w = Some ((), w') →
  objs w !! this = Some o →
  m_isReferenceObject o = false →
  (∀ c, c ∈ m_children o →
        (∀ co, objs w !! c = Some co → m_parent co = Some this) →
        objs w' !! c = None) ∧
  ∃ o', objs w' !! this = Some o' ∧ m_children o' = [].
Proof.
  intros H Ho Href. destruct fuel as [|fuel]; [discriminate|].
  simpl in H. unfold mbind at 1, M_bind at 1, deref at 1 in H.
  rewrite Ho, Href in H. unfold mbind at 1, M_bind at 1 in H.
  destruct (deleteOwned _ this (m_children o) w) as [[[] w1]|] eqn:Hloop; [|discriminate].
  destruct (deleteOwned_facts fuel (ClearChildren_facts fuel) _ _ _ _ Hloop)
    as (_ & _ & Hgone).
  munfold. destruct (objs w1 !! this) as [o1|] eqn:Ho1; [|discriminate].
  injection H as <-. simpl. split.
  - intros c Hc Hpar. specialize (Hgone c Hc Hpar).
    rewrite lookup_insert_ne; [exact Hgone | congruence].
  - rewrite lookup_insert_eq. eauto.
Qed.

Lemma reached_children_are_owned w p ks :
  NoDup (flat_map footprint ks) →
  ∀ c, c ∈ map root ks →
       c ∈ flat_map (λ k, if ownedBy w p k then footprint k else []) ks →
       ∃ k, root k = c ∧ ownedBy w p k = true.
Proof.
  assert (Hsub : ∀ l q, q ∈ flat_map (λ k, if ownedBy w p k then footprint k else []) l →
                        q ∈ flat_map footprint l).
  { induction l as [|k l IHl]; intros q Hq; simpl in *; [exact Hq|].
    apply elem_of_app in Hq as [Hq|Hq]; apply elem_of_app.
    - left. destruct (ownedBy w p k); [exact Hq|]. apply elem_of_nil in Hq. destruct Hq.
    - right. apply IHl, Hq. }
  assert (Hroots : ∀ l q, q ∈ map root l → q ∈ flat_map footprint l).
  { induction l as [|k l IHl]; intros q Hq; simpl in *; [exact Hq|].
    apply elem_of_cons in Hq as [->|Hq]; apply elem_of_app.
    - left. destruct k; simpl. apply list_elem_of_here.
    - right. apply IHl, Hq. }
  induction ks as [|k ks IH]; intros Hnd c Hc Hin; simpl in *.
  - apply elem_of_nil in Hc. destruct Hc.
  - apply NoDup_app in Hnd as (_ & Hdisj & Hnd).
    apply elem_of_cons in Hc as [->|Hc]; apply elem_of_app in Hin as [Hin|Hin].
    + exists k. split; [reflexivity|]. destruct (ownedBy w p k); [reflexivity|].
      apply elem_of_nil in Hin. destruct Hin.
    + exfalso. apply (Hdisj (root k)); [|apply Hsub, Hin].
      destruct k; simpl. apply list_elem_of_here.
    + exfalso. destruct (ownedBy w p k); [|apply elem_of_nil in Hin; destruct Hin].
      apply (Hdisj c Hin). apply Hroots, Hc.
    + apply IH; assumption.
Qed.

(** C10.  On a store that holds the objects below a non-reference object as
    a tree, [ClearChildren] returns.  It leaves the object with an empty
    child sequence; a child whose parent back-reference is the object has
    been deleted; a child whose parent back-reference is not the object any
    more is out of the sequence and still in the store, unchanged; and no
    object whose parent back-reference is null is deleted or changed.  The
    destructor is [ClearChildren] followed by the release of the object
    itself. *)
Theorem ClearChildren_deletes_owned_children_only (t : OTree) (w : World) (o : Obj) :
  Repr w t →
  NoDup (footprint t) →
  objs w !! root t = Some o →
  m_isReferenceObject o = false →
  ∃ w',
    ClearChildren (height t) (root t) w = Some ((), w') ∧
    childrenOf w' (root t) = Some [] ∧
    (∀ c co, c ∈ m_children o → objs w !! c = Some co →
             m_parent co = Some (root t) → objs w' !! c = None) ∧
    (∀ c co, c ∈ m_children o → objs w !! c = Some co →
             m_parent co ≠ Some (root t) → objs w' !! c = Some co) ∧
    (∀ q qo, objs w !! q = Some qo → m_parent qo = None → q ≠ root t →
             objs w' !! q = Some qo) ∧
    delete_Object (height t) (root t) w
      = Some ((), mkWorld (delete (root t) (objs w')) (logs w')).
Proof.
  intros Hrepr Hnd Ho Href.
  destruct (ClearChildren_returns t w Hrepr Hnd) as (w' & Hrun & Hframe).
  exists w'. split; [exact Hrun|].
  destruct (ClearChildren_children _ _ _ _ _ Hrun Ho Href) as (Hgone & o' & Ho' & Hnil).
  destruct (ClearChildren_facts _ _ _ _ Hrun) as (_ & Hkeep).
  split; [unfold childrenOf; rewrite Ho'; simpl; congruence|].
  split.
  { intros c co Hc Hco Hp. apply Hgone; [exact Hc|]. intros co' Hco'. congruence. }
  split; [|split].
  - intros c co Hc Hco Hp. rewrite Hframe; [exact Hco|].
    destruct t as [p ks]. destruct Hrepr as (o0 & Ho0 & Hkids). simpl in *.
    rewrite Ho in Ho0. injection Ho0 as <-.
    destruct (Hkids Href) as [Hch _]. rewrite Hch in Hc.
    apply NoDup_cons in Hnd as [Hp' Hnd'].
    unfold reached. simpl. intros Hr. apply elem_of_cons in Hr as [->|Hr].
    + apply Hp'. clear -Hc. induction ks as [|k ks IH]; simpl in *; [exact Hc|].
      apply elem_of_cons in Hc as [->|Hc]; apply elem_of_app.
      * left. destruct k; simpl. apply list_elem_of_here.
      * right. apply IH, Hc.
    + destruct (reached_children_are_owned w p ks Hnd' c Hc Hr) as (k & <- & Hown).
      unfold ownedBy in Hown. rewrite Hco in Hown. simpl in Hown.
      apply bool_decide_eq_true_1 in Hown. congruence.
  - intros q qo Hq Hp Hne. apply Hkeep; [assumption..|congruence].
  - unfold delete_Object, mbind, M_bind. rewrite Hrun. reflexivity.
Qed.

Lemma ClearChildren_deletes_owned_children_only_witness :
  ∃ w',
    ClearChildren (height layerTree) (root layerTree) layerWithRelinquishedNote
      = Some ((), w') ∧
    childrenOf w' (root layerTree) = Some [] ∧
    (∀ c co, c ∈ m_children (object "Layer" None [3; 4; 5]%nat) →
             objs layerWithRelinquishedNote !! c = Some co →
             m_parent co = Some (root layerTree) → objs w' !! c = None) ∧
    (∀ c co, c ∈ m_children (object "Layer" None [3; 4; 5]%nat) →
             objs layerWithRelinquishedNote !! c = Some co →
             m_parent co ≠ Some (root layerTree) → objs w' !! c = Some co) ∧
    (∀ q qo, objs layerWithRelinquishedNote !! q = Some qo → m_parent qo = None →
             q ≠ root layerTree → objs w' !! q = Some qo) ∧
    delete_Object (height layerTree) (root layerTree) layerWithRelinquishedNote
      = Some ((), mkWorld (delete (root layerTree) (objs w')) (logs w')).
Proof.
  apply (ClearChildren_deletes_owned_children_only layerTree layerWithRelinquishedNote
           (object "Layer" None [3; 4; 5]%nat)).
  - simpl. eexists. split; [reflexivity|]. intros _. split; [reflexivity|].
    split; [|split; [|split; [|exact I]]].
    + eexists. split; [reflexivity|]. intros _.
      eexists. split; [reflexivity|]. intros _. split; [reflexivity|].
      split; [|exact I].
      eexists. split; [reflexivity|]. intros _.
      eexists. split; [reflexivity|]. intros _. split; [reflexivity | exact I].
    + eexists. split; [reflexivity|]. intros Hp. discriminate Hp.
    + eexists. split; [reflexivity|]. intros Hp. discriminate Hp.
  - simpl. repeat constructor; rewrite ?elem_of_cons, ?elem_of_nil; intuition lia.
  - reflexivity.
  - reflexivity.
Defined.

(** The teardown of the example: the owned note 3 and its stem 6 are
    deleted, the relinquished notes 4 and 5 are still there. *)
Example teardown_of_the_layer :
  ∃ w',
    ClearChildren 3 1 layerWithRelinquishedNote = Some ((), w') ∧
    objs w' !! 3%nat = None ∧ objs w' !! 6%nat = None ∧
    objs w' !! 4%nat = Some (object "Note" None []) ∧
    objs w' !! 5%nat = Some (object "Note" (Some 2%nat) []) ∧
    objs w' !! 1%nat = Some (object "Layer" None []).
Proof.
  eexists. split; [vm_compute; reflexivity|]. repeat split; reflexivity.
Qed.

(** ** Modify *)

Lemma marks_refl w : marks w w.
Proof. split; [reflexivity | auto]. Qed.

Lemma rooted_marks n :
  ∀ w w' avoid this, marks w w' → rooted n w avoid this → rooted n w' avoid this.
Proof.
  induction n as [|n IH]; intros w w' avoid this Hm Hr; [exact Hr|].
  destruct Hr as (Hne & o & Ho & Hp). split; [exact Hne|].
  destruct Hm as [Hl Hm]. destruct (Hm this) as [Hsame | (o0 & Ho0 & Ho')].
  - exists o. split; [congruence|]. destruct (m_parent o); [|exact I].
    eapply IH; [split; eassumption | exact Hp].
  - rewrite Ho in Ho0. injection Ho0 as <-.
    exists (set_isModified true o). split; [exact Ho'|]. simpl.
    destruct (m_parent o); [|exact I]. eapply IH; [split; eassumption | exact Hp].
Qed.

(** When the parent back-references lead to an object without parent,
    [Modify(true)] returns, and it has set the dirty flag of the object and
    of every ancestor, and changed nothing but dirty flags. *)
Lemma Modify_true_returns n :
  ∀ w avoid this,
    rooted n w avoid this →
    ∃ w', Modify n this true w = Some ((), w') ∧
          marks w w' ∧
          isModifiedOf w' this = Some true ∧
          (∀ q, ancestorOf n w this q → isModifiedOf w' q = Some true).
Proof.
  induction n as [|n IH]; intros w avoid this Hr; [destruct Hr|].
  destruct Hr as (_ & o & Ho & Hp). simpl.
  unfold mbind at 1, M_bind at 1, deref at 1. rewrite Ho.
  assert (Hparent : ∃ w1,
             match m_parent o with
             | Some parent => Modify n parent true
             | None => mret ()
             end w = Some ((), w1) ∧ marks w w1 ∧
             (∀ p q, m_parent o = Some p → p = q ∨ ancestorOf n w p q →
                     isModifiedOf w1 q = Some true)).
  { destruct (m_parent o) as [p|].
    - destruct (IH w avoid p Hp) as (w1 & Hrun & Hm & Hflag & Hanc).
      exists w1. split; [exact Hrun|]. split; [exact Hm|].
      intros p' q [= <-] [<-|Hq]; [exact Hflag | apply Hanc, Hq].
    - exists w. split; [reflexivity|]. split; [apply marks_refl | discriminate]. }
  destruct Hparent as (w1 & Hrun & [Hl Hm] & Hflag).
  unfold mbind at 1, M_bind at 1. rewrite Hrun.
  assert (Hthis : ∃ o1, objs w1 !! this = Some o1 ∧
                        set_isModified true o1 = set_isModified true o).
  { destruct (Hm this) as [Hsame | (o0 & Ho0 & Ho1)].
    - exists o. split; [congruence | reflexivity].
    - rewrite Ho in Ho0. injection Ho0 as <-. eexists. split; [exact Ho1 | reflexivity]. }
  destruct Hthis as (o1 & Ho1 & Heq).
  unfold mbind, M_bind, deref, store. rewrite Ho1, Heq.
  eexists. split; [reflexivity|]. split; [|split].
  - split; [exact Hl|]. intros q. simpl.
    destruct (decide (this = q)) as [<-|Hne].
    + right. exists o. split; [exact Ho | apply lookup_insert_eq].
    + rewrite lookup_insert_ne by exact Hne. apply Hm.
  - unfold isModifiedOf. simpl. rewrite lookup_insert_eq. reflexivity.
  - intros q (o' & p & Ho' & Hpar & Hq). injection Ho' as <-.
    unfold isModifiedOf. simpl.
    destruct (decide (this = q)) as [<-|Hne].
    + rewrite lookup_insert_eq. reflexivity.
    + rewrite lookup_insert_ne by exact Hne. eapply Hflag; eassumption.
Qed.

Lemma rooted_agree n :
  ∀ w w0 avoid this,
    (∀ q, Some q ≠ avoid → m_parent <$> objs w0 !! q = m_parent <$> objs w !! q) →
    rooted n w avoid this → rooted n w0 avoid this.
Proof.
  induction n as [|n IH]; intros w w0 avoid this Hag Hr; [exact Hr|].
  destruct Hr as (Hne & o & Ho & Hp). split; [exact Hne|].
  specialize (Hag this Hne) as Hthis. rewrite Ho in Hthis. simpl in Hthis.
  destruct (objs w0 !! this) as [o0|]; [|discriminate]. simpl in Hthis.
  injection Hthis as Hpar. exists o0. split; [reflexivity|]. rewrite Hpar.
  destruct (m_parent o); [|exact I]. eapply IH; eassumption.
Qed.

Lemma marks_fields w w' q :
  marks w w' →
  childrenOf w' q = childrenOf w q ∧ parentOf w' q = parentOf w q.
Proof.
  intros [_ Hm]. unfold childrenOf, parentOf.
  destruct (Hm q) as [-> | (o & -> & ->)]; auto.
Qed.

(** A child that is accepted is appended: its parent is set, it is the last
    child, and the parent is marked as modified.  The parent
    back-references must lead from the parent to the root without passing by
    the child. *)
Lemma AddChild_appends
    (IsSupportedChild : Obj → Obj → bool * list (LogLevel * string))
    (n this child : nat) (w : World) (t c : Obj) :
  objs w !! this = Some t →
  objs w !! child = Some c →
  m_parent c = None →
  (fst (IsSupportedChild t c) = true ∨
   (GetClassName c = "Staff" ∧ GetClassName t = "Section")) →
  rooted n w (Some child) this →
  ∃ w',
    AddChild IsSupportedChild n this child w = Some ((), w') ∧
    childrenOf w' this = Some (m_children t ++ [child]) ∧
    parentOf w' child = Some (Some this) ∧
    isModifiedOf w' this = Some true.
Proof.
  intros Ht Hc Hpar Hacc Hr.
  assert (Hne : this ≠ child).
  { destruct n; [destruct Hr|]. destruct Hr as [Hne _]. congruence. }
  set (objs0 := <[this := set_children (m_children t ++ [child]) t]>
                  (<[child := set_parent (Some this) c]> (objs w))).
  assert (Hstep : ∃ msgs,
             AddChild IsSupportedChild n this child w
             = Modify n this true (mkWorld objs0 (logs w ++ msgs))).
  { unfold AddChild.
    unfold mbind at 1 2 3, M_bind at 1 2 3, deref at 1 2. rewrite Hc, Ht.
    destruct (String.eqb (GetClassName c) "Staff" && String.eqb (GetClassName t) "Section")
      eqn:Hcond.
    - exists []. simpl. munfold. simpl. rewrite Hc, Hpar. simpl.
      rewrite lookup_insert_ne by congruence. rewrite Ht. rewrite app_nil_r.
      destruct w; reflexivity.
    - destruct Hacc as [Hsup | [Hs Hsec]].
      + destruct (IsSupportedChild t c) as [supported msgs]. simpl in Hsup. subst supported.
        exists msgs. simpl. munfold. simpl. rewrite Hc, Hpar. simpl.
        rewrite lookup_insert_ne by congruence. rewrite Ht. reflexivity.
      + rewrite Hs, Hsec in Hcond. discriminate. }
  destruct Hstep as (msgs & ->).
  destruct (Modify_true_returns n (mkWorld objs0 (logs w ++ msgs)) (Some child) this)
    as (w' & Hrun & Hm & Hflag & _).
  { eapply rooted_agree; [|exact Hr]. intros q Hq. simpl. subst objs0.
    destruct (decide (this = q)) as [<-|Hq'].
    - rewrite lookup_insert_eq, Ht. reflexivity.
    - rewrite !lookup_insert_ne by congruence. reflexivity. }
  exists w'. split; [exact Hrun|].
  destruct (marks_fields _ _ this Hm) as [-> _].
  destruct (marks_fields _ _ child Hm) as [_ ->].
  unfold childrenOf, parentOf. simpl. subst objs0.
  rewrite lookup_insert_eq, lookup_insert_ne, lookup_insert_eq by congruence.
  auto.
Qed.

(** * Properties of the rearrangement of children *)

Import Rearrange Lineage ObjectFactory.

Lemma GetChildIndex_loop_absent child l i :
  child ∉ l → GetChildIndex_loop child l i = -1.
Proof.
  revert i. induction l as [|x l IH]; intros i Hin; simpl; [reflexivity|].
  apply not_elem_of_cons in Hin as [Hne Hin].
  rewrite bool_decide_eq_false_2 by exact Hne. apply IH, Hin.
Qed.

Lemma GetChildIndex_loop_first child before after i :
  child ∉ before →
  GetChildIndex_loop child (before ++ child :: after) i = i + Z.of_nat (length before).
Proof.
  revert i. induction before as [|x l IH]; intros i Hin; simpl.
  - rewrite bool_decide_eq_true_2 by reflexivity. lia.
  - apply not_elem_of_cons in Hin as [Hne Hin].
    rewrite bool_decide_eq_false_2 by exact Hne. rewrite IH by exact Hin. lia.
Qed.

Lemma GetChildIndex_found this child w o before after :
  objs w !! this = Some o →
  m_children o = before ++ child :: after → child ∉ before →
  GetChildIndex this child w = Some (Z.of_nat (length before), w).
Proof.
  intros Ho Hch Hb. unfold GetChildIndex. munfold. rewrite Ho, Hch.
  rewrite GetChildIndex_loop_first by exact Hb. reflexivity.
Qed.

Lemma GetChildIndex_absent this child w o :
  objs w !! this = Some o → child ∉ m_children o →
  GetChildIndex this child w = Some (-1, w).
Proof.
  intros Ho Hch. unfold GetChildIndex. munfold. rewrite Ho.
  rewrite GetChildIndex_loop_absent by exact Hch. reflexivity.
Qed.

(** [GetChildIndex] gives the first position that holds the child and -1
    for an object that is not a child; [GetChild] gives back the child at
    that position, and null for a position outside the child sequence.  In
    a child sequence without repetition the two are inverse to each
    other. *)
Theorem GetChild_inverts_GetChildIndex (this : nat) (w : World) (o : Obj) :
  objs w !! this = Some o →
  (∀ child, child ∉ m_children o → GetChildIndex this child w = Some (-1, w)) ∧
  (∀ child before after,
     m_children o = before ++ child :: after → child ∉ before →
     GetChildIndex this child w = Some (Z.of_nat (length before), w) ∧
     GetChild this (Z.of_nat (length before)) w = Some (Some child, w)) ∧
  (∀ idx, idx < 0 ∨ Z.of_nat (length (m_children o)) ≤ idx →
          GetChild this idx w = Some (None, w)) ∧
  (NoDup (m_children o) →
   ∀ (i : nat) child, m_children o !! i = Some child →
     GetChild this (Z.of_nat i) w = Some (Some child, w) ∧
     GetChildIndex this child w = Some (Z.of_nat i, w)).
Proof.
  intros Ho.
  assert (Hget : ∀ (i : nat) child, m_children o !! i = Some child →
                                    GetChild this (Z.of_nat i) w = Some (Some child, w)).
  { intros i child Hi. unfold GetChild. munfold. rewrite Ho.
    pose proof (lookup_lt_Some _ _ _ Hi) as Hlt.
    destruct (Z.ltb_spec (Z.of_nat i) 0) as [|_]; [lia|].
    destruct (Z.geb_spec (Z.of_nat i) (Z.of_nat (length (m_children o)))) as [|_]; [lia|].
    simpl. rewrite Nat2Z.id, Hi. reflexivity. }
  split; [|split; [|split]].
  - intros child Hc. eapply GetChildIndex_absent; eassumption.
  - intros child before after Hch Hb.
    split; [eapply GetChildIndex_found; eassumption|].
    apply Hget. rewrite Hch. apply list_lookup_middle. reflexivity.
  - intros idx Hidx. unfold GetChild. munfold. rewrite Ho.
    destruct (Z.ltb_spec idx 0) as [|Hnn]; [reflexivity|].
    destruct (Z.geb_spec idx (Z.of_nat (length (m_children o)))) as [|Hlt];
      [reflexivity | lia].
  - intros Hnd i child Hi. split; [apply Hget, Hi|].
    pose proof (take_drop_middle _ _ _ Hi) as Hsplit.
    pose proof (lookup_lt_Some _ _ _ Hi) as Hlt.
    assert (Hlen : length (take i (m_children o)) = i) by (rewrite length_take; lia).
    pose proof (GetChildIndex_found this child w o (take i (m_children o))
                  (drop (S i) (m_children o)) Ho (eq_sym Hsplit)) as Hfound.
    rewrite Hlen in Hfound. apply Hfound.
    rewrite <- Hsplit in Hnd. apply NoDup_app in Hnd as (_ & Hdisj & _).
    intros Hin. apply (Hdisj _ Hin). apply list_elem_of_here.
Qed.

Lemma GetChild_inverts_GetChildIndex_witness :
  (∀ child, child ∉ m_children (object "Layer" None [3; 4]%nat) →
            GetChildIndex 1 child twoLayers = Some (-1, twoLayers)) ∧
  (∀ child before after,
     m_children (object "Layer" None [3; 4]%nat) = before ++ child :: after →
     child ∉ before →
     GetChildIndex 1 child twoLayers = Some (Z.of_nat (length before), twoLayers) ∧
     GetChild 1 (Z.of_nat (length before)) twoLayers = Some (Some child, twoLayers)) ∧
  (∀ idx, idx < 0 ∨ Z.of_nat (length (m_children (object "Layer" None [3; 4]%nat))) ≤ idx →
          GetChild 1 idx twoLayers = Some (None, twoLayers)) ∧
  (NoDup (m_children (object "Layer" None [3; 4]%nat)) →
   ∀ (i : nat) child, m_children (object "Layer" None [3; 4]%nat) !! i = Some child →
     GetChild 1 (Z.of_nat i) twoLayers = Some (Some child, twoLayers) ∧
     GetChildIndex 1 child twoLayers = Some (Z.of_nat i, twoLayers)).
Proof.
  apply (GetChild_inverts_GetChildIndex 1 twoLayers (object "Layer" None [3; 4]%nat)).
  reflexivity.
Defined.

Lemma set_parent_back co p :
  m_parent co = p → set_parent p (set_parent None co) = co.
Proof. intros <-. destruct co; reflexivity. Qed.

Lemma set_children_back o l l' :
  m_children o = l → set_children l (set_children l' o) = o.
Proof. intros <-. destruct o; reflexivity. Qed.

Lemma insert_at_delete {A : Type} (l : list A) (i : nat) (x : A) :
  l !! i = Some x →
  (if Z.of_nat i >=? Z.of_nat (length (delete i l))
   then delete i l ++ [x]
   else insert_at (Z.to_nat (Z.of_nat i)) x (delete i l)) = l.
Proof.
  intros Hi. pose proof (lookup_lt_Some _ _ _ Hi) as Hlt.
  pose proof (take_drop_middle _ _ _ Hi) as Hsplit.
  rewrite delete_take_drop.
  assert (Hlen : length (take i l) = i) by (rewrite length_take; lia).
  destruct (Z.geb_spec (Z.of_nat i) (Z.of_nat (length (take i l ++ drop (S i) l))))
    as [Hge|Hlt'].
  - rewrite length_app, Hlen, length_drop in Hge.
    assert (Hnil : drop (S i) l = []) by (apply drop_ge; lia).
    rewrite Hnil in *. rewrite app_nil_r. rewrite <- Hsplit at 2. reflexivity.
  - rewrite Nat2Z.id. unfold insert_at.
    rewrite <- Hlen at 1. rewrite take_app_length.
    rewrite <- Hlen at 2. rewrite drop_app_length. exact Hsplit.
Qed.



Lemma filter_owned_delete (this c : nat) (l : list nat) (i : nat) (m : gmap nat Obj) co :
  NoDup l → l !! i = Some c → m !! c = Some co →
  Forall (λ r, ∃ ro, m !! r = Some ro ∧ m_parent ro = Some this) l →
  List.filter
    (λ r, bool_decide ((m_parent <$> <[c := set_parent None co]> m !! r) = Some (Some this))) l
  = delete i l.
Proof.
  revert i. induction l as [|x l IH]; intros i Hnd Hi Hco Hall; [discriminate|].
  apply NoDup_cons in Hnd as [Hx Hnd]. apply Forall_cons_1 in Hall as [(xo & Hxo & Hxp) Hall].
  destruct i as [|i]; simpl in Hi |- *.
  - injection Hi as ->. rewrite lookup_insert_eq. simpl.
    clear IH. induction Hall as [|y l (yo & Hyo & Hyp) _ IHl]; simpl; [reflexivity|].
    apply not_elem_of_cons in Hx as [Hne Hx]. apply NoDup_cons in Hnd as [_ Hnd].
    rewrite lookup_insert_ne by congruence. rewrite Hyo. simpl.
    rewrite bool_decide_eq_true_2 by congruence. rewrite IHl by assumption. reflexivity.
  - assert (Hne : c ≠ x).
    { intros ->. apply Hx. eapply list_elem_of_lookup_2, Hi. }
    rewrite lookup_insert_ne by exact Hne. rewrite Hxo. simpl.
    rewrite bool_decide_eq_true_2 by congruence. f_equal. apply IH; assumption.
Qed.

(** When every child is owned and occurs once, [Relinquish] followed by
    [ClearRelinquishedChildren] is [DetachChild]: the child handed over, and
    the store at the end, are the same. *)
Theorem Relinquish_then_clear_is_DetachChild
    (this c i : nat) (w : World) (o : Obj) :
  objs w !! this = Some o →
  m_children o !! i = Some c →
  NoDup (m_children o) →
  this ∉ m_children o →
  Forall (λ r, ∃ ro, objs w !! r = Some ro ∧ m_parent ro = Some this) (m_children o) →
  ∃ w',
    DetachChild this (Z.of_nat i) w = Some (Some c, w') ∧
    (child ← Relinquish this (Z.of_nat i);
     ClearRelinquishedChildren this;; mret child) w = Some (Some c, w').
Proof.
  intros Ho Hi Hnd Hself Hall.
  pose proof (lookup_lt_Some _ _ _ Hi) as Hlt.
  assert (Hce : ∃ co, objs w !! c = Some co ∧ m_parent co = Some this).
  { rewrite Forall_forall in Hall. apply Hall. eapply list_elem_of_lookup_2, Hi. }
  destruct Hce as (co & Hc & Hpar).
  assert (Hne : c ≠ this).
  { intros ->. apply Hself. eapply list_elem_of_lookup_2, Hi. }
  eexists. split.
  - unfold DetachChild. munfold. rewrite Ho.
    destruct (Z.geb_spec (Z.of_nat i) (Z.of_nat (length (m_children o)))) as [|_]; [lia|].
    destruct (Z.ltb_spec (Z.of_nat i) 0) as [|_]; [lia|].
    rewrite Nat2Z.id, Hi, Hc. simpl.
    rewrite lookup_insert_ne by congruence. rewrite Ho. reflexivity.
  - assert (Hrel : Relinquish this (Z.of_nat i) w
                   = Some (Some c, mkWorld (<[c := set_parent None co]> (objs w)) (logs w))).
    { unfold Relinquish. munfold. rewrite Ho.
      destruct (Z.geb_spec (Z.of_nat i) (Z.of_nat (length (m_children o)))) as [|_]; [lia|].
      destruct (Z.ltb_spec (Z.of_nat i) 0) as [|_]; [lia|].
      rewrite Nat2Z.id, Hi, Hc. reflexivity. }
    assert (Hclear : ClearRelinquishedChildren this
                       (mkWorld (<[c := set_parent None co]> (objs w)) (logs w))
                     = Some ((), mkWorld (<[this := set_children (delete i (m_children o)) o]>
                                            (<[c := set_parent None co]> (objs w)))
                                         (logs w))).
    { unfold ClearRelinquishedChildren. munfold. simpl.
      rewrite lookup_insert_ne by congruence. rewrite Ho.
      rewrite stillOwned_filter.
      2:{ simpl. eapply Forall_impl; [exact Hall|]. intros r (ro & Hr & _).
          destruct (decide (r = c)) as [->|Hrc];
            [rewrite lookup_insert_eq; eauto
            | rewrite lookup_insert_ne by congruence; eauto]. }
      simpl. rewrite (filter_owned_delete this c (m_children o) i (objs w) co) by assumption.
      reflexivity. }
    unfold mbind, M_bind. rewrite Hrel, Hclear. reflexivity.
Qed.

Lemma Relinquish_then_clear_is_DetachChild_witness :
  ∃ w',
    DetachChild 1 (Z.of_nat 1) twoLayers = Some (Some 4%nat, w') ∧
    (child ← Relinquish 1 (Z.of_nat 1);
     ClearRelinquishedChildren 1;; mret child) twoLayers = Some (Some 4%nat, w').
Proof.
  apply (Relinquish_then_clear_is_DetachChild 1 4 1 twoLayers
           (object "Layer" None [3; 4]%nat)).
  - reflexivity.
  - reflexivity.
  - simpl. repeat constructor; rewrite ?elem_of_cons, ?elem_of_nil; intuition lia.
  - simpl. rewrite !elem_of_cons, elem_of_nil. intuition lia.
  - simpl. repeat constructor; eexists; split; reflexivity.
Defined.

(** * Properties of the factory *)

(** After [Register], the name registered gives its class identifier and
    its constructor, whatever was registered under that name before, and the
    other names give what they gave.  A name that is not registered gives
    [OBJECT] and a null object, each with an error in the log and nothing
    else changed. *)
Theorem Register_then_GetClassId (f : Factory) (name : string) (classId : ClassId)
    (function : M (option nat)) (w : World) :
  GetClassId (Register name classId function f) name w = Some (classId, w) ∧
  (∀ object w', function w = Some (Some object, w') →
     Create (Register name classId function f) name w = Some (Some object, w')) ∧
  (∀ other, other ≠ name →
     GetClassId (Register name classId function f) other w = GetClassId f other w ∧
     Create (Register name classId function f) other w = Create f other w) ∧
  (∀ unknown, s_classIdsRegistry f !! unknown = None →
     GetClassId f unknown w
       = Some (OBJECT,
               mkWorld (objs w)
                 (logs w ++ [(LOG_ERROR, "ClassId for '" +:+ unknown +:+ "' not found")]))) ∧
  (∀ unknown, s_ctorsRegistry f !! unknown = None →
     Create f unknown w
       = Some (None,
               mkWorld (objs w)
                 (logs w ++ [(LOG_ERROR, "Factory for '" +:+ unknown +:+ "' not found")]))).
Proof.
  split; [|split; [|split; [|split]]].
  - unfold GetClassId, Register. simpl. rewrite lookup_insert_eq. reflexivity.
  - intros object w' Hf. unfold Create, Register. simpl. rewrite lookup_insert_eq.
    munfold. rewrite Hf. reflexivity.
  - intros other Hne. unfold GetClassId, Create, Register. simpl.
    rewrite !lookup_insert_ne by congruence. split; reflexivity.
  - intros unknown Hu. unfold GetClassId. rewrite Hu. reflexivity.
  - intros unknown Hu. unfold Create. rewrite Hu. reflexivity.
Qed.

(** [GetClassIds] appends to the list it is given the class identifiers of
    the names that are registered, in the order of the names; a name that is
    not registered is left out, with a debug message in the log, in the
    order of the names too. *)
Theorem GetClassIds_keeps_the_registered_names (f : Factory) (classStrings : list string) :
  ∀ classIds w,
    GetClassIds f classStrings classIds w
    = Some (classIds ++ omap (λ str, s_classIdsRegistry f !! str) classStrings,
            mkWorld (objs w)
              (logs w ++
               map (λ str, (LOG_DEBUG, "Class name '" +:+ str +:+ "' could not be matched"))
                   (List.filter (λ str, bool_decide (s_classIdsRegistry f !! str = None))
                                classStrings))).
Proof.
  induction classStrings as [|str rest IH]; intros classIds w; simpl.
  - rewrite !app_nil_r. destruct w; reflexivity.
  - destruct (s_classIdsRegistry f !! str) as [classId|] eqn:Hstr.
    + rewrite IH, <- app_assoc. simpl. reflexivity.
    + munfold. rewrite IH. simpl. rewrite <- app_assoc. reflexivity.
Qed.

Lemma Register_then_GetClassId_witness :
  let f := mkFactory ∅ ∅ in
  let w := sectionAndStaff in
  let function : M (option nat) := mret (Some 2%nat) in
  GetClassId (Register "note" NOTE function f) "note" w = Some (NOTE, w) ∧
  (∀ object w', function w = Some (Some object, w') →
     Create (Register "note" NOTE function f) "note" w = Some (Some object, w')) ∧
  (∀ other, other ≠ "note" →
     GetClassId (Register "note" NOTE function f) other w = GetClassId f other w ∧
     Create (Register "note" NOTE function f) other w = Create f other w) ∧
  (∀ unknown, s_classIdsRegistry f !! unknown = None →
     GetClassId f unknown w
       = Some (OBJECT,
               mkWorld (objs w)
                 (logs w ++ [(LOG_ERROR, "ClassId for '" +:+ unknown +:+ "' not found")]))) ∧
  (∀ unknown, s_ctorsRegistry f !! unknown = None →
     Create f unknown w
       = Some (None,
               mkWorld (objs w)
                 (logs w ++ [(LOG_ERROR, "Factory for '" +:+ unknown +:+ "' not found")]))).
Proof.
  exact (Register_then_GetClassId (mkFactory ∅ ∅) "note" NOTE (mret (Some 2%nat))
           sectionAndStaff).
Defined.

(** * Properties of the dirty flag *)

Lemma Modify_true_frame n :
  ∀ w this w',
    Modify n this true w = Some ((), w') →
    ∀ q, q ≠ this → ¬ ancestorOf n w this q → objs w' !! q = objs w !! q.
Proof.
  induction n as [|n IH]; intros w this w' H q Hq Hanc; [discriminate|].
  simpl in H. unfold mbind at 1, M_bind at 1, deref at 1 in H.
  destruct (objs w !! this) as [o|] eqn:Ho; [|discriminate].
  unfold mbind at 1, M_bind at 1 in H.
  assert (Hparent : ∃ w1,
             match m_parent o with
             | Some parent => Modify n parent true
             | None => mret ()
             end w = Some ((), w1) ∧ objs w1 !! q = objs w !! q).
  { destruct (m_parent o) as [p|] eqn:Hp.
    - destruct (Modify n p true w) as [[[] w1]|] eqn:Hrun; [|discriminate].
      exists w1. split; [reflexivity|].
      eapply IH; [exact Hrun | |].
      + intros ->. apply Hanc. simpl. exists o, p. auto.
      + intros Ha. apply Hanc. simpl. exists o, p. auto.
    - exists w. split; reflexivity. }
  destruct Hparent as (w1 & Hrun & Hsame). rewrite Hrun in H.
  munfold. destruct (objs w1 !! this) as [o1|]; [|discriminate].
  injection H as <-. simpl. rewrite lookup_insert_ne by congruence. exact Hsame.
Qed.

(** [Modify(true)] sets the dirty flag of the object and of every ancestor
    up to the root, whether an ancestor is dirty already or not, and changes
    nothing else; [Modify(false)] writes the flag of the object alone and
    leaves its ancestors as they are. *)
Theorem Modify_marks_every_ancestor (n : nat) (w : World) (this : nat) (o : Obj) :
  objs w !! this = Some o →
  rooted n w None this →
  (∃ w',
     Modify n this true w = Some ((), w') ∧
     isModifiedOf w' this = Some true ∧
     (∀ q, ancestorOf n w this q → isModifiedOf w' q = Some true) ∧
     (∀ q, q ≠ this → ¬ ancestorOf n w this q → objs w' !! q = objs w !! q) ∧
     (∀ q, childrenOf w' q = childrenOf w q ∧ parentOf w' q = parentOf w q) ∧
     logs w' = logs w) ∧
  Modify n this false w
    = Some ((), mkWorld (<[this := set_isModified false o]> (objs w)) (logs w)).
Proof.
  intros Ho Hr. split.
  - destruct (Modify_true_returns n w None this Hr) as (w' & Hrun & Hm & Hflag & Hanc).
    exists w'. split; [exact Hrun|]. split; [exact Hflag|]. split; [exact Hanc|].
    split; [eapply Modify_true_frame; exact Hrun|].
    split; [intros q; apply marks_fields, Hm | apply Hm].
  - destruct n as [|n]; [destruct Hr|]. simpl. munfold. rewrite Ho.
    destruct (m_parent o); rewrite Ho; reflexivity.
Qed.

Lemma Modify_marks_every_ancestor_witness :
  (∃ w',
     Modify 3 6 true layerWithRelinquishedNote = Some ((), w') ∧
     isModifiedOf w' 6 = Some true ∧
     (∀ q, ancestorOf 3 layerWithRelinquishedNote 6 q → isModifiedOf w' q = Some true) ∧
     (∀ q, q ≠ 6%nat → ¬ ancestorOf 3 layerWithRelinquishedNote 6 q →
           objs w' !! q = objs layerWithRelinquishedNote !! q) ∧
     (∀ q, childrenOf w' q = childrenOf layerWithRelinquishedNote q ∧
           parentOf w' q = parentOf layerWithRelinquishedNote q) ∧
     logs w' = logs layerWithRelinquishedNote) ∧
  Modify 3 6 false layerWithRelinquishedNote
    = Some ((), mkWorld (<[6%nat := set_isModified false (object "Stem" (Some 3%nat) [])]>
                           (objs layerWithRelinquishedNote))
                        (logs layerWithRelinquishedNote)).
Proof.
  apply (Modify_marks_every_ancestor 3 layerWithRelinquishedNote 6
           (object "Stem" (Some 3%nat) [])).
  - reflexivity.
  - simpl. split; [discriminate|]. eexists. split; [reflexivity|]. simpl.
    split; [discriminate|]. eexists. split; [reflexivity|]. simpl.
    split; [discriminate|]. eexists. split; [reflexivity|]. exact I.
Defined.

(** * Properties of the insertion and the replacement of a child *)

(** Setting the parent of a new child, inserting it at a position and
    marking the parent as modified. *)
Lemma insert_new_child (n this new : nat) (k : Z) (w : World) (t no : Obj) :
  objs w !! this = Some t →
  objs w !! new = Some no →
  m_parent no = None →
  0 ≤ k →
  rooted n w (Some new) this →
  ∃ w',
    (SetParent new this;; InsertChild this new k;; Modify n this true) w = Some ((), w') ∧
    childrenOf w' this
      = Some (take (Z.to_nat k) (m_children t) ++ new :: drop (Z.to_nat k) (m_children t)) ∧
    parentOf w' new = Some (Some this) ∧
    isModifiedOf w' this = Some true ∧
    (∀ q, q ≠ this → q ≠ new →
          childrenOf w' q = childrenOf w q ∧ parentOf w' q = parentOf w q).
Proof.
  intros Ht Hn Hpar Hk Hr.
  assert (Hne : this ≠ new).
  { destruct n; [destruct Hr|]. destruct Hr as [Hne _]. congruence. }
  set (l := take (Z.to_nat k) (m_children t) ++ new :: drop (Z.to_nat k) (m_children t)).
  set (objs0 := <[this := set_children l t]> (<[new := set_parent (Some this) no]> (objs w))).
  assert (Hstep : (SetParent new this;; InsertChild this new k;; Modify n this true) w
                  = Modify n this true (mkWorld objs0 (logs w))).
  { unfold InsertChild. munfold. rewrite Hn, Hpar. simpl.
    rewrite lookup_insert_eq. simpl. rewrite bool_decide_eq_true_2 by reflexivity. simpl.
    rewrite lookup_insert_ne by congruence. rewrite Ht.
    destruct (Z.geb_spec k (Z.of_nat (length (m_children t)))) as [Hge|Hlt].
    - simpl. subst objs0 l. rewrite take_ge, drop_ge by lia. reflexivity.
    - destruct (Z.ltb_spec k 0) as [|_]; [lia|]. reflexivity. }
  rewrite Hstep.
  destruct (Modify_true_returns n (mkWorld objs0 (logs w)) (Some new) this)
    as (w' & Hrun & Hm & Hflag & _).
  { eapply rooted_agree; [|exact Hr]. intros q Hq. simpl. subst objs0.
    destruct (decide (this = q)) as [<-|Hq'].
    - rewrite lookup_insert_eq, Ht. reflexivity.
    - rewrite !lookup_insert_ne by congruence. reflexivity. }
  exists w'. split; [exact Hrun|].
  split; [|split; [|split; [exact Hflag|]]].
  - destruct (marks_fields _ _ this Hm) as [-> _].
    unfold childrenOf. simpl. subst objs0. rewrite lookup_insert_eq. reflexivity.
  - destruct (marks_fields _ _ new Hm) as [_ ->].
    unfold parentOf. simpl. subst objs0.
    rewrite lookup_insert_ne, lookup_insert_eq by congruence. reflexivity.
  - intros q Hq1 Hq2. destruct (marks_fields _ _ q Hm) as [-> ->].
    unfold childrenOf, parentOf. simpl. subst objs0.
    rewrite !lookup_insert_ne by congruence. auto.
Qed.

(** [InsertBefore] puts the new child right before the child given and
    [InsertAfter] right after it; the new child gets the object as parent,
    and the object is marked as modified.  Both fail their assertion when
    the child given is not a child or when the new child is one already. *)
Theorem InsertBefore_and_InsertAfter
    (n this child new : nat) (w : World) (t no : Obj) (before after : list nat) :
  objs w !! this = Some t →
  m_children t = before ++ child :: after →
  child ∉ before →
  new ∉ m_children t →
  objs w !! new = Some no →
  m_parent no = None →
  rooted n w (Some new) this →
  (∃ w',
     InsertBefore n this child new w = Some ((), w') ∧
     childrenOf w' this = Some (before ++ new :: child :: after) ∧
     parentOf w' new = Some (Some this) ∧
     isModifiedOf w' this = Some true) ∧
  (∃ w',
     InsertAfter n this child new w = Some ((), w') ∧
     childrenOf w' this = Some (before ++ child :: new :: after) ∧
     parentOf w' new = Some (Some this) ∧
     isModifiedOf w' this = Some true) ∧
  InsertBefore n this new child w = None ∧
  InsertAfter n this new child w = None ∧
  InsertBefore n this child child w = None ∧
  InsertAfter n this child child w = None.
Proof.
  intros Ht Hch Hb Hnew Hn Hpar Hr.
  pose proof (GetChildIndex_found this child w t before after Ht Hch Hb) as Hidx.
  pose proof (GetChildIndex_absent this new w t Ht Hnew) as Habs.
  assert (Hnn : (Z.of_nat (length before) =? -1) = false) by (apply Z.eqb_neq; lia).
  split; [|split; [|repeat split]].
  - destruct (insert_new_child n this new (Z.of_nat (length before)) w t no)
      as (w' & Hrun & Hkids & Hp & Hflag & _); try assumption; [lia|].
    exists w'. split.
    + unfold InsertBefore. unfold mbind at 1 2 3, M_bind at 1 2 3.
      rewrite Hidx, Hnn, Habs. simpl. rewrite Hidx. exact Hrun.
    + rewrite Hkids, Nat2Z.id, Hch, take_app_length, drop_app_length. auto.
  - destruct (insert_new_child n this new (Z.of_nat (length before) + 1) w t no)
      as (w' & Hrun & Hkids & Hp & Hflag & _); try assumption; [lia|].
    exists w'. split.
    + unfold InsertAfter. unfold mbind at 1 2 3, M_bind at 1 2 3.
      rewrite Hidx, Hnn, Habs. simpl. rewrite Hidx. exact Hrun.
    + rewrite Hkids, Hch.
      replace (Z.to_nat (Z.of_nat (length before) + 1)) with (length (before ++ [child]))
        by (rewrite length_app; simpl; lia).
      replace (before ++ child :: after) with ((before ++ [child]) ++ after)
        by (rewrite <- app_assoc; reflexivity).
      rewrite take_app_length, drop_app_length, <- app_assoc. auto.
  - unfold InsertBefore. unfold mbind at 1, M_bind at 1. rewrite Habs. reflexivity.
  - unfold InsertAfter. unfold mbind at 1, M_bind at 1. rewrite Habs. reflexivity.
  - unfold InsertBefore. unfold mbind at 1 2, M_bind at 1 2. rewrite Hidx, Hnn, Hidx, Hnn.
    reflexivity.
  - unfold InsertAfter. unfold mbind at 1 2, M_bind at 1 2. rewrite Hidx, Hnn, Hidx, Hnn.
    reflexivity.
Qed.

Lemma InsertBefore_and_InsertAfter_witness :
  let w := mkWorld (<[9%nat := object "Note" None []]> (objs twoLayers)) [] in
  (∃ w',
     InsertBefore 1 1 4 9 w = Some ((), w') ∧
     childrenOf w' 1 = Some ([3%nat] ++ 9%nat :: 4%nat :: []) ∧
     parentOf w' 9 = Some (Some 1%nat) ∧
     isModifiedOf w' 1 = Some true) ∧
  (∃ w',
     InsertAfter 1 1 4 9 w = Some ((), w') ∧
     childrenOf w' 1 = Some ([3%nat] ++ 4%nat :: 9%nat :: []) ∧
     parentOf w' 9 = Some (Some 1%nat) ∧
     isModifiedOf w' 1 = Some true) ∧
  InsertBefore 1 1 9 4 w = None ∧
  InsertAfter 1 1 9 4 w = None ∧
  InsertBefore 1 1 4 4 w = None ∧
  InsertAfter 1 1 4 4 w = None.
Proof.
  apply (InsertBefore_and_InsertAfter 1 1 4 9
           (mkWorld (<[9%nat := object "Note" None []]> (objs twoLayers)) [])
           (object "Layer" None [3; 4]%nat) (object "Note" None []) [3%nat] []).
  - reflexivity.
  - reflexivity.
  - rewrite elem_of_cons, elem_of_nil. intuition lia.
  - simpl. rewrite !elem_of_cons, elem_of_nil. intuition lia.
  - reflexivity.
  - reflexivity.
  - simpl. split; [discriminate|]. eexists. split; [reflexivity | exact I].
Defined.

Lemma rooted_agree2 n :
  ∀ w w0 a b this,
    (∀ q, q ≠ a → q ≠ b → m_parent <$> objs w0 !! q = m_parent <$> objs w !! q) →
    rooted n w (Some a) this → rooted n w (Some b) this → rooted n w0 (Some a) this.
Proof.
  induction n as [|n IH]; intros w w0 a b this Hag Ha Hb; [exact Ha|].
  destruct Ha as (Hna & o & Ho & Hpa). destruct Hb as (Hnb & o' & Ho' & Hpb).
  rewrite Ho in Ho'. injection Ho' as <-.
  split; [exact Hna|].
  assert (Hthis : m_parent <$> objs w0 !! this = m_parent <$> objs w !! this)
    by (apply Hag; congruence).
  rewrite Ho in Hthis. simpl in Hthis.
  destruct (objs w0 !! this) as [o0|]; [|discriminate]. simpl in Hthis.
  injection Hthis as Hpar. exists o0. split; [reflexivity|]. rewrite Hpar.
  destruct (m_parent o); [|exact I]. eapply IH; eassumption.
Qed.

(** [ReplaceChild] puts the replacing child at the position of the current
    one and sets its parent; the current child is not deleted: it stays in
    the store, without parent.  A replacing child that has a parent already
    fails the assertion of [SetParent], and so does a current child that is
    not a child or a replacing child that is one already. *)
Theorem ReplaceChild_keeps_the_position
    (n this cur new : nat) (w : World) (t co no : Obj) (before after : list nat) :
  objs w !! this = Some t →
  m_children t = before ++ cur :: after →
  cur ∉ before →
  new ∉ m_children t →
  objs w !! cur = Some co →
  objs w !! new = Some no →
  rooted n w (Some new) this →
  rooted n w (Some cur) this →
  (m_parent no = None →
   ∃ w',
     ReplaceChild n this cur new w = Some ((), w') ∧
     childrenOf w' this = Some (before ++ new :: after) ∧
     parentOf w' new = Some (Some this) ∧
     parentOf w' cur = Some None ∧
     isModifiedOf w' this = Some true) ∧
  (m_parent no ≠ None → ReplaceChild n this cur new w = None) ∧
  ReplaceChild n this new cur w = None ∧
  ReplaceChild n this cur cur w = None.
Proof.
  intros Ht Hch Hb Hnew Hc Hn Hrn Hrc.
  pose proof (GetChildIndex_found this cur w t before after Ht Hch Hb) as Hidx.
  pose proof (GetChildIndex_absent this new w t Ht Hnew) as Habs.
  assert (Hnn : (Z.of_nat (length before) =? -1) = false) by (apply Z.eqb_neq; lia).
  assert (Hne1 : this ≠ new).
  { destruct n; [destruct Hrn|]. destruct Hrn as [Hne _]. congruence. }
  assert (Hne2 : this ≠ cur).
  { destruct n; [destruct Hrc|]. destruct Hrc as [Hne _]. congruence. }
  assert (Hne3 : cur ≠ new).
  { intros ->. apply Hnew. rewrite Hch. apply elem_of_app. right. apply list_elem_of_here. }
  set (l := before ++ new :: after).
  set (objs1 := <[this := set_children l t]> (<[cur := set_parent None co]> (objs w))).
  assert (Hhead : ReplaceChild n this cur new w
                  = (SetParent new this;; Modify n this true) (mkWorld objs1 (logs w))).
  { unfold ReplaceChild. unfold mbind at 1 2 3, M_bind at 1 2 3.
    rewrite Hidx, Hnn, Habs. simpl. rewrite Hidx.
    unfold assign_at. munfold. rewrite Hc. simpl.
    rewrite lookup_insert_ne by congruence. rewrite Ht.
    destruct (Z.ltb_spec (Z.of_nat (length before)) 0) as [|_]; [lia|].
    destruct (Z.geb_spec (Z.of_nat (length before)) (Z.of_nat (length (m_children t))))
      as [Hge|_].
    { rewrite Hch, length_app in Hge. simpl in Hge. lia. }
    simpl. rewrite Nat2Z.id, Hch.
    replace (<[length before := new]> (before ++ cur :: after)) with l; [reflexivity|].
    subst l. rewrite insert_app_r_alt by lia. rewrite Nat.sub_diag. reflexivity. }
  assert (Hn1 : objs1 !! new = Some no).
  { subst objs1. rewrite !lookup_insert_ne by congruence. exact Hn. }
  split; [|split; [|split]].
  - intros Hpar. rewrite Hhead.
    set (objs2 := <[new := set_parent (Some this) no]> objs1).
    assert (Hstep : (SetParent new this;; Modify n this true) (mkWorld objs1 (logs w))
                    = Modify n this true (mkWorld objs2 (logs w))).
    { munfold. simpl. rewrite Hn1, Hpar. reflexivity. }
    rewrite Hstep.
    destruct (Modify_true_returns n (mkWorld objs2 (logs w)) (Some new) this)
      as (w' & Hrun & Hm & Hflag & _).
    { eapply (rooted_agree2 n w _ new cur); [|exact Hrn | exact Hrc].
      intros q Hq1 Hq2. simpl. subst objs2 objs1.
      rewrite lookup_insert_ne by congruence.
      destruct (decide (this = q)) as [<-|Hq'].
      - rewrite lookup_insert_eq, Ht. reflexivity.
      - rewrite !lookup_insert_ne by congruence. reflexivity. }
    exists w'. split; [exact Hrun|].
    destruct (marks_fields _ _ this Hm) as [-> _].
    destruct (marks_fields _ _ new Hm) as [_ ->].
    destruct (marks_fields _ _ cur Hm) as [_ ->].
    unfold childrenOf, parentOf. simpl. subst objs2 objs1.
    rewrite lookup_insert_eq.
    rewrite !(lookup_insert_ne _ new) by congruence.
    rewrite lookup_insert_eq.
    rewrite lookup_insert_ne by congruence. rewrite lookup_insert_eq. auto.
  - intros Hpar. rewrite Hhead. munfold. simpl. rewrite Hn1.
    destruct (m_parent no); [reflexivity | congruence].
  - unfold ReplaceChild. unfold mbind at 1, M_bind at 1. rewrite Habs. reflexivity.
  - unfold ReplaceChild. unfold mbind at 1 2, M_bind at 1 2. rewrite Hidx, Hnn, Hidx, Hnn.
    reflexivity.
Qed.

Lemma ReplaceChild_keeps_the_position_witness :
  let w := mkWorld (<[9%nat := object "Note" None []]> (objs twoLayers)) [] in
  (m_parent (object "Note" None []) = None →
   ∃ w',
     ReplaceChild 1 1 3 9 w = Some ((), w') ∧
     childrenOf w' 1 = Some ([] ++ 9%nat :: [4%nat]) ∧
     parentOf w' 9 = Some (Some 1%nat) ∧
     parentOf w' 3 = Some None ∧
     isModifiedOf w' 1 = Some true) ∧
  (m_parent (object "Note" None []) ≠ None → ReplaceChild 1 1 3 9 w = None) ∧
  ReplaceChild 1 1 9 3 w = None ∧
  ReplaceChild 1 1 3 3 w = None.
Proof.
  apply (ReplaceChild_keeps_the_position 1 1 3 9
           (mkWorld (<[9%nat := object "Note" None []]> (objs twoLayers)) [])
           (object "Layer" None [3; 4]%nat) (object "Note" (Some 1%nat) [])
           (object "Note" None []) [] [4%nat]).
  - reflexivity.
  - reflexivity.
  - apply not_elem_of_nil.
  - simpl. rewrite !elem_of_cons, elem_of_nil. intuition lia.
  - reflexivity.
  - reflexivity.
  - simpl. split; [discriminate|]. eexists. split; [reflexivity | exact I].
  - simpl. split; [discriminate|]. eexists. split; [reflexivity | exact I].
Defined.

(** * Properties of the move of an object *)

Section MoveItselfToFacts.
Variable IsSupportedChild : Obj → Obj → bool * list (LogLevel * string).

(** What [AddChild] leaves alone when it accepts the child. *)
Lemma AddChild_accepts (n this child : nat) (w : World) (t c : Obj) :
  objs w !! this = Some t →
  objs w !! child = Some c →
  m_parent c = None →
  (fst (IsSupportedChild t c) = true ∨
   (GetClassName c = "Staff" ∧ GetClassName t = "Section")) →
  rooted n w (Some child) this →
  ∃ w',
    AddChild IsSupportedChild n this child w = Some ((), w') ∧
    childrenOf w' this = Some (m_children t ++ [child]) ∧
    parentOf w' child = Some (Some this) ∧
    isModifiedOf w' this = Some true ∧
    (∀ q, q ≠ this → q ≠ child →
          childrenOf w' q = childrenOf w q ∧ parentOf w' q = parentOf w q).
Proof.
  intros Ht Hc Hpar Hacc Hr.
  assert (Hne : this ≠ child).
  { destruct n; [destruct Hr|]. destruct Hr as [Hne _]. congruence. }
  set (objs0 := <[this := set_children (m_children t ++ [child]) t]>
                  (<[child := set_parent (Some this) c]> (objs w))).
  assert (Hstep : ∃ msgs,
             AddChild IsSupportedChild n this child w
             = Modify n this true (mkWorld objs0 (logs w ++ msgs))).
  { unfold AddChild.
    unfold mbind at 1 2 3, M_bind at 1 2 3, deref at 1 2. rewrite Hc, Ht.
    destruct (String.eqb (GetClassName c) "Staff" && String.eqb (GetClassName t) "Section")
      eqn:Hcond.
    - exists []. simpl. munfold. simpl. rewrite Hc, Hpar. simpl.
      rewrite lookup_insert_ne by congruence. rewrite Ht. rewrite app_nil_r.
      destruct w; reflexivity.
    - destruct Hacc as [Hsup | [Hs Hsec]].
      + destruct (IsSupportedChild t c) as [supported msgs]. simpl in Hsup. subst supported.
        exists msgs. simpl. munfold. simpl. rewrite Hc, Hpar. simpl.
        rewrite lookup_insert_ne by congruence. rewrite Ht. reflexivity.
      + rewrite Hs, Hsec in Hcond. discriminate. }
  destruct Hstep as (msgs & ->).
  destruct (Modify_true_returns n (mkWorld objs0 (logs w ++ msgs)) (Some child) this)
    as (w' & Hrun & Hm & Hflag & _).
  { eapply rooted_agree; [|exact Hr]. intros q Hq. simpl. subst objs0.
    destruct (decide (this = q)) as [<-|Hq'].
    - rewrite lookup_insert_eq, Ht. reflexivity.
    - rewrite !lookup_insert_ne by congruence. reflexivity. }
  exists w'. split; [exact Hrun|].
  split; [|split; [|split; [exact Hflag|]]].
  - destruct (marks_fields _ _ this Hm) as [-> _].
    unfold childrenOf. simpl. subst objs0. rewrite lookup_insert_eq. reflexivity.
  - destruct (marks_fields _ _ child Hm) as [_ ->].
    unfold parentOf. simpl. subst objs0.
    rewrite lookup_insert_ne, lookup_insert_eq by congruence. reflexivity.
  - intros q Hq1 Hq2. destruct (marks_fields _ _ q Hm) as [-> ->].
    unfold childrenOf, parentOf. simpl. subst objs0.
    rewrite !lookup_insert_ne by congruence. auto.
Qed.

(** [MoveItselfTo] relinquishes the object from its parent and adds it to
    the target.  When the target accepts it, the object is the last child of
    the target and has the target as parent.  When the target rejects it,
    the object is left without parent.  Either way the former parent still
    has the object in its child sequence. *)
Theorem MoveItselfTo_leaves_the_object_in_its_former_parent
    (n this parent target : nat) (w : World) (o po to : Obj) (before after : list nat) :
  objs w !! this = Some o →
  m_parent o = Some parent →
  objs w !! parent = Some po →
  m_children po = before ++ this :: after →
  this ∉ before →
  objs w !! target = Some to →
  parent ≠ target → this ≠ parent →
  rooted n w (Some this) target →
  ((fst (IsSupportedChild to (set_parent None o)) = true ∨
    (GetClassName o = "Staff" ∧ GetClassName to = "Section")) →
   ∃ w',
     MoveItselfTo IsSupportedChild n this target w = Some ((), w') ∧
     childrenOf w' target = Some (m_children to ++ [this]) ∧
     parentOf w' this = Some (Some target) ∧
     childrenOf w' parent = Some (before ++ this :: after)) ∧
  (fst (IsSupportedChild to (set_parent None o)) = false →
   ¬ (GetClassName o = "Staff" ∧ GetClassName to = "Section") →
   ∃ w',
     MoveItselfTo IsSupportedChild n this target w = Some ((), w') ∧
     childrenOf w' target = Some (m_children to) ∧
     parentOf w' this = Some None ∧
     childrenOf w' parent = Some (before ++ this :: after)).
Proof.
  intros Ho Hpar Hp Hch Hb Ht Hpt Hne Hr.
  assert (Hnt : target ≠ this).
  { destruct n; [destruct Hr|]. destruct Hr as [Hnt _]. congruence. }
  set (w1 := mkWorld (<[this := set_parent None o]> (objs w)) (logs w)).
  assert (Hhead : MoveItselfTo IsSupportedChild n this target w
                  = AddChild IsSupportedChild n target this w1).
  { unfold MoveItselfTo. unfold mbind at 1, M_bind at 1, deref at 1. rewrite Ho, Hpar.
    rewrite bool_decide_eq_false_2 by exact Hpt.
    unfold mbind at 1 2, M_bind at 1 2.
    assert (Hidx : GetIdx this w = Some (Z.of_nat (length before), w)).
    { unfold GetIdx. unfold mbind at 1, M_bind at 1, deref at 1. rewrite Ho, Hpar.
      eapply GetChildIndex_found; eassumption. }
    rewrite Hidx.
    assert (Hrel : Relinquish parent (Z.of_nat (length before)) w = Some (Some this, w1)).
    { unfold Relinquish. munfold. rewrite Hp.
      destruct (Z.geb_spec (Z.of_nat (length before)) (Z.of_nat (length (m_children po))))
        as [Hge|_].
      { rewrite Hch, length_app in Hge. simpl in Hge. lia. }
      destruct (Z.ltb_spec (Z.of_nat (length before)) 0) as [|_]; [lia|].
      rewrite Nat2Z.id, Hch, list_lookup_middle by reflexivity. rewrite Ho. reflexivity. }
    rewrite Hrel. rewrite bool_decide_eq_true_2 by reflexivity. reflexivity. }
  assert (Ht1 : objs w1 !! target = Some to).
  { subst w1. simpl. rewrite lookup_insert_ne by congruence. exact Ht. }
  assert (Ho1 : objs w1 !! this = Some (set_parent None o)).
  { subst w1. simpl. apply lookup_insert_eq. }
  assert (Hp1 : childrenOf w1 parent = Some (before ++ this :: after)).
  { unfold childrenOf. subst w1. simpl. rewrite lookup_insert_ne by congruence.
    rewrite Hp. simpl. congruence. }
  split.
  - intros Hacc. rewrite Hhead.
    destruct (AddChild_accepts n target this w1 to (set_parent None o) Ht1 Ho1 eq_refl)
      as (w' & Hrun & Hkids & Hparent & _ & Hframe).
    + destruct o; exact Hacc.
    + eapply rooted_agree; [|exact Hr]. intros q Hq. subst w1. simpl.
      rewrite lookup_insert_ne by congruence. reflexivity.
    + exists w'. split; [exact Hrun|]. split; [exact Hkids|]. split; [exact Hparent|].
      destruct (Hframe parent) as [-> _]; [congruence..|]. exact Hp1.
  - intros Hrej Hpair. rewrite Hhead. unfold AddChild. munfold. rewrite Ho1, Ht1.
    assert (Hcond : String.eqb (GetClassName (set_parent None o)) "Staff"
                    && String.eqb (GetClassName to) "Section" = false).
    { apply andb_false_iff. destruct o as [name ? ? ? ?]. simpl in *.
      destruct (String.eqb_spec name "Staff");
        destruct (String.eqb_spec (GetClassName to) "Section"); auto.
      exfalso. apply Hpair. auto. }
    rewrite Hcond. simpl.
    destruct (IsSupportedChild to (set_parent None o)) as [supported msgs].
    simpl in Hrej. subst supported. simpl. eexists. split; [reflexivity|].
    unfold childrenOf, parentOf. simpl. subst w1. simpl.
    rewrite lookup_insert_eq. rewrite !lookup_insert_ne by congruence.
    rewrite Ht, Hp. simpl. rewrite Hch. auto.
Qed.

End MoveItselfToFacts.

Lemma MoveItselfTo_leaves_the_object_in_its_former_parent_witness :
  ((fst (Object_IsSupportedChild (object "Layer" None [5]%nat)
           (set_parent None (object "Note" (Some 1%nat) []))) = true ∨
    (GetClassName (object "Note" (Some 1%nat) []) = "Staff" ∧
     GetClassName (object "Layer" None [5]%nat) = "Section")) →
   ∃ w',
     MoveItselfTo Object_IsSupportedChild 1 3 2 twoLayers = Some ((), w') ∧
     childrenOf w' 2 = Some (m_children (object "Layer" None [5]%nat) ++ [3%nat]) ∧
     parentOf w' 3 = Some (Some 2%nat) ∧
     childrenOf w' 1 = Some ([] ++ 3%nat :: [4%nat])) ∧
  (fst (Object_IsSupportedChild (object "Layer" None [5]%nat)
          (set_parent None (object "Note" (Some 1%nat) []))) = false →
   ¬ (GetClassName (object "Note" (Some 1%nat) []) = "Staff" ∧
      GetClassName (object "Layer" None [5]%nat) = "Section") →
   ∃ w',
     MoveItselfTo Object_IsSupportedChild 1 3 2 twoLayers = Some ((), w') ∧
     childrenOf w' 2 = Some (m_children (object "Layer" None [5]%nat)) ∧
     parentOf w' 3 = Some None ∧
     childrenOf w' 1 = Some ([] ++ 3%nat :: [4%nat])).
Proof.
  apply (MoveItselfTo_leaves_the_object_in_its_former_parent Object_IsSupportedChild
           1 3 1 2 twoLayers (object "Note" (Some 1%nat) [])
           (object "Layer" None [3; 4]%nat) (object "Layer" None [5]%nat) [] [4%nat]);
    try reflexivity; try lia.
  - apply not_elem_of_nil.
  - simpl. split; [discriminate|]. eexists. split; [reflexivity | exact I].
Defined.

(** * Properties of [MoveChildrenFrom] *)

Lemma take_drop_insert_step {A : Type} (d rest : list A) (c : A) (k : nat) :
  take (S k) (take k d ++ c :: drop k d) ++ rest ++ drop (S k) (take k d ++ c :: drop k d)
  = take k d ++ (c :: rest) ++ drop k d.
Proof.
  destruct (decide (k ≤ length d)%nat) as [Hle|Hgt].
  - assert (Hlen : length (take k d ++ [c]) = S k)
      by (rewrite length_app, length_take; simpl; lia).
    replace (take k d ++ c :: drop k d) with ((take k d ++ [c]) ++ drop k d)
      by (rewrite <- app_assoc; reflexivity).
    rewrite <- Hlen at 1. rewrite take_app_length.
    rewrite <- Hlen at 1. rewrite drop_app_length.
    rewrite <- app_assoc. reflexivity.
  - rewrite (take_ge d), (drop_ge d) by lia.
    rewrite take_ge, drop_ge by (rewrite length_app; simpl; lia).
    rewrite !app_nil_r, <- app_assoc. reflexivity.
Qed.

(** The loop of [MoveChildrenFrom], from the children already moved
    ([done]) on. *)
Lemma MoveChildrenFrom_loop_moves (this source : nat) (s : Obj) (todo : list nat) :
  this ≠ source →
  this ∉ todo → source ∉ todo →
  ∀ done fuel idx w tk,
    m_children s = done ++ todo →
    (length todo < fuel)%nat →
    idx = -1 ∨ 0 ≤ idx →
    objs w !! source = Some s →
    objs w !! this = Some tk →
    Forall (λ c, is_Some (objs w !! c)) todo →
    ∃ w',
      MoveChildrenFrom_loop fuel this source (Z.of_nat (length done)) idx w
        = Some ((), w') ∧
      childrenOf w' this
        = Some (if idx =? -1 then m_children tk ++ todo
                else take (Z.to_nat idx) (m_children tk) ++ todo
                       ++ drop (Z.to_nat idx) (m_children tk)) ∧
      parentOf w' this = Some (m_parent tk) ∧
      objs w' !! source = Some s ∧
      (∀ c, c ∈ todo → ∃ co, objs w' !! c = Some co ∧ m_parent co = Some this) ∧
      (∀ q, q ≠ this → q ∉ todo → objs w' !! q = objs w !! q) ∧
      logs w' = logs w.
Proof.
  intros Hts. induction todo as [|c rest IH]; intros Hthis Hsrc done fuel idx w tk
    Hch Hfuel Hidx Hs Ht Hall.
  - destruct fuel as [|fuel]; [simpl in Hfuel; lia|]. exists w. simpl.
    unfold mbind, M_bind, deref. rewrite Hs.
    destruct (Z.ltb_spec (Z.of_nat (length done)) (Z.of_nat (length (m_children s))))
      as [Hlt|_].
    { rewrite Hch, app_nil_r in Hlt. lia. }
    split; [reflexivity|]. unfold childrenOf, parentOf. rewrite Ht. simpl.
    rewrite !app_nil_r, take_drop.
    assert (Hnone : ∀ c, c ∈ [] → ∃ co, objs w !! c = Some co ∧ m_parent co = Some this).
    { intros c Hc. apply elem_of_nil in Hc. destruct Hc. }
    destruct (idx =? -1); auto 10.
  - apply not_elem_of_cons in Hthis as [Htc Hthis].
    apply not_elem_of_cons in Hsrc as [Hsc Hsrc].
    apply Forall_cons_1 in Hall as [[co Hco] Hall].
    destruct fuel as [|fuel]; [simpl in Hfuel; lia|]. simpl in Hfuel.
    set (c1 := set_parent (Some this) (set_parent None co)).
    set (dest := if idx =? -1 then m_children tk ++ [c]
                 else take (Z.to_nat idx) (m_children tk)
                        ++ c :: drop (Z.to_nat idx) (m_children tk)).
    set (w1 := mkWorld (<[this := set_children dest tk]>
                          (<[c := c1]> (<[c := set_parent None co]> (objs w)))) (logs w)).
    assert (Hstep : MoveChildrenFrom_loop (S fuel) this source (Z.of_nat (length done)) idx w
                    = MoveChildrenFrom_loop fuel this source
                        (Z.of_nat (length (done ++ [c])))
                        (if idx =? -1 then idx else idx + 1) w1).
    { simpl MoveChildrenFrom_loop.
      unfold mbind at 1, M_bind at 1, deref at 1. rewrite Hs.
      destruct (Z.ltb_spec (Z.of_nat (length done)) (Z.of_nat (length (m_children s))))
        as [_|Hge].
      2:{ rewrite Hch, length_app in Hge. simpl in Hge. lia. }
      assert (Hrel : Relinquish source (Z.of_nat (length done)) w
                     = Some (Some c, mkWorld (<[c := set_parent None co]> (objs w)) (logs w))).
      { unfold Relinquish. munfold. rewrite Hs.
        destruct (Z.geb_spec (Z.of_nat (length done)) (Z.of_nat (length (m_children s))))
          as [Hge|_].
        { rewrite Hch, length_app in Hge. simpl in Hge. lia. }
        destruct (Z.ltb_spec (Z.of_nat (length done)) 0) as [|_]; [lia|].
        rewrite Nat2Z.id, Hch, list_lookup_middle by reflexivity. rewrite Hco. reflexivity. }
      unfold mbind at 1, M_bind at 1. rewrite Hrel.
      replace (Z.of_nat (length (done ++ [c]))) with (Z.of_nat (length done) + 1)
        by (rewrite length_app; simpl; lia).
      destruct (Z.eqb_spec idx (-1)) as [->|Hne].
      - simpl negb. cbv iota. munfold. simpl. rewrite lookup_insert_eq. simpl.
        rewrite !lookup_insert_ne by congruence. rewrite Ht. reflexivity.
      - simpl negb. cbv iota. unfold InsertChild. munfold. simpl.
        rewrite lookup_insert_eq. simpl. rewrite lookup_insert_eq. simpl.
        rewrite bool_decide_eq_true_2 by reflexivity. simpl.
        rewrite !lookup_insert_ne by congruence. rewrite Ht.
        destruct (Z.geb_spec idx (Z.of_nat (length (m_children tk)))) as [Hge|Hlt].
        + subst w1 dest. simpl. rewrite take_ge, drop_ge by lia. reflexivity.
        + destruct (Z.ltb_spec idx 0) as [|_]; [lia|]. reflexivity. }
    rewrite Hstep.
    assert (Hs1 : objs w1 !! source = Some s).
    { subst w1. simpl. rewrite !lookup_insert_ne by congruence. exact Hs. }
    assert (Ht1 : objs w1 !! this = Some (set_children dest tk)).
    { subst w1. simpl. apply lookup_insert_eq. }
    assert (Hc1 : objs w1 !! c = Some c1).
    { subst w1. simpl. rewrite lookup_insert_ne by congruence. apply lookup_insert_eq. }
    destruct (IH Hthis Hsrc (done ++ [c]) fuel (if idx =? -1 then idx else idx + 1) w1
                (set_children dest tk))
      as (w' & Hrun & Hkids & Hpar & Hsrc' & Hown & Hframe & Hlogs).
    + rewrite <- app_assoc. exact Hch.
    + lia.
    + destruct (Z.eqb_spec idx (-1)); [auto | right; lia].
    + exact Hs1.
    + exact Ht1.
    + eapply Forall_impl; [exact Hall|]. intros r [ro Hr]. subst w1. simpl.
      destruct (decide (r = this)) as [->|Hrt]; [rewrite lookup_insert_eq; eauto|].
      rewrite lookup_insert_ne by congruence.
      destruct (decide (r = c)) as [->|Hrc]; [rewrite lookup_insert_eq; eauto|].
      rewrite !lookup_insert_ne by congruence. eauto.
    + exists w'. split; [exact Hrun|].
      split; [|split; [exact Hpar|split; [exact Hsrc'|split; [|split]]]].
      * rewrite Hkids. simpl m_children. subst dest. f_equal.
        destruct (Z.eqb_spec idx (-1)) as [->|Hne].
        -- simpl. rewrite <- app_assoc. reflexivity.
        -- destruct (Z.eqb_spec (idx + 1) (-1)) as [|_]; [lia|].
           replace (Z.to_nat (idx + 1)) with (S (Z.to_nat idx)) by lia.
           apply take_drop_insert_step.
      * intros c' Hc'. apply elem_of_cons in Hc' as [->|Hc']; [|apply Hown, Hc'].
        destruct (decide (c ∈ rest)) as [Hin|Hnin]; [apply Hown, Hin|].
        exists c1. split; [|reflexivity]. rewrite Hframe; [exact Hc1 | congruence | exact Hnin].
      * intros q Hq Hnin. apply not_elem_of_cons in Hnin as [Hqc Hnin].
        rewrite Hframe by assumption. subst w1. simpl.
        rewrite !lookup_insert_ne by congruence. reflexivity.
      * rewrite Hlogs. reflexivity.
Qed.

(** When the source is another object, [MoveChildrenFrom] relinquishes every
    child of the source and gives it to the object, in the order of the
    source: at the end of the child sequence for the index -1, from the
    index on otherwise, the former children from that index following the
    moved ones.  The child sequence of the source is left as it is, until
    [ClearRelinquishedChildren] empties it. *)
Theorem MoveChildrenFrom_moves_in_order
    (fuel this source : nat) (idx : Z) (allowTypeChange : bool) (w : World) (t s : Obj) :
  this ≠ source →
  objs w !! this = Some t →
  objs w !! source = Some s →
  this ∉ m_children s →
  source ∉ m_children s →
  Forall (λ c, is_Some (objs w !! c)) (m_children s) →
  idx = -1 ∨ 0 ≤ idx →
  (length (m_children s) < fuel)%nat →
  ∃ w',
    MoveChildrenFrom fuel this source idx allowTypeChange w = Some ((), w') ∧
    childrenOf w' this
      = Some (if idx =? -1 then m_children t ++ m_children s
              else take (Z.to_nat idx) (m_children t) ++ m_children s
                     ++ drop (Z.to_nat idx) (m_children t)) ∧
    childrenOf w' source = Some (m_children s) ∧
    (∀ c, c ∈ m_children s → parentOf w' c = Some (Some this)) ∧
    (∀ q, q ≠ this → q ∉ m_children s → objs w' !! q = objs w !! q) ∧
    ∃ w'',
      ClearRelinquishedChildren source w' = Some ((), w'') ∧
      childrenOf w'' source = Some [] ∧
      childrenOf w'' this = childrenOf w' this.
Proof.
  intros Hts Ht Hs Hthis Hsrc Hall Hidx Hfuel.
  destruct (MoveChildrenFrom_loop_moves this source s (m_children s) Hts Hthis Hsrc
              [] fuel idx w t eq_refl Hfuel Hidx Hs Ht Hall)
    as (w' & Hrun & Hkids & _ & Hs' & Hown & Hframe & _).
  exists w'. split.
  { unfold MoveChildrenFrom. unfold mbind at 1, M_bind at 1.
    destruct allowTypeChange; simpl; [exact Hrun|].
    munfold. rewrite Ht, Hs. exact Hrun. }
  split; [exact Hkids|].
  split; [unfold childrenOf; rewrite Hs'; reflexivity|].
  split.
  { intros c Hc. destruct (Hown c Hc) as (co & Hco & Hp).
    unfold parentOf. rewrite Hco. simpl. congruence. }
  split; [exact Hframe|].
  assert (Hgone : List.filter
                    (λ r, bool_decide ((m_parent <$> objs w' !! r) = Some (Some source)))
                    (m_children s) = []).
  { clear -Hown Hts. induction (m_children s) as [|c l IH]; simpl; [reflexivity|].
    destruct (Hown c) as (co & Hco & Hp); [apply list_elem_of_here|].
    rewrite Hco. simpl. rewrite bool_decide_eq_false_2 by congruence.
    apply IH. intros c' Hc'. apply Hown. apply list_elem_of_further, Hc'. }
  eexists. split.
  { unfold ClearRelinquishedChildren. munfold. rewrite Hs'.
    rewrite stillOwned_filter.
    - rewrite Hgone. reflexivity.
    - apply Forall_forall. intros c Hc. destruct (Hown c Hc) as (co & -> & _). eauto. }
  unfold childrenOf. simpl. rewrite lookup_insert_eq.
  rewrite lookup_insert_ne by congruence. auto.
Qed.

Lemma MoveChildrenFrom_moves_in_order_witness :
  ∃ w',
    MoveChildrenFrom 3 2 1 0 false twoLayers = Some ((), w') ∧
    childrenOf w' 2
      = Some (if 0 =? -1
              then m_children (object "Layer" None [5]%nat)
                     ++ m_children (object "Layer" None [3; 4]%nat)
              else take (Z.to_nat 0) (m_children (object "Layer" None [5]%nat))
                     ++ m_children (object "Layer" None [3; 4]%nat)
                     ++ drop (Z.to_nat 0) (m_children (object "Layer" None [5]%nat))) ∧
    childrenOf w' 1 = Some (m_children (object "Layer" None [3; 4]%nat)) ∧
    (∀ c, c ∈ m_children (object "Layer" None [3; 4]%nat) →
          parentOf w' c = Some (Some 2%nat)) ∧
    (∀ q, q ≠ 2%nat → q ∉ m_children (object "Layer" None [3; 4]%nat) →
          objs w' !! q = objs twoLayers !! q) ∧
    ∃ w'',
      ClearRelinquishedChildren 1 w' = Some ((), w'') ∧
      childrenOf w'' 1 = Some [] ∧
      childrenOf w'' 2 = childrenOf w' 2.
Proof.
  apply (MoveChildrenFrom_moves_in_order 3 2 1 0 false twoLayers
           (object "Layer" None [5]%nat) (object "Layer" None [3; 4]%nat)).
  - lia.
  - reflexivity.
  - reflexivity.
  - simpl. rewrite !elem_of_cons, elem_of_nil. intuition lia.
  - simpl. rewrite !elem_of_cons, elem_of_nil. intuition lia.
  - simpl. repeat constructor; eexists; reflexivity.
  - right. lia.
  - simpl. lia.
Defined.

(** The loop of [MoveChildrenFrom] when the source is the object itself:
    each turn adds a child to the array the loop runs over. *)
Lemma MoveChildrenFrom_loop_itself (this : nat) :
  ∀ fuel i idx w o,
    objs w !! this = Some o →
    0 ≤ i < Z.of_nat (length (m_children o)) →
    MoveChildrenFrom_loop fuel this this i idx w = None.
Proof.
  induction fuel as [|fuel IH]; intros i idx w o Ho Hi; [reflexivity|].
  simpl. unfold mbind at 1, M_bind at 1, deref at 1. rewrite Ho.
  destruct (Z.ltb_spec i (Z.of_nat (length (m_children o)))) as [_|]; [|lia].
  destruct (lookup_lt_is_Some_2 (m_children o) (Z.to_nat i)) as [child Hchild]; [lia|].
  unfold mbind at 1, M_bind at 1.
  assert (Hrel : Relinquish this i w
                 = match objs w !! child with
                   | Some co =>
                       Some (Some child,
                             mkWorld (<[child := set_parent None co]> (objs w)) (logs w))
                   | None => None
                   end).
  { unfold Relinquish. munfold. rewrite Ho.
    destruct (Z.geb_spec i (Z.of_nat (length (m_children o)))) as [|_]; [lia|].
    destruct (Z.ltb_spec i 0) as [|_]; [lia|].
    rewrite Hchild. destruct (objs w !! child); reflexivity. }
  rewrite Hrel. clear Hrel.
  destruct (objs w !! child) as [co|] eqn:Hco; [|reflexivity].
  set (c2 := set_parent (Some this) (set_parent None co)).
  set (objs2 := <[child := c2]> (<[child := set_parent None co]> (objs w))).
  assert (Hset : SetParent child this
                   (mkWorld (<[child := set_parent None co]> (objs w)) (logs w))
                 = Some ((), mkWorld objs2 (logs w))).
  { munfold. simpl. rewrite lookup_insert_eq. reflexivity. }
  unfold mbind at 1, M_bind at 1. rewrite Hset.
  assert (Hthis : ∃ o2, objs2 !! this = Some o2 ∧ m_children o2 = m_children o).
  { subst objs2. destruct (decide (this = child)) as [<-|Hne].
    - rewrite lookup_insert_eq. eexists. split; [reflexivity|].
      rewrite Ho in Hco. injection Hco as <-. reflexivity.
    - rewrite !lookup_insert_ne by congruence. eauto. }
  destruct Hthis as (o2 & Ho2 & Hch2).
  assert (Hchild2 : objs2 !! child = Some c2) by (subst objs2; apply lookup_insert_eq).
  destruct (negb (idx =? -1)).
  - unfold InsertChild. munfold. simpl. rewrite Hchild2. simpl.
    rewrite bool_decide_eq_true_2 by reflexivity. simpl. rewrite Ho2.
    destruct (idx >=? Z.of_nat (length (m_children o2))).
    + eapply IH; [simpl; apply lookup_insert_eq|].
      simpl. rewrite length_app, Hch2. simpl. lia.
    + destruct (Z.ltb_spec idx 0) as [|Hnn]; [reflexivity|].
      eapply IH; [simpl; apply lookup_insert_eq|].
      simpl. unfold insert_at. rewrite length_app. simpl.
      rewrite length_take, length_drop, Hch2. lia.
  - munfold. simpl. rewrite Ho2.
    eapply IH; [simpl; apply lookup_insert_eq|].
    simpl. rewrite length_app, Hch2. simpl. lia.
Qed.

(** The loop is its first turns followed by the loop from the position
    they lead to. *)
Lemma MoveChildrenFrom_loop_turns (this sourceParent : nat) :
  ∀ n m i idx w,
    (0 < m)%nat →
    MoveChildrenFrom_loop (n + m) this sourceParent i idx w
    = match MoveChildrenFrom_turns n this sourceParent i idx w with
      | Some (Some (i', idx'), w') => MoveChildrenFrom_loop m this sourceParent i' idx' w'
      | Some (None, w') => Some ((), w')
      | None => None
      end.
Proof.
  induction n as [|n IH]; intros m i idx w Hm; [reflexivity|].
  cbn [Nat.add MoveChildrenFrom_loop MoveChildrenFrom_turns].
  unfold mbind, M_bind.
  destruct (deref sourceParent w) as [[s w0]|]; [|reflexivity].
  destruct (i <? Z.of_nat (length (m_children s))); [|reflexivity].
  destruct (Relinquish sourceParent i w0) as [[[child|] w1]|]; try reflexivity.
  destruct (SetParent child this w1) as [[[] w2]|]; [|reflexivity].
  destruct (negb (idx =? -1)).
  - destruct (InsertChild this child idx w2) as [[[] w3]|]; [|reflexivity].
    apply IH, Hm.
  - destruct (deref this w2) as [[t w3]|]; [|reflexivity].
    destruct (store this _ w3) as [[[] w4]|]; [|reflexivity]. apply IH, Hm.
Qed.

(** The turns of the loop when the source is the object itself: each turn
    is carried out and adds a child to the array the loop runs over. *)
Lemma MoveChildrenFrom_turns_itself (this : nat) :
  ∀ n i idx w o,
    objs w !! this = Some o →
    0 ≤ i < Z.of_nat (length (m_children o)) →
    Forall (λ c, is_Some (objs w !! c)) (m_children o) →
    idx = -1 ∨ 0 ≤ idx →
    ∃ w' o' idx',
      MoveChildrenFrom_turns n this this i idx w
        = Some (Some (i + Z.of_nat n, idx'), w') ∧
      objs w' !! this = Some o' ∧
      length (m_children o') = (length (m_children o) + n)%nat.
Proof.
  induction n as [|n IH]; intros i idx w o Ho Hi Hall Hidx.
  { exists w, o, idx. split; [simpl; rewrite Z.add_0_r; reflexivity|].
    split; [exact Ho | lia]. }
  cbn [MoveChildrenFrom_turns].
  unfold mbind at 1, M_bind at 1, deref at 1. rewrite Ho.
  destruct (Z.ltb_spec i (Z.of_nat (length (m_children o)))) as [_|]; [|lia].
  destruct (lookup_lt_is_Some_2 (m_children o) (Z.to_nat i)) as [child Hchild]; [lia|].
  assert (Hco : is_Some (objs w !! child)).
  { rewrite Forall_forall in Hall. apply Hall. eapply list_elem_of_lookup_2, Hchild. }
  destruct Hco as [co Hco].
  unfold mbind at 1, M_bind at 1.
  assert (Hrel : Relinquish this i w
                 = Some (Some child,
                         mkWorld (<[child := set_parent None co]> (objs w)) (logs w))).
  { unfold Relinquish. munfold. rewrite Ho.
    destruct (Z.geb_spec i (Z.of_nat (length (m_children o)))) as [|_]; [lia|].
    destruct (Z.ltb_spec i 0) as [|_]; [lia|].
    rewrite Hchild, Hco. reflexivity. }
  rewrite Hrel. clear Hrel.
  set (c2 := set_parent (Some this) (set_parent None co)).
  set (objs2 := <[child := c2]> (<[child := set_parent None co]> (objs w))).
  assert (Hset : SetParent child this
                   (mkWorld (<[child := set_parent None co]> (objs w)) (logs w))
                 = Some ((), mkWorld objs2 (logs w))).
  { munfold. simpl. rewrite lookup_insert_eq. reflexivity. }
  unfold mbind at 1, M_bind at 1. rewrite Hset.
  assert (Hthis : ∃ o2, objs2 !! this = Some o2 ∧ m_children o2 = m_children o).
  { subst objs2. destruct (decide (this = child)) as [<-|Hne].
    - rewrite lookup_insert_eq. eexists. split; [reflexivity|].
      rewrite Ho in Hco. injection Hco as <-. reflexivity.
    - rewrite !lookup_insert_ne by congruence. eauto. }
  destruct Hthis as (o2 & Ho2 & Hch2).
  assert (Hchild2 : objs2 !! child = Some c2) by (subst objs2; apply lookup_insert_eq).
  assert (Hlive : ∀ (l : list nat) (o3 : Obj),
             Forall (λ c, c = child ∨ c ∈ m_children o) l →
             Forall (λ c, is_Some (<[this := o3]> objs2 !! c)) l).
  { intros l o3 Hl. eapply Forall_impl; [exact Hl|]. intros c Hc. simpl in *.
    destruct (decide (c = this)) as [->|Hn1]; [rewrite lookup_insert_eq; eauto|].
    rewrite lookup_insert_ne by congruence. subst objs2.
    destruct (decide (c = child)) as [->|Hn2]; [rewrite lookup_insert_eq; eauto|].
    rewrite !lookup_insert_ne by congruence.
    destruct Hc as [->|Hc]; [contradiction|].
    rewrite Forall_forall in Hall. apply Hall, Hc. }
  assert (Hold : Forall (λ c, c = child ∨ c ∈ m_children o) (m_children o)).
  { apply Forall_forall. intros c Hc. auto. }
  assert (Hnext : ∀ (l : list nat) idx2,
             Forall (λ c, c = child ∨ c ∈ m_children o) l →
             length l = S (length (m_children o)) →
             idx2 = -1 ∨ 0 ≤ idx2 →
             ∃ w' o' idx',
               MoveChildrenFrom_turns n this this (i + 1) idx2
                 (mkWorld (<[this := set_children l o2]> objs2) (logs w))
                 = Some (Some (i + Z.of_nat (S n), idx'), w') ∧
               objs w' !! this = Some o' ∧
               length (m_children o') = (length (m_children o) + S n)%nat).
  { intros l idx2 Hl Hlen Hidx2.
    destruct (IH (i + 1) idx2 (mkWorld (<[this := set_children l o2]> objs2) (logs w))
                (set_children l o2)) as (w' & o' & idx' & Hrun & Ho' & Hlen').
    - simpl. apply lookup_insert_eq.
    - simpl. lia.
    - simpl. apply Hlive, Hl.
    - exact Hidx2.
    - exists w', o', idx'.
      split; [rewrite Hrun; replace (i + 1 + Z.of_nat n) with (i + Z.of_nat (S n)) by lia;
              reflexivity|].
      split; [exact Ho'|]. simpl in Hlen'. lia. }
  destruct (Z.eqb_spec idx (-1)) as [Hm1|Hm1]; simpl negb; cbv iota.
  - munfold. simpl. rewrite Ho2. apply Hnext; [|rewrite length_app, Hch2; simpl; lia|auto].
    rewrite Hch2. apply Forall_app. split; [exact Hold|].
    constructor; [auto | constructor].
  - assert (Hnn : 0 ≤ idx) by (destruct Hidx; [contradiction | assumption]).
    unfold InsertChild. munfold. simpl. rewrite Hchild2. simpl.
    rewrite (bool_decide_eq_true_2 (Some this = Some this)) by reflexivity. simpl.
    rewrite Ho2.
    destruct (idx >=? Z.of_nat (length (m_children o2))).
    + apply Hnext; [|rewrite length_app, Hch2; simpl; lia|right; lia].
      rewrite Hch2. apply Forall_app. split; [exact Hold|].
      constructor; [auto | constructor].
    + destruct (Z.ltb_spec idx 0) as [|_]; [lia|].
      apply Hnext; [| |right; lia].
      * unfold insert_at. rewrite Hch2. apply Forall_app. split.
        -- apply Forall_take, Hold.
        -- constructor; [auto | apply Forall_drop, Hold].
      * unfold insert_at. rewrite length_app. simpl.
        rewrite length_take, length_drop, Hch2. lia.
Qed.



(** Two turns of the example: the layer 1 has the children 3, 4, 3, 4 and
    the loop is at the index 2 of 4. *)
Example two_turns_of_the_self_move :
  ∃ w', MoveChildrenFrom_turns 2 1 1 0 (-1) twoLayers = Some (Some (2, -1), w') ∧
        childrenOf w' 1 = Some [3; 4; 3; 4]%nat.
Proof. eexists. split; reflexivity. Qed.

(** * Properties of the ancestors *)

Lemma GetAncestors_loop_reads fuel :
  ∀ object w anc w', GetAncestors_loop fuel object w = Some (anc, w') → w' = w.
Proof.
  induction fuel as [|fuel IH]; intros [p|] w anc w' H; simpl in H;
    try discriminate; try (injection H as _ <-; reflexivity).
  munfold. destruct (objs w !! p) as [o|]; [|discriminate].
  destruct (GetAncestors_loop fuel (m_parent o) w) as [[rest w1]|] eqn:Hrest; [|discriminate].
  injection H as _ <-. eapply IH, Hrest.
Qed.

(** The ancestors of an object are its parent followed by the ancestors of
    the parent. *)
Lemma GetAncestors_parent fuel this w anc w' :
  GetAncestors fuel this w = Some (anc, w') →
  w' = w ∧
  ∃ o, objs w !! this = Some o ∧
       match m_parent o with
       | None => anc = []
       | Some p =>
           ∃ fuel' rest, fuel = S fuel' ∧ anc = p :: rest ∧
                         GetAncestors fuel' p w = Some (rest, w)
       end.
Proof.
  unfold GetAncestors. intros H. unfold mbind, M_bind, deref in H.
  destruct (objs w !! this) as [o|] eqn:Ho; [|discriminate].
  split; [eapply GetAncestors_loop_reads, H|].
  exists o. split; [reflexivity|].
  destruct (m_parent o) as [p|]; simpl in H.
  - destruct fuel as [|fuel']; [discriminate|]. simpl in H.
    unfold mbind, M_bind, deref in H.
    destruct (objs w !! p) as [po|] eqn:Hp; [|discriminate].
    destruct (GetAncestors_loop fuel' (m_parent po) w) as [[rest w1]|] eqn:Hrest;
      [|discriminate].
    pose proof (GetAncestors_loop_reads _ _ _ _ _ Hrest) as ->.
    injection H as <- <-. exists fuel', rest. repeat split.
    unfold mbind, M_bind, deref. rewrite Hp. exact Hrest.
  - destruct fuel; injection H as <- _; reflexivity.
Qed.

Section AncestorFacts.
Variable m_classId : nat → ClassId.

Local Abbreviation within := (λ (maxDepth : Z) (anc : list nat),
  if maxDepth <? 0 then anc else take (Z.to_nat maxDepth) anc).
Local Abbreviation of_class := (λ (classId : ClassId) (p : nat),
  ClassId_eqb (m_classId p) classId).

Lemma GetFirstAncestor_step fuel this classId maxDepth w o :
  objs w !! this = Some o →
  GetFirstAncestor m_classId (S fuel) this classId maxDepth w =
    if maxDepth =? 0 then Some (None, w)
    else
      match m_parent o with
      | None => Some (None, w)
      | Some p =>
          match objs w !! p with
          | None => None
          | Some _ =>
              if ClassId_eqb (m_classId p) classId then Some (Some p, w)
              else GetFirstAncestor m_classId fuel p classId (maxDepth - 1) w
          end
      end.
Proof.
  intros Ho. simpl. munfold. rewrite Ho.
  destruct (maxDepth =? 0); [reflexivity|].
  destruct (m_parent o) as [p|]; [|reflexivity].
  destruct (objs w !! p); [|reflexivity].
  destruct (ClassId_eqb (m_classId p) classId); reflexivity.
Qed.

Lemma GetLastAncestorNot_step fuel this classId maxDepth w o :
  objs w !! this = Some o →
  GetLastAncestorNot m_classId (S fuel) this classId maxDepth w =
    if maxDepth =? 0 then Some (None, w)
    else
      match m_parent o with
      | None => Some (None, w)
      | Some p =>
          match objs w !! p with
          | None => None
          | Some _ =>
              if ClassId_eqb (m_classId p) classId then Some (Some this, w)
              else GetLastAncestorNot m_classId fuel p classId (maxDepth - 1) w
          end
      end.
Proof.
  intros Ho. simpl. munfold. rewrite Ho.
  destruct (maxDepth =? 0); [reflexivity|].
  destruct (m_parent o) as [p|]; [|reflexivity].
  destruct (objs w !! p); [|reflexivity].
  destruct (ClassId_eqb (m_classId p) classId); reflexivity.
Qed.

(** [GetFirstAncestor] gives the first of the ancestors, the parent first,
    that is of the class, among the nearest [maxDepth] ones when [maxDepth]
    is not negative; [GetLastAncestorNot] gives the object on the way up
    whose parent that ancestor is, which is the object itself when its
    parent is of the class.  Neither changes the store. *)
Theorem GetFirstAncestor_is_the_first_of_GetAncestors
    (fuel : nat) (classId : ClassId) :
  ∀ (this : nat) (maxDepth : Z) (w : World) (anc : list nat),
    GetAncestors fuel this w = Some (anc, w) →
    GetFirstAncestor m_classId (S fuel) this classId maxDepth w
      = Some (List.find (of_class classId) (within maxDepth anc), w) ∧
    GetLastAncestorNot m_classId (S fuel) this classId maxDepth w
      = Some (snd <$> List.find (λ px, of_class classId (fst px))
                        (zip (within maxDepth anc) (this :: anc)), w).
Proof.
  induction fuel as [|fuel IH]; intros this maxDepth w anc H;
    destruct (GetAncestors_parent _ _ _ _ _ H) as (_ & o & Ho & Hp);
    rewrite (GetFirstAncestor_step _ _ _ _ _ _ Ho), (GetLastAncestorNot_step _ _ _ _ _ _ Ho).
  - destruct (m_parent o) as [p|].
    + destruct Hp as (fuel' & rest & Hf & _). discriminate.
    + subst anc. destruct (maxDepth =? 0), (maxDepth <? 0); simpl;
        rewrite ?take_nil; split; reflexivity.
  - destruct (Z.eqb_spec maxDepth 0) as [->|Hne].
    { simpl. split; reflexivity. }
    destruct (m_parent o) as [p|].
    2:{ subst anc. destruct (maxDepth <? 0); simpl; rewrite ?take_nil; split; reflexivity. }
    destruct Hp as (fuel' & rest & [= <-] & -> & Hrest).
    destruct (GetAncestors_parent _ _ _ _ _ Hrest) as (_ & po & Hpo & _).
    rewrite Hpo.
    destruct (IH p (maxDepth - 1) w rest Hrest) as [IH1 IH2].
    assert (Hwithin : within maxDepth (p :: rest) = p :: within (maxDepth - 1) rest).
    { destruct (Z.ltb_spec maxDepth 0) as [Hneg|Hpos].
      - destruct (Z.ltb_spec (maxDepth - 1) 0); [reflexivity | lia].
      - destruct (Z.ltb_spec (maxDepth - 1) 0); [lia|].
        replace (Z.to_nat maxDepth) with (S (Z.to_nat (maxDepth - 1))) by lia.
        reflexivity. }
    rewrite Hwithin. simpl.
    destruct (ClassId_eqb (m_classId p) classId); [split; reflexivity|].
    split; [exact IH1 | exact IH2].
Qed.

End AncestorFacts.

Lemma GetFirstAncestor_is_the_first_of_GetAncestors_witness :
  let m_classId := λ p : nat, if Nat.eqb p 1 then LAYER else NOTE in
  GetFirstAncestor m_classId 3 6 LAYER (-1) layerWithRelinquishedNote
    = Some (List.find (λ p, ClassId_eqb (m_classId p) LAYER)
              (if -1 <? 0 then [3; 1]%nat else take (Z.to_nat (-1)) [3; 1]%nat),
            layerWithRelinquishedNote) ∧
  GetLastAncestorNot m_classId 3 6 LAYER (-1) layerWithRelinquishedNote
    = Some (snd <$> List.find (λ px, ClassId_eqb (m_classId (fst px)) LAYER)
                      (zip (if -1 <? 0 then [3; 1]%nat else take (Z.to_nat (-1)) [3; 1]%nat)
                           (6%nat :: [3; 1]%nat)),
            layerWithRelinquishedNote).
Proof.
  apply (GetFirstAncestor_is_the_first_of_GetAncestors
           (λ p : nat, if Nat.eqb p 1 then LAYER else NOTE) 2 LAYER 6 (-1)
           layerWithRelinquishedNote [3; 1]%nat).
  reflexivity.
Defined.

(** * Properties of the document order *)

Lemma GetAncestors_loop_of_lineage w :
  ∀ anc x fuel,
    lineage w (x :: anc) x → (length anc < fuel)%nat →
    GetAncestors_loop fuel (Some x) w = Some (x :: anc, w).
Proof.
  induction anc as [|p anc IH]; intros x fuel (_ & o & Ho & Hp) Hfuel;
    (destruct fuel as [|fuel]; [simpl in Hfuel; lia|]); simpl; munfold; rewrite Ho.
  - rewrite Hp. destruct fuel; reflexivity.
  - destruct Hp as [Hp Hl]. rewrite Hp.
    assert (Hl' : lineage w (p :: anc) p).
    { destruct Hl as (_ & H). split; [reflexivity | exact H]. }
    rewrite (IH p fuel Hl') by (simpl in Hfuel; lia). reflexivity.
Qed.

Lemma GetAncestors_of_lineage w anc x fuel :
  lineage w (x :: anc) x → (length anc ≤ fuel)%nat →
  GetAncestors fuel x w = Some (anc, w).
Proof.
  intros (_ & o & Ho & Hp) Hfuel. unfold GetAncestors. munfold. rewrite Ho.
  destruct anc as [|p anc].
  - rewrite Hp. destruct fuel; reflexivity.
  - destruct Hp as [Hp Hl]. rewrite Hp.
    apply GetAncestors_loop_of_lineage; [|exact Hfuel].
    destruct Hl as (_ & H). split; [reflexivity | exact H].
Qed.

Lemma lineage_head w l x : lineage w l x → ∃ l', l = x :: l'.
Proof. destruct l as [|y l']; [intros []|]. intros [-> _]. eauto. Qed.

Lemma Tree_kids w p ks :
  fold_right (λ k rest, Tree w (Some p) k ∧ rest) True ks →
  Forall (Tree w (Some p)) ks.
Proof.
  induction ks as [|k ks IH]; intros H; constructor; [apply H | apply IH, H].
Qed.

Lemma in_kids_footprint x ks :
  x ∈ flat_map footprint ks → ∃ A k B, ks = A ++ k :: B ∧ x ∈ footprint k.
Proof.
  induction ks as [|k ks IH]; simpl; intros Hx; [apply elem_of_nil in Hx; destruct Hx|].
  apply elem_of_app in Hx as [Hx|Hx].
  - exists [], k, ks. auto.
  - destruct (IH Hx) as (A & k' & B & -> & Hk). exists (k :: A), k', B. auto.
Qed.

Lemma flat_map_footprint_app A B :
  flat_map footprint (A ++ B) = flat_map footprint A ++ flat_map footprint B.
Proof. apply flat_map_app. Qed.

Lemma root_in_footprint k : root k ∈ footprint k.
Proof. destruct k; simpl. apply list_elem_of_here. Qed.

(** The way up from an object of a tree: inside the tree up to its root,
    then the way up from the root. *)
Lemma Tree_lineage t :
  ∀ w par up,
    Tree w par t →
    match par with
    | None => up = []
    | Some q => ∃ up', up = q :: up' ∧ lineage w up q
    end →
    ∀ x, x ∈ footprint t →
      ∃ inner,
        lineage w ((inner ++ [root t]) ++ up) x ∧
        (∀ y, y ∈ inner → y ∈ flat_map footprint (kids t)) ∧
        (length inner < height t)%nat.
Proof.
  induction t as [p ks IH] using OTree_kids_ind.
  intros w par up (o & Ho & Hpar & Hch & Hkids) Hup x Hx.
  simpl in Ho, Hpar, Hch, Hkids, Hx |- *.
  assert (Hself : lineage w (p :: up) p).
  { split; [reflexivity|]. exists o. split; [exact Ho|].
    destruct par as [q|].
    - destruct Hup as (up' & -> & Hl). auto.
    - subst up. exact Hpar. }
  apply elem_of_cons in Hx as [->|Hx].
  - exists []. split; [exact Hself|]. split; [|simpl; lia].
    intros y Hy. apply elem_of_nil in Hy. destruct Hy.
  - destruct (in_kids_footprint _ _ Hx) as (A & k & B & -> & Hk).
    apply Tree_kids in Hkids. rewrite Forall_app in Hkids, IH.
    destruct Hkids as [_ Hkids]. destruct IH as [_ IH].
    apply Forall_cons_1 in Hkids as [Hkt _]. apply Forall_cons_1 in IH as [IHk _].
    destruct (IHk w (Some p) (p :: up) Hkt) with (x := x) as (inner & Hl & Hin & Hlen).
    + exists up. split; [reflexivity | exact Hself].
    + exact Hk.
    + exists (inner ++ [root k]). split; [|split].
      * assert (Heq : ((inner ++ [root k]) ++ [p]) ++ up = (inner ++ [root k]) ++ p :: up)
          by (rewrite <- !app_assoc; reflexivity).
        rewrite Heq. exact Hl.
      * intros y Hy. rewrite flat_map_footprint_app. simpl.
        apply elem_of_app. right. apply elem_of_app. left.
        apply elem_of_app in Hy as [Hy|Hy].
        -- destruct k as [rk kks]. simpl in *. apply list_elem_of_further, Hin, Hy.
        -- apply elem_of_cons in Hy as [->|Hy]; [apply root_in_footprint|].
           apply elem_of_nil in Hy. destruct Hy.
      * rewrite length_app. simpl.
        assert (height k ≤ fold_right (λ k h, Nat.max (height k) h) 0%nat (A ++ k :: B))%nat.
        { apply height_kid. apply elem_of_app. right. apply list_elem_of_here. }
        lia.
Qed.

Lemma position_app_l x A B : x ∈ A → position x (A ++ B) = position x A.
Proof.
  induction A as [|y A IH]; intros Hx; [apply elem_of_nil in Hx; destruct Hx|].
  simpl. case_bool_decide; [reflexivity|].
  apply elem_of_cons in Hx as [Hx|Hx]; [contradiction|]. rewrite IH by exact Hx. reflexivity.
Qed.

Lemma position_app_r x A B :
  x ∉ A → position x (A ++ B) = (length A + position x B)%nat.
Proof.
  induction A as [|y A IH]; intros Hx; [reflexivity|].
  apply not_elem_of_cons in Hx as [Hne Hx]. simpl.
  rewrite bool_decide_eq_false_2 by exact Hne. rewrite IH by exact Hx. reflexivity.
Qed.

Lemma position_lt x l : x ∈ l → (position x l < length l)%nat.
Proof.
  induction l as [|y l IH]; intros Hx; [apply elem_of_nil in Hx; destruct Hx|].
  simpl. case_bool_decide; [lia|].
  apply elem_of_cons in Hx as [Hx|Hx]; [contradiction|]. specialize (IH Hx). lia.
Qed.

Lemma mismatch_prefix pre x y s1 s2 :
  x ≠ y → mismatch (pre ++ x :: s1) (pre ++ y :: s2) = Some (x, y).
Proof.
  intros Hne. induction pre as [|z pre IH]; simpl.
  - rewrite bool_decide_eq_false_2 by exact Hne. reflexivity.
  - rewrite bool_decide_eq_true_2 by reflexivity. exact IH.
Qed.

Lemma roots_in_footprints ks x : x ∈ map root ks → x ∈ flat_map footprint ks.
Proof.
  induction ks as [|k ks IH]; simpl; intros Hx; [exact Hx|].
  apply elem_of_cons in Hx as [->|Hx]; apply elem_of_app;
    [left; apply root_in_footprint | right; apply IH, Hx].
Qed.

Lemma below_in_footprint k y : y ∈ flat_map footprint (kids k) → y ∈ footprint k.
Proof. destruct k; simpl. apply list_elem_of_further. Qed.

Lemma IsPreOrdered_eval fuel left right w al ar :
  GetAncestors fuel left w = Some (al, w) →
  GetAncestors fuel right w = Some (ar, w) →
  IsPreOrdered fuel left right w =
    if bool_decide (right ∈ left :: al) then Some (false, w)
    else if bool_decide (left ∈ right :: ar) then Some (true, w)
    else
      match mismatch (rev (left :: al)) (rev (right :: ar)) with
      | None => None
      | Some (first, second) =>
          match objs w !! first with
          | None => None
          | Some f =>
              match m_parent f with
              | Some commonParent =>
                  (i ← GetChildIndex commonParent first;
                   j ← GetChildIndex commonParent second;
                   mret (i <? j)) w
              | None => Some (true, w)
              end
          end
      end.
Proof.
  intros Hl Hr. unfold IsPreOrdered. unfold mbind at 1, M_bind at 1. rewrite Hl.
  destruct (bool_decide (right ∈ left :: al)); [reflexivity|].
  unfold mbind at 1, M_bind at 1. rewrite Hr.
  destruct (bool_decide (left ∈ right :: ar)); [reflexivity|].
  destruct (mismatch (rev (left :: al)) (rev (right :: ar))) as [[first second]|];
    [|reflexivity].
  unfold mbind at 1, M_bind at 1, deref at 1.
  destruct (objs w !! first) as [f|]; [|reflexivity].
  destruct (m_parent f); reflexivity.
Qed.

(** Two objects below two different children of the same object: the one
    below the child that comes first is before the other. *)
Lemma IsPreOrdered_two_kids (w : World) (p : nat) (up : list nat) (fuel : nat)
    (A M C : list OTree) (k1 k2 : OTree) (o : Obj) (x1 x2 : nat) :
  objs w !! p = Some o →
  m_children o = map root (A ++ k1 :: M ++ k2 :: C) →
  lineage w (p :: up) p →
  Tree w (Some p) k1 → Tree w (Some p) k2 →
  NoDup (p :: flat_map footprint (A ++ k1 :: M ++ k2 :: C) ++ up) →
  (height k1 + S (length up) ≤ fuel)%nat →
  (height k2 + S (length up) ≤ fuel)%nat →
  x1 ∈ footprint k1 → x2 ∈ footprint k2 →
  IsPreOrdered fuel x1 x2 w = Some (true, w) ∧
  IsPreOrdered fuel x2 x1 w = Some (false, w).
Proof.
  intros Ho Hch Hself Ht1 Ht2 Hnd Hf1 Hf2 Hx1 Hx2.
  apply NoDup_cons in Hnd as [Hp Hnd]. apply NoDup_app in Hnd as (Hndk & Hup & _).
  rewrite !flat_map_footprint_app in Hndk, Hup, Hp. simpl in Hndk, Hup, Hp.
  rewrite !flat_map_footprint_app in Hndk, Hup, Hp. simpl in Hndk, Hup, Hp.
  apply NoDup_app in Hndk as (_ & HA & Hndk).
  apply NoDup_app in Hndk as (_ & H1 & Hndk).
  apply NoDup_app in Hndk as (_ & HM & _).
  assert (Hdisj : ∀ y, y ∈ footprint k1 → y ∈ footprint k2 → False).
  { intros y Hy1 Hy2. apply (H1 y Hy1). apply elem_of_app. right.
    apply elem_of_app. left. exact Hy2. }
  assert (Hin1 : ∀ y, y ∈ footprint k1 → y ≠ p ∧ y ∉ up).
  { intros y Hy. split.
    - intros ->. apply Hp. rewrite !elem_of_app. tauto.
    - apply Hup. rewrite !elem_of_app. tauto. }
  assert (Hin2 : ∀ y, y ∈ footprint k2 → y ≠ p ∧ y ∉ up).
  { intros y Hy. split.
    - intros ->. apply Hp. rewrite !elem_of_app. tauto.
    - apply Hup. rewrite !elem_of_app. tauto. }
  assert (Hlin : ∀ k x, Tree w (Some p) k → x ∈ footprint k →
            (height k + S (length up) ≤ fuel)%nat →
            ∃ inner anc,
              (inner ++ [root k]) ++ p :: up = x :: anc ∧
              GetAncestors fuel x w = Some (anc, w) ∧
              ∀ y, y ∈ x :: anc → y ∈ footprint k ∨ y = p ∨ y ∈ up).
  { intros k x Hk Hx Hf.
    destruct (Tree_lineage k w (Some p) (p :: up) Hk) with (x := x)
      as (inner & Hl & Hin & Hlen); [eauto | exact Hx|].
    destruct (lineage_head _ _ _ Hl) as (anc & Heq).
    exists inner, anc. split; [exact Heq|]. split.
    - apply GetAncestors_of_lineage; [rewrite <- Heq; exact Hl|].
      assert (length (x :: anc) = length ((inner ++ [root k]) ++ p :: up)) by (rewrite Heq; reflexivity).
      rewrite !length_app in H. simpl in H. lia.
    - intros y Hy. rewrite <- Heq in Hy. rewrite !elem_of_app in Hy.
      destruct Hy as [[Hy|Hy]|Hy].
      + left. apply below_in_footprint, Hin, Hy.
      + apply elem_of_cons in Hy as [->|Hy]; [left; apply root_in_footprint|].
        apply elem_of_nil in Hy. destruct Hy.
      + apply elem_of_cons in Hy as [->|Hy]; auto. }
  destruct (Hlin k1 x1 Ht1 Hx1 Hf1) as (in1 & anc1 & Heq1 & Hanc1 & Hmem1).
  destruct (Hlin k2 x2 Ht2 Hx2 Hf2) as (in2 & anc2 & Heq2 & Hanc2 & Hmem2).
  assert (Hroots : root k1 ≠ root k2).
  { intros Heq. apply (Hdisj (root k1)); [apply root_in_footprint|].
    rewrite Heq. apply root_in_footprint. }
  assert (Hnot12 : x2 ∉ x1 :: anc1).
  { intros Hy. destruct (Hmem1 _ Hy) as [H|[H|H]].
    - exact (Hdisj _ H Hx2).
    - apply (Hin2 _ Hx2) in H. exact H.
    - apply (Hin2 _ Hx2) in H. exact H. }
  assert (Hnot21 : x1 ∉ x2 :: anc2).
  { intros Hy. destruct (Hmem2 _ Hy) as [H|[H|H]].
    - exact (Hdisj _ Hx1 H).
    - apply (Hin1 _ Hx1) in H. exact H.
    - apply (Hin1 _ Hx1) in H. exact H. }
  assert (Hrev : ∀ inner k,
            rev ((inner ++ [root k]) ++ p :: up) = (rev up ++ [p]) ++ root k :: rev inner).
  { intros inner k. rewrite !rev_app_distr. simpl. rewrite <- !app_assoc. reflexivity. }
  assert (Hi1 : GetChildIndex p (root k1) w = Some (Z.of_nat (length (map root A)), w)).
  { eapply GetChildIndex_found; [exact Ho | |].
    - rewrite Hch, map_app. reflexivity.
    - intros Hin. apply (HA (root k1)); [apply roots_in_footprints, Hin|].
      apply elem_of_app. left. apply root_in_footprint. }
  assert (Hi2 : GetChildIndex p (root k2) w
                = Some (Z.of_nat (length (map root (A ++ k1 :: M))), w)).
  { eapply GetChildIndex_found; [exact Ho | |].
    - rewrite Hch.
      replace (A ++ k1 :: M ++ k2 :: C) with ((A ++ k1 :: M) ++ k2 :: C)
        by (rewrite <- app_assoc; reflexivity).
      rewrite map_app. reflexivity.
    - intros Hin. apply roots_in_footprints in Hin.
      rewrite flat_map_footprint_app in Hin. simpl in Hin.
      rewrite !elem_of_app in Hin. destruct Hin as [Hin|[Hin|Hin]].
      + apply (HA _ Hin). rewrite !elem_of_app. right. right. left.
        apply root_in_footprint.
      + exact (Hdisj _ Hin (root_in_footprint k2)).
      + apply (HM _ Hin). apply elem_of_app. left. apply root_in_footprint. }
  assert (Hpar : ∀ k, Tree w (Some p) k →
                      ∃ ok, objs w !! root k = Some ok ∧ m_parent ok = Some p).
  { intros k Hk. destruct k as [rk kks]. destruct Hk as (ok & Hok & Hpk & _).
    simpl in *. eauto. }
  destruct (Hpar k1 Ht1) as (o1 & Ho1 & Hp1). destruct (Hpar k2 Ht2) as (o2 & Ho2 & Hp2).
  split.
  - rewrite (IsPreOrdered_eval _ _ _ _ _ _ Hanc1 Hanc2).
    rewrite bool_decide_eq_false_2 by exact Hnot12.
    rewrite bool_decide_eq_false_2 by exact Hnot21.
    rewrite <- Heq1, <- Heq2, !Hrev.
    rewrite mismatch_prefix by exact Hroots. rewrite Ho1, Hp1.
    unfold mbind, M_bind. rewrite Hi1, Hi2. unfold mret, M_ret. repeat f_equal.
    apply Z.ltb_lt. rewrite !length_map, length_app. simpl. lia.
  - rewrite (IsPreOrdered_eval _ _ _ _ _ _ Hanc2 Hanc1).
    rewrite bool_decide_eq_false_2 by exact Hnot21.
    rewrite bool_decide_eq_false_2 by exact Hnot12.
    rewrite <- Heq1, <- Heq2, !Hrev.
    rewrite mismatch_prefix by (intros Heq; apply Hroots; symmetry; exact Heq).
    rewrite Ho2, Hp2.
    unfold mbind, M_bind. rewrite Hi2, Hi1. unfold mret, M_ret. repeat f_equal.
    apply Z.ltb_ge. rewrite !length_map, length_app. simpl. lia.
Qed.

Lemma position_block x P K S :
  NoDup (P ++ K ++ S) → x ∈ K →
  position x (P ++ K ++ S) = (length P + position x K)%nat ∧
  (position x K < length K)%nat.
Proof.
  intros Hnd Hx. split; [|apply position_lt, Hx].
  apply NoDup_app in Hnd as (_ & HP & _).
  rewrite position_app_r, position_app_l; [reflexivity | exact Hx|].
  intros Hin. apply (HP _ Hin). apply elem_of_app. left. exact Hx.
Qed.

Ltac footprint_blocks :=
  simpl; repeat (rewrite flat_map_footprint_app; simpl);
  rewrite <- ?app_assoc; simpl; rewrite <- ?app_assoc; reflexivity.

(** Inside a tree, [IsPreOrdered] compares the positions in document
    order. *)
Lemma IsPreOrdered_in_tree t :
  ∀ w par up fuel,
    Tree w par t →
    match par with
    | None => up = []
    | Some q => ∃ up', up = q :: up' ∧ lineage w up q
    end →
    NoDup (footprint t ++ up) →
    (height t + length up ≤ fuel)%nat →
    ∀ l r, l ∈ footprint t → r ∈ footprint t →
      IsPreOrdered fuel l r w
        = Some (bool_decide (position l (footprint t) < position r (footprint t))%nat, w).
Proof.
  induction t as [p ks IH] using OTree_kids_ind.
  intros w par up fuel Htree Hup Hnd Hfuel l r Hl Hr.
  pose proof Htree as (o & Ho & Hpar & Hch & Hkids).
  simpl in Ho, Hpar, Hch, Hkids. apply Tree_kids in Hkids.
  assert (Hself : lineage w (p :: up) p).
  { split; [reflexivity|]. exists o. split; [exact Ho|].
    destruct par as [q|].
    - destruct Hup as (up' & -> & Hlq). auto.
    - subst up. exact Hpar. }
  assert (Hancp : GetAncestors fuel p w = Some (up, w)).
  { apply GetAncestors_of_lineage; [exact Hself | lia]. }
  simpl footprint in *. simpl in Hnd.
  pose proof Hnd as Hnd0.
  apply NoDup_cons in Hnd0 as [Hp Hnd1]. apply NoDup_app in Hnd1 as (Hndk & Hdisj & _).
  assert (Hndt : NoDup (p :: flat_map footprint ks)).
  { apply NoDup_cons. split; [|exact Hndk]. intros Hin. apply Hp, elem_of_app. auto. }
  (* what is known of an object below *)
  assert (Hbelow : ∀ x, x ∈ flat_map footprint ks →
            x ≠ p ∧ (x ∉ up) ∧
            ∃ A k B anc, ks = A ++ k :: B ∧ x ∈ footprint k ∧ Tree w (Some p) k ∧
                         (height k + S (length up) ≤ fuel)%nat ∧
                         GetAncestors fuel x w = Some (anc, w) ∧ p ∈ anc).
  { intros x Hx. split; [intros ->; apply Hp, elem_of_app; auto|].
    split; [apply Hdisj, Hx|].
    destruct (in_kids_footprint _ _ Hx) as (A & k & B & Hks & Hk).
    assert (Hkt : Tree w (Some p) k).
    { rewrite Forall_forall in Hkids. apply Hkids. rewrite Hks.
      apply elem_of_app. right. apply list_elem_of_here. }
    assert (Hh : (height k + S (length up) ≤ fuel)%nat).
    { assert (height k ≤ fold_right (λ k h, Nat.max (height k) h) 0%nat ks)%nat.
      { apply height_kid. rewrite Hks. apply elem_of_app. right. apply list_elem_of_here. }
      simpl in Hfuel. lia. }
    destruct (Tree_lineage k w (Some p) (p :: up) Hkt) with (x := x)
      as (inner & Hlin & Hin & Hlen); [eauto | exact Hk|].
    destruct (lineage_head _ _ _ Hlin) as (anc & Heq).
    exists A, k, B, anc. repeat split; try assumption.
    - apply GetAncestors_of_lineage; [rewrite <- Heq; exact Hlin|].
      assert (Hlen' : length (x :: anc) = length ((inner ++ [root k]) ++ p :: up))
        by (rewrite Heq; reflexivity).
      rewrite !length_app in Hlen'. simpl in Hlen'. lia.
    - assert (Hin' : p ∈ x :: anc).
      { rewrite <- Heq. apply elem_of_app. right. apply list_elem_of_here. }
      apply elem_of_cons in Hin' as [->|Hin']; [|exact Hin'].
      exfalso. apply Hp, elem_of_app. auto. }
  apply elem_of_cons in Hl as [->|Hl]; apply elem_of_cons in Hr as [->|Hr].
  - (* both are the root *)
    rewrite (IsPreOrdered_eval _ _ _ _ _ _ Hancp Hancp).
    rewrite bool_decide_eq_true_2 by apply list_elem_of_here.
    simpl. rewrite (bool_decide_eq_true_2 (p = p)) by reflexivity.
    rewrite bool_decide_eq_false_2 by lia. reflexivity.
  - (* the root and an object below *)
    destruct (Hbelow r Hr) as (Hrp & Hrup & A & k & B & anc & _ & _ & _ & _ & Hanc & Hpin).
    rewrite (IsPreOrdered_eval _ _ _ _ _ _ Hancp Hanc).
    rewrite bool_decide_eq_false_2.
    2:{ intros Hin. apply elem_of_cons in Hin as [?|?]; contradiction. }
    rewrite bool_decide_eq_true_2 by (apply list_elem_of_further, Hpin).
    simpl. rewrite (bool_decide_eq_true_2 (p = p)) by reflexivity.
    rewrite (bool_decide_eq_false_2 (r = p)) by exact Hrp.
    rewrite bool_decide_eq_true_2 by lia. reflexivity.
  - (* an object below and the root *)
    destruct (Hbelow l Hl) as (Hlp & _ & A & k & B & anc & _ & _ & _ & _ & Hanc & Hpin).
    rewrite (IsPreOrdered_eval _ _ _ _ _ _ Hanc Hancp).
    rewrite bool_decide_eq_true_2 by (apply list_elem_of_further, Hpin).
    simpl. rewrite (bool_decide_eq_true_2 (p = p)) by reflexivity.
    rewrite bool_decide_eq_false_2 by lia. reflexivity.
  - (* two objects below *)
    destruct (Hbelow l Hl) as (Hlp & _ & A & k & B & ancl & Hks & Hlk & Hkt & Hkh & _ & _).
    subst ks. rewrite flat_map_footprint_app in Hr. simpl in Hr.
    rewrite !elem_of_app in Hr.
    assert (Hpos : ∀ P K S x,
              p :: flat_map footprint (A ++ k :: B) = P ++ K ++ S → x ∈ K →
              position x (p :: flat_map footprint (A ++ k :: B))
                = (length P + position x K)%nat ∧ (position x K < length K)%nat).
    { intros P K S x Heq Hx. rewrite Heq. apply position_block; [|exact Hx].
      rewrite <- Heq. exact Hndt. }
    destruct Hr as [Hr|[Hr|Hr]].
    + (* the right one is below an earlier child *)
      destruct (in_kids_footprint _ _ Hr) as (A1 & k2 & A2 & -> & Hrk).
      assert (Hk2t : Tree w (Some p) k2).
      { rewrite Forall_forall in Hkids. apply Hkids. rewrite !elem_of_app.
        left. right. apply list_elem_of_here. }
      assert (Hk2h : (height k2 + S (length up) ≤ fuel)%nat).
      { assert (height k2 ≤ fold_right (λ k h, Nat.max (height k) h) 0%nat
                              ((A1 ++ k2 :: A2) ++ k :: B))%nat.
        { apply height_kid. rewrite !elem_of_app. left. right. apply list_elem_of_here. }
        simpl in Hfuel. lia. }
      rewrite <- app_assoc in Hch, Hnd. simpl in Hch, Hnd.
      destruct (IsPreOrdered_two_kids w p up fuel A1 A2 B k2 k o r l
                  Ho Hch Hself Hk2t Hkt Hnd Hk2h Hkh Hrk Hlk) as [_ ->].
      f_equal. f_equal. symmetry. apply bool_decide_eq_false_2.
      destruct (Hpos (p :: flat_map footprint A1) (footprint k2)
                  (flat_map footprint (A2 ++ k :: B)) r) as [-> Hlt]; [|exact Hrk|].
      { footprint_blocks. }
      destruct (Hpos (p :: flat_map footprint A1 ++ footprint k2 ++ flat_map footprint A2)
                  (footprint k) (flat_map footprint B) l) as [-> _]; [|exact Hlk|].
      { footprint_blocks. }
      simpl. rewrite !length_app. lia.
    + (* both are below the same child *)
      rewrite Forall_app in IH. destruct IH as [_ IH].
      apply Forall_cons_1 in IH as [IHk _].
      assert (Hsub : ∀ y, y ∈ footprint k → y ∈ flat_map footprint (A ++ k :: B)).
      { intros y Hy. rewrite flat_map_footprint_app. simpl. rewrite !elem_of_app. tauto. }
      assert (Hndk' : NoDup (footprint k ++ p :: up)).
      { apply NoDup_app. split; [|split].
        - pose proof Hndk as Hndk2. rewrite flat_map_footprint_app in Hndk2.
          simpl in Hndk2. apply NoDup_app in Hndk2 as (_ & _ & Hndk2).
          apply NoDup_app in Hndk2 as (Hndk2 & _ & _). exact Hndk2.
        - intros y Hy Hin. apply elem_of_cons in Hin as [->|Hin].
          + apply Hp, elem_of_app. left. apply Hsub, Hy.
          + exact (Hdisj y (Hsub y Hy) Hin).
        - apply NoDup_cons. split.
          + intros Hin. apply Hp, elem_of_app. right. exact Hin.
          + apply NoDup_cons in Hnd as [_ Hnd]. apply NoDup_app in Hnd as (_ & _ & Hnd).
            exact Hnd. }
      rewrite (IHk w (Some p) (p :: up) fuel Hkt (ex_intro _ up (conj eq_refl Hself))
                 Hndk' ltac:(simpl; lia) l r Hlk Hr).
      f_equal. f_equal. apply bool_decide_ext.
      destruct (Hpos (p :: flat_map footprint A) (footprint k) (flat_map footprint B) l)
        as [-> _]; [|exact Hlk|].
      { footprint_blocks. }
      destruct (Hpos (p :: flat_map footprint A) (footprint k) (flat_map footprint B) r)
        as [-> _]; [|exact Hr|].
      { footprint_blocks. }
      lia.
    + (* the right one is below a later child *)
      destruct (in_kids_footprint _ _ Hr) as (B1 & k2 & B2 & -> & Hrk).
      assert (Hk2t : Tree w (Some p) k2).
      { rewrite Forall_forall in Hkids. apply Hkids. rewrite !elem_of_app.
        right. apply list_elem_of_further. apply elem_of_app. right.
        apply list_elem_of_here. }
      assert (Hk2h : (height k2 + S (length up) ≤ fuel)%nat).
      { assert (height k2 ≤ fold_right (λ k h, Nat.max (height k) h) 0%nat
                              (A ++ k :: B1 ++ k2 :: B2))%nat.
        { apply height_kid. rewrite !elem_of_app.
          right. apply list_elem_of_further. apply elem_of_app. right.
          apply list_elem_of_here. }
        simpl in Hfuel. lia. }
      destruct (IsPreOrdered_two_kids w p up fuel A B1 B2 k k2 o l r
                  Ho Hch Hself Hkt Hk2t Hnd Hkh Hk2h Hlk Hrk) as [-> _].
      f_equal. f_equal. symmetry. apply bool_decide_eq_true_2.
      destruct (Hpos (p :: flat_map footprint A) (footprint k)
                  (flat_map footprint (B1 ++ k2 :: B2)) l) as [-> Hlt]; [|exact Hlk|].
      { footprint_blocks. }
      destruct (Hpos (p :: flat_map footprint A ++ footprint k ++ flat_map footprint B1)
                  (footprint k2) (flat_map footprint B2) r) as [-> _]; [|exact Hrk|].
      { footprint_blocks. }
      simpl. rewrite !length_app. lia.
Qed.

(** On a store that holds a tree, [IsPreOrdered] answers whether the left
    object comes before the right one in document order: an object comes
    before everything below it and before its later siblings with
    everything below them; no object comes before itself. *)
Theorem IsPreOrdered_is_the_document_order
    (t : OTree) (w : World) (fuel : nat) (left right : nat) :
  Tree w None t →
  NoDup (footprint t) →
  (height t ≤ fuel)%nat →
  left ∈ footprint t →
  right ∈ footprint t →
  IsPreOrdered fuel left right w
    = Some (bool_decide (position left (footprint t) < position right (footprint t))%nat,
            w).
Proof.
  intros Htree Hnd Hfuel Hl Hr.
  apply (IsPreOrdered_in_tree t w None [] fuel); try assumption.
  - reflexivity.
  - rewrite app_nil_r. exact Hnd.
  - simpl. lia.
Qed.

Lemma IsPreOrdered_is_the_document_order_witness :
  IsPreOrdered 2 3 4 twoLayers
    = Some (bool_decide (position 3 (footprint (ONode 1 [ONode 3 []; ONode 4 []]))
                         < position 4 (footprint (ONode 1 [ONode 3 []; ONode 4 []])))%nat,
            twoLayers).
Proof.
  apply (IsPreOrdered_is_the_document_order (ONode 1 [ONode 3 []; ONode 4 []])
           twoLayers 2 3 4).
  - simpl. eexists. split; [reflexivity|]. repeat split.
    + eexists. split; [reflexivity|]. repeat split.
    + eexists. split; [reflexivity|]. repeat split.
  - simpl. repeat constructor; rewrite ?elem_of_cons, ?elem_of_nil; intuition lia.
  - simpl. lia.
  - simpl. rewrite !elem_of_cons. auto.
  - simpl. rewrite !elem_of_cons. auto.
Defined.

(** For two different objects without parent, [IsPreOrdered] answers [true]
    in both orders: the comparison of the child indices is made below a
    common parent only. *)
Theorem IsPreOrdered_of_two_roots (fuel : nat) (left right : nat) (w : World)
    (lo ro : Obj) :
  objs w !! left = Some lo → m_parent lo = None →
  objs w !! right = Some ro → m_parent ro = None →
  left ≠ right →
  IsPreOrdered fuel left right w = Some (true, w) ∧
  IsPreOrdered fuel right left w = Some (true, w).
Proof.
  intros Hl Hlp Hr Hrp Hne.
  assert (Hal : GetAncestors fuel left w = Some ([], w)).
  { unfold GetAncestors. munfold. rewrite Hl, Hlp. destruct fuel; reflexivity. }
  assert (Har : GetAncestors fuel right w = Some ([], w)).
  { unfold GetAncestors. munfold. rewrite Hr, Hrp. destruct fuel; reflexivity. }
  split.
  - rewrite (IsPreOrdered_eval _ _ _ _ _ _ Hal Har).
    rewrite !bool_decide_eq_false_2
      by (rewrite elem_of_cons, elem_of_nil; intuition congruence).
    simpl. rewrite bool_decide_eq_false_2 by exact Hne. rewrite Hl, Hlp. reflexivity.
  - rewrite (IsPreOrdered_eval _ _ _ _ _ _ Har Hal).
    rewrite !bool_decide_eq_false_2
      by (rewrite elem_of_cons, elem_of_nil; intuition congruence).
    simpl. rewrite bool_decide_eq_false_2 by congruence. rewrite Hr, Hrp. reflexivity.
Qed.

Lemma IsPreOrdered_of_two_roots_witness :
  IsPreOrdered 1 1 2 twoLayers = Some (true, twoLayers) ∧
  IsPreOrdered 1 2 1 twoLayers = Some (true, twoLayers).
Proof.
  apply (IsPreOrdered_of_two_roots 1 1 2 twoLayers
           (object "Layer" None [3; 4]%nat) (object "Layer" None [5]%nat));
    try reflexivity; lia.
Defined.

(** * Properties of the deletion of children *)

Lemma rooted_on_chain n :
  ∀ w w0 avoid this,
    rooted n w avoid this →
    (∀ q, q = this ∨ ancestorOf n w this q →
          m_parent <$> objs w0 !! q = m_parent <$> objs w !! q) →
    rooted n w0 avoid this.
Proof.
  induction n as [|n IH]; intros w w0 avoid this Hr Hag; [exact Hr|].
  destruct Hr as (Hne & o & Ho & Hp). split; [exact Hne|].
  pose proof (Hag this (or_introl eq_refl)) as Hthis. rewrite Ho in Hthis. simpl in Hthis.
  destruct (objs w0 !! this) as [o0|]; [|discriminate]. simpl in Hthis.
  injection Hthis as Hpar. exists o0. split; [reflexivity|]. rewrite Hpar.
  destruct (m_parent o) as [p|] eqn:Hpo; [|exact I].
  apply (IH w w0 avoid p Hp). intros q Hq. apply Hag. right. simpl.
  exists o, p. split; [exact Ho|]. split; [exact Hpo|].
  destruct Hq as [->|Hq]; auto.
Qed.

Lemma marks_gone w w' q : marks w w' → objs w !! q = None → objs w' !! q = None.
Proof.
  intros [_ Hm] Hq. destruct (Hm q) as [-> | (o & Ho & _)]; [exact Hq | congruence].
Qed.

Lemma marks_kept w w' q o :
  marks w w' → objs w !! q = Some o →
  ∃ o', objs w' !! q = Some o' ∧ m_parent o' = m_parent o ∧ m_children o' = m_children o.
Proof.
  intros [_ Hm] Hq. destruct (Hm q) as [-> | (o0 & Ho0 & ->)]; [eauto|].
  rewrite Hq in Ho0. injection Ho0 as <-. eexists. split; [reflexivity|]. auto.
Qed.

(** The destruction of an object that holds a tree: the object is released,
    and nothing outside the tree changes. *)
Lemma delete_Object_returns (fuel : nat) (t : OTree) (w : World) :
  Repr w t → NoDup (footprint t) → (height t ≤ fuel)%nat →
  ∃ w',
    delete_Object fuel (root t) w = Some ((), w') ∧
    objs w' !! root t = None ∧
    logs w' = logs w ∧
    ∀ q, q ∉ footprint t → objs w' !! q = objs w !! q.
Proof.
  intros Hrepr Hnd Hfuel.
  destruct (ClearChildren_returns t w Hrepr Hnd) as (w1 & Hrun & Hframe).
  apply (ClearChildren_mono _ fuel) in Hrun; [|exact Hfuel].
  exists (mkWorld (delete (root t) (objs w1)) (logs w1)).
  split; [unfold delete_Object, mbind, M_bind; rewrite Hrun; reflexivity|].
  split; [simpl; apply lookup_delete_eq|].
  split.
  - simpl. clear -Hrun. revert Hrun. generalize (root t) as this. revert w w1.
    induction fuel as [|fuel IH]; intros w w1 this H; [discriminate|].
    simpl in H. unfold mbind at 1, M_bind at 1, deref at 1 in H.
    destruct (objs w !! this) as [o|]; [|discriminate].
    destruct (m_isReferenceObject o); [munfold; injection H as <-; reflexivity|].
    unfold mbind at 1, M_bind at 1 in H.
    destruct (deleteOwned _ this (m_children o) w) as [[[] w2]|] eqn:Hloop; [|discriminate].
    assert (Hl : logs w2 = logs w).
    { clear H. revert w Hloop. induction (m_children o) as [|c l IHl]; intros w Hloop.
      - simpl in Hloop. munfold. injection Hloop as <-. reflexivity.
      - simpl in Hloop. unfold mbind at 1 2, M_bind at 1 2 in Hloop.
        unfold GetParent in Hloop. unfold mbind at 1, M_bind at 1, deref in Hloop.
        destruct (objs w !! c) as [co|]; [|discriminate].
        unfold mret at 1, M_ret at 1 in Hloop.
        case_bool_decide.
        + unfold mbind at 1, M_bind at 1 in Hloop.
          destruct (ClearChildren fuel c w) as [[[] w3]|] eqn:Hc; [|discriminate].
          unfold free in Hloop. apply IHl in Hloop. simpl in Hloop.
          rewrite Hloop. eapply IH, Hc.
        + unfold mret, M_ret in Hloop. apply IHl, Hloop. }
    munfold. destruct (objs w2 !! this); [|discriminate].
    injection H as <-. simpl. exact Hl.
  - intros q Hq. simpl.
    rewrite lookup_delete_ne by (intros <-; apply Hq, root_in_footprint).
    apply Hframe. intros Hr. apply Hq. eapply reached_footprint, Hr.
Qed.


(** ** What a destruction releases *)

Lemma destroyed_root w t : root t ∈ destroyed w t.
Proof. destruct t. simpl. apply list_elem_of_here. Qed.

Lemma destroyed_footprint w t : ∀ q, q ∈ destroyed w t → q ∈ footprint t.
Proof.
  induction t as [p ks IH] using OTree_kids_ind. intros q. simpl.
  rewrite !elem_of_cons. intros [->|Hq]; [auto|]. right.
  destruct (objs w !! p) as [o|]; [|apply elem_of_nil in Hq; destruct Hq].
  destruct (m_isReferenceObject o); [apply elem_of_nil in Hq; destruct Hq|].
  induction IH as [|k ks Hk _ IHks]; simpl in *; [exact Hq|].
  apply elem_of_app in Hq as [Hq|Hq]; apply elem_of_app.
  - left. destruct (ownedBy w p k); [apply Hk, Hq | apply elem_of_nil in Hq; destruct Hq].
  - right. apply IHks, Hq.
Qed.

(** What a destruction releases depends on the addresses of the tree. *)
Lemma destroyed_agree t :
  ∀ w1 w2, (∀ q, q ∈ footprint t → objs w1 !! q = objs w2 !! q) →
           destroyed w1 t = destroyed w2 t.
Proof.
  induction t as [p ks IH] using OTree_kids_ind. intros w1 w2 Hag. simpl in *.
  f_equal. rewrite <- (Hag p) by apply list_elem_of_here.
  destruct (objs w1 !! p) as [o|]; [|reflexivity].
  destruct (m_isReferenceObject o); [reflexivity|].
  assert (Hag' : ∀ q, q ∈ flat_map footprint ks → objs w1 !! q = objs w2 !! q).
  { intros q Hq. apply Hag, list_elem_of_further, Hq. }
  clear Hag. induction IH as [|k ks Hk _ IHks]; simpl in *; [reflexivity|].
  rewrite IHks by (intros q Hq; apply Hag', elem_of_app; right; exact Hq).
  f_equal. unfold ownedBy.
  rewrite <- (Hag' (root k))
    by (apply elem_of_app; left; destruct k; simpl; apply list_elem_of_here).
  case_bool_decide; [|reflexivity].
  apply Hk. intros q Hq. apply Hag', elem_of_app. left. exact Hq.
Qed.

(** On a store that holds a tree without repeated address, [ClearChildren]
    on the root returns and releases what the destruction of the root
    releases, the root apart; it changes nothing else but the root. *)
Lemma ClearChildren_exact t :
  ∀ w, Repr w t → NoDup (footprint t) →
       ∃ w', ClearChildren (height t) (root t) w = Some ((), w') ∧
             (∀ q, q ≠ root t → q ∈ destroyed w t → objs w' !! q = None) ∧
             (∀ q, q ∉ destroyed w t → objs w' !! q = objs w !! q).
Proof.
  induction t as [p ks IH] using OTree_kids_ind.
  intros w (o & Ho & Hkids) Hnd. simpl in Ho, Hkids, Hnd.
  change (height (ONode p ks))
    with (S (fold_right (λ k h, Nat.max (height k) h) 0%nat ks)).
  set (h := fold_right (λ k h, Nat.max (height k) h) 0%nat ks).
  simpl ClearChildren. simpl root. simpl destroyed. rewrite Ho.
  unfold mbind at 1, M_bind at 1, deref at 1. rewrite Ho.
  destruct (m_isReferenceObject o) eqn:Href.
  { eexists. split; [reflexivity|]. split.
    - intros q Hq Hin. apply elem_of_cons in Hin as [->|Hin]; [contradiction|].
      apply elem_of_nil in Hin. destruct Hin.
    - intros q Hq. simpl. apply lookup_insert_ne. intros ->. apply Hq, list_elem_of_here. }
  destruct (Hkids eq_refl) as [Hch Hall]. clear Hkids. rewrite Hch.
  apply NoDup_cons in Hnd as [Hp Hnd].
  assert (Hh : Forall (λ k, (height k ≤ h)%nat) ks).
  { apply Forall_forall. intros k Hk. apply height_kid, Hk. }
  clearbody h.
  set (released := λ ks : list OTree,
         flat_map (λ k, if ownedBy w p k then destroyed w k else []) ks).
  assert (Hsub : ∀ l q, q ∈ released l → q ∈ flat_map footprint l).
  { induction l as [|k l IHl]; intros q Hq; simpl in *; [exact Hq|].
    apply elem_of_app in Hq as [Hq|Hq]; apply elem_of_app.
    - left. destruct (ownedBy w p k); [eapply destroyed_footprint, Hq|].
      apply elem_of_nil in Hq. destruct Hq.
    - right. apply IHl, Hq. }
  assert (Hloop : ∀ w1,
             (∀ q, q ∈ flat_map footprint ks → objs w1 !! q = objs w !! q) →
             ∃ w2, deleteOwned (λ child, ClearChildren h child;; free child) p
                               (map root ks) w1 = Some ((), w2) ∧
                   (∀ q, q ∈ released ks → objs w2 !! q = None) ∧
                   (∀ q, q ∉ released ks → objs w2 !! q = objs w1 !! q)).
  { clear Hch Ho Hp Href.
    induction IH as [|k ks IHk _ IHks]; intros w1 Hag.
    - exists w1. split; [reflexivity|]. split; [|auto].
      intros q Hq. apply elem_of_nil in Hq. destruct Hq.
    - simpl in Hall, Hnd, Hag |- *.
      destruct Hall as [(ok & Hok & Hrec) Hall].
      apply Forall_cons_1 in Hh as [Hhk Hh].
      apply NoDup_app in Hnd as (Hndk & Hdisj & Hndks).
      assert (Hrootk : root k ∈ footprint k)
        by (destruct k; simpl; apply list_elem_of_here).
      unfold mbind at 1 2, M_bind at 1 2. unfold GetParent.
      unfold mbind at 1, M_bind at 1, deref at 1.
      rewrite Hag by (apply elem_of_app; left; exact Hrootk). rewrite Hok.
      unfold mret at 1, M_ret at 1.
      set (mine := if ownedBy w p k then destroyed w k else []).
      assert (Hmine : ∀ q, q ∈ mine → q ∈ footprint k).
      { intros q Hq. subst mine. destruct (ownedBy w p k);
          [eapply destroyed_footprint, Hq | apply elem_of_nil in Hq; destruct Hq]. }
      assert (Hhead : ∃ w1',
                 (if bool_decide (m_parent ok = Some p)
                  then ClearChildren h (root k);; free (root k)
                  else mret ()) w1 = Some ((), w1') ∧
                 (∀ q, q ∈ mine → objs w1' !! q = None) ∧
                 (∀ q, q ∉ mine → objs w1' !! q = objs w1 !! q)).
      { subst mine. unfold ownedBy. rewrite Hok. simpl.
        case_bool_decide as Hown.
        - rewrite bool_decide_eq_true_2 by congruence.
          assert (Hagk : ∀ q, q ∈ footprint k → objs w1 !! q = objs w !! q).
          { intros q Hq. apply Hag. apply elem_of_app. left. exact Hq. }
          destruct (IHk w1) as (wk & Hck & Hgone & Hfr); [|exact Hndk|].
          { apply (Repr_agree k w w1); [|apply Hrec, Hown].
            intros q Hq. symmetry. apply Hagk, Hq. }
          rewrite (destroyed_agree k w1 w Hagk) in Hgone, Hfr.
          apply (ClearChildren_mono _ h) in Hck; [|exact Hhk].
          unfold mbind, M_bind. rewrite Hck. unfold free. eexists. split; [reflexivity|].
          split.
          + intros q Hq. simpl. destruct (decide (q = root k)) as [->|Hne].
            * apply lookup_delete_eq.
            * rewrite lookup_delete_ne by congruence. apply Hgone; assumption.
          + intros q Hq. simpl. rewrite lookup_delete_ne.
            * apply Hfr, Hq.
            * intros <-. apply Hq, destroyed_root.
        - rewrite bool_decide_eq_false_2 by congruence.
          exists w1. split; [reflexivity|]. split; [|auto].
          intros q Hq. apply elem_of_nil in Hq. destruct Hq. }
      destruct Hhead as (w1' & -> & Hgone1 & Hfr1).
      destruct (IHks Hndks Hall Hh w1') as (w2 & Hrest & Hgone2 & Hfr2).
      { intros q Hq. rewrite Hfr1.
        - apply Hag. apply elem_of_app. right. exact Hq.
        - intros Hqk. exact (Hdisj q (Hmine q Hqk) Hq). }
      exists w2. split; [exact Hrest|]. split.
      + intros q Hq. apply elem_of_app in Hq as [Hq|Hq].
        * rewrite Hfr2; [apply Hgone1, Hq|].
          intros Hq2. exact (Hdisj q (Hmine q Hq) (Hsub _ _ Hq2)).
        * apply Hgone2, Hq.
      + intros q Hq. apply not_elem_of_app in Hq as [Hqk Hqks].
        rewrite Hfr2 by exact Hqks. apply Hfr1, Hqk. }
  destruct (Hloop w (λ _ _, eq_refl)) as (w2 & Hrun & Hgone & Hfr).
  unfold mbind at 1, M_bind at 1. rewrite Hrun.
  assert (Hp2 : objs w2 !! p = Some o).
  { rewrite Hfr; [exact Ho|]. intros Hq. apply Hp, (Hsub _ _ Hq). }
  unfold mbind, M_bind, deref, store. rewrite Hp2.
  eexists. split; [reflexivity|]. split.
  - intros q Hq Hin. simpl. rewrite lookup_insert_ne by congruence.
    apply elem_of_cons in Hin as [->|Hin]; [contradiction|]. apply Hgone, Hin.
  - intros q Hq. simpl in Hq |- *. apply not_elem_of_cons in Hq as [Hqp Hq].
    rewrite lookup_insert_ne by congruence. apply Hfr, Hq.
Qed.

(** The destruction of an object that holds a tree releases the object
    with everything it owns, and changes nothing else. *)
Lemma delete_Object_exact (fuel : nat) (t : OTree) (w : World) :
  Repr w t → NoDup (footprint t) → (height t ≤ fuel)%nat →
  ∃ w',
    delete_Object fuel (root t) w = Some ((), w') ∧
    logs w' = logs w ∧
    (∀ q, q ∈ destroyed w t → objs w' !! q = None) ∧
    (∀ q, q ∉ destroyed w t → objs w' !! q = objs w !! q).
Proof.
  intros Hrepr Hnd Hfuel.
  destruct (delete_Object_returns fuel t w Hrepr Hnd Hfuel) as (w' & Hrun & _ & Hlogs & _).
  exists w'. split; [exact Hrun|]. split; [exact Hlogs|].
  destruct (ClearChildren_exact t w Hrepr Hnd) as (w1 & Hcc & Hgone & Hfr).
  apply (ClearChildren_mono _ fuel) in Hcc; [|exact Hfuel].
  unfold delete_Object, mbind, M_bind in Hrun. rewrite Hcc in Hrun.
  unfold free in Hrun. injection Hrun as <-. simpl. split.
  - intros q Hq. destruct (decide (q = root t)) as [->|Hne].
    + apply lookup_delete_eq.
    + rewrite lookup_delete_ne by congruence. apply Hgone; assumption.
  - intros q Hq. rewrite lookup_delete_ne.
    + apply Hfr, Hq.
    + intros <-. apply Hq, destroyed_root.
Qed.
Lemma ancestorOf_on_chain n :
  ∀ w w0 this,
    (∀ q, q = this ∨ ancestorOf n w this q →
          m_parent <$> objs w0 !! q = m_parent <$> objs w !! q) →
    ∀ q, ancestorOf n w0 this q → ancestorOf n w this q.
Proof.
  induction n as [|n IH]; intros w w0 this Hag q Hq; [destruct Hq|].
  destruct Hq as (o0 & p & Ho0 & Hp & Hq).
  pose proof (Hag this (or_introl eq_refl)) as Hthis. rewrite Ho0 in Hthis. simpl in Hthis.
  destruct (objs w !! this) as [o|] eqn:Ho; [|discriminate]. simpl in Hthis.
  injection Hthis as Hpar. rewrite Hp in Hpar.
  exists o, p. split; [exact Ho|]. split; [auto|].
  destruct Hq as [->|Hq]; [auto|]. right.
  apply (IH w w0 p); [|exact Hq].
  intros r Hr. apply Hag. right. simpl. exists o, p. split; [exact Ho|]. split; [auto|].
  destruct Hr as [->|Hr]; auto.
Qed.

(** [DeleteChild] takes the first occurrence of the child out of the child
    sequence, marks the object as modified and returns [true].  Unless the
    object is a reference object, the child is destroyed with everything it
    owns: every address that the destruction of the child releases is free
    afterwards.  For a reference object nothing of the child is touched.  No
    other object loses or gains a child or a parent.  For an object that is
    not a child the call fails its assertion. *)
Theorem DeleteChild_deletes_the_child
    (fuel this child : nat) (w : World) (o : Obj) (tc : OTree) (before after : list nat) :
  objs w !! this = Some o →
  m_children o = before ++ child :: after →
  child ∉ before →
  root tc = child →
  Repr w tc →
  NoDup (footprint tc) →
  (height tc ≤ fuel)%nat →
  rooted fuel w None this →
  (∀ q, q = this ∨ ancestorOf fuel w this q → q ∉ footprint tc) →
  (∃ w',
     DeleteChild fuel this child w = Some (true, w') ∧
     childrenOf w' this = Some (before ++ after) ∧
     objs w' !! child
       = (if m_isReferenceObject o then objs w !! child else None) ∧
     (if m_isReferenceObject o
      then ∀ q, q ∈ footprint tc → objs w' !! q = objs w !! q
      else ∀ q, q ∈ destroyed w tc → objs w' !! q = None) ∧
     isModifiedOf w' this = Some true ∧
     (∀ q, q ∉ destroyed w tc → q ≠ this →
           childrenOf w' q = childrenOf w q ∧ parentOf w' q = parentOf w q)) ∧
  (∀ other, other ∉ m_children o → DeleteChild fuel this other w = None).
Proof.
  intros Ho Hch Hb Hroot Hrepr Hnd Hh Hr Hchain. split.
  2:{ intros other Hother. unfold DeleteChild. munfold. rewrite Ho.
      rewrite find_if_none.
      - simpl. rewrite Nat.eqb_refl. reflexivity.
      - apply Forall_forall. intros x Hx. apply bool_decide_eq_false_2.
        intros ->. contradiction. }
  assert (Hthis : this ∉ footprint tc) by (apply Hchain; auto).
  assert (Hne : this ≠ child).
  { intros ->. apply Hthis. rewrite <- Hroot. apply root_in_footprint. }
  set (w1 := mkWorld (<[this := set_children (before ++ after) o]> (objs w)) (logs w)).
  assert (Hag1 : ∀ q, q ∈ footprint tc → objs w1 !! q = objs w !! q).
  { intros q Hq. subst w1. simpl. rewrite lookup_insert_ne; [reflexivity|].
    intros <-. contradiction. }
  assert (Hdel : ∃ w3,
             (if negb (m_isReferenceObject o) then delete_Object fuel child else mret ()) w1
               = Some ((), w3) ∧
             logs w3 = logs w ∧
             (if m_isReferenceObject o
              then ∀ q, objs w3 !! q = objs w1 !! q
              else ∀ q, q ∈ destroyed w tc → objs w3 !! q = None) ∧
             ∀ q, q ∉ destroyed w tc → objs w3 !! q = objs w1 !! q).
  { destruct (m_isReferenceObject o).
    - exists w1. simpl. split; [reflexivity|]. split; [reflexivity|]. split; reflexivity.
    - destruct (delete_Object_exact fuel tc w1) as (w3 & Hrun & Hlogs & Hgone & Hframe);
        [|exact Hnd | exact Hh|].
      + apply (Repr_agree tc w w1); [|exact Hrepr].
        intros q Hq. symmetry. apply Hag1, Hq.
      + rewrite (destroyed_agree tc w1 w Hag1) in Hgone, Hframe.
        rewrite Hroot in Hrun. exists w3. simpl. auto. }
  destruct Hdel as (w3 & Hdel & Hlogs & Hgone & Hframe).
  assert (Hhead : DeleteChild fuel this child w
                  = (Modify fuel this true;; mret true) w3).
  { unfold DeleteChild. unfold mbind at 1, M_bind at 1, deref at 1. rewrite Ho, Hch.
    rewrite find_if_first;
      [|apply Forall_forall; intros x Hx; apply bool_decide_eq_false_2; intros ->;
        contradiction
       |apply bool_decide_eq_true_2; reflexivity].
    simpl. destruct (Nat.eqb_spec (length before) (length (before ++ child :: after)))
      as [Heq|_].
    { rewrite length_app in Heq. simpl in Heq. lia. }
    simpl. rewrite delete_middle.
    unfold mbind at 1 2, M_bind at 1 2. unfold store at 1.
    fold w1. rewrite Hdel. reflexivity. }
  rewrite Hhead.
  assert (Hout : ∀ q, q = this ∨ ancestorOf fuel w this q → q ∉ destroyed w tc).
  { intros q Hq Hin. apply (Hchain q Hq). eapply destroyed_footprint, Hin. }
  assert (Hag : ∀ q, q = this ∨ ancestorOf fuel w this q →
                     m_parent <$> objs w3 !! q = m_parent <$> objs w !! q).
  { intros q Hq. rewrite Hframe by (apply Hout, Hq). subst w1. simpl.
    destruct (decide (this = q)) as [<-|Hq'].
    - rewrite lookup_insert_eq, Ho. reflexivity.
    - rewrite lookup_insert_ne by congruence. reflexivity. }
  destruct (Modify_true_returns fuel w3 None this) as (w' & Hrun & Hm & Hflag & _).
  { apply (rooted_on_chain fuel w w3); [exact Hr | exact Hag]. }
  assert (Hkeep : ∀ q, q ∈ footprint tc → objs w' !! q = objs w3 !! q).
  { intros q Hq. apply (Modify_true_frame fuel w3 this w' Hrun).
    - intros ->. contradiction.
    - intros Hanc. apply (ancestorOf_on_chain fuel w w3) in Hanc; [|exact Hag].
      apply (Hchain q); auto. }
  assert (Hall : if m_isReferenceObject o
                 then ∀ q, q ∈ footprint tc → objs w' !! q = objs w !! q
                 else ∀ q, q ∈ destroyed w tc → objs w' !! q = None).
  { destruct (m_isReferenceObject o).
    - intros q Hq. rewrite Hkeep by exact Hq. rewrite Hgone. apply Hag1, Hq.
    - intros q Hq. apply (marks_gone _ _ _ Hm), Hgone, Hq. }
  exists w'. split; [unfold mbind, M_bind; rewrite Hrun; reflexivity|].
  split; [|split; [|split; [exact Hall|split; [exact Hflag|]]]].
  - destruct (marks_fields _ _ this Hm) as [-> _]. unfold childrenOf.
    rewrite Hframe by (apply Hout; auto). subst w1. simpl.
    rewrite lookup_insert_eq. reflexivity.
  - rewrite <- Hroot. destruct (m_isReferenceObject o).
    + apply Hall, root_in_footprint.
    + apply Hall, destroyed_root.
  - intros q Hq1 Hq2. destruct (marks_fields _ _ q Hm) as [-> ->].
    unfold childrenOf, parentOf. rewrite Hframe by exact Hq1. subst w1. simpl.
    rewrite lookup_insert_ne by congruence. auto.
Qed.

Lemma DeleteChild_deletes_the_child_witness :
  (∃ w',
     DeleteChild 2 1 3 layerWithRelinquishedNote = Some (true, w') ∧
     childrenOf w' 1 = Some ([] ++ [4; 5]%nat) ∧
     objs w' !! 3%nat
       = (if m_isReferenceObject (object "Layer" None [3; 4; 5]%nat)
          then objs layerWithRelinquishedNote !! 3%nat else None) ∧
     (if m_isReferenceObject (object "Layer" None [3; 4; 5]%nat)
      then ∀ q, q ∈ footprint (ONode 3 [ONode 6 []]) →
                objs w' !! q = objs layerWithRelinquishedNote !! q
      else ∀ q, q ∈ destroyed layerWithRelinquishedNote (ONode 3 [ONode 6 []]) →
                objs w' !! q = None) ∧
     isModifiedOf w' 1 = Some true ∧
     (∀ q, q ∉ destroyed layerWithRelinquishedNote (ONode 3 [ONode 6 []]) → q ≠ 1%nat →
           childrenOf w' q = childrenOf layerWithRelinquishedNote q ∧
           parentOf w' q = parentOf layerWithRelinquishedNote q)) ∧
  (∀ other, other ∉ m_children (object "Layer" None [3; 4; 5]%nat) →
            DeleteChild 2 1 other layerWithRelinquishedNote = None).
Proof.
  apply (DeleteChild_deletes_the_child 2 1 3 layerWithRelinquishedNote
           (object "Layer" None [3; 4; 5]%nat) (ONode 3 [ONode 6 []]) [] [4; 5]%nat).
  - reflexivity.
  - reflexivity.
  - apply not_elem_of_nil.
  - reflexivity.
  - simpl. eexists. split; [reflexivity|]. intros _. split; [reflexivity|].
    split; [|exact I].
    eexists. split; [reflexivity|]. intros _.
    eexists. split; [reflexivity|]. intros _. split; [reflexivity | exact I].
  - simpl. repeat constructor; rewrite ?elem_of_cons, ?elem_of_nil; intuition lia.
  - simpl. lia.
  - simpl. split; [discriminate|]. eexists. split; [reflexivity | exact I].
  - intros q [->|Hq].
    + simpl. rewrite !elem_of_cons, elem_of_nil. intuition lia.
    + simpl in Hq. destruct Hq as (o & p & Ho & Hp & _).
      vm_compute in Ho. injection Ho as <-. discriminate Hp.
Defined.

(** In the example the note 3 and its stem 6 are what the destruction
    releases. *)
Example destroyed_with_the_note :
  destroyed layerWithRelinquishedNote (ONode 3 [ONode 6 []]) = [3; 6]%nat.
Proof. reflexivity. Qed.

Section DeleteByComparisonFacts.
Variable comparison : nat → Obj → bool.

Local Abbreviation chosen w := (λ k : OTree, selected comparison w (root k)).
Local Abbreviation released w ks := (flat_map (destroyed w) (List.filter (chosen w) ks)).

Lemma selected_agree (w w0 : World) (ks : list OTree) :
  (∀ k, k ∈ ks → objs w0 !! root k = objs w !! root k) →
  List.filter (chosen w0) ks = List.filter (chosen w) ks ∧
  List.filter (λ k, negb (chosen w0 k)) ks = List.filter (λ k, negb (chosen w k)) ks.
Proof.
  intros Hag. split; apply List.filter_ext_in; intros k Hk;
    apply list_elem_of_In in Hk; unfold selected; rewrite (Hag k Hk); reflexivity.
Qed.

Lemma released_footprint (w : World) (ks : list OTree) (q : nat) :
  q ∈ released w ks → q ∈ flat_map footprint ks.
Proof.
  intros Hq. apply list_elem_of_In, in_flat_map in Hq. destruct Hq as (k & Hk & Hq).
  apply List.filter_In in Hk. destruct Hk as [Hk _].
  apply list_elem_of_In, in_flat_map. exists k. split; [exact Hk|].
  apply list_elem_of_In, (destroyed_footprint w), list_elem_of_In, Hq.
Qed.

Lemma released_agree (w w0 : World) (ks : list OTree) :
  (∀ q, q ∈ flat_map footprint ks → objs w0 !! q = objs w !! q) →
  released w0 ks = released w ks.
Proof.
  intros Hag.
  assert (Hroots : ∀ k, k ∈ ks → objs w0 !! root k = objs w !! root k).
  { intros k Hk. apply Hag. apply list_elem_of_In, in_flat_map. exists k.
    split; apply list_elem_of_In; [exact Hk | apply root_in_footprint]. }
  destruct (selected_agree w w0 ks Hroots) as [-> _].
  rewrite !flat_map_concat_map. f_equal. apply map_ext_in. intros k Hk.
  apply List.filter_In in Hk as [Hk _].
  apply destroyed_agree. intros q Hq. apply Hag.
  apply list_elem_of_In, in_flat_map. exists k. split; [exact Hk | apply list_elem_of_In, Hq].
Qed.

(** The loop from a position on: the children before the iterator are
    kept; of the children from the iterator on, the selected ones are
    erased, and destroyed with what they own unless the object is a
    reference object. *)
Lemma DeleteChildrenByComparison_loop_runs (fuel this : nat) :
  ∀ ks turns kept count w o,
    objs w !! this = Some o →
    m_children o = kept ++ map root ks →
    Forall (Repr w) ks →
    NoDup (flat_map footprint ks) →
    Forall (λ k, (height k ≤ fuel)%nat) ks →
    (length ks < turns)%nat →
    this ∉ flat_map footprint ks →
    ∃ w',
      DeleteChildrenByComparison_loop comparison turns fuel this (length kept) count w
        = Some (count + Z.of_nat (length (List.filter (chosen w) ks)), w') ∧
      objs w' !! this
        = Some (set_children
                  (kept ++ map root (List.filter (λ k, negb (chosen w k)) ks)) o) ∧
      logs w' = logs w ∧
      (∀ q, q ≠ this →
            q ∉ (if m_isReferenceObject o then [] else released w ks) →
            objs w' !! q = objs w !! q) ∧
      (m_isReferenceObject o = false →
       ∀ q, q ∈ released w ks → objs w' !! q = None).
Proof.
  induction ks as [|k ks IH]; intros turns kept count w o Ho Hch Hrepr Hnd Hh Hturns Hthis;
    (destruct turns as [|turns]; [simpl in Hturns; lia|]).
  - exists w. simpl in Hch. rewrite app_nil_r in Hch. simpl.
    unfold mbind, M_bind, deref. rewrite Ho, Hch.
    rewrite lookup_ge_None_2 by lia.
    split; [unfold mret, M_ret; do 2 f_equal; lia|].
    split; [rewrite app_nil_r, <- Hch; destruct o; reflexivity|].
    split; [reflexivity|]. split; [reflexivity|].
    intros _ q Hq. apply elem_of_nil in Hq. destruct Hq.
  - simpl in Hch, Hnd, Hthis, Hturns.
    apply NoDup_app in Hnd. destruct Hnd as (Hndk & Hdisj & Hndks).
    apply not_elem_of_app in Hthis. destruct Hthis as [Hthisk Hthisks].
    pose proof (Forall_cons_1 _ _ _ Hrepr) as [Hk Hks].
    pose proof (Forall_cons_1 _ _ _ Hh) as [Hhk Hhks].
    assert (Hc : ∃ c, objs w !! root k = Some c).
    { destruct k as [p kk]. simpl in Hk. destruct Hk as (c & Hc & _). eauto. }
    destruct Hc as (c & Hc).
    assert (Hsel : chosen w k = comparison (root k) c).
    { unfold selected. rewrite Hc. reflexivity. }
    simpl List.filter. rewrite Hsel.
    cbn [DeleteChildrenByComparison_loop].
    unfold mbind at 1, M_bind at 1, deref at 1. rewrite Ho, Hch.
    rewrite list_lookup_middle by reflexivity.
    unfold mbind at 1, M_bind at 1, deref at 1. rewrite Hc.
    destruct (comparison (root k) c) eqn:Hcmp; cbn [negb].
    + assert (Hdel : ∃ w2,
                 (if negb (m_isReferenceObject o) then delete_Object fuel (root k)
                  else mret ()) w = Some ((), w2) ∧
                 logs w2 = logs w ∧
                 (∀ q, q ∉ (if m_isReferenceObject o then [] else destroyed w k) →
                       objs w2 !! q = objs w !! q) ∧
                 (m_isReferenceObject o = false →
                  ∀ q, q ∈ destroyed w k → objs w2 !! q = None)).
      { destruct (m_isReferenceObject o).
        - exists w. simpl. split; [reflexivity|]. split; [reflexivity|].
          split; [reflexivity | discriminate].
        - destruct (delete_Object_exact fuel k w Hk Hndk Hhk)
            as (w2 & Hrun & Hlogs & Hgone & Hframe).
          exists w2. simpl. auto. }
      destruct Hdel as (w2 & Hdel & Hlogs2 & Hframe2 & Hgone2).
      assert (Hink : ∀ q, q ∈ (if m_isReferenceObject o then [] else destroyed w k) →
                          q ∈ footprint k).
      { intros q Hq. destruct (m_isReferenceObject o);
          [apply elem_of_nil in Hq; destruct Hq | eapply destroyed_footprint, Hq]. }
      assert (Ho2 : objs w2 !! this = Some o).
      { rewrite Hframe2; [exact Ho|]. intros Hq. apply Hthisk, Hink, Hq. }
      set (o3 := set_children (kept ++ map root ks) o).
      set (w3 := mkWorld (<[this := o3]> (objs w2)) (logs w2)).
      assert (Hag : ∀ q, q ∈ flat_map footprint ks → objs w3 !! q = objs w !! q).
      { intros q Hq. subst w3. simpl.
        rewrite lookup_insert_ne by (intros <-; contradiction).
        apply Hframe2. intros Hqk. exact (Hdisj q (Hink q Hqk) Hq). }
      assert (Hagk : ∀ k', k' ∈ ks → objs w3 !! root k' = objs w !! root k').
      { intros k' Hk'. apply Hag. apply list_elem_of_In, in_flat_map.
        exists k'. split; [apply list_elem_of_In, Hk' | apply list_elem_of_In, root_in_footprint]. }
      destruct (selected_agree w w3 ks Hagk) as [Hf1 Hf2].
      pose proof (released_agree w w3 ks Hag) as Hrel.
      destruct (IH turns kept (count + 1) w3 o3) as (w' & Hrun & Hthis' & Hlogs' & Hframe' & Hgone').
      * subst w3. simpl. apply lookup_insert_eq.
      * reflexivity.
      * apply Forall_forall. intros k' Hk'. rewrite Forall_forall in Hks.
        apply (Repr_agree k' w w3); [|apply Hks, Hk'].
        intros q Hq. symmetry. apply Hag. apply list_elem_of_In, in_flat_map.
        exists k'. split; apply list_elem_of_In; assumption.
      * exact Hndks.
      * exact Hhks.
      * lia.
      * exact Hthisks.
      * change (m_isReferenceObject o3) with (m_isReferenceObject o) in Hframe', Hgone'.
        rewrite Hrel in Hframe', Hgone'.
        exists w'. split.
        { unfold mbind at 1, M_bind at 1. rewrite Hdel.
          unfold mbind at 1, M_bind at 1, deref at 1. rewrite Ho2, Hch.
          rewrite delete_middle.
          unfold mbind at 1, M_bind at 1, store at 1.
          fold o3. fold w3. rewrite Hrun, Hf1. do 2 f_equal.
          simpl length. lia. }
        split; [rewrite Hthis', Hf2; reflexivity|].
        split; [rewrite Hlogs'; exact Hlogs2|].
        split.
        { intros q Hq1 Hq2. rewrite Hframe'; [| exact Hq1 |].
          - subst w3. simpl. rewrite lookup_insert_ne by congruence.
            apply Hframe2. destruct (m_isReferenceObject o); [exact Hq2|].
            simpl in Hq2. apply not_elem_of_app in Hq2. tauto.
          - destruct (m_isReferenceObject o); [exact Hq2|].
            simpl in Hq2. apply not_elem_of_app in Hq2. tauto. }
        { intros Href q Hq. simpl in Hq. apply elem_of_app in Hq as [Hq|Hq].
          - assert (Hqk : q ∈ footprint k) by (eapply destroyed_footprint, Hq).
            rewrite Hframe'.
            + subst w3. simpl.
              rewrite lookup_insert_ne by (intros Heq; apply Hthisk; rewrite Heq; exact Hqk).
              apply Hgone2; assumption.
            + intros Heq. apply Hthisk. rewrite <- Heq. exact Hqk.
            + rewrite Href. intros Hin. apply (Hdisj q Hqk).
              eapply released_footprint, Hin.
          - apply Hgone'; assumption. }
    + destruct (IH turns (kept ++ [root k]) count w o) as (w' & Hrun & Hthis' & Hlogs' & Hframe' & Hgone');
        [exact Ho | rewrite <- app_assoc; exact Hch | exact Hks | exact Hndks | exact Hhks
        | lia | exact Hthisks |].
      exists w'. split.
      { rewrite length_app in Hrun. simpl in Hrun.
        replace (S (length kept)) with (length kept + 1)%nat by lia. exact Hrun. }
      split; [rewrite Hthis'; simpl; rewrite <- app_assoc; reflexivity|].
      split; [exact Hlogs'|].
      split; [exact Hframe' | exact Hgone'].
Qed.

(** [DeleteChildrenByComparison] on an object whose children hold disjoint
    trees: it returns the number of children the comparison selects, keeps
    the other children in their order, and marks the object as modified
    when the count is not zero.  Unless the object is a reference object,
    each selected child is destroyed with everything it owns: every
    address that the destruction of a selected child releases is free
    afterwards.  For a reference object nothing of the children is
    touched.  No other object loses or gains a child or a parent. *)
Theorem DeleteChildrenByComparison_deletes_the_selected
    (turns fuel this : nat) (w : World) (o : Obj) (ks : list OTree) :
  objs w !! this = Some o →
  m_children o = map root ks →
  Forall (Repr w) ks →
  NoDup (flat_map footprint ks) →
  Forall (λ k, (height k ≤ fuel)%nat) ks →
  (length ks < turns)%nat →
  rooted fuel w None this →
  (∀ q, q = this ∨ ancestorOf fuel w this q → q ∉ flat_map footprint ks) →
  ∃ w',
    DeleteChildrenByComparison comparison turns fuel this w
      = Some (Z.of_nat (length (List.filter (λ k, selected comparison w (root k)) ks)), w') ∧
    childrenOf w' this
      = Some (map root (List.filter (λ k, negb (selected comparison w (root k))) ks)) ∧
    (∀ k, k ∈ ks → selected comparison w (root k) = true →
          objs w' !! root k
            = (if m_isReferenceObject o then objs w !! root k else None)) ∧
    (if m_isReferenceObject o
     then ∀ q, q ∈ flat_map footprint ks → objs w' !! q = objs w !! q
     else ∀ q, q ∈ flat_map (destroyed w)
                     (List.filter (λ k, selected comparison w (root k)) ks) →
               objs w' !! q = None) ∧
    isModifiedOf w' this
      = (if existsb (λ k, selected comparison w (root k)) ks then Some true
         else isModifiedOf w this) ∧
    (∀ q, q ≠ this →
          q ∉ flat_map (destroyed w)
                (List.filter (λ k, selected comparison w (root k)) ks) →
          childrenOf w' q = childrenOf w q ∧ parentOf w' q = parentOf w q).
Proof.
  intros Ho Hch Hrepr Hnd Hh Hturns Hr Hchain.
  assert (Hthis : this ∉ flat_map footprint ks) by (apply Hchain; auto).
  destruct (DeleteChildrenByComparison_loop_runs fuel this ks turns [] 0 w o)
    as (w1 & Hloop & Ho1 & Hlogs1 & Hframe1 & Hgone1); try assumption.
  simpl in Hloop, Ho1. rewrite Z.add_0_l in Hloop.
  assert (Hframe : ∀ q, q ≠ this → q ∉ released w ks → objs w1 !! q = objs w !! q).
  { intros q Hq1 Hq2. apply Hframe1; [exact Hq1|].
    destruct (m_isReferenceObject o); [apply not_elem_of_nil | exact Hq2]. }
  assert (Hag : ∀ q, q = this ∨ ancestorOf fuel w this q →
                     m_parent <$> objs w1 !! q = m_parent <$> objs w !! q).
  { intros q Hq. destruct (decide (q = this)) as [->|Hq'].
    - rewrite Ho1, Ho. reflexivity.
    - rewrite Hframe; [reflexivity | exact Hq' |].
      intros Hin. apply (Hchain q Hq). eapply released_footprint, Hin. }
  assert (Hcount : (Z.of_nat (length (List.filter (chosen w) ks)) >? 0)
                   = existsb (chosen w) ks).
  { clear. induction ks as [|k ks IH]; [reflexivity|]. simpl.
    destruct (selected comparison w (root k)); [|exact IH]. simpl.
    apply Z.gtb_lt. lia. }
  assert (Hmod : ∃ w',
             (if Z.of_nat (length (List.filter (chosen w) ks)) >? 0
              then Modify fuel this true else mret ()) w1 = Some ((), w') ∧
             marks w1 w' ∧
             isModifiedOf w' this
               = (if existsb (chosen w) ks then Some true else isModifiedOf w this) ∧
             (∀ q, q ≠ this → ¬ ancestorOf fuel w1 this q →
                   objs w' !! q = objs w1 !! q)).
  { rewrite Hcount. destruct (existsb (chosen w) ks).
    - destruct (Modify_true_returns fuel w1 None this) as (w' & Hrun & Hm & Hflag & _).
      { apply (rooted_on_chain fuel w w1); [exact Hr | exact Hag]. }
      exists w'. split; [exact Hrun|]. split; [exact Hm|]. split; [exact Hflag|].
      intros q Hq1 Hq2. eapply Modify_true_frame; eassumption.
    - exists w1. split; [reflexivity|]. split; [split; [reflexivity | auto]|].
      split; [unfold isModifiedOf; rewrite Ho1, Ho; reflexivity | reflexivity]. }
  destruct Hmod as (w' & Hrun & Hm & Hflag & Hframe').
  assert (Hkeep : ∀ q, q ∈ flat_map footprint ks → objs w' !! q = objs w1 !! q).
  { intros q Hq. apply Hframe'.
    - intros ->. contradiction.
    - intros Hanc. apply (ancestorOf_on_chain fuel w w1) in Hanc; [|exact Hag].
      apply (Hchain q); auto. }
  assert (Hall : if m_isReferenceObject o
                 then ∀ q, q ∈ flat_map footprint ks → objs w' !! q = objs w !! q
                 else ∀ q, q ∈ released w ks → objs w' !! q = None).
  { destruct (m_isReferenceObject o).
    - intros q Hq. rewrite Hkeep by exact Hq. apply Hframe1; [|apply not_elem_of_nil].
      intros ->. contradiction.
    - intros q Hq. apply (marks_gone _ _ _ Hm). apply Hgone1; [reflexivity | exact Hq]. }
  exists w'. split.
  { unfold DeleteChildrenByComparison. unfold mbind at 1, M_bind at 1. rewrite Hloop.
    unfold mbind, M_bind. rewrite Hrun. reflexivity. }
  split.
  { destruct (marks_fields _ _ this Hm) as [-> _]. unfold childrenOf.
    rewrite Ho1. reflexivity. }
  split.
  { intros k Hk Hsel.
    assert (Hin : root k ∈ flat_map footprint ks).
    { apply list_elem_of_In, in_flat_map. exists k.
      split; apply list_elem_of_In; [exact Hk | apply root_in_footprint]. }
    destruct (m_isReferenceObject o).
    - apply Hall, Hin.
    - apply Hall. apply list_elem_of_In, in_flat_map. exists k. split.
      + apply List.filter_In. split; [apply list_elem_of_In, Hk | exact Hsel].
      + apply list_elem_of_In, destroyed_root. }
  split; [exact Hall|].
  split; [exact Hflag|].
  intros q Hq1 Hq2. destruct (marks_fields _ _ q Hm) as [-> ->].
  unfold childrenOf, parentOf. rewrite Hframe by assumption. auto.
Qed.

End DeleteByComparisonFacts.

Lemma DeleteChildrenByComparison_deletes_the_selected_witness :
  ∃ w',
    DeleteChildrenByComparison hasChildren 4 2 1 layerWithRelinquishedNote
      = Some (Z.of_nat (length (List.filter
                                  (λ k, selected hasChildren layerWithRelinquishedNote (root k))
                                  (kids layerTree))), w') ∧
    childrenOf w' 1
      = Some (map root (List.filter
                          (λ k, negb (selected hasChildren layerWithRelinquishedNote (root k)))
                          (kids layerTree))) ∧
    (∀ k, k ∈ kids layerTree →
          selected hasChildren layerWithRelinquishedNote (root k) = true →
          objs w' !! root k
            = (if m_isReferenceObject (object "Layer" None [3; 4; 5]%nat)
               then objs layerWithRelinquishedNote !! root k else None)) ∧
    (if m_isReferenceObject (object "Layer" None [3; 4; 5]%nat)
     then ∀ q, q ∈ flat_map footprint (kids layerTree) →
               objs w' !! q = objs layerWithRelinquishedNote !! q
     else ∀ q, q ∈ flat_map (destroyed layerWithRelinquishedNote)
                     (List.filter
                        (λ k, selected hasChildren layerWithRelinquishedNote (root k))
                        (kids layerTree)) →
               objs w' !! q = None) ∧
    isModifiedOf w' 1
      = (if existsb (λ k, selected hasChildren layerWithRelinquishedNote (root k))
              (kids layerTree)
         then Some true
         else isModifiedOf layerWithRelinquishedNote 1) ∧
    (∀ q, q ≠ 1%nat →
          q ∉ flat_map (destroyed layerWithRelinquishedNote)
                (List.filter (λ k, selected hasChildren layerWithRelinquishedNote (root k))
                   (kids layerTree)) →
          childrenOf w' q = childrenOf layerWithRelinquishedNote q ∧
          parentOf w' q = parentOf layerWithRelinquishedNote q).
Proof.
  apply (DeleteChildrenByComparison_deletes_the_selected hasChildren 4 2 1
           layerWithRelinquishedNote (object "Layer" None [3; 4; 5]%nat) (kids layerTree)).
  - reflexivity.
  - reflexivity.
  - repeat constructor.
    + simpl. eexists. split; [reflexivity|]. intros _. split; [reflexivity|].
      split; [|exact I]. eexists. split; [reflexivity|]. intros _.
      eexists. split; [reflexivity|]. intros _. split; [reflexivity | exact I].
    + simpl. eexists. split; [reflexivity|]. intros _. split; [reflexivity | exact I].
    + simpl. eexists. split; [reflexivity|]. intros _. split; [reflexivity | exact I].
  - simpl. repeat constructor; rewrite ?elem_of_cons, ?elem_of_nil; intuition lia.
  - repeat constructor; simpl; lia.
  - simpl. lia.
  - simpl. split; [discriminate|]. eexists. split; [reflexivity | exact I].
  - intros q [->|Hq].
    + simpl. rewrite !elem_of_cons, elem_of_nil. intuition lia.
    + simpl in Hq. destruct Hq as (o & p & Ho & Hp & _).
      vm_compute in Ho. injection Ho as <-. discriminate Hp.
Defined.
